(** * Layer: hierarchical drag-and-drop reordering

    A shallow embedding of the drag-and-drop engine of the Layer
    application: the generic sortable module ([utils/sortable.js]), the task
    helpers ([utils/task-helpers.js]) and the two call sites
    ([components/task-list-sortable.js], [components/side-list-sortable.js]);
    and of two helpers of the spreadsheet viewer, the column labels and the
    CSV reader.

    JavaScript values are modelled as the code uses them:
    - ids of stored nodes are strings; a value read from the DOM or a
      parent reference is a string, [null] or [undefined] ([Js.nullable]);
    - pointer coordinates, rectangles and the drop-zone threshold are
      doubles ([Js.number], the primitive binary64 floats);
    - [orderIndex] is an integer ([Z]); the planner only ever writes
      [index * 1000];
    - arrays are lists; module-level state ([_currentTasks], [AppState]) is
      passed explicitly;
    - objects that are shared by reference (the nodes of a task tree) live
      in a store and are referred to by their key;
    - the text of a CSV file is the list of its UTF-16 code units. *)

From Stdlib Require Import Floats.
From Stdlib Require Import Ascii String ZArith NArith Bool Arith Lia.
From Stdlib Require Import List Permutation Sorted.
Import ListNotations.

Local Open Scope string_scope.
Local Open Scope Z_scope.
Local Open Scope list_scope.

(* ================================================================== *)
(** * JavaScript helpers *)
(* ================================================================== *)

Module Js.

(** A value that is a string, [null] or [undefined] (an id, a [dataset]
    attribute, a parent reference). *)
Inductive nullable : Type :=
  | Undefined
  | Null
  | Str (s : string).

(** [x || null]: [undefined], [null] and the empty string are falsy. *)
Definition orNull (x : nullable) : nullable :=
  match x with
  | Str s => if String.eqb s "" then Null else Str s
  | _ => Null
  end.

(** [x || 0] on a number-or-missing value. *)
Definition orZero (x : option Z) : Z :=
  match x with
  | Some z => z
  | None => 0
  end.

(** [a === b] on such values. *)
Definition eqb (a b : nullable) : bool :=
  match a, b with
  | Undefined, Undefined => true
  | Null, Null => true
  | Str x, Str y => String.eqb x y
  | _, _ => false
  end.

(** A JavaScript number is an IEEE 754 double: the primitive [float], whose
    [+], [-], [*] and comparisons are those of binary64 with rounding to
    nearest, ties to even. *)
Abbreviation number := float.

Section Arrays.
Context {A : Type}.

(** [Array.prototype.findIndex]; [None] stands for [-1]. *)
Fixpoint findIndex (p : A -> bool) (l : list A) : option nat :=
  match l with
  | [] => None
  | x :: r => if p x then Some O
              else match findIndex p r with
                   | Some i => Some (S i)
                   | None => None
                   end
  end.

(** [l.splice(i, 0, x)]: an index past the end is clamped to the length. *)
Definition splice (l : list A) (i : nat) (x : A) : list A :=
  firstn i l ++ x :: skipn i l.

(** [l.map((item, index) => f(index, item))], counting from [i]. *)
Fixpoint mapiFrom {B : Type} (f : nat -> A -> B) (i : nat) (l : list A) : list B :=
  match l with
  | [] => []
  | x :: r => f i x :: mapiFrom f (S i) r
  end.

Definition mapi {B : Type} (f : nat -> A -> B) (l : list A) : list B :=
  mapiFrom f O l.

(** [Array.prototype.sort] with the comparator [(a, b) => key(a) - key(b)].
    ECMAScript requires the sort to be stable, so with this comparator the
    result is fixed by the contract [StableSortOf] below; we run an
    insertion sort that meets it. *)
Fixpoint insertBy (key : A -> Z) (x : A) (l : list A) : list A :=
  match l with
  | [] => [x]
  | y :: r => if key x <=? key y then x :: y :: r
              else y :: insertBy key x r
  end.

Fixpoint sortBy (key : A -> Z) (l : list A) : list A :=
  match l with
  | [] => []
  | x :: r => insertBy key x (sortBy key r)
  end.

(** The contract of a stable sort: the output is ascending, and for each
    key the elements with that key appear exactly as in the input. *)
Definition ascending (key : A -> Z) (l : list A) : Prop :=
  StronglySorted (fun a b => key a <= key b) l.

Definition StableSortOf (key : A -> Z) (input output : list A) : Prop :=
  ascending key output /\
  forall k, filter (fun a => key a =? k) output = filter (fun a => key a =? k) input.

End Arrays.

End Js.

(* ================================================================== *)
(** * The DOM as the drag code reads it *)
(* ================================================================== *)

(** [el.getBoundingClientRect()]. *)
Module Rect.
Record t : Type := mk {
  top : Js.number;
  bottom : Js.number;
  left : Js.number;
  right : Js.number;
  height : Js.number
}.
End Rect.

(** [el.dataset]: the attributes the two call sites read.  [depth] holds
    the number that [parseInt(el.dataset.depth || '0', 10)] yields (the
    renderers write a decimal natural number), [None] when absent. *)
Module Dataset.
Record t : Type := mk {
  type : Js.nullable;
  taskId : Js.nullable;
  parentTaskId : Js.nullable;
  folderId : Js.nullable;
  objectiveId : Js.nullable;
  bookmarkId : Js.nullable;
  noteId : Js.nullable;
  taskListId : Js.nullable;
  depth : option nat
}.
End Dataset.

(** A DOM element: [node] is its identity ([a === b] on elements). *)
Module Element.
Record t : Type := mk {
  node : nat;
  dataset : Dataset.t;
  rect : Rect.t
}.
Definition same (a b : t) : bool := Nat.eqb (node a) (node b).
End Element.

(** [parseInt(el.dataset.depth || '0', 10)]. *)
Definition depthOf (el : Element.t) : Z :=
  match Dataset.depth (Element.dataset el) with
  | Some d => Z.of_nat d
  | None => 0
  end.

(* ================================================================== *)
(** * utils/task-helpers.js *)
(* ================================================================== *)

(** A task row of the flat [tasks] array. *)
Module Task.
Record t : Type := mk {
  id : string;
  parentTaskId : Js.nullable;
  orderIndex : option Z;
  name : string
}.
End Task.

Module TaskHelpers.

(** [getTaskDescendants(tasks, taskId)].  The source recurses on every child
    with no bound; [fuel] bounds the depth of the recursion and [None] says
    that the bound was reached (in JavaScript: the call never returns
    normally). *)
Fixpoint getTaskDescendants (fuel : nat) (tasks : list Task.t) (taskId : Js.nullable)
  : option (list string) :=
  match fuel with
  | O => None
  | S fuel' =>
      let children := filter (fun t => Js.eqb (Task.parentTaskId t) taskId) tasks in
      fold_left
        (fun descendants child =>
           match descendants, getTaskDescendants fuel' tasks (Js.Str (Task.id child)) with
           | Some ds, Some sub => Some (ds ++ Task.id child :: sub)
           | _, _ => None
           end)
        children (Some [])
  end.

(** [descendants.includes(x)]. *)
Definition includes (descendants : list string) (x : Js.nullable) : bool :=
  existsb (fun d => Js.eqb (Js.Str d) x) descendants.

(** [isTaskDescendantOf(tasks, potentialDescendantId, potentialAncestorId)]. *)
Definition isTaskDescendantOf (fuel : nat) (tasks : list Task.t)
    (potentialDescendantId potentialAncestorId : Js.nullable) : option bool :=
  if Js.eqb potentialDescendantId potentialAncestorId then Some true
  else
    match getTaskDescendants fuel tasks potentialAncestorId with
    | Some descendants => Some (includes descendants potentialDescendantId)
    | None => None
    end.

(** The child relation on ids, and what it means for the collection to have
    no cycle. *)
Definition childOf (tasks : list Task.t) (p c : string) : Prop :=
  exists t, In t tasks /\ Task.id t = c /\ Task.parentTaskId t = Js.Str p.

Inductive descendantOf (tasks : list Task.t) : string -> string -> Prop :=
  | desc_child p c : childOf tasks p c -> descendantOf tasks p c
  | desc_step p c d : childOf tasks p c -> descendantOf tasks c d -> descendantOf tasks p d.

Definition acyclic (tasks : list Task.t) : Prop :=
  forall x, ~ descendantOf tasks x x.

(** [cascadeCompletion(taskId, tasks, completed)]: the ids whose completion
    state is to be written; [None] when [getTaskDescendants] does not
    return within [fuel]. *)
Definition cascadeCompletion (fuel : nat) (taskId : Js.nullable) (tasks : list Task.t)
    (completed : bool) : option (list Js.nullable) :=
  let toUpdate := [taskId] in
  if completed then
    match getTaskDescendants fuel tasks taskId with
    | Some descendants => Some (toUpdate ++ map Js.Str descendants)
    | None => None
    end
  else Some toUpdate.

(** A node of the tree [buildTaskTree] makes: [{ ...task, children: [] }].
    The nodes are objects shared by [taskMap], [roots] and the [children]
    arrays they are pushed on; here they live in the map, and a reference
    to a node is the key under which [taskMap] holds it. *)
Module Node.
Record t : Type := mk {
  task : Task.t;
  children : list string
}.
End Node.

(** [Map.prototype.set], [get] and [has] on string keys. *)
Fixpoint mapSet (k : string) (v : Node.t) (m : list (string * Node.t))
  : list (string * Node.t) :=
  match m with
  | [] => [(k, v)]
  | (k', v') :: r =>
      if String.eqb k' k then (k, v) :: r else (k', v') :: mapSet k v r
  end.

Fixpoint mapGet (k : string) (m : list (string * Node.t)) : option Node.t :=
  match m with
  | [] => None
  | (k', v) :: r => if String.eqb k' k then Some v else mapGet k r
  end.

Definition mapHas (k : string) (m : list (string * Node.t)) : bool :=
  match mapGet k m with
  | Some _ => true
  | None => false
  end.

(** [taskMap.get(k).children.push(node)]. *)
Definition pushChild (k node : string) (m : list (string * Node.t))
  : list (string * Node.t) :=
  match mapGet k m with
  | Some parent =>
      mapSet k {| Node.task := Node.task parent;
                  Node.children := Node.children parent ++ [node] |} m
  | None => m
  end.

(** What [buildTaskTree] returns: the [roots] array, with the nodes its
    entries and their [children] refer to. *)
Record Tree : Type := mkTree {
  roots : list string;
  nodes : list (string * Node.t)
}.

(** [task.parentTaskId && taskMap.has(task.parentTaskId)], with the parent
    key when the test passes. *)
Definition parentNode (task : Task.t) (taskMap : list (string * Node.t)) : option string :=
  match Task.parentTaskId task with
  | Js.Str p => if negb (String.eqb p "") && mapHas p taskMap then Some p else None
  | _ => None
  end.

(** [buildTaskTree(tasks)]. *)
Definition buildTaskTree (tasks : list Task.t) : Tree :=
  let taskMap :=
    fold_left
      (fun m task =>
         mapSet (Task.id task) {| Node.task := task; Node.children := [] |} m)
      tasks [] in
  fold_left
    (fun tree task =>
       let node := Task.id task in
       match parentNode task (nodes tree) with
       | Some p => {| roots := roots tree; nodes := pushChild p node (nodes tree) |}
       | None => {| roots := roots tree ++ [node]; nodes := nodes tree |}
       end)
    tasks {| roots := []; nodes := taskMap |}.

(** An entry of the array [flattenTaskTree] returns:
    [{ ...node, depth, hasChildren, isExpanded }]. *)
Module Item.
Record t : Type := mk {
  node : Node.t;
  depth : nat;
  hasChildren : bool;
  isExpanded : bool
}.
End Item.

(** [expandedTasks.has(id)]. *)
Definition setHas (s : list string) (k : string) : bool :=
  existsb (String.eqb k) s.

(** The [forEach] of [traverse] at one depth; [recurse] is the call
    [traverse(node.children, depth + 1)].  A reference that names no node
    cannot occur in JavaScript and gives [None]. *)
Fixpoint forEachNode (m : list (string * Node.t)) (expandedTasks : list string)
    (recurse : list string -> option (list Item.t)) (depth : nat)
    (nodes : list string) : option (list Item.t) :=
  match nodes with
  | [] => Some []
  | ref :: rest =>
      match mapGet ref m with
      | None => None
      | Some node =>
          let id := Task.id (Node.task node) in
          let item := {| Item.node := node;
                         Item.depth := depth;
                         Item.hasChildren := negb (Nat.eqb (List.length (Node.children node)) 0);
                         Item.isExpanded := setHas expandedTasks id |} in
          let sub := if setHas expandedTasks id then recurse (Node.children node)
                     else Some [] in
          match sub, forEachNode m expandedTasks recurse depth rest with
          | Some s, Some r => Some (item :: s ++ r)
          | _, _ => None
          end
      end
  end.

(** The inner function [traverse(nodes, depth)] of [flattenTaskTree]; the
    items are returned in the order they are pushed.  [fuel] bounds the
    depth of the recursion as in [getTaskDescendants]. *)
Fixpoint traverse (fuel : nat) (m : list (string * Node.t)) (expandedTasks : list string)
    (nodes : list string) (depth : nat) : option (list Item.t) :=
  match fuel with
  | O => None
  | S fuel' =>
      forEachNode m expandedTasks
        (fun children => traverse fuel' m expandedTasks children (S depth))
        depth nodes
  end.

(** [flattenTaskTree(taskTree, expandedTasks)]. *)
Definition flattenTaskTree (fuel : nat) (taskTree : Tree) (expandedTasks : list string)
  : option (list Item.t) :=
  traverse fuel (nodes taskTree) expandedTasks (roots taskTree) 0.

End TaskHelpers.

(* ================================================================== *)
(** * utils/sortable.js: the generic sortable module *)
(* ================================================================== *)

Module Sortable.

Section Instance.

(** What [getItemData] returns differs per call site. *)
Variable ItemData : Type.

(** The [options] argument of [makeSortable] (the fields the drag logic
    reads); a missing option is [None].  A [canDrop] callback that throws
    returns [None].  [getItemData] has a default in the source
    ([{ id: el.dataset.id, type: el.dataset.type }]); both call sites pass
    their own, and it is taken as given here. *)
Record Options : Type := mkOptions {
  opt_dropZoneThreshold : option Js.number;
  opt_canDrop : option (Element.t -> Element.t -> ItemData -> option bool);
  opt_getItemData : Element.t -> ItemData;
  opt_isDropTarget : option (Element.t -> bool)
}.

Record Config : Type := mkConfig {
  dropZoneThreshold : Js.number;
  canDrop : Element.t -> Element.t -> ItemData -> option bool;
  getItemData : Element.t -> ItemData;
  isDropTarget : Element.t -> bool
}.

(** The [config] object built from [options] with its defaults. *)
Definition makeConfig (options : Options) : Config :=
  {| dropZoneThreshold :=
       match opt_dropZoneThreshold options with
       | Some th => th
       | None => 0.25%float
       end;
     canDrop :=
       match opt_canDrop options with
       | Some f => f
       | None => fun _ _ _ => Some true
       end;
     getItemData := opt_getItemData options;
     isDropTarget :=
       match opt_isDropTarget options with
       | Some f => f
       | None => fun _ => false
       end |}.

(** Instance state of one sortable. *)
Record State : Type := mkState {
  _isActive : bool;
  _hoverTargetEl : option Element.t;
  _draggedEl : option Element.t;
  _draggedData : option ItemData
}.

Definition initialState : State :=
  {| _isActive := false; _hoverTargetEl := None;
     _draggedEl := None; _draggedData := None |}.

(** The pointer position of a [sort] event. *)
Record Pointer : Type := mkPointer { pageX : Js.number; pageY : Js.number }.

(** What the consumer callbacks receive. *)
Inductive Event : Type :=
  | OnDragStart (element : Element.t) (data : ItemData)
  | OnDragEnd (element : Element.t) (data : ItemData)
  | OnDropInto (element : Element.t) (data : ItemData)
               (targetEl : Element.t) (targetData : ItemData)
  | OnReorder (element : Element.t) (data : ItemData)
              (prevEl nextEl : option Element.t)
              (prevData nextData : option ItemData).

Variable config : Config.

Definition handleDragStart (el : Element.t) (st : State) : State * list Event :=
  let data := getItemData config el in
  ({| _isActive := true; _hoverTargetEl := None;
      _draggedEl := Some el; _draggedData := Some data |},
   [OnDragStart el data]).

(** [cursor] lies outside [rect]. *)
Definition outside (e : Pointer) (rect : Rect.t) : bool :=
  (pageX e <? Rect.left rect)%float || (Rect.right rect <? pageX e)%float ||
  (pageY e <? Rect.top rect)%float || (Rect.bottom rect <? pageY e)%float.

(** [relativeY > threshold && relativeY < (rect.height - threshold)], with
    [relativeY] and [threshold] computed in doubles as the source does. *)
Definition inCenterZone (e : Pointer) (rect : Rect.t) : bool :=
  let relativeY := (pageY e - Rect.top rect)%float in
  let threshold := (Rect.height rect * dropZoneThreshold config)%float in
  (threshold <? relativeY)%float && (relativeY <? Rect.height rect - threshold)%float.

(** The body of the [each] callback of [handleSort] for one candidate:
    [Some true] when the loop stops at it (it becomes the hover target),
    [Some false] when the loop continues, [None] when [canDrop] threw. *)
Definition dropsInto (e : Pointer) (draggedEl : Element.t) (draggedData : ItemData)
    (targetEl : Element.t) : option bool :=
  if negb (isDropTarget config targetEl) then Some false
  else if Element.same targetEl draggedEl then Some false
  else
    let rect := Element.rect targetEl in
    if outside e rect then Some false
    else
      match canDrop config draggedEl targetEl draggedData with
      | Some ok => Some (inCenterZone e rect && ok)
      | None => None
      end.

(** The [each] loop: the first candidate at which the callback breaks. *)
Fixpoint firstDropTarget (e : Pointer) (draggedEl : Element.t) (draggedData : ItemData)
    (items : list Element.t) : option (option Element.t) :=
  match items with
  | [] => Some None
  | targetEl :: rest =>
      match dropsInto e draggedEl draggedData targetEl with
      | Some true => Some (Some targetEl)
      | Some false => firstDropTarget e draggedEl draggedData rest
      | None => None
      end
  end.

(** [handleSort(e, ui)]; [items] is [$container.find(config.itemSelector)]
    in document order.  Only the hover state is kept, the CSS classes and
    the placeholder are visual. *)
Definition handleSort (e : Pointer) (items : list Element.t) (st : State) : option State :=
  match _isActive st, _draggedEl st, _draggedData st with
  | true, Some draggedEl, Some draggedData =>
      match firstDropTarget e draggedEl draggedData items with
      | Some found =>
          Some {| _isActive := _isActive st; _hoverTargetEl := found;
                  _draggedEl := _draggedEl st; _draggedData := _draggedData st |}
      | None => None
      end
  | _, _, _ => Some st
  end.

(** [handleDragStop(e, ui)]; [prev] and [next] are [$item.prev(itemSelector)]
    and [$item.next(itemSelector)] after jQuery UI has moved the item. *)
Definition handleDragStop (el : Element.t) (prev next : option Element.t) (st : State)
  : State * list Event :=
  let data := getItemData config el in
  let dropTargetEl := _hoverTargetEl st in
  let wasActive := _isActive st in
  if negb wasActive then (initialState, [])
  else
    match dropTargetEl with
    | Some targetEl =>
        (initialState,
         [OnDragEnd el data;
          OnDropInto el data targetEl (getItemData config targetEl)])
    | None =>
        (initialState,
         [OnDragEnd el data;
          OnReorder el data prev next
            (option_map (getItemData config) prev)
            (option_map (getItemData config) next)])
    end.

(** One drag gesture as jQuery UI drives it. *)
Inductive Input : Type :=
  | Start (el : Element.t)
  | Sort (e : Pointer) (items : list Element.t)
  | Stop (el : Element.t) (prev next : option Element.t).

Definition step (i : Input) (st : State) : option (State * list Event) :=
  match i with
  | Start el => Some (handleDragStart el st)
  | Sort e items =>
      match handleSort e items st with
      | Some st' => Some (st', [])
      | None => None
      end
  | Stop el prev next => Some (handleDragStop el prev next st)
  end.

Fixpoint run (inputs : list Input) (st : State) : option (State * list Event) :=
  match inputs with
  | [] => Some (st, [])
  | i :: rest =>
      match step i st with
      | Some (st', evs) =>
          match run rest st' with
          | Some (st'', evs') => Some (st'', evs ++ evs')
          | None => None
          end
      | None => None
      end
  end.

End Instance.

Arguments mkOptions {ItemData}.
Arguments opt_dropZoneThreshold {ItemData}.
Arguments opt_canDrop {ItemData}.
Arguments opt_getItemData {ItemData}.
Arguments opt_isDropTarget {ItemData}.
Arguments mkConfig {ItemData}.
Arguments dropZoneThreshold {ItemData}.
Arguments canDrop {ItemData}.
Arguments getItemData {ItemData}.
Arguments isDropTarget {ItemData}.
Arguments makeConfig {ItemData}.
Arguments mkState {ItemData}.
Arguments _isActive {ItemData}.
Arguments _hoverTargetEl {ItemData}.
Arguments _draggedEl {ItemData}.
Arguments _draggedData {ItemData}.
Arguments initialState {ItemData}.
Arguments OnDragStart {ItemData}.
Arguments OnDragEnd {ItemData}.
Arguments OnDropInto {ItemData}.
Arguments OnReorder {ItemData}.
Arguments handleDragStart {ItemData}.
Arguments inCenterZone {ItemData}.
Arguments dropsInto {ItemData}.
Arguments firstDropTarget {ItemData}.
Arguments handleSort {ItemData}.
Arguments handleDragStop {ItemData}.
Arguments step {ItemData}.
Arguments run {ItemData}.

End Sortable.

(* ================================================================== *)
(** * state/optimistic-state.js *)
(* ================================================================== *)

Module OptimisticState.

Section Coordinator.

(** The state of the calling module. *)
Variable World : Type.

(** Modelled from the spec: [optimisticUpdate] of state/optimistic-state.js,
    which is not among the sources (only its two callers are).  Both
    callers pass three things: the local mutation, the persist function
    and [{ onError }].  Following the specification of the optimistic
    mutation coordinator: the local mutation runs synchronously, then the
    persist function; when persisting succeeds nothing more happens; when
    it fails the caller's [onError] runs.  The failure is handled here and
    not thrown to the caller: the result is always a state.

    The specification also lets the coordinator snapshot the nodes of the
    plan and restore them on failure.  The callers hand it neither the plan
    nor the nodes, so what the missing module keeps and puts back is its
    own and is not modelled: [World] is the state of the calling module,
    and the coordinator reaches it through the three callbacks only.

    [persistFn] returns the state after the persistence calls were issued
    and whether the promise it awaited was fulfilled. *)
Definition optimisticUpdate
    (localMutateFn : World -> World)
    (persistFn : World -> World * bool)
    (onError : World -> World)
    (w : World) : World :=
  let w1 := localMutateFn w in
  let '(w2, fulfilled) := persistFn w1 in
  if fulfilled then w2
  else onError w2.

End Coordinator.

End OptimisticState.

(* ================================================================== *)
(** * components/task-list-sortable.js *)
(* ================================================================== *)

Module TaskList.

(** [getItemData] of the task list. *)
Record ItemData : Type := mkItemData {
  id : Js.nullable;
  type : string;
  parentTaskId : Js.nullable;
  depth : Z
}.

(** One entry of the array [buildUpdatesArray] returns. *)
Module Update.
Record t : Type := mk {
  id : string;
  orderIndex : Z;
  parentTaskId : Js.nullable
}.
End Update.

Definition getItemData (el : Element.t) : ItemData :=
  {| id := Dataset.taskId (Element.dataset el);
     type := "task";
     parentTaskId := Js.orNull (Dataset.parentTaskId (Element.dataset el));
     depth := depthOf el |}.

Definition isDropTarget (el : Element.t) : bool :=
  Js.eqb (Dataset.type (Element.dataset el)) (Js.Str "task").

(** [canDrop]; [fuel] bounds the recursion of [getTaskDescendants], and
    [None] says it was exhausted. *)
Definition canDrop (fuel : nat) (_currentTasks : list Task.t)
    (draggedEl targetEl : Element.t) (draggedData : ItemData) : option bool :=
  let draggedId := id draggedData in
  let targetId := Dataset.taskId (Element.dataset targetEl) in
  if Js.eqb draggedId targetId then Some false
  else
    match TaskHelpers.isTaskDescendantOf fuel _currentTasks targetId draggedId with
    | Some true => Some false
    | Some false => Some true
    | None => None
    end.

(** The options [initSortable] passes to [makeSortable]. *)
Definition sortableOptions (fuel : nat) (_currentTasks : list Task.t)
  : Sortable.Options ItemData :=
  {| Sortable.opt_dropZoneThreshold := Some 0.25%float;
     Sortable.opt_canDrop := Some (canDrop fuel _currentTasks);
     Sortable.opt_getItemData := getItemData;
     Sortable.opt_isDropTarget := Some isDropTarget |}.

(** [getTargetParentId(prevEl, nextEl)]. *)
Definition getTargetParentId (prevEl nextEl : option Element.t) : Js.nullable :=
  match prevEl with
  | Some prev =>
      let prevDepth := depthOf prev in
      let nextDepth := match nextEl with Some next => depthOf next | None => -1 end in
      if prevDepth <? nextDepth then Dataset.taskId (Element.dataset prev)
      else Js.orNull (Dataset.parentTaskId (Element.dataset prev))
  | None =>
      match nextEl with
      | Some next => Js.orNull (Dataset.parentTaskId (Element.dataset next))
      | None => Js.Null
      end
  end.

(** The siblings of the target parent, sorted by [orderIndex], without the
    moved task: the first three statements of [buildUpdatesArray]. *)
Definition siblingsOf (_currentTasks : list Task.t) (taskId targetParentId : Js.nullable)
  : list Task.t :=
  let siblings :=
    filter (fun t => Js.eqb (Js.orNull (Task.parentTaskId t)) targetParentId) _currentTasks in
  let siblings := Js.sortBy (fun t => Js.orZero (Task.orderIndex t)) siblings in
  filter (fun t => negb (Js.eqb (Js.Str (Task.id t)) taskId)) siblings.

(** The insert position chosen from the DOM neighbours. *)
Definition insertIndexOf (siblings : list Task.t) (prevEl nextEl : option Element.t) : nat :=
  match prevEl with
  | Some prev =>
      let prevId := Dataset.taskId (Element.dataset prev) in
      match Js.findIndex (fun t => Js.eqb (Js.Str (Task.id t)) prevId) siblings with
      | Some prevIndex => (prevIndex + 1)%nat
      | None => O
      end
  | None =>
      match nextEl with
      | None => List.length siblings
      | Some _ => O
      end
  end.

(** [buildUpdatesArray(taskId, targetParentId, prevEl, nextEl)]; [None] is
    the [null] returned when the moved task is not found. *)
Definition buildUpdatesArray (_currentTasks : list Task.t)
    (taskId targetParentId : Js.nullable) (prevEl nextEl : option Element.t)
  : option (list Update.t) :=
  let siblings := siblingsOf _currentTasks taskId targetParentId in
  match find (fun t => Js.eqb (Js.Str (Task.id t)) taskId) _currentTasks with
  | None => None
  | Some movedTask =>
      let insertIndex := insertIndexOf siblings prevEl nextEl in
      let siblings := Js.splice siblings insertIndex movedTask in
      Some (Js.mapi
              (fun index task =>
                 {| Update.id := Task.id task;
                    Update.orderIndex := Z.of_nat index * 1000;
                    Update.parentTaskId := targetParentId |})
              siblings)
  end.

(** One iteration of [applyUpdatesLocally]: the first task with the
    update's id gets the new [orderIndex] and [parentTaskId]. *)
Fixpoint applyUpdate (update : Update.t) (tasks : list Task.t) : list Task.t :=
  match tasks with
  | [] => []
  | t :: rest =>
      if String.eqb (Task.id t) (Update.id update)
      then {| Task.id := Task.id t;
              Task.parentTaskId := Update.parentTaskId update;
              Task.orderIndex := Some (Update.orderIndex update);
              Task.name := Task.name t |} :: rest
      else t :: applyUpdate update rest
  end.

Definition applyUpdatesLocally (updates : list Update.t) (_currentTasks : list Task.t)
  : list Task.t :=
  fold_left (fun tasks update => applyUpdate update tasks) updates _currentTasks.

(** A call of [Repository.updateTaskOrder(id, orderIndex, parentTaskId)]. *)
Abbreviation PersistCall := Update.t.

(** The module state together with what leaves the module:
    [_currentTasks], whether [window.Layer.Repository] is there, the
    persistence calls issued, the number of calls of [_renderCallback],
    and the toasts shown. *)
Record World : Type := mkWorld {
  currentTasks : list Task.t;
  repository : bool;
  persisted : list PersistCall;
  renders : nat;
  toasts : list string
}.

(** [_renderCallback()].  The callback that task-list-view.js installs
    with [setRenderCallback] is [() => refreshView(container)], an [async]
    function: the call starts [Repository.loadTasksForList] and returns,
    and nothing of this module has changed when it returns.  The state
    counts the calls; what a started reload does once it is answered is
    [refreshView] below. *)
Definition _renderCallback (w : World) : World :=
  {| currentTasks := currentTasks w; repository := repository w;
     persisted := persisted w; renders := S (renders w); toasts := toasts w |}.

Definition showErrorToast (msg : string) (w : World) : World :=
  {| currentTasks := currentTasks w; repository := repository w;
     persisted := persisted w; renders := renders w; toasts := toasts w ++ [msg] |}.

Definition setTasks (tasks : list Task.t) (w : World) : World :=
  {| currentTasks := tasks; repository := repository w;
     persisted := persisted w; renders := renders w; toasts := toasts w |}.

(** [persistUpdates]: one call per update, all issued, then
    [Promise.all]: fulfilled only when every call is; [accepts] says which
    calls the backing store fulfils. *)
Definition persistUpdates (accepts : PersistCall -> bool) (updates : list Update.t)
    (w : World) : World * bool :=
  ({| currentTasks := currentTasks w; repository := repository w;
      persisted := persisted w ++ updates; renders := renders w; toasts := toasts w |},
   forallb accepts updates).

(** The rest of [refreshView(container)] of task-list-view.js, run when the
    Repository has answered the reload with [loaded]: when the task list
    is still among [AppState.getTaskLists()] ([found]) the view is rebuilt
    and [TaskListSortable.setCurrentTasks(currentTasks)] replaces
    [_currentTasks].  The Repository is not among the sources: what it
    answers is an argument. *)
Definition refreshView (loaded : list Task.t) (found : bool) (w : World) : World :=
  if found then setTasks loaded w else w.

(** What [updateTaskPosition] reports to [handleReorder]/[handleDropInto]:
    it never throws. *)
Inductive Outcome : Type :=
  | NoRepository
  | CouldNotBuildUpdates
  | Submitted (updates : list Update.t).

(** [updateTaskPosition(taskId, targetParentId, prevEl, nextEl)]. *)
Definition updateTaskPosition (accepts : PersistCall -> bool)
    (taskId targetParentId : Js.nullable) (prevEl nextEl : option Element.t)
    (w : World) : World * Outcome :=
  if negb (repository w) then (w, NoRepository)
  else
    match buildUpdatesArray (currentTasks w) taskId targetParentId prevEl nextEl with
    | None => (w, CouldNotBuildUpdates)
    | Some updates =>
        (OptimisticState.optimisticUpdate World
           (fun w =>
              _renderCallback (setTasks (applyUpdatesLocally updates (currentTasks w)) w))
           (persistUpdates accepts updates)
           (fun w => _renderCallback (showErrorToast "Move failed. Changes reverted." w))
           w,
         Submitted updates)
    end.

(** [handleReorder] and [handleDropInto], on the events of the sortable. *)
Definition handleReorder (accepts : PersistCall -> bool)
    (itemId : Js.nullable) (prevEl nextEl : option Element.t) (w : World)
  : World * Outcome :=
  let targetParentId := getTargetParentId prevEl nextEl in
  updateTaskPosition accepts itemId targetParentId prevEl nextEl w.

Definition handleDropInto (accepts : PersistCall -> bool)
    (itemId targetId : Js.nullable) (w : World) : World * Outcome :=
  updateTaskPosition accepts itemId targetId None None w.

(** The consumer side of one sortable event. *)
Definition onEvent (accepts : PersistCall -> bool) (ev : Sortable.Event ItemData)
    (w : World) : World * option Outcome :=
  match ev with
  | Sortable.OnReorder _ data prevEl nextEl _ _ =>
      let '(w', o) := handleReorder accepts (id data) prevEl nextEl w in (w', Some o)
  | Sortable.OnDropInto _ data _ targetData =>
      let '(w', o) := handleDropInto accepts (id data) (id targetData) w in (w', Some o)
  | _ => (w, None)
  end.

End TaskList.

(* ================================================================== *)
(** * components/side-list-sortable.js *)
(* ================================================================== *)

Module Folder.
Record t : Type := mk {
  id : string;
  parentId : Js.nullable;
  orderIndex : option Z;
  name : string
}.
End Folder.

(** Objectives, notes, bookmarks and task lists: filed under [folderId]. *)
Module Leaf.
Record t : Type := mk {
  id : string;
  folderId : Js.nullable;
  orderIndex : option Z;
  name : string
}.
End Leaf.

Module SideList.

(** [AppState.getData()] and [BookmarkStorage.loadAllBookmarks()]; an
    array that may be missing is an [option]. *)
Record Data : Type := mkData {
  folders : list Folder.t;
  objectives : list Leaf.t;
  notes : option (list Leaf.t);
  taskLists : option (list Leaf.t)
}.

Definition orEmpty {A : Type} (l : option (list A)) : list A :=
  match l with Some l => l | None => [] end.

Record ItemData : Type := mkItemData {
  id : Js.nullable;
  type : Js.nullable;
  folderId : Js.nullable;
  depth : Z
}.

(** An element of [allItems]: a stored item with its [_type] marker. *)
Module Item.
Record t : Type := mk {
  id : string;
  _type : Js.nullable;
  orderIndex : option Z
}.
End Item.

Module Update.
Record t : Type := mk {
  id : string;
  _type : Js.nullable;
  orderIndex : Z;
  parentId : Js.nullable;
  folderId : Js.nullable
}.
End Update.

Definition isType (type : Js.nullable) (s : string) : bool := Js.eqb type (Js.Str s).

(** [getItemIdFromElement(el)] for an element that is there (the callers
    test [prevEl] before they call it); the [default] branch returns
    [null]. *)
Definition getItemIdFromElement (el : Element.t) : Js.nullable :=
  let ds := Element.dataset el in
  let type := Dataset.type ds in
  if isType type "objective" then Dataset.objectiveId ds
  else if isType type "folder" then Dataset.folderId ds
  else if isType type "bookmark" then Dataset.bookmarkId ds
  else if isType type "note" then Dataset.noteId ds
  else if isType type "task-list" then Dataset.taskListId ds
  else Js.Null.

(** [getItemData(el)]; its [switch] has no [default], so [id] stays
    [undefined] for any other type. *)
Definition getItemData (el : Element.t) : ItemData :=
  let ds := Element.dataset el in
  let type := Dataset.type ds in
  let id :=
    if isType type "objective" then Dataset.objectiveId ds
    else if isType type "folder" then Dataset.folderId ds
    else if isType type "bookmark" then Dataset.bookmarkId ds
    else if isType type "note" then Dataset.noteId ds
    else if isType type "task-list" then Dataset.taskListId ds
    else Js.Undefined in
  {| id := id;
     type := type;
     folderId := Js.orNull (Dataset.folderId ds);
     depth := depthOf el |}.

Definition isDropTarget (el : Element.t) : bool :=
  isType (Dataset.type (Element.dataset el)) "folder".

Section CanDrop.

(** [TreeUtils.isDescendantOf(tree, a, b)] for the current tree; the
    module data/tree-utils.js is not among the sources, so the predicate is
    a parameter here. *)
Variable isDescendantOf : Js.nullable -> Js.nullable -> bool.

Definition canDrop (draggedEl targetEl : Element.t) (draggedData : ItemData)
  : option bool :=
  let targetId := Dataset.folderId (Element.dataset targetEl) in
  if isType (type draggedData) "folder" && Js.eqb (id draggedData) targetId then Some false
  else if isType (type draggedData) "folder" && isDescendantOf targetId (id draggedData)
  then Some false
  else Some true.

End CanDrop.

(** [getTargetParentId(prevEl, nextEl, prevData, nextData, droppedType)];
    [handleDragStop] passes the data of an element exactly when it passes
    the element. *)
Definition getTargetParentId (prevEl nextEl : option Element.t)
    (prevData nextData : option ItemData) : Js.nullable :=
  let fromNext :=
    match nextEl, nextData with
    | Some _, Some nd =>
        if negb (isType (type nd) "folder") then Js.orNull (folderId nd) else Js.Null
    | _, _ => Js.Null
    end in
  match prevEl, prevData with
  | Some _, Some pd =>
      if isType (type pd) "folder" then
        let prevDepth := depth pd in
        let nextDepth := match nextData with Some nd => depth nd | None => -1 end in
        if prevDepth <? nextDepth then id pd else fromNext
      else Js.orNull (folderId pd)
  | _, _ => fromNext
  end.

Definition tagFolder (f : Folder.t) : Item.t :=
  {| Item.id := Folder.id f; Item._type := Js.Str "folder";
     Item.orderIndex := Folder.orderIndex f |}.

Definition tagLeaf (type : Js.nullable) (x : Leaf.t) : Item.t :=
  {| Item.id := Leaf.id x; Item._type := type; Item.orderIndex := Leaf.orderIndex x |}.

Definition inFolder (targetParentId : Js.nullable) (x : Leaf.t) : bool :=
  Js.eqb (Js.orNull (Leaf.folderId x)) targetParentId.

(** All items of the target folder in the order [buildUpdatesArray]
    collects them: folders, objectives, notes, bookmarks, task lists. *)
Definition collect (data : Data) (bookmarks : option (list Leaf.t))
    (targetParentId : Js.nullable) : list Item.t :=
  map tagFolder
      (filter (fun f => Js.eqb (Js.orNull (Folder.parentId f)) targetParentId) (folders data))
  ++ map (tagLeaf (Js.Str "objective")) (filter (inFolder targetParentId) (objectives data))
  ++ map (tagLeaf (Js.Str "note")) (filter (inFolder targetParentId) (orEmpty (notes data)))
  ++ map (tagLeaf (Js.Str "bookmark")) (filter (inFolder targetParentId) (orEmpty bookmarks))
  ++ map (tagLeaf (Js.Str "task-list"))
         (filter (inFolder targetParentId) (orEmpty (taskLists data))).

(** The items of the target folder sorted by [orderIndex], without the
    dropped one. *)
Definition siblingsOf (data : Data) (bookmarks : option (list Leaf.t))
    (id targetParentId : Js.nullable) : list Item.t :=
  let allItems := collect data bookmarks targetParentId in
  let allItems := Js.sortBy (fun a => Js.orZero (Item.orderIndex a)) allItems in
  filter (fun item => negb (Js.eqb (Js.Str (Item.id item)) id)) allItems.

(** The dropped item, looked up in the collection of its own type and
    marked with that type. *)
Definition findDropped (data : Data) (bookmarks : option (list Leaf.t))
    (type id : Js.nullable) : option Item.t :=
  let byId := fun x => Js.eqb (Js.Str (Leaf.id x)) id in
  if isType type "folder" then
    option_map (fun f => {| Item.id := Folder.id f; Item._type := type;
                            Item.orderIndex := Folder.orderIndex f |})
               (find (fun f => Js.eqb (Js.Str (Folder.id f)) id) (folders data))
  else if isType type "objective" then
    option_map (tagLeaf type) (find byId (objectives data))
  else if isType type "note" then
    option_map (tagLeaf type) (find byId (orEmpty (notes data)))
  else if isType type "bookmark" then
    option_map (tagLeaf type) (find byId (orEmpty bookmarks))
  else if isType type "task-list" then
    option_map (tagLeaf type) (find byId (orEmpty (taskLists data)))
  else None.

Definition insertIndexOf (allItems : list Item.t) (prevEl nextEl : option Element.t) : nat :=
  match prevEl with
  | Some prev =>
      let prevId := getItemIdFromElement prev in
      match Js.findIndex (fun item => Js.eqb (Js.Str (Item.id item)) prevId) allItems with
      | Some prevIndex => (prevIndex + 1)%nat
      | None => O
      end
  | None =>
      match nextEl with
      | None => List.length allItems
      | Some _ => O
      end
  end.

(** [buildUpdatesArray(type, id, targetParentId, prevEl, nextEl)]. *)
Definition buildUpdatesArray (data : Data) (bookmarks : option (list Leaf.t))
    (type id targetParentId : Js.nullable) (prevEl nextEl : option Element.t)
  : option (list Update.t) :=
  let allItems := siblingsOf data bookmarks id targetParentId in
  match findDropped data bookmarks type id with
  | None => None
  | Some droppedWithType =>
      let insertIndex := insertIndexOf allItems prevEl nextEl in
      let allItems := Js.splice allItems insertIndex droppedWithType in
      Some (Js.mapi
              (fun index item =>
                 {| Update.id := Item.id item;
                    Update._type := Item._type item;
                    Update.orderIndex := Z.of_nat index * 1000;
                    Update.parentId :=
                      if isType (Item._type item) "folder" then targetParentId
                      else Js.Undefined;
                    Update.folderId :=
                      if negb (isType (Item._type item) "folder") then targetParentId
                      else Js.Undefined |})
              allItems)
  end.

(** The container field an update writes: [parentId] for a folder,
    [folderId] for every other type. *)
Definition containerOf (u : Update.t) : Js.nullable :=
  if isType (Update._type u) "folder" then Update.parentId u else Update.folderId u.

(** The state the side list works on, with what leaves the module. *)
Record World : Type := mkWorld {
  data : Data;
  bookmarks : option (list Leaf.t);
  persisted : list Update.t;
  renders : nat;
  toasts : list string
}.

(** [_renderSideList()]: the state counts the calls. *)
Definition _renderSideList (w : World) : World :=
  {| data := data w; bookmarks := bookmarks w; persisted := persisted w;
     renders := S (renders w); toasts := toasts w |}.

Inductive Outcome : Type :=
  | CouldNotBuildUpdates
  | Submitted (updates : list Update.t).

Section UpdateItemPosition.

(** The optimistic branch of [updateItemPosition] ([applyUpdatesLocally],
    [persistUpdates] and the coordinator): it writes through
    [BookmarkStorage] and [OptimisticState], which are not among the
    sources, so it is a parameter of the model. *)
Variable submit : list Update.t -> World -> World.

(** [updateItemPosition(type, id, targetParentId, prevEl, nextEl)]. *)
Definition updateItemPosition (type id targetParentId : Js.nullable)
    (prevEl nextEl : option Element.t) (w : World) : World * Outcome :=
  match buildUpdatesArray (data w) (bookmarks w) type id targetParentId prevEl nextEl with
  | None => (_renderSideList w, CouldNotBuildUpdates)
  | Some updates => (submit updates w, Submitted updates)
  end.

End UpdateItemPosition.

(** [update._type || type]. *)
Definition itemTypeOf (type : Js.nullable) (update : Update.t) : Js.nullable :=
  match Update._type update with
  | Js.Str s => if String.eqb s "" then type else Js.Str s
  | _ => type
  end.

(** [const x = l.find(p); if (x) { ...write x... }]: the first element
    that satisfies [p] is written in place. *)
Fixpoint writeFirst {A : Type} (p : A -> bool) (write : A -> A) (l : list A) : list A :=
  match l with
  | [] => []
  | x :: r => if p x then write x :: r else x :: writeFirst p write r
  end.

Definition writeFolder (update : Update.t) (folder : Folder.t) : Folder.t :=
  {| Folder.id := Folder.id folder;
     Folder.parentId := Update.parentId update;
     Folder.orderIndex := Some (Update.orderIndex update);
     Folder.name := Folder.name folder |}.

Definition writeLeaf (update : Update.t) (x : Leaf.t) : Leaf.t :=
  {| Leaf.id := Leaf.id x;
     Leaf.folderId := Update.folderId update;
     Leaf.orderIndex := Some (Update.orderIndex update);
     Leaf.name := Leaf.name x |}.

Section ApplyUpdatesLocally.

(** [BookmarkStorage?.updateBookmarkOrder?.(id, orderIndex, folderId)] acts
    on the bookmark store; the module is not among the sources, so its
    effect on the store is a parameter ([None]: the storage or the method
    is missing). *)
Variable updateBookmarkOrder :
  option (string -> Z -> Js.nullable -> option (list Leaf.t) -> option (list Leaf.t)).

(** The body of the loop of [applyUpdatesLocally] for one update. *)
Definition applyUpdate (type : Js.nullable) (update : Update.t)
    (state : Data * option (list Leaf.t)) : Data * option (list Leaf.t) :=
  let (data, bookmarks) := state in
  let itemType := itemTypeOf type update in
  let byId := fun x => String.eqb (Leaf.id x) (Update.id update) in
  if isType itemType "folder" then
    ({| folders := writeFirst (fun f => String.eqb (Folder.id f) (Update.id update))
                     (writeFolder update) (folders data);
        objectives := objectives data;
        notes := notes data;
        taskLists := taskLists data |}, bookmarks)
  else if isType itemType "objective" then
    ({| folders := folders data;
        objectives := writeFirst byId (writeLeaf update) (objectives data);
        notes := notes data;
        taskLists := taskLists data |}, bookmarks)
  else if isType itemType "note" then
    ({| folders := folders data;
        objectives := objectives data;
        notes := option_map (writeFirst byId (writeLeaf update)) (notes data);
        taskLists := taskLists data |}, bookmarks)
  else if isType itemType "bookmark" then
    (data,
     match updateBookmarkOrder with
     | Some f => f (Update.id update) (Update.orderIndex update) (Update.folderId update)
                   bookmarks
     | None => bookmarks
     end)
  else if isType itemType "task-list" then
    ({| folders := folders data;
        objectives := objectives data;
        notes := notes data;
        taskLists := option_map (writeFirst byId (writeLeaf update)) (taskLists data) |},
     bookmarks)
  else (data, bookmarks).

(** [applyUpdatesLocally(type, updates)]. *)
Definition applyUpdatesLocally (type : Js.nullable) (updates : list Update.t)
    (state : Data * option (list Leaf.t)) : Data * option (list Leaf.t) :=
  fold_left (fun state update => applyUpdate type update state) updates state.

End ApplyUpdatesLocally.

(** The methods of [Repository] and of [NoteStorage] that [persistUpdates]
    tests for before it calls them. *)
Record RepositoryApi : Type := mkRepositoryApi {
  updateFolder : bool;
  updateObjectiveOrder : bool;
  updateTaskListOrder : bool
}.

Record NoteStorageApi : Type := mkNoteStorageApi {
  updateNoteOrder : bool
}.

(** [service?.method]. *)
Definition hasMethod {A : Type} (service : option A) (method : A -> bool) : bool :=
  match service with
  | Some s => method s
  | None => false
  end.

(** The calls [persistUpdates] pushes on [savePromises]. *)
Inductive Call : Type :=
  | UpdateFolder (id : string) (orderIndex : Z) (parentId : Js.nullable)
  | UpdateObjectiveOrder (id : string) (orderIndex : Z) (folderId : Js.nullable)
  | UpdateNoteOrder (id : string) (orderIndex : Z) (folderId : Js.nullable)
  | UpdateTaskListOrder (id : string) (orderIndex : Z) (folderId : Js.nullable).

(** [persistUpdates(type, updates, Repository, NoteStorage, BookmarkStorage)]:
    the calls in the order they are started.  [BookmarkStorage] is not
    read. *)
Definition persistUpdates (type : Js.nullable) (updates : list Update.t)
    (Repository : option RepositoryApi) (NoteStorage : option NoteStorageApi)
  : list Call :=
  flat_map
    (fun update =>
       let itemType := itemTypeOf type update in
       if isType itemType "folder" && hasMethod Repository updateFolder then
         [UpdateFolder (Update.id update) (Update.orderIndex update)
            (Update.parentId update)]
       else if isType itemType "objective" && hasMethod Repository updateObjectiveOrder then
         [UpdateObjectiveOrder (Update.id update) (Update.orderIndex update)
            (Update.folderId update)]
       else if isType itemType "note" && hasMethod NoteStorage updateNoteOrder then
         [UpdateNoteOrder (Update.id update) (Update.orderIndex update)
            (Update.folderId update)]
       else if isType itemType "task-list" && hasMethod Repository updateTaskListOrder then
         [UpdateTaskListOrder (Update.id update) (Update.orderIndex update)
            (Update.folderId update)]
       else [])
    updates.

End SideList.
(* ================================================================== *)
(** * The spreadsheet viewer: column letters and CSV *)
(* ================================================================== *)

Module ExcelViewer.

(** [Number.MAX_SAFE_INTEGER]. *)
Definition MAX_SAFE_INTEGER : Z := 2 ^ 53 - 1.

(** [getColumnLetter(col)] for an integer [col] of at most
    [Number.MAX_SAFE_INTEGER].  In that range the doubles the source
    computes with are the integers written here: [col - 1] and
    [(col - 1) % 26] are exact, and the rounded quotient [(col - 1) / 26]
    lies less than 1/26 from the exact one, so [Math.floor] gives the
    integer quotient.  Above that range the doubles are rounded and the
    model gives no answer.  The [while (col > 0)] loop is run for at most
    [fuel] rounds.  [None]: the rounds did not suffice, or [col] is too
    large for the model. *)
Fixpoint getColumnLetterLoop (fuel : nat) (col : Z) (letter : string) : option string :=
  if col >? 0 then
    if MAX_SAFE_INTEGER <? col then None
    else
      match fuel with
      | O => None
      | S fuel' =>
          let remainder := Z.rem (col - 1) 26 in
          getColumnLetterLoop fuel' ((col - 1) / 26)
            (String (ascii_of_N (Z.to_N (65 + remainder))) letter)
      end
  else Some letter.

Definition getColumnLetter (fuel : nat) (col : Z) : option string :=
  getColumnLetterLoop fuel col "".

(** A JavaScript string as its UTF-16 code units. *)
Abbreviation text := (list N).

(** The white space and line terminators that [String.prototype.trim]
    strips. *)
Definition isWhiteSpace (c : N) : bool :=
  ((c =? 9) || (c =? 10) || (c =? 11) || (c =? 12) || (c =? 13) || (c =? 32)
   || (c =? 160) || (c =? 5760) || ((8192 <=? c) && (c <=? 8202))
   || (c =? 8232) || (c =? 8233) || (c =? 8239) || (c =? 8287) || (c =? 12288)
   || (c =? 65279))%N.

Fixpoint trimStart (s : text) : text :=
  match s with
  | [] => []
  | c :: r => if isWhiteSpace c then trimStart r else s
  end.

Definition trimEnd (s : text) : text := rev (trimStart (rev s)).

Definition trim (s : text) : text := trimEnd (trimStart s).

(** [content.split(/\r?\n/)]: [line] holds the code units since the last
    separator. *)
Fixpoint splitLines (content line : text) : list text :=
  match content with
  | [] => [line]
  | c :: rest =>
      if (c =? 10)%N then line :: splitLines rest []
      else
        match rest with
        | d :: rest' =>
            if ((c =? 13) && (d =? 10))%N then line :: splitLines rest' []
            else splitLines rest (line ++ [c])
        | [] => [line ++ [c]]
        end
  end.

(** The inner [for] loop of [parseCSV] over the rest of a line, followed by
    the final [row.push(current.trim())]. *)
Fixpoint parseLine (line : text) (inQuotes : bool) (current : text) (row : list text)
  : list text :=
  match line with
  | [] => row ++ [trim current]
  | char :: rest =>
      if inQuotes then
        match rest with
        | nextChar :: rest' =>
            if ((char =? 34) && (nextChar =? 34))%N
            then parseLine rest' true (current ++ [34%N]) row
            else if (char =? 34)%N then parseLine rest false current row
            else parseLine rest true (current ++ [char]) row
        | [] =>
            if (char =? 34)%N then parseLine rest false current row
            else parseLine rest true (current ++ [char]) row
        end
      else
        if (char =? 34)%N then parseLine rest true current row
        else if (char =? 44)%N then parseLine rest false [] (row ++ [trim current])
        else parseLine rest false (current ++ [char]) row
  end.

(** [parseCSV(content)]. *)
Definition parseCSV (content : text) : list (list text) :=
  map (fun line => parseLine line false [] [])
      (filter (fun line => match trim line with [] => false | _ => true end)
              (splitLines content [])).

End ExcelViewer.

(* ================================================================== *)
(** * Vocabulary of the statements *)
(* ================================================================== *)

(** Names for the anonymous functions of [buildUpdatesArray] in
    task-list-sortable.js. *)
Module TaskListTerms.
Import TaskList.

Definition key (t : Task.t) : Z := Js.orZero (Task.orderIndex t).

Definition inContainer (target : Js.nullable) (t : Task.t) : bool :=
  Js.eqb (Js.orNull (Task.parentTaskId t)) target.

Definition isNot (taskId : Js.nullable) (t : Task.t) : bool :=
  negb (Js.eqb (Js.Str (Task.id t)) taskId).

Definition mkUpdate (target : Js.nullable) (index : nat) (task : Task.t) : Update.t :=
  {| Update.id := Task.id task;
     Update.orderIndex := Z.of_nat index * 1000;
     Update.parentTaskId := target |}.

End TaskListTerms.

(** Names for the anonymous functions of [buildUpdatesArray] in
    side-list-sortable.js. *)
Module SideListTerms.
Import SideList.

Definition key (a : Item.t) : Z := Js.orZero (Item.orderIndex a).

Definition isNot (id : Js.nullable) (item : Item.t) : bool :=
  negb (Js.eqb (Js.Str (Item.id item)) id).

Definition mkUpdate (target : Js.nullable) (index : nat) (item : Item.t) : Update.t :=
  {| Update.id := Item.id item;
     Update._type := Item._type item;
     Update.orderIndex := Z.of_nat index * 1000;
     Update.parentId :=
       if isType (Item._type item) "folder" then target else Js.Undefined;
     Update.folderId :=
       if negb (isType (Item._type item) "folder") then target else Js.Undefined |}.

End SideListTerms.

(** [buildUpdatesArray] of the task list with the result of the [sort]
    call given: [sorted] is what the engine's [Array.prototype.sort] left in
    [siblings]. *)
Definition TaskList_buildUpdatesArrayOn (sorted : list Task.t) (_currentTasks : list Task.t)
    (taskId targetParentId : Js.nullable) (prevEl nextEl : option Element.t)
  : option (list TaskList.Update.t) :=
  let siblings := filter (fun t => negb (Js.eqb (Js.Str (Task.id t)) taskId)) sorted in
  match find (fun t => Js.eqb (Js.Str (Task.id t)) taskId) _currentTasks with
  | None => None
  | Some movedTask =>
      let insertIndex := TaskList.insertIndexOf siblings prevEl nextEl in
      let siblings := Js.splice siblings insertIndex movedTask in
      Some (Js.mapi
              (fun index task =>
                 {| TaskList.Update.id := Task.id task;
                    TaskList.Update.orderIndex := Z.of_nat index * 1000;
                    TaskList.Update.parentTaskId := targetParentId |})
              siblings)
  end.

(** A run of the task-list planner on an engine whose [sort] is stable, as
    ECMAScript requires. *)
Definition TaskList_run (_currentTasks : list Task.t)
    (taskId targetParentId : Js.nullable) (prevEl nextEl : option Element.t)
    (result : option (list TaskList.Update.t)) : Prop :=
  exists sorted,
    Js.StableSortOf (fun t => Js.orZero (Task.orderIndex t))
      (filter (fun t => Js.eqb (Js.orNull (Task.parentTaskId t)) targetParentId) _currentTasks)
      sorted /\
    result = TaskList_buildUpdatesArrayOn sorted _currentTasks taskId targetParentId prevEl nextEl.

(** The same for the side list. *)
Definition SideList_buildUpdatesArrayOn (sorted : list SideList.Item.t)
    (data : SideList.Data) (bookmarks : option (list Leaf.t))
    (type id targetParentId : Js.nullable) (prevEl nextEl : option Element.t)
  : option (list SideList.Update.t) :=
  let allItems := filter (fun item => negb (Js.eqb (Js.Str (SideList.Item.id item)) id)) sorted in
  match SideList.findDropped data bookmarks type id with
  | None => None
  | Some droppedWithType =>
      let insertIndex := SideList.insertIndexOf allItems prevEl nextEl in
      let allItems := Js.splice allItems insertIndex droppedWithType in
      Some (Js.mapi (SideListTerms.mkUpdate targetParentId) allItems)
  end.

Definition SideList_run (data : SideList.Data) (bookmarks : option (list Leaf.t))
    (type id targetParentId : Js.nullable) (prevEl nextEl : option Element.t)
    (result : option (list SideList.Update.t)) : Prop :=
  exists sorted,
    Js.StableSortOf (fun a => Js.orZero (SideList.Item.orderIndex a))
      (SideList.collect data bookmarks targetParentId) sorted /\
    result = SideList_buildUpdatesArrayOn sorted data bookmarks type id targetParentId
               prevEl nextEl.

(** The hover target, whenever there is one, passed every test of
    [handleSort] for the element being dragged. *)
Definition hoverChecked {ItemData : Type} (config : Sortable.Config ItemData)
    (st : Sortable.State ItemData) : Prop :=
  forall t, Sortable._hoverTargetEl st = Some t ->
    Sortable.isDropTarget config t = true /\
    exists draggedEl draggedData,
      Sortable._draggedEl st = Some draggedEl /\
      Sortable._draggedData st = Some draggedData /\
      Element.same t draggedEl = false /\
      Sortable.canDrop config draggedEl t draggedData = Some true.

(** The [forEach] loop of [getTaskDescendants], with the recursive call
    abstracted as [g]. *)
Definition loop (g : Task.t -> option (list string)) (children : list Task.t)
    (acc : option (list string)) : option (list string) :=
  fold_left
    (fun descendants child =>
       match descendants, g child with
       | Some ds, Some sub => Some (ds ++ Task.id child :: sub)
       | _, _ => None
       end)
    children acc.

(** The children [getTaskDescendants] iterates over. *)
Definition childrenOf (tasks : list Task.t) (taskId : Js.nullable) : list Task.t :=
  filter (fun t => Js.eqb (Task.parentTaskId t) taskId) tasks.

(** The ids below [taskId]: its children and their descendants. *)
Definition below (tasks : list Task.t) (taskId : Js.nullable) (d : string) : Prop :=
  exists t, In t tasks /\ Task.parentTaskId t = taskId /\
            (Task.id t = d \/ TaskHelpers.descendantOf tasks (Task.id t) d).

(** An id that lies on a cycle or above one. *)
Definition reachesCycle (tasks : list Task.t) (y : string) : Prop :=
  exists z, (y = z \/ TaskHelpers.descendantOf tasks y z) /\
            TaskHelpers.descendantOf tasks z z.

(** A check that decides acyclicity by running the function. *)
Definition acyclicb (tasks : list Task.t) : bool :=
  forallb
    (fun t =>
       match TaskHelpers.getTaskDescendants (S (List.length tasks)) tasks
               (Js.Str (Task.id t)) with
       | Some _ => true
       | None => false
       end)
    tasks.

(** The two fields a move writes, and sequences of such writes. *)
Abbreviation Fields := (option Z * Js.nullable)%type.

Definition withFields (t : Task.t) (f : Fields) : Task.t :=
  {| Task.id := Task.id t; Task.parentTaskId := snd f;
     Task.orderIndex := fst f; Task.name := Task.name t |}.

Definition toEntry (u : TaskList.Update.t) : string * Fields :=
  (TaskList.Update.id u,
   (Some (TaskList.Update.orderIndex u), TaskList.Update.parentTaskId u)).

(** One write: the first task with the entry's id gets its fields. *)
Fixpoint writeEntry (entry : string * Fields) (tasks : list Task.t) : list Task.t :=
  match tasks with
  | [] => []
  | t :: rest =>
      if String.eqb (Task.id t) (fst entry)
      then withFields t (snd entry) :: rest
      else t :: writeEntry entry rest
  end.

Definition writeAll (entries : list (string * Fields)) (tasks : list Task.t) : list Task.t :=
  fold_left (fun tasks entry => writeEntry entry tasks) entries tasks.

(** What a sequence of writes leaves in a task that is the first with its
    id. *)
Definition writesTo (entries : list (string * Fields)) (t : Task.t) : Task.t :=
  fold_left (fun t e => if String.eqb (Task.id t) (fst e) then withFields t (snd e) else t)
            entries t.

(** The neighbours of a task among the sorted members of a container, as
    the rendered list shows them. *)
Definition sortedContainer (tasks : list Task.t) (target : Js.nullable) : list Task.t :=
  Js.sortBy TaskListTerms.key (filter (TaskListTerms.inContainer target) tasks).

Definition positionOf (taskId : Js.nullable) (l : list Task.t) : option nat :=
  Js.findIndex (fun t => Js.eqb (Js.Str (Task.id t)) taskId) l.

Definition prevSiblingId (tasks : list Task.t) (taskId target : Js.nullable)
  : option string :=
  match positionOf taskId (sortedContainer tasks target) with
  | Some (S i) => option_map Task.id (nth_error (sortedContainer tasks target) i)
  | _ => None
  end.

Definition nextSiblingId (tasks : list Task.t) (taskId target : Js.nullable)
  : option string :=
  match positionOf taskId (sortedContainer tasks target) with
  | Some i => option_map Task.id (nth_error (sortedContainer tasks target) (S i))
  | None => None
  end.

Definition elTaskId (el : Element.t) : Js.nullable := Dataset.taskId (Element.dataset el).

(** [prevEl] and [nextEl] are the rows of the task's neighbours in the
    state [tasks]: the same logical placement, read off that state. *)
Definition placedAs (tasks : list Task.t) (taskId target : Js.nullable)
    (prevEl nextEl : option Element.t) : Prop :=
  option_map elTaskId prevEl = option_map Js.Str (prevSiblingId tasks taskId target) /\
  option_map elTaskId nextEl = option_map Js.Str (nextSiblingId tasks taskId target).

(** What [applyUpdatesLocally] makes of one task when the plan renumbers
    the list [placed] under [target]. *)
Definition renumberWith (placed : list Task.t) (target : Js.nullable) (t : Task.t)
  : Task.t :=
  match Js.findIndex (fun x => String.eqb (Task.id x) (Task.id t)) placed with
  | Some i => withFields t (Some (Z.of_nat i * 1000), target)
  | None => t
  end.

Definition isPlacedIn (placed : list Task.t) (t : Task.t) : bool :=
  existsb (fun x => String.eqb (Task.id x) (Task.id t)) placed.

(** A container key that [x || null] can produce. *)
Definition isNormalTarget (target : Js.nullable) : Prop := Js.orNull target = target.

(* ================================================================== *)
(** * Sample data *)
(* ================================================================== *)

Module Sample.

Definition noRect : Rect.t :=
  {| Rect.top := 0; Rect.bottom := 0; Rect.left := 0; Rect.right := 0; Rect.height := 0 |}.

(** The row [renderTaskTree] writes for a task. *)
Definition taskRow (node : nat) (id : string) (parent : string) (depth : nat) (rect : Rect.t)
  : Element.t :=
  {| Element.node := node;
     Element.dataset :=
       {| Dataset.type := Js.Str "task"; Dataset.taskId := Js.Str id;
          Dataset.parentTaskId := Js.Str parent;
          Dataset.folderId := Js.Undefined; Dataset.objectiveId := Js.Undefined;
          Dataset.bookmarkId := Js.Undefined; Dataset.noteId := Js.Undefined;
          Dataset.taskListId := Js.Undefined; Dataset.depth := Some depth |};
     Element.rect := rect |}.

Definition task (id : string) (parent : Js.nullable) (order : Z) : Task.t :=
  {| Task.id := id; Task.parentTaskId := parent; Task.orderIndex := Some order;
     Task.name := id |}.

(** Three tasks [A], [B], [C] under the task [P]. *)
Definition tasksABC : list Task.t :=
  [ task "P" Js.Null 0;
    task "A" (Js.Str "P") 0; task "B" (Js.Str "P") 1000; task "C" (Js.Str "P") 2000 ].

Definition rowA := taskRow 1 "A" "P" 1 noRect.
Definition rowB := taskRow 2 "B" "P" 1 noRect.
Definition rowC := taskRow 3 "C" "P" 1 noRect.

(** A side list: folder [F] and note [L] at the root, objective [O] in [F]. *)
Definition sideData : SideList.Data :=
  {| SideList.folders := [ Folder.mk "F" Js.Null (Some 0) "Folder" ];
     SideList.objectives := [ Leaf.mk "O" (Js.Str "F") (Some 0) "Objective" ];
     SideList.notes := Some [ Leaf.mk "L" Js.Null (Some 1000) "Note" ];
     SideList.taskLists := None |}.

End Sample.

(** Three siblings that share one [orderIndex]. *)
Definition Sample_ties : list Task.t :=
  [ Sample.task "A" Js.Null 0; Sample.task "B" Js.Null 0; Sample.task "C" Js.Null 0 ].

(** A row whose task is not among the siblings (a stale reference). *)
Definition Sample_rowZ : Element.t := Sample.taskRow 9 "Z" "P" 1 Sample.noRect.

(** Two tasks at the root, with the Repository at hand. *)
Definition Sample_worldAB : TaskList.World :=
  {| TaskList.currentTasks := [ Sample.task "A" Js.Null 0; Sample.task "B" Js.Null 1000 ];
     TaskList.repository := true;
     TaskList.persisted := [];
     TaskList.renders := 0;
     TaskList.toasts := [] |}.

(** A folder row 100 pixels high and the row being dragged. *)
Definition Sample_rect100 : Rect.t :=
  {| Rect.top := 0; Rect.bottom := 100; Rect.left := 0; Rect.right := 200;
     Rect.height := 100 |}.

Definition Sample_target : Element.t := Sample.taskRow 2 "T" "" 0 Sample_rect100.
Definition Sample_dragged : Element.t := Sample.taskRow 1 "D" "" 0 Sample.noRect.

(** The options of a consumer that leaves the threshold to its default
    and accepts every drop. *)
Definition Sample_options : Sortable.Options TaskList.ItemData :=
  {| Sortable.opt_dropZoneThreshold := None;
     Sortable.opt_canDrop := None;
     Sortable.opt_getItemData := TaskList.getItemData;
     Sortable.opt_isDropTarget := Some TaskList.isDropTarget |}.

Definition Sample_dragging : Sortable.State TaskList.ItemData :=
  fst (Sortable.handleDragStart (Sortable.makeConfig Sample_options) Sample_dragged
         Sortable.initialState).

(** The row of the objective [O] in the side list. *)
Definition Sample_objectiveRow : Element.t :=
  {| Element.node := 6;
     Element.dataset :=
       {| Dataset.type := Js.Str "objective"; Dataset.taskId := Js.Undefined;
          Dataset.parentTaskId := Js.Undefined;
          Dataset.folderId := Js.Str "F"; Dataset.objectiveId := Js.Str "O";
          Dataset.bookmarkId := Js.Undefined; Dataset.noteId := Js.Undefined;
          Dataset.taskListId := Js.Undefined; Dataset.depth := Some 1%nat |};
     Element.rect := Sample.noRect |}.

(** A note row: not a drop target of the side list. *)
Definition Sample_noteRow : Element.t :=
  {| Element.node := 5;
     Element.dataset :=
       {| Dataset.type := Js.Str "note"; Dataset.taskId := Js.Undefined;
          Dataset.parentTaskId := Js.Undefined;
          Dataset.folderId := Js.Undefined; Dataset.objectiveId := Js.Undefined;
          Dataset.bookmarkId := Js.Undefined; Dataset.noteId := Js.Str "L";
          Dataset.taskListId := Js.Undefined; Dataset.depth := Some O |};
     Element.rect := Sample_rect100 |}.

Definition Sample_sideConfig : Sortable.Config SideList.ItemData :=
  Sortable.makeConfig
    {| Sortable.opt_dropZoneThreshold := Some 0.25%float;
       Sortable.opt_canDrop := Some (SideList.canDrop (fun _ _ => false));
       Sortable.opt_getItemData := SideList.getItemData;
       Sortable.opt_isDropTarget := Some SideList.isDropTarget |}.

(** Task [A] with its subtask [C], as [renderTaskTree] lays them out: two
    rows 40 pixels high, the child below its parent. *)
Definition Sample_parentAndChild : list Task.t :=
  [ Sample.task "A" Js.Null 0; Sample.task "C" (Js.Str "A") 0 ].

Definition Sample_rowParent : Element.t :=
  Sample.taskRow 1 "A" "" 0
    {| Rect.top := 0; Rect.bottom := 40; Rect.left := 0; Rect.right := 200;
       Rect.height := 40 |}.

Definition Sample_rowChild : Element.t :=
  Sample.taskRow 2 "C" "A" 1
    {| Rect.top := 40; Rect.bottom := 80; Rect.left := 0; Rect.right := 200;
       Rect.height := 40 |}.

Definition Sample_worldAC : TaskList.World :=
  {| TaskList.currentTasks := Sample_parentAndChild;
     TaskList.repository := true;
     TaskList.persisted := [];
     TaskList.renders := 0;
     TaskList.toasts := [] |}.

(** A state in the middle of a drag of [el]: what [handleDragStart] sets
    and every [sort] event keeps. *)
Definition draggingOf {ItemData : Type} (config : Sortable.Config ItemData)
    (el : Element.t) (st : Sortable.State ItemData) : Prop :=
  Sortable._isActive st = true /\
  Sortable._draggedEl st = Some el /\
  Sortable._draggedData st = Some (Sortable.getItemData config el).

(** The [sort] events of a gesture. *)
Definition sortEvents (moves : list (Sortable.Pointer * list Element.t))
  : list Sortable.Input :=
  map (fun m => Sortable.Sort (fst m) (snd m)) moves.


(** The parent under which [buildTaskTree] files a task: its
    [parentTaskId] when that is the non-empty id of a task of the
    collection; [None] makes the task a root. *)
Definition treeParent (tasks : list Task.t) (t : Task.t) : option string :=
  match Task.parentTaskId t with
  | Js.Str p =>
      if negb (String.eqb p "") && existsb (fun u => String.eqb (Task.id u) p) tasks
      then Some p else None
  | _ => None
  end.

(** The tasks [buildTaskTree] files under the task with id [p], and the
    ones it makes roots, both in the order of the array. *)
Definition treeChildren (tasks : list Task.t) (p : string) : list Task.t :=
  filter (fun t => match treeParent tasks t with
                   | Some q => String.eqb q p
                   | None => false
                   end) tasks.

Definition treeRoots (tasks : list Task.t) : list Task.t :=
  filter (fun t => match treeParent tasks t with
                   | Some _ => false
                   | None => true
                   end) tasks.

(** The tasks reached from [nodes], taken to be at depth [d], by stepping
    from a reached task that is expanded to its children; each with the
    depth it is reached at. *)
Inductive shownFrom (tasks : list Task.t) (expandedTasks : list string)
    (nodes : list Task.t) (d : nat) : Task.t -> nat -> Prop :=
  | shown_here t :
      In t nodes -> shownFrom tasks expandedTasks nodes d t d
  | shown_child p dp t :
      shownFrom tasks expandedTasks nodes d p dp ->
      In (Task.id p) expandedTasks ->
      In t (treeChildren tasks (Task.id p)) ->
      shownFrom tasks expandedTasks nodes d t (S dp).

(** What a fully built tree shows: the roots at depth 0, and below every
    shown task that is expanded its children, one level deeper. *)
Definition shownAt (tasks : list Task.t) (expandedTasks : list string)
  : Task.t -> nat -> Prop :=
  shownFrom tasks expandedTasks (treeRoots tasks) 0.

(** The item [traverse] pushes for a task found at depth [d]. *)
Definition itemOf (tasks : list Task.t) (expandedTasks : list string)
    (t : Task.t) (d : nat) : TaskHelpers.Item.t :=
  let children := map Task.id (treeChildren tasks (Task.id t)) in
  {| TaskHelpers.Item.node :=
       {| TaskHelpers.Node.task := t; TaskHelpers.Node.children := children |};
     TaskHelpers.Item.depth := d;
     TaskHelpers.Item.hasChildren := negb (Nat.eqb (List.length children) 0);
     TaskHelpers.Item.isExpanded := TaskHelpers.setHas expandedTasks (Task.id t) |}.

(** The task an item of [flattenTaskTree] carries. *)
Definition itemTask (i : TaskHelpers.Item.t) : Task.t :=
  TaskHelpers.Node.task (TaskHelpers.Item.node i).

(** A task that is its own parent, with a child. *)
Definition Sample_selfParent : list Task.t :=
  [ Sample.task "A" (Js.Str "A") 1000; Sample.task "C" (Js.Str "A") 0 ].

(** The service a persistence call goes to, named by the item type it
    serves, with the arguments of the call. *)
Definition callArgs (c : SideList.Call) : Js.nullable * string * Z * Js.nullable :=
  match c with
  | SideList.UpdateFolder id orderIndex parentId =>
      (Js.Str "folder", id, orderIndex, parentId)
  | SideList.UpdateObjectiveOrder id orderIndex folderId =>
      (Js.Str "objective", id, orderIndex, folderId)
  | SideList.UpdateNoteOrder id orderIndex folderId =>
      (Js.Str "note", id, orderIndex, folderId)
  | SideList.UpdateTaskListOrder id orderIndex folderId =>
      (Js.Str "task-list", id, orderIndex, folderId)
  end.

(** The five item types of the side list. *)
Definition knownType (type : Js.nullable) : Prop :=
  type = Js.Str "folder" \/ type = Js.Str "objective" \/ type = Js.Str "note" \/
  type = Js.Str "bookmark" \/ type = Js.Str "task-list".

(** A repository and a note storage with every method. *)
Definition Sample_repository : SideList.RepositoryApi :=
  {| SideList.updateFolder := true; SideList.updateObjectiveOrder := true;
     SideList.updateTaskListOrder := true |}.

Definition Sample_noteStorage : SideList.NoteStorageApi :=
  {| SideList.updateNoteOrder := true |}.

(** The items of the side list that live in [AppState] (folders,
    objectives, notes and task lists), each as its type, id, container
    ([parentId] of a folder, [folderId] of the others) and [orderIndex]. *)
Definition sideItems (data : SideList.Data)
  : list (Js.nullable * string * Js.nullable * option Z) :=
  map (fun f => (Js.Str "folder", Folder.id f, Folder.parentId f, Folder.orderIndex f))
      (SideList.folders data)
  ++ map (fun x => (Js.Str "objective", Leaf.id x, Leaf.folderId x, Leaf.orderIndex x))
         (SideList.objectives data)
  ++ map (fun x => (Js.Str "note", Leaf.id x, Leaf.folderId x, Leaf.orderIndex x))
         (SideList.orEmpty (SideList.notes data))
  ++ map (fun x => (Js.Str "task-list", Leaf.id x, Leaf.folderId x, Leaf.orderIndex x))
         (SideList.orEmpty (SideList.taskLists data)).

(** What one update does to one element of the collection it addresses:
    [selects] says whether the update is for this collection. *)
Definition writeElement {A : Type} (idOf : A -> string)
    (write : SideList.Update.t -> A -> A) (selects : SideList.Update.t -> bool)
    (a : A) (update : SideList.Update.t) : A :=
  if selects update && String.eqb (idOf a) (SideList.Update.id update)
  then write update a else a.

(** The updates of a given item type. *)
Definition updateFor (type : string) (update : SideList.Update.t) : bool :=
  SideList.isType (SideList.Update._type update) type.

(** An item of [allItems] with a given type and id. *)
Definition itemIs (type id : string) (item : SideList.Item.t) : bool :=
  SideList.isType (SideList.Item._type item) type
  && String.eqb (SideList.Item.id item) id.

(** The collection of [AppState] that holds the items of a leaf type. *)
Definition leavesOf (data : SideList.Data) (type : string) : list Leaf.t :=
  if String.eqb type "objective" then SideList.objectives data
  else if String.eqb type "note" then SideList.orEmpty (SideList.notes data)
  else if String.eqb type "task-list" then SideList.orEmpty (SideList.taskLists data)
  else [].

(** The number a column label stands for: its letters read as digits
    [A = 1], ..., [Z = 26] in base 26. *)
Fixpoint columnNumberFrom (acc : Z) (letters : string) : Z :=
  match letters with
  | EmptyString => acc
  | String c rest => columnNumberFrom (acc * 26 + (Z.of_N (N_of_ascii c) - 64)) rest
  end.

Definition columnNumber (letters : string) : Z := columnNumberFrom 0 letters.

(** The label consists of capital letters. *)
Fixpoint capitals (letters : string) : Prop :=
  match letters with
  | EmptyString => True
  | String c rest => (65 <= N_of_ascii c <= 90)%N /\ capitals rest
  end.

(** A field written the way RFC 4180 quotes it: between double quotes, with
    every double quote doubled. *)
Definition quoteField (field : list N) : list N :=
  34%N :: flat_map (fun c => if (c =? 34)%N then [34%N; 34%N] else [c]) field ++ [34%N].

(** Quoted fields joined by commas. *)
Fixpoint csvLine (fields : list (list N)) : list N :=
  match fields with
  | [] => []
  | [field] => quoteField field
  | field :: rest => quoteField field ++ 44%N :: csvLine rest
  end.

(** The rows [parseCSV] makes of the lines it has split the content into:
    blank lines are skipped. *)
Definition csvRows (lines : list (list N)) : list (list (list N)) :=
  map (fun line => ExcelViewer.parseLine line false [] [])
      (filter (fun line => match ExcelViewer.trim line with [] => false | _ => true end)
              lines).

(** The pre-order walk of the flat array: each of [nodes] at depth [d],
    followed, when it is expanded, by the walk of the tasks filed under it
    one level deeper; [fuel] bounds the depth. *)
Fixpoint preorder (fuel : nat) (tasks : list Task.t) (expandedTasks : list string)
    (nodes : list Task.t) (d : nat) : list TaskHelpers.Item.t :=
  match fuel with
  | O => []
  | S fuel' =>
      flat_map
        (fun n =>
           itemOf tasks expandedTasks n d
           :: (if TaskHelpers.setHas expandedTasks (Task.id n)
               then preorder fuel' tasks expandedTasks
                      (treeChildren tasks (Task.id n)) (S d)
               else []))
        nodes
  end.

(** Two root tasks, [D] and [T]. *)
Definition Sample_tasksDT : list Task.t :=
  [ Sample.task "D" Js.Null 0; Sample.task "T" Js.Null 1000 ].

(** The nodes of the side list as the planner's specification speaks of
    them: every stored item with its kind, its id, its container key
    ([parentId] for a folder, [folderId] for every other kind) and its
    [orderIndex]; folders first, then objectives, notes, bookmarks and
    task lists. *)
Abbreviation SideNode := (Js.nullable * string * Js.nullable * option Z)%type.

Definition nodeKind (n : SideNode) : Js.nullable := fst (fst (fst n)).
Definition nodeId (n : SideNode) : string := snd (fst (fst n)).
Definition nodeContainer (n : SideNode) : Js.nullable := snd (fst n).
Definition nodeOrder (n : SideNode) : option Z := snd n.

Definition folderNode (f : Folder.t) : SideNode :=
  (Js.Str "folder", Folder.id f, Folder.parentId f, Folder.orderIndex f).

Definition leafNode (kind : string) (x : Leaf.t) : SideNode :=
  (Js.Str kind, Leaf.id x, Leaf.folderId x, Leaf.orderIndex x).

Definition sideNodes (data : SideList.Data) (bookmarks : option (list Leaf.t))
  : list SideNode :=
  map folderNode (SideList.folders data)
  ++ map (leafNode "objective") (SideList.objectives data)
  ++ map (leafNode "note") (SideList.orEmpty (SideList.notes data))
  ++ map (leafNode "bookmark") (SideList.orEmpty bookmarks)
  ++ map (leafNode "task-list") (SideList.orEmpty (SideList.taskLists data)).

(** A node as an element of [allItems]. *)
Definition nodeItem (n : SideNode) : SideList.Item.t :=
  {| SideList.Item.id := nodeId n; SideList.Item._type := nodeKind n;
     SideList.Item.orderIndex := nodeOrder n |}.

(** The node is a member of the container [target]. *)
Definition nodeIn (target : Js.nullable) (n : SideNode) : bool :=
  Js.eqb (Js.orNull (nodeContainer n)) target.

(** The node does not have the id [id]. *)
Definition nodeIsNot (id : Js.nullable) (n : SideNode) : bool :=
  negb (Js.eqb (Js.Str (nodeId n)) id).

(** The members of a side-list container, sorted as the list shows them,
    and the neighbours of an item among them. *)
Definition sideContainer (data : SideList.Data) (bookmarks : option (list Leaf.t))
    (target : Js.nullable) : list SideList.Item.t :=
  Js.sortBy SideListTerms.key
    (map nodeItem (filter (nodeIn target) (sideNodes data bookmarks))).

Definition sidePositionOf (id : Js.nullable) (l : list SideList.Item.t) : option nat :=
  Js.findIndex (fun item => Js.eqb (Js.Str (SideList.Item.id item)) id) l.

Definition sidePrevSiblingId (data : SideList.Data) (bookmarks : option (list Leaf.t))
    (id target : Js.nullable) : option string :=
  match sidePositionOf id (sideContainer data bookmarks target) with
  | Some (S i) =>
      option_map SideList.Item.id (nth_error (sideContainer data bookmarks target) i)
  | _ => None
  end.

Definition sideNextSiblingId (data : SideList.Data) (bookmarks : option (list Leaf.t))
    (id target : Js.nullable) : option string :=
  match sidePositionOf id (sideContainer data bookmarks target) with
  | Some i =>
      option_map SideList.Item.id (nth_error (sideContainer data bookmarks target) (S i))
  | None => None
  end.

(** [prevEl] and [nextEl] are the rows of the item's neighbours in the
    state given: the same logical placement, read off that state. *)
Definition sidePlacedAs (data : SideList.Data) (bookmarks : option (list Leaf.t))
    (id target : Js.nullable) (prevEl nextEl : option Element.t) : Prop :=
  option_map SideList.getItemIdFromElement prevEl
  = option_map Js.Str (sidePrevSiblingId data bookmarks id target) /\
  option_map SideList.getItemIdFromElement nextEl
  = option_map Js.Str (sideNextSiblingId data bookmarks id target).

(** The position of an id in the list a plan renumbers. *)
Definition placedIndex (placed : list SideList.Item.t) (id : string) : option nat :=
  Js.findIndex (fun item => String.eqb (SideList.Item.id item) id) placed.

(** What applying the plan for [placed] under [target] makes of a folder,
    of any other stored item, of a node and of an element of [allItems],
    when ids identify the stored items. *)
Definition renumberFolder (placed : list SideList.Item.t) (target : Js.nullable)
    (f : Folder.t) : Folder.t :=
  match placedIndex placed (Folder.id f) with
  | Some i =>
      {| Folder.id := Folder.id f; Folder.parentId := target;
         Folder.orderIndex := Some (Z.of_nat i * 1000); Folder.name := Folder.name f |}
  | None => f
  end.

Definition renumberLeaf (placed : list SideList.Item.t) (target : Js.nullable)
    (x : Leaf.t) : Leaf.t :=
  match placedIndex placed (Leaf.id x) with
  | Some i =>
      {| Leaf.id := Leaf.id x; Leaf.folderId := target;
         Leaf.orderIndex := Some (Z.of_nat i * 1000); Leaf.name := Leaf.name x |}
  | None => x
  end.

Definition renumberData (placed : list SideList.Item.t) (target : Js.nullable)
    (data : SideList.Data) : SideList.Data :=
  {| SideList.folders := map (renumberFolder placed target) (SideList.folders data);
     SideList.objectives := map (renumberLeaf placed target) (SideList.objectives data);
     SideList.notes := option_map (map (renumberLeaf placed target)) (SideList.notes data);
     SideList.taskLists :=
       option_map (map (renumberLeaf placed target)) (SideList.taskLists data) |}.

Definition renumberNode (placed : list SideList.Item.t) (target : Js.nullable)
    (n : SideNode) : SideNode :=
  match placedIndex placed (nodeId n) with
  | Some i => (nodeKind n, nodeId n, target, Some (Z.of_nat i * 1000))
  | None => n
  end.

Definition renumberItem (placed : list SideList.Item.t) (item : SideList.Item.t)
  : SideList.Item.t :=
  match placedIndex placed (SideList.Item.id item) with
  | Some i =>
      {| SideList.Item.id := SideList.Item.id item;
         SideList.Item._type := SideList.Item._type item;
         SideList.Item.orderIndex := Some (Z.of_nat i * 1000) |}
  | None => item
  end.

(** The weight of exponent [e] on a scale on which every double, and
    every exact product of two doubles, is an integer: the least exponent
    of such a product is [-2148]. *)
Definition pw (e : Z) : Z := 2 ^ (e + 2148).

(** The value of a finite double on that scale; zero for the zeros. *)
Definition SFval (f : spec_float) : Z :=
  match f with
  | S754_finite s m e => (if s then -1 else 1) * (Zpos m * pw e)
  | _ => 0
  end.

(** A task-list configuration whose threshold is one half. *)
Definition Sample_halfConfig : Sortable.Config TaskList.ItemData :=
  Sortable.mkConfig 0.5%float (fun _ _ _ => Some true)
    TaskList.getItemData TaskList.isDropTarget.

(* ================================================================== *)
(** * Facts about the array helpers *)
(* ================================================================== *)

Section ArrayFacts.
Context {A : Type}.
Variable key : A -> Z.

Lemma insertBy_perm x l : Permutation (Js.insertBy key x l) (x :: l).
Proof.
  induction l as [|y r IH]; simpl; [reflexivity|].
  destruct (key x <=? key y); [reflexivity|].
  rewrite IH. apply perm_swap.
Qed.

Lemma sortBy_perm l : Permutation (Js.sortBy key l) l.
Proof.
  induction l as [|x r IH]; simpl; [constructor|].
  rewrite insertBy_perm. now constructor.
Qed.

Lemma sortBy_In l x : In x (Js.sortBy key l) <-> In x l.
Proof.
  split; apply Permutation_in; [|symmetry]; apply sortBy_perm.
Qed.

Lemma sortBy_length l : length (Js.sortBy key l) = length l.
Proof. apply Permutation_length, sortBy_perm. Qed.

Lemma insertBy_ascending x l :
  Js.ascending key l -> Js.ascending key (Js.insertBy key x l).
Proof.
  unfold Js.ascending.
  induction 1 as [|y r Hr IH Hy]; simpl.
  - repeat constructor.
  - destruct (key x <=? key y) eqn:E.
    + apply Z.leb_le in E. constructor.
      * now constructor.
      * constructor; [exact E|].
        eapply Forall_impl; [|exact Hy]. simpl. intros; lia.
    + apply Z.leb_gt in E. constructor; [exact IH|].
      rewrite Forall_forall. intros z Hz.
      apply (Permutation_in _ (insertBy_perm x r)) in Hz.
      destruct Hz as [<-|Hz]; [lia|].
      rewrite Forall_forall in Hy. now apply Hy.
Qed.

Lemma sortBy_ascending l : Js.ascending key (Js.sortBy key l).
Proof.
  induction l as [|x r IH]; simpl.
  - constructor.
  - now apply insertBy_ascending.
Qed.

Lemma insertBy_filter_key x l k :
  filter (fun a => key a =? k) (Js.insertBy key x l)
  = filter (fun a => key a =? k) (x :: l).
Proof.
  induction l as [|y r IH]; [reflexivity|].
  simpl. destruct (key x <=? key y) eqn:E; [reflexivity|].
  apply Z.leb_gt in E. simpl. rewrite IH. simpl.
  destruct (key x =? k) eqn:Ex; destruct (key y =? k) eqn:Ey; try reflexivity.
  apply Z.eqb_eq in Ex, Ey. lia.
Qed.

(** The insertion sort is stable. *)
Lemma sortBy_stable l : Js.StableSortOf key l (Js.sortBy key l).
Proof.
  split; [apply sortBy_ascending|].
  intros k. induction l as [|x r IH]; [reflexivity|].
  simpl Js.sortBy. rewrite insertBy_filter_key. simpl. now rewrite IH.
Qed.

(** Two ascending lists with the same per-key subsequences are equal. *)
Lemma ascending_same_groups_eq (l1 l2 : list A) :
  Js.ascending key l1 -> Js.ascending key l2 ->
  (forall k, filter (fun a => key a =? k) l1 = filter (fun a => key a =? k) l2) ->
  l1 = l2.
Proof.
  unfold Js.ascending. intros H1. revert l2.
  induction H1 as [|x r1 Hr1 IH Hx]; intros l2 H2 Hg.
  - destruct l2 as [|y r2]; [reflexivity|].
    specialize (Hg (key y)). simpl in Hg. rewrite Z.eqb_refl in Hg. discriminate.
  - destruct H2 as [|y r2 Hr2 Hy].
    + specialize (Hg (key x)). simpl in Hg. rewrite Z.eqb_refl in Hg. discriminate.
    + assert (Hxy : key x = key y).
      { assert (key y <= key x).
        { pose proof (Hg (key x)) as G. simpl in G. rewrite Z.eqb_refl in G.
          assert (Hin : In x (filter (fun a => key a =? key x) (y :: r2))).
          { simpl. rewrite <- G. now left. }
          apply filter_In in Hin. destruct Hin as [[<-|Hin] _]; [lia|].
          rewrite Forall_forall in Hy. now apply Hy. }
        assert (key x <= key y).
        { pose proof (Hg (key y)) as G. simpl in G. rewrite (Z.eqb_refl (key y)) in G.
          assert (Hin : In y (filter (fun a => key a =? key y) (x :: r1))).
          { simpl. rewrite G. now left. }
          apply filter_In in Hin. destruct Hin as [[<-|Hin] _]; [lia|].
          rewrite Forall_forall in Hx. now apply Hx. }
        lia. }
      assert (x = y).
      { pose proof (Hg (key x)) as G. simpl in G.
        rewrite Z.eqb_refl, <- Hxy, Z.eqb_refl in G. congruence. }
      subst y. f_equal. apply IH; [exact Hr2|].
      intros k. specialize (Hg k). simpl in Hg.
      destruct (key x =? k); congruence.
Qed.

(** Hence a stable sort has exactly one possible output. *)
Lemma StableSortOf_unique l o1 o2 :
  Js.StableSortOf key l o1 -> Js.StableSortOf key l o2 -> o1 = o2.
Proof.
  intros [S1 G1] [S2 G2]. apply ascending_same_groups_eq; auto.
  intros k. now rewrite G1, G2.
Qed.

Lemma sortBy_ascending_id l : Js.ascending key l -> Js.sortBy key l = l.
Proof.
  intros H. apply (StableSortOf_unique l).
  - apply sortBy_stable.
  - split; [exact H|reflexivity].
Qed.

End ArrayFacts.

Section ListFacts.
Context {A B : Type}.

Lemma findIndex_Some (p : A -> bool) l i :
  Js.findIndex p l = Some i ->
  (i < List.length l)%nat /\
  (exists x, nth_error l i = Some x /\ p x = true) /\
  forall j y, (j < i)%nat -> nth_error l j = Some y -> p y = false.
Proof.
  revert i. induction l as [|x r IH]; simpl; intros i H; [discriminate|].
  destruct (p x) eqn:Px.
  - inversion H; subst. repeat split; [lia|exists x; auto|intros; lia].
  - destruct (Js.findIndex p r) as [i'|] eqn:E; [|discriminate].
    inversion H; subst. destruct (IH _ eq_refl) as (L & X & F).
    repeat split; [simpl; lia|exact X|].
    intros [|j] y Hj Hy; simpl in Hy; [congruence|]. apply (F j); [lia|exact Hy].
Qed.

Lemma findIndex_None (p : A -> bool) l :
  Js.findIndex p l = None <-> forall x, In x l -> p x = false.
Proof.
  induction l as [|x r IH]; simpl.
  - split; [intros _ ? []|reflexivity].
  - destruct (p x) eqn:Px.
    + split; [discriminate|]. intros H. rewrite H in Px; [discriminate|now left].
    + destruct (Js.findIndex p r) as [i|].
      * split; [discriminate|]. intros H.
        assert (E : Some i = None) by (apply IH; intros y Hy; apply H; now right).
        discriminate.
      * split; [|reflexivity]. intros _ y [<-|Hy]; [exact Px|].
        now apply IH.
Qed.

Lemma findIndex_app_hit (p : A -> bool) l x r :
  (forall y, In y l -> p y = false) -> p x = true ->
  Js.findIndex p (l ++ x :: r) = Some (List.length l).
Proof.
  intros Hl Hx. induction l as [|y l IH]; simpl.
  - now rewrite Hx.
  - rewrite (Hl y) by now left. rewrite IH; [reflexivity|].
    intros z Hz. apply Hl. now right.
Qed.

Lemma splice_length (l : list A) i x :
  List.length (Js.splice l i x) = S (List.length l).
Proof.
  unfold Js.splice. rewrite length_app. simpl.
  rewrite Nat.add_succ_r, <- length_app, firstn_skipn. reflexivity.
Qed.

Lemma splice_In (l : list A) i x y :
  In y (Js.splice l i x) <-> y = x \/ In y l.
Proof.
  unfold Js.splice. rewrite in_app_iff. simpl.
  rewrite <- (firstn_skipn i l) at 3. rewrite in_app_iff. intuition congruence.
Qed.

Lemma splice_perm (l : list A) i x : Permutation (Js.splice l i x) (x :: l).
Proof.
  unfold Js.splice. rewrite <- Permutation_middle.
  now rewrite firstn_skipn.
Qed.

Lemma splice_filter_out (p : A -> bool) (l : list A) i x :
  p x = false -> filter p (Js.splice l i x) = filter p l.
Proof.
  intros Hx. unfold Js.splice. rewrite filter_app. simpl. rewrite Hx.
  now rewrite <- filter_app, firstn_skipn.
Qed.

Lemma mapiFrom_length (f : nat -> A -> B) i l :
  List.length (Js.mapiFrom f i l) = List.length l.
Proof. revert i. induction l; simpl; intros; [reflexivity|now rewrite IHl]. Qed.

Lemma mapiFrom_nth_error (f : nat -> A -> B) i l n :
  nth_error (Js.mapiFrom f i l) n = option_map (f (i + n)%nat) (nth_error l n).
Proof.
  revert i n. induction l as [|x r IH]; intros i [|n]; simpl; try reflexivity.
  - now rewrite Nat.add_0_r.
  - rewrite IH. now rewrite Nat.add_succ_comm.
Qed.

Lemma mapi_nth_error (f : nat -> A -> B) l n :
  nth_error (Js.mapi f l) n = option_map (f n) (nth_error l n).
Proof. unfold Js.mapi. now rewrite mapiFrom_nth_error. Qed.

Lemma mapi_length (f : nat -> A -> B) l : List.length (Js.mapi f l) = List.length l.
Proof. apply mapiFrom_length. Qed.

Lemma map_mapiFrom {C : Type} (g : B -> C) (f : nat -> A -> B) (h : A -> C) i l :
  (forall n a, g (f n a) = h a) -> map g (Js.mapiFrom f i l) = map h l.
Proof.
  intros H. revert i. induction l as [|x r IH]; simpl; intros; [reflexivity|].
  now rewrite H, IH.
Qed.

(** Renumbering reads only the ids, in order. *)
Lemma mapiFrom_ext_on (f : nat -> A -> B) (h : A -> string) i l1 l2 :
  (forall n a b, h a = h b -> f n a = f n b) ->
  map h l1 = map h l2 -> Js.mapiFrom f i l1 = Js.mapiFrom f i l2.
Proof.
  intros Hf. revert i l2. induction l1 as [|x r IH]; intros i [|y r2] H;
    simpl in *; try discriminate; [reflexivity|].
  inversion H. f_equal; [now apply Hf|now apply IH].
Qed.

End ListFacts.

Lemma Js_eqb_eq a b : Js.eqb a b = true <-> a = b.
Proof.
  destruct a, b; simpl; split; try congruence; try discriminate.
  - intros H. apply String.eqb_eq in H. now subst.
  - intros H. inversion H. apply String.eqb_refl.
Qed.

Lemma Js_eqb_neq a b : Js.eqb a b = false <-> a <> b.
Proof.
  rewrite <- Js_eqb_eq. destruct (Js.eqb a b); split; congruence.
Qed.

Lemma Js_eqb_refl a : Js.eqb a a = true.
Proof. now apply Js_eqb_eq. Qed.

Lemma Js_eqb_Str x y : Js.eqb (Js.Str x) (Js.Str y) = String.eqb x y.
Proof. reflexivity. Qed.

Section SortedFacts.
Context {A : Type}.

Lemma Permutation_filter (p : A -> bool) l l' :
  Permutation l l' -> Permutation (filter p l) (filter p l').
Proof.
  induction 1 as [|x l l' _ IH|x y l|l l' l'' _ IH1 _ IH2]; simpl.
  - constructor.
  - destruct (p x); [now constructor|exact IH].
  - destruct (p x), (p y); try reflexivity. apply perm_swap.
  - now transitivity (filter p l').
Qed.

Lemma ascending_filter (key : A -> Z) (p : A -> bool) l :
  Js.ascending key l -> Js.ascending key (filter p l).
Proof.
  unfold Js.ascending. induction 1 as [|x r Hr IH Hx]; simpl; [constructor|].
  destruct (p x); [|exact IH]. constructor; [exact IH|].
  rewrite Forall_forall in *. intros y Hy. apply Hx.
  apply filter_In in Hy. tauto.
Qed.

End SortedFacts.

(* ================================================================== *)
(** * The reorder planner of the task list *)
(* ================================================================== *)

Module TaskListFacts.
Import TaskList TaskListTerms.

Lemma siblingsOf_In tasks taskId target t :
  In t (siblingsOf tasks taskId target) <->
  In t tasks /\ Js.orNull (Task.parentTaskId t) = target /\ Js.Str (Task.id t) <> taskId.
Proof.
  unfold siblingsOf. rewrite filter_In, sortBy_In, filter_In.
  rewrite Js_eqb_eq, negb_true_iff, Js_eqb_neq. tauto.
Qed.

Lemma siblingsOf_perm tasks taskId target :
  Permutation (siblingsOf tasks taskId target)
              (filter (isNot taskId) (filter (inContainer target) tasks)).
Proof. unfold siblingsOf. apply Permutation_filter, sortBy_perm. Qed.

Lemma siblingsOf_ascending tasks taskId target :
  Js.ascending key (siblingsOf tasks taskId target).
Proof. unfold siblingsOf. apply ascending_filter, sortBy_ascending. Qed.

Lemma insertIndexOf_le siblings prevEl nextEl :
  (insertIndexOf siblings prevEl nextEl <= List.length siblings)%nat.
Proof.
  unfold insertIndexOf. destruct prevEl as [prev|].
  - destruct (Js.findIndex _ siblings) as [i|] eqn:E; [|lia].
    apply findIndex_Some in E. lia.
  - destruct nextEl; lia.
Qed.

Lemma buildUpdatesArray_found tasks taskId target prevEl nextEl moved :
  find (fun t => Js.eqb (Js.Str (Task.id t)) taskId) tasks = Some moved ->
  buildUpdatesArray tasks taskId target prevEl nextEl
  = Some (Js.mapi (mkUpdate target)
            (Js.splice (siblingsOf tasks taskId target)
               (insertIndexOf (siblingsOf tasks taskId target) prevEl nextEl) moved)).
Proof. intros H. unfold buildUpdatesArray. now rewrite H. Qed.

Lemma mapi_mkUpdate_nth target l i u :
  nth_error (Js.mapi (mkUpdate target) l) i = Some u ->
  Update.orderIndex u = Z.of_nat i * 1000 /\ Update.parentTaskId u = target.
Proof.
  rewrite mapi_nth_error. destruct (nth_error l i); simpl; [|discriminate].
  intros H. inversion H. now subst.
Qed.

(** The full statement of the renumbering, for the task list. *)
Lemma full_renumbering tasks taskId target prevEl nextEl moved :
  find (fun t => Js.eqb (Js.Str (Task.id t)) taskId) tasks = Some moved ->
  let rest := siblingsOf tasks taskId target in
  Permutation rest (filter (isNot taskId) (filter (inContainer target) tasks)) /\
  Js.ascending key rest /\
  exists k updates,
    (k <= List.length rest)%nat /\
    buildUpdatesArray tasks taskId target prevEl nextEl = Some updates /\
    map Update.id updates = map Task.id (firstn k rest) ++ Task.id moved :: map Task.id (skipn k rest) /\
    List.length updates = S (List.length rest) /\
    (forall i u, nth_error updates i = Some u ->
       Update.orderIndex u = Z.of_nat i * 1000 /\ Update.parentTaskId u = target) /\
    (forall i u v, nth_error updates i = Some u -> nth_error updates (S i) = Some v ->
       Update.orderIndex v - Update.orderIndex u = 1000).
Proof.
  intros Hfind rest.
  split; [apply siblingsOf_perm|]. split; [apply siblingsOf_ascending|].
  exists (insertIndexOf rest prevEl nextEl), 
         (Js.mapi (mkUpdate target) (Js.splice rest (insertIndexOf rest prevEl nextEl) moved)).
  split; [apply insertIndexOf_le|].
  split; [now apply buildUpdatesArray_found|].
  split.
  { unfold Js.mapi. rewrite (map_mapiFrom _ _ Task.id) by reflexivity.
    unfold Js.splice. now rewrite map_app. }
  split; [now rewrite mapi_length, splice_length|].
  split; [intros i u; apply mapi_mkUpdate_nth|].
  intros i u v Hu Hv.
  apply mapi_mkUpdate_nth in Hu, Hv. destruct Hu as [-> _], Hv as [-> _]. lia.
Qed.

End TaskListFacts.

(* ================================================================== *)
(** * The reorder planner of the side list *)
(* ================================================================== *)

Module SideListFacts.
Import SideList SideListTerms.

Lemma side_siblingsOf_perm data bookmarks id target :
  Permutation (siblingsOf data bookmarks id target)
              (filter (isNot id) (collect data bookmarks target)).
Proof. unfold siblingsOf. apply Permutation_filter, sortBy_perm. Qed.

Lemma side_siblingsOf_ascending data bookmarks id target :
  Js.ascending key (siblingsOf data bookmarks id target).
Proof. unfold siblingsOf. apply ascending_filter, sortBy_ascending. Qed.

Lemma side_insertIndexOf_le allItems prevEl nextEl :
  (insertIndexOf allItems prevEl nextEl <= List.length allItems)%nat.
Proof.
  unfold insertIndexOf. destruct prevEl as [prev|].
  - destruct (Js.findIndex _ allItems) as [i|] eqn:E; [|lia].
    apply findIndex_Some in E. lia.
  - destruct nextEl; lia.
Qed.

Lemma side_buildUpdatesArray_found data bookmarks type id target prevEl nextEl dropped :
  findDropped data bookmarks type id = Some dropped ->
  buildUpdatesArray data bookmarks type id target prevEl nextEl
  = Some (Js.mapi (mkUpdate target)
            (Js.splice (siblingsOf data bookmarks id target)
               (insertIndexOf (siblingsOf data bookmarks id target) prevEl nextEl)
               dropped)).
Proof. intros H. unfold buildUpdatesArray. now rewrite H. Qed.

Lemma containerOf_mkUpdate target i item : containerOf (mkUpdate target i item) = target.
Proof.
  unfold containerOf, mkUpdate. simpl.
  now destruct (isType (Item._type item) "folder").
Qed.

Lemma side_mapi_mkUpdate_nth target l i u :
  nth_error (Js.mapi (mkUpdate target) l) i = Some u ->
  Update.orderIndex u = Z.of_nat i * 1000 /\ containerOf u = target.
Proof.
  rewrite mapi_nth_error. destruct (nth_error l i); simpl; [|discriminate].
  intros H. inversion H. split; [reflexivity|apply containerOf_mkUpdate].
Qed.

(** The dropped item carries the id that was asked for. *)
Lemma findDropped_id data bookmarks type id dropped :
  findDropped data bookmarks type id = Some dropped -> Js.Str (Item.id dropped) = id.
Proof.
  unfold findDropped. intros H.
  assert (L : forall (tag : Js.nullable) (l : list Leaf.t),
             option_map (tagLeaf tag)
               (find (fun x => Js.eqb (Js.Str (Leaf.id x)) id) l) = Some dropped ->
             Js.Str (Item.id dropped) = id).
  { intros tag l G. destruct (find _ l) as [x|] eqn:E; simpl in G; [|discriminate].
    apply find_some in E. destruct E as [_ E]. apply Js_eqb_eq in E.
    rewrite <- E. inversion G. reflexivity. }
  destruct (isType type "folder").
  { destruct (find _ (folders data)) as [f|] eqn:E; simpl in H; [|discriminate].
    apply find_some in E. destruct E as [_ E]. apply Js_eqb_eq in E.
    rewrite <- E. inversion H. reflexivity. }
  destruct (isType type "objective"); [now apply L in H|].
  destruct (isType type "note"); [now apply L in H|].
  destruct (isType type "bookmark"); [now apply L in H|].
  destruct (isType type "task-list"); [now apply L in H|].
  discriminate.
Qed.

(** The full statement of the renumbering, for the side list. *)
Lemma side_full_renumbering data bookmarks type id target prevEl nextEl dropped :
  findDropped data bookmarks type id = Some dropped ->
  let rest := siblingsOf data bookmarks id target in
  Permutation rest (filter (isNot id) (collect data bookmarks target)) /\
  Js.ascending key rest /\
  exists k updates,
    (k <= List.length rest)%nat /\
    buildUpdatesArray data bookmarks type id target prevEl nextEl = Some updates /\
    map Update.id updates
      = map Item.id (firstn k rest) ++ Item.id dropped :: map Item.id (skipn k rest) /\
    List.length updates = S (List.length rest) /\
    (forall i u, nth_error updates i = Some u ->
       Update.orderIndex u = Z.of_nat i * 1000 /\ containerOf u = target) /\
    (forall i u v, nth_error updates i = Some u -> nth_error updates (S i) = Some v ->
       Update.orderIndex v - Update.orderIndex u = 1000).
Proof.
  intros Hfind rest.
  split; [apply side_siblingsOf_perm|]. split; [apply side_siblingsOf_ascending|].
  exists (insertIndexOf rest prevEl nextEl),
         (Js.mapi (mkUpdate target) (Js.splice rest (insertIndexOf rest prevEl nextEl) dropped)).
  split; [apply side_insertIndexOf_le|].
  split; [now apply side_buildUpdatesArray_found|].
  split.
  { unfold Js.mapi. rewrite (map_mapiFrom _ _ Item.id) by reflexivity.
    unfold Js.splice. now rewrite map_app. }
  split; [now rewrite mapi_length, splice_length|].
  split; [intros i u; apply side_mapi_mkUpdate_nth|].
  intros i u v Hu Hv.
  apply side_mapi_mkUpdate_nth in Hu, Hv. destruct Hu as [-> _], Hv as [-> _]. lia.
Qed.

End SideListFacts.

(** Scenario of the specification: [C] dragged between [A] and [B]. *)
Example reorder_within_parent :
  TaskList.buildUpdatesArray Sample.tasksABC (Js.Str "C") (Js.Str "P")
    (Some Sample.rowA) (Some Sample.rowB)
  = Some [ TaskList.Update.mk "A" 0 (Js.Str "P");
           TaskList.Update.mk "C" 1000 (Js.Str "P");
           TaskList.Update.mk "B" 2000 (Js.Str "P") ].
Proof. reflexivity. Qed.

(** Scenario of the specification: the note [L] dropped into the folder [F]
    lands after the objective already there. *)
Example nest_into_folder :
  SideList.buildUpdatesArray Sample.sideData None (Js.Str "note") (Js.Str "L") (Js.Str "F")
    None None
  = Some [ SideList.Update.mk "O" (Js.Str "objective") 0 Js.Undefined (Js.Str "F");
           SideList.Update.mk "L" (Js.Str "note") 1000 Js.Undefined (Js.Str "F") ].
Proof. reflexivity. Qed.

(* ================================================================== *)
(** * Where the moved node is inserted *)
(* ================================================================== *)

Lemma TaskList_insert_front tasks taskId target prevEl nextEl moved :
  find (fun t => Js.eqb (Js.Str (Task.id t)) taskId) tasks = Some moved ->
  TaskList.insertIndexOf (TaskList.siblingsOf tasks taskId target) prevEl nextEl = O ->
  TaskList.buildUpdatesArray tasks taskId target prevEl nextEl
  = Some (Js.mapi (TaskListTerms.mkUpdate target)
            (moved :: TaskList.siblingsOf tasks taskId target)).
Proof.
  intros Hf Hi. rewrite (TaskListFacts.buildUpdatesArray_found _ _ _ _ _ _ Hf), Hi.
  reflexivity.
Qed.

Lemma SideList_insert_front data bookmarks type id target prevEl nextEl dropped :
  SideList.findDropped data bookmarks type id = Some dropped ->
  SideList.insertIndexOf (SideList.siblingsOf data bookmarks id target) prevEl nextEl = O ->
  SideList.buildUpdatesArray data bookmarks type id target prevEl nextEl
  = Some (Js.mapi (SideListTerms.mkUpdate target)
            (dropped :: SideList.siblingsOf data bookmarks id target)).
Proof.
  intros Hf Hi. rewrite (SideListFacts.side_buildUpdatesArray_found _ _ _ _ _ _ _ _ Hf), Hi.
  reflexivity.
Qed.

(* ================================================================== *)
(** * The planner under any conforming [sort] *)
(* ================================================================== *)

Lemma TaskList_buildUpdatesArray_runs tasks taskId target prevEl nextEl :
  TaskList_run tasks taskId target prevEl nextEl
    (TaskList.buildUpdatesArray tasks taskId target prevEl nextEl).
Proof.
  eexists. split; [apply sortBy_stable|reflexivity].
Qed.

Lemma SideList_buildUpdatesArray_runs data bookmarks type id target prevEl nextEl :
  SideList_run data bookmarks type id target prevEl nextEl
    (SideList.buildUpdatesArray data bookmarks type id target prevEl nextEl).
Proof.
  eexists. split; [apply sortBy_stable|reflexivity].
Qed.

Lemma TaskList_run_functional tasks taskId target prevEl nextEl r1 r2 :
  TaskList_run tasks taskId target prevEl nextEl r1 ->
  TaskList_run tasks taskId target prevEl nextEl r2 ->
  r1 = r2.
Proof.
  intros (s1 & S1 & ->) (s2 & S2 & ->).
  now rewrite (StableSortOf_unique _ _ _ _ S1 S2).
Qed.

Lemma SideList_run_functional data bookmarks type id target prevEl nextEl r1 r2 :
  SideList_run data bookmarks type id target prevEl nextEl r1 ->
  SideList_run data bookmarks type id target prevEl nextEl r2 ->
  r1 = r2.
Proof.
  intros (s1 & S1 & ->) (s2 & S2 & ->).
  now rewrite (StableSortOf_unique _ _ _ _ S1 S2).
Qed.

Example ties_keep_collection_order :
  TaskList.buildUpdatesArray Sample_ties (Js.Str "B") Js.Null None None
  = Some [ TaskList.Update.mk "A" 0 Js.Null;
           TaskList.Update.mk "C" 1000 Js.Null;
           TaskList.Update.mk "B" 2000 Js.Null ].
Proof. reflexivity. Qed.

(* ================================================================== *)
(** * The hover classification of the sortable *)
(* ================================================================== *)

(** [x < y] is false of two doubles that are equal ([x === y]). *)
Lemma number_lt_not_eq (x y : Js.number) : (x =? y)%float = true -> (x <? y)%float = false.
Proof.
  rewrite FloatAxioms.eqb_spec, FloatAxioms.ltb_spec. unfold SFeqb, SFltb.
  now destruct (SFcompare (Prim2SF x) (Prim2SF y)) as [[| |]|].
Qed.

Section SortableFacts.
Variable ItemData : Type.
Variable config : Sortable.Config ItemData.

(** What makes the [each] loop stop at a candidate. *)
Lemma dropsInto_true e draggedEl draggedData targetEl :
  Sortable.dropsInto config e draggedEl draggedData targetEl = Some true <->
  Sortable.isDropTarget config targetEl = true /\
  Element.same targetEl draggedEl = false /\
  Sortable.outside e (Element.rect targetEl) = false /\
  Sortable.inCenterZone config e (Element.rect targetEl) = true /\
  Sortable.canDrop config draggedEl targetEl draggedData = Some true.
Proof.
  unfold Sortable.dropsInto.
  destruct (Sortable.isDropTarget config targetEl); simpl;
    [|split; [discriminate|intros (H & _); discriminate]].
  destruct (Element.same targetEl draggedEl);
    [split; [discriminate|intros (_ & H & _); discriminate]|].
  destruct (Sortable.outside e (Element.rect targetEl));
    [split; [discriminate|intros (_ & _ & H & _); discriminate]|].
  destruct (Sortable.canDrop config draggedEl targetEl draggedData) as [[|]|];
    destruct (Sortable.inCenterZone config e (Element.rect targetEl));
    simpl; split; try discriminate; try tauto;
    intros (_ & _ & _ & H1 & H2); discriminate.
Qed.

(** The center zone, as the two comparisons of the source. *)
Lemma inCenterZone_iff e rect :
  Sortable.inCenterZone config e rect = true <->
  (Rect.height rect * Sortable.dropZoneThreshold config
     <? Sortable.pageY e - Rect.top rect)%float = true /\
  (Sortable.pageY e - Rect.top rect
     <? Rect.height rect - Rect.height rect * Sortable.dropZoneThreshold config)%float
  = true.
Proof. unfold Sortable.inCenterZone. now rewrite andb_true_iff. Qed.

Lemma firstDropTarget_found e draggedEl draggedData items t :
  Sortable.firstDropTarget config e draggedEl draggedData items = Some (Some t) ->
  In t items /\
  Sortable.dropsInto config e draggedEl draggedData t = Some true.
Proof.
  induction items as [|x r IH]; simpl; [discriminate|].
  destruct (Sortable.dropsInto config e draggedEl draggedData x) as [[|]|] eqn:E;
    [|intros H; destruct (IH H); auto|discriminate].
  intros H. inversion H; subst. auto.
Qed.

Lemma firstDropTarget_none e draggedEl draggedData items :
  (forall t, In t items ->
     Sortable.dropsInto config e draggedEl draggedData t = Some false) ->
  Sortable.firstDropTarget config e draggedEl draggedData items = Some None.
Proof.
  induction items as [|x r IH]; simpl; intros H; [reflexivity|].
  rewrite (H x) by now left. apply IH. intros t Ht. apply H. now right.
Qed.

Lemma dropsInto_not_target e draggedEl draggedData targetEl :
  Sortable.isDropTarget config targetEl = false ->
  Sortable.dropsInto config e draggedEl draggedData targetEl = Some false.
Proof. unfold Sortable.dropsInto. now intros ->. Qed.

Lemma hoverChecked_initial : hoverChecked config Sortable.initialState.
Proof. intros t H. discriminate. Qed.

Lemma handleSort_hoverChecked e items st st' :
  hoverChecked config st ->
  Sortable.handleSort config e items st = Some st' ->
  hoverChecked config st'.
Proof.
  unfold Sortable.handleSort. intros Inv.
  destruct (Sortable._isActive st); [|intros H; inversion H; subst; exact Inv].
  destruct (Sortable._draggedEl st) as [d|] eqn:Ed;
    [|intros H; inversion H; subst; exact Inv].
  destruct (Sortable._draggedData st) as [dd|] eqn:Edd;
    [|intros H; inversion H; subst; exact Inv].
  destruct (Sortable.firstDropTarget config e d dd items) as [found|] eqn:F;
    [|discriminate].
  intros H. inversion H; subst; clear H. intros t Ht. simpl in Ht. subst found.
  apply firstDropTarget_found in F. destruct F as [_ F].
  apply dropsInto_true in F. destruct F as (T & S & _ & _ & C).
  split; [exact T|]. exists d, dd. simpl. auto.
Qed.

Lemma step_hoverChecked i st st' evs :
  hoverChecked config st ->
  Sortable.step config i st = Some (st', evs) ->
  hoverChecked config st' /\
  forall el data t td, In (Sortable.OnDropInto el data t td) evs ->
    Sortable.isDropTarget config t = true /\
    exists draggedEl draggedData,
      Sortable._draggedEl st = Some draggedEl /\
      Sortable._draggedData st = Some draggedData /\
      Element.same t draggedEl = false /\
      Sortable.canDrop config draggedEl t draggedData = Some true.
Proof.
  intros Inv. destruct i as [el|e items|el prev next]; simpl.
  - intros H. inversion H; subst. split.
    + intros t Ht. discriminate.
    + intros ? ? ? ? [G|[]]. discriminate.
  - destruct (Sortable.handleSort config e items st) as [s|] eqn:E; [|discriminate].
    intros H. inversion H; subst. split.
    + eapply handleSort_hoverChecked; eauto.
    + intros ? ? ? ? [].
  - unfold Sortable.handleDragStop.
    destruct (Sortable._isActive st); simpl.
    + destruct (Sortable._hoverTargetEl st) as [t|] eqn:Eh;
        intros H; inversion H; subst; (split; [apply hoverChecked_initial|]).
      * intros el' data' t' td' [G|[G|[]]]; [discriminate|].
        inversion G; subst. now apply Inv.
      * intros el' data' t' td' [G|[G|[]]]; discriminate.
    + intros H; inversion H; subst. split; [apply hoverChecked_initial|].
      intros ? ? ? ? [].
Qed.

Lemma run_dropInto_checked inputs st st' evs :
  hoverChecked config st ->
  Sortable.run config inputs st = Some (st', evs) ->
  forall el data t td, In (Sortable.OnDropInto el data t td) evs ->
    Sortable.isDropTarget config t = true /\
    exists draggedEl draggedData,
      Element.same t draggedEl = false /\
      Sortable.canDrop config draggedEl t draggedData = Some true.
Proof.
  revert st st' evs. induction inputs as [|i rest IH]; simpl; intros st st' evs Inv H.
  - inversion H; subst. intros ? ? ? ? [].
  - destruct (Sortable.step config i st) as [[s1 e1]|] eqn:E; [|discriminate].
    destruct (Sortable.run config rest s1) as [[s2 e2]|] eqn:R; [|discriminate].
    inversion H; subst; clear H.
    destruct (step_hoverChecked _ _ _ _ Inv E) as [Inv1 Ev1].
    intros el data t td Hin. apply in_app_or in Hin. destruct Hin as [Hin|Hin].
    + destruct (Ev1 _ _ _ _ Hin) as (T & d & dd & _ & _ & S & C). eauto 6.
    + eapply IH; eauto.
Qed.

End SortableFacts.

(* ================================================================== *)
(** * Descendants of a task *)
(* ================================================================== *)

Section CollectFacts.
Variable g : Task.t -> option (list string).

Lemma loop_cons x r acc :
  loop g (x :: r) acc
  = loop g r (match acc, g x with
              | Some ds, Some sub => Some (ds ++ Task.id x :: sub)
              | _, _ => None
              end).
Proof. reflexivity. Qed.

Lemma loop_None children : loop g children None = None.
Proof. induction children as [|c r IH]; [reflexivity|]. now rewrite loop_cons. Qed.

Lemma loop_fails children acc c :
  In c children -> g c = None -> loop g children acc = None.
Proof.
  revert acc. induction children as [|x r IH]; intros acc [] Hg; rewrite loop_cons.
  - subst x. rewrite Hg. destruct acc; apply loop_None.
  - now apply IH.
Qed.

Lemma loop_returns children acc :
  (forall c, In c children -> g c <> None) ->
  exists r, loop g children (Some acc) = Some r.
Proof.
  revert acc. induction children as [|x r IH]; intros acc H.
  - simpl. eauto.
  - rewrite loop_cons.
    destruct (g x) as [sub|] eqn:E; [|exfalso; eapply H; [now left|exact E]].
    apply IH. intros c Hc. apply H. now right.
Qed.

Lemma loop_In children acc r d :
  loop g children (Some acc) = Some r ->
  (In d r <->
   In d acc \/
   exists c sub, In c children /\ g c = Some sub /\ (d = Task.id c \/ In d sub)).
Proof.
  revert acc. induction children as [|x rest IH]; intros acc H.
  - inversion H; subst. split; [auto|]. intros [?|(c & _ & [] & _)]. assumption.
  - rewrite loop_cons in H.
    destruct (g x) as [sub|] eqn:E; [|now rewrite (loop_None rest) in H].
    rewrite (IH _ H). rewrite in_app_iff. simpl. split.
    + intros [[?|[<-|?]]|(c & s & Hc & Hs & Hd)]; eauto 10.
    + intros [?|(c & s & [<-|Hc] & Hs & Hd)]; eauto 10.
      rewrite E in Hs. inversion Hs; subst. destruct Hd; subst; auto.
Qed.

End CollectFacts.

Lemma loop_ext (g g' : Task.t -> option (list string)) children acc :
  (forall c, In c children -> g c = g' c) ->
  loop g children acc = loop g' children acc.
Proof.
  revert acc. induction children as [|x r IH]; intros acc H; [reflexivity|].
  rewrite !loop_cons. rewrite (H x) by now left. apply IH. intros c Hc. apply H. now right.
Qed.

Section DescendantFacts.
Import TaskHelpers.
Variable tasks : list Task.t.

Lemma childrenOf_In taskId t :
  In t (childrenOf tasks taskId) <-> In t tasks /\ Task.parentTaskId t = taskId.
Proof. unfold childrenOf. now rewrite filter_In, Js_eqb_eq. Qed.

Lemma getTaskDescendants_S fuel taskId :
  getTaskDescendants (S fuel) tasks taskId
  = loop (fun child => getTaskDescendants fuel tasks (Js.Str (Task.id child)))
      (childrenOf tasks taskId) (Some []).
Proof. reflexivity. Qed.

(** More fuel does not change a result. *)
Lemma getTaskDescendants_more_fuel fuel : forall taskId l,
  getTaskDescendants fuel tasks taskId = Some l ->
  getTaskDescendants (S fuel) tasks taskId = Some l.
Proof.
  induction fuel as [|f IH]; intros taskId l H; [discriminate|].
  rewrite getTaskDescendants_S in *. rewrite <- H. apply loop_ext.
  intros c Hc.
  destruct (getTaskDescendants f tasks (Js.Str (Task.id c))) as [sub|] eqn:E.
  - now apply IH.
  - exfalso. rewrite (loop_fails _ _ _ c Hc E) in H. discriminate.
Qed.

Lemma getTaskDescendants_fuel_le fuel fuel' taskId l :
  (fuel <= fuel')%nat ->
  getTaskDescendants fuel tasks taskId = Some l ->
  getTaskDescendants fuel' tasks taskId = Some l.
Proof.
  intros Hle. induction Hle as [|m _ IH]; [auto|].
  intros G. now apply getTaskDescendants_more_fuel, IH.
Qed.

(** A task without children has no descendants. *)
Lemma getTaskDescendants_leaf fuel taskId :
  (forall t, In t tasks -> Task.parentTaskId t <> taskId) ->
  getTaskDescendants (S fuel) tasks taskId = Some [].
Proof.
  intros H. rewrite getTaskDescendants_S.
  replace (childrenOf tasks taskId) with (@nil Task.t); [reflexivity|].
  symmetry. unfold childrenOf. induction tasks as [|t r IH]; simpl; [reflexivity|].
  destruct (Js.eqb (Task.parentTaskId t) taskId) eqn:E.
  - apply Js_eqb_eq in E. exfalso. apply (H t); [now left|exact E].
  - apply IH. intros x Hx. apply H. now right.
Qed.

Lemma descendantOf_snoc a b c :
  descendantOf tasks a b -> childOf tasks b c -> descendantOf tasks a c.
Proof.
  induction 1 as [p x Hc|p x d Hc _ IH]; intros H.
  - eapply desc_step; [exact Hc|]. now apply desc_child.
  - eapply desc_step; [exact Hc|]. now apply IH.
Qed.

(** The recursion is at most as deep as the collection is long. *)
Lemma getTaskDescendants_bounded :
  acyclic tasks ->
  forall fuel path c,
    NoDup path -> incl path (map Task.id tasks) -> In c path ->
    (forall y, In y path -> y = c \/ descendantOf tasks y c) ->
    (List.length tasks < fuel + List.length path)%nat ->
    getTaskDescendants fuel tasks (Js.Str c) <> None.
Proof.
  intros Hac. induction fuel as [|f IH]; intros path c ND Hincl Hc Hanc Hlen.
  - apply NoDup_incl_length in Hincl; [|exact ND].
    rewrite length_map in Hincl. simpl in Hlen. lia.
  - rewrite getTaskDescendants_S.
    destruct (loop_returns (fun child => getTaskDescendants f tasks (Js.Str (Task.id child)))
                (childrenOf tasks (Js.Str c)) []) as [r Hr]; [|congruence].
    intros t Ht. apply childrenOf_In in Ht. destruct Ht as [Hin Hp].
    assert (Hchild : childOf tasks c (Task.id t)) by (exists t; auto).
    apply (IH (Task.id t :: path)).
    + constructor; [|exact ND]. intros Hmem.
      destruct (Hanc _ Hmem) as [E|D].
      * apply (Hac c). apply desc_child. now rewrite E in Hchild.
      * apply (Hac (Task.id t)). eapply descendantOf_snoc; eauto.
    + intros y [<-|Hy]; [now apply in_map|now apply Hincl].
    + now left.
    + intros y [<-|Hy]; [now left|]. right.
      destruct (Hanc _ Hy) as [->|D]; [now apply desc_child|].
      eapply descendantOf_snoc; eauto.
    + simpl. lia.
Qed.

(** Under acyclicity, [length tasks + 1] levels of recursion are enough for
    any starting id. *)
Lemma getTaskDescendants_terminates taskId :
  acyclic tasks ->
  exists l, getTaskDescendants (S (List.length tasks)) tasks taskId = Some l.
Proof.
  intros Hac. rewrite getTaskDescendants_S.
  apply loop_returns. intros t Ht. apply childrenOf_In in Ht. destruct Ht as [Hin _].
  apply (getTaskDescendants_bounded Hac _ [Task.id t]).
  - constructor; [intros []|constructor].
  - intros y [<-|[]]. now apply in_map.
  - now left.
  - intros y [<-|[]]. now left.
  - simpl. lia.
Qed.

Lemma reachesCycle_child y :
  reachesCycle tasks y -> exists c, childOf tasks y c /\ reachesCycle tasks c.
Proof.
  intros (z & [->|D] & Z).
  - inversion Z as [p c Hc|p c d Hc Hd]; subst.
    + exists z. split; [exact Hc|]. exists z. auto.
    + exists c. split; [exact Hc|]. exists z. auto.
  - inversion D as [p c Hc|p c d Hc Hd]; subst.
    + exists z. split; [exact Hc|]. exists z. auto.
    + exists c. split; [exact Hc|]. exists z. auto.
Qed.

Lemma getTaskDescendants_diverges fuel : forall y,
  reachesCycle tasks y -> getTaskDescendants fuel tasks (Js.Str y) = None.
Proof.
  induction fuel as [|f IH]; intros y Hy; [reflexivity|].
  destruct (reachesCycle_child _ Hy) as (c & (t & Hin & Hid & Hp) & Hc).
  rewrite getTaskDescendants_S.
  apply (loop_fails (fun child => getTaskDescendants f tasks (Js.Str (Task.id child))) _ _ t).
  - apply childrenOf_In. auto.
  - rewrite Hid. now apply IH.
Qed.

Lemma descendantOf_is_task a b :
  descendantOf tasks a b -> exists t, In t tasks /\ Task.id t = b.
Proof.
  induction 1 as [p c (t & Hin & Hid & _)|p c d _ _ IH]; eauto.
Qed.

Lemma acyclicb_sound : acyclicb tasks = true -> acyclic tasks.
Proof.
  unfold acyclicb. rewrite forallb_forall. intros H x D.
  destruct (descendantOf_is_task _ _ D) as (t & Hin & <-).
  specialize (H t Hin).
  rewrite getTaskDescendants_diverges in H; [discriminate|].
  exists (Task.id t). auto.
Qed.

(** [isTaskDescendantOf] answers [true] on equal ids before it looks at the
    collection, whatever the fuel. *)
Lemma isTaskDescendantOf_self fuel n :
  isTaskDescendantOf fuel tasks n n = Some true.
Proof. unfold isTaskDescendantOf. now rewrite Js_eqb_refl. Qed.

Lemma isTaskDescendantOf_terminates a b :
  acyclic tasks ->
  exists r, isTaskDescendantOf (S (List.length tasks)) tasks a b = Some r.
Proof.
  intros Hac. unfold isTaskDescendantOf.
  destruct (Js.eqb a b); [eauto|].
  destruct (getTaskDescendants_terminates b Hac) as [l ->]. eauto.
Qed.

End DescendantFacts.

Section DescendantSpec.
Import TaskHelpers.
Variable tasks : list Task.t.

Lemma below_Str_descendantOf p d : below tasks (Js.Str p) d <-> descendantOf tasks p d.
Proof.
  split.
  - intros (t & Hin & Hp & [<-|D]).
    + apply desc_child. exists t. auto.
    + eapply desc_step; [|exact D]. exists t. auto.
  - intros D. inversion D as [p' c (t & Hin & Hid & Hp)|p' c d' (t & Hin & Hid & Hp) Hd]; subst.
    + exists t. auto.
    + exists t. auto.
Qed.

(** When [getTaskDescendants] returns, it returns exactly the ids below
    [taskId]. *)
Lemma getTaskDescendants_spec fuel : forall taskId l,
  getTaskDescendants fuel tasks taskId = Some l ->
  forall d, In d l <-> below tasks taskId d.
Proof.
  induction fuel as [|f IH]; intros taskId l H d; [discriminate|].
  rewrite getTaskDescendants_S in H.
  rewrite (loop_In _ _ _ _ d H). split.
  - intros [[]|(c & sub & Hc & Hsub & Hd)].
    apply childrenOf_In in Hc. destruct Hc as [Hin Hp].
    exists c. split; [exact Hin|]. split; [exact Hp|].
    destruct Hd as [->|Hd]; [now left|]. right.
    apply below_Str_descendantOf. now apply (IH _ _ Hsub).
  - intros (t & Hin & Hp & Hd). right.
    assert (Hc : In t (childrenOf tasks taskId)) by (apply childrenOf_In; auto).
    destruct (getTaskDescendants f tasks (Js.Str (Task.id t))) as [sub|] eqn:E.
    + exists t, sub. split; [exact Hc|]. split; [exact E|].
      destruct Hd as [<-|Hd]; [now left|]. right.
      apply (IH _ _ E). now apply below_Str_descendantOf.
    + rewrite (loop_fails _ _ _ t Hc E) in H. discriminate.
Qed.

Lemma includes_In l d : includes l (Js.Str d) = true <-> In d l.
Proof.
  unfold includes. rewrite existsb_exists. split.
  - intros (x & Hx & E). apply Js_eqb_eq in E. inversion E. now subst.
  - intros H. exists d. split; [exact H|apply Js_eqb_refl].
Qed.

(** [canDrop] of the task list never accepts the dragged task itself or
    one of its descendants as a target. *)
Lemma TaskList_canDrop_rejects fuel draggedEl targetEl draggedData a b :
  TaskList.id draggedData = Js.Str a ->
  Dataset.taskId (Element.dataset targetEl) = Js.Str b ->
  a = b \/ descendantOf tasks a b ->
  TaskList.canDrop fuel tasks draggedEl targetEl draggedData <> Some true.
Proof.
  intros Ha Hb Hrel. unfold TaskList.canDrop. rewrite Ha, Hb.
  destruct (Js.eqb (Js.Str a) (Js.Str b)) eqn:E; [discriminate|].
  destruct Hrel as [->|D]; [now rewrite Js_eqb_refl in E|].
  unfold isTaskDescendantOf.
  destruct (Js.eqb (Js.Str b) (Js.Str a)); [discriminate|].
  destruct (getTaskDescendants fuel tasks (Js.Str a)) as [l|] eqn:G; [|discriminate].
  assert (Hin : In b l).
  { apply (getTaskDescendants_spec _ _ _ G). now apply below_Str_descendantOf. }
  apply includes_In in Hin. rewrite Hin. discriminate.
Qed.

End DescendantSpec.

(* ================================================================== *)
(** * Writes to the task collection *)
(* ================================================================== *)

Section WriteFacts.
Import TaskList.

Lemma applyUpdate_writeEntry u tasks : applyUpdate u tasks = writeEntry (toEntry u) tasks.
Proof.
  induction tasks as [|t r IH]; simpl; [reflexivity|].
  destruct (String.eqb (Task.id t) (Update.id u)); [reflexivity|now rewrite IH].
Qed.

Lemma applyUpdatesLocally_writeAll updates tasks :
  applyUpdatesLocally updates tasks = writeAll (map toEntry updates) tasks.
Proof.
  unfold applyUpdatesLocally, writeAll. revert tasks.
  induction updates as [|u r IH]; simpl; intros; [reflexivity|].
  now rewrite applyUpdate_writeEntry, IH.
Qed.

Lemma writeAll_app e1 e2 tasks :
  writeAll (e1 ++ e2) tasks = writeAll e2 (writeAll e1 tasks).
Proof. apply fold_left_app. Qed.

Lemma writeAll_nil entries : writeAll entries [] = [].
Proof. induction entries; simpl; auto. Qed.

Lemma writeEntry_cons e t rest :
  writeEntry e (t :: rest)
  = if String.eqb (Task.id t) (fst e) then withFields t (snd e) :: rest
    else t :: writeEntry e rest.
Proof. reflexivity. Qed.

Lemma writesTo_cons e r t :
  writesTo (e :: r) t
  = writesTo r (if String.eqb (Task.id t) (fst e) then withFields t (snd e) else t).
Proof. reflexivity. Qed.

Lemma writeAll_step e r tasks :
  writeAll (e :: r) tasks = writeAll r (writeEntry e tasks).
Proof. reflexivity. Qed.

Lemma writeAll_cons entries : forall t rest,
  writeAll entries (t :: rest)
  = writesTo entries t
    :: writeAll (filter (fun e => negb (String.eqb (Task.id t) (fst e))) entries) rest.
Proof.
  induction entries as [|e r IH]; intros t rest; [reflexivity|].
  rewrite writeAll_step, writeEntry_cons, writesTo_cons.
  cbn [filter].
  destruct (String.eqb (Task.id t) (fst e)) eqn:E; cbn [negb]; rewrite IH.
  - reflexivity.
  - now rewrite writeAll_step.
Qed.

Lemma writesTo_id entries : forall t, Task.id (writesTo entries t) = Task.id t.
Proof.
  unfold writesTo. induction entries as [|e r IH]; intros t; simpl; [reflexivity|].
  rewrite IH. now destruct (String.eqb (Task.id t) (fst e)).
Qed.

Lemma writesTo_none entries : forall t,
  (forall e, In e entries -> fst e <> Task.id t) -> writesTo entries t = t.
Proof.
  unfold writesTo. induction entries as [|e r IH]; intros t H; simpl; [reflexivity|].
  destruct (String.eqb (Task.id t) (fst e)) eqn:E.
  - apply String.eqb_eq in E. exfalso. apply (H e); [now left|auto].
  - apply IH. intros e' He'. apply H. now right.
Qed.

Lemma writesTo_filter y entries : forall t,
  Task.id t <> y ->
  writesTo (filter (fun e => negb (String.eqb y (fst e))) entries) t = writesTo entries t.
Proof.
  unfold writesTo. induction entries as [|e r IH]; intros t H; simpl; [reflexivity|].
  destruct (String.eqb y (fst e)) eqn:E; simpl.
  - apply String.eqb_eq in E.
    destruct (String.eqb (Task.id t) (fst e)) eqn:E'.
    + apply String.eqb_eq in E'. congruence.
    + now apply IH.
  - destruct (String.eqb (Task.id t) (fst e)); apply IH; auto.
Qed.

(** Writes that all carry the same fields for [t]'s id leave those fields. *)
Lemma writesTo_same entries f : forall t,
  (forall e, In e entries -> fst e = Task.id t -> snd e = f) ->
  (exists e, In e entries /\ fst e = Task.id t) ->
  writesTo entries t = withFields t f.
Proof.
  unfold writesTo. induction entries as [|e r IH]; intros t Hall [e0 [Hin He0]];
    [destruct Hin|]. simpl.
  destruct (String.eqb (Task.id t) (fst e)) eqn:E.
  - apply String.eqb_eq in E.
    assert (Hf : snd e = f) by (apply Hall; [now left|auto]).
    rewrite Hf.
    destruct (existsb (fun e' => String.eqb (Task.id t) (fst e')) r) eqn:X.
    + apply existsb_exists in X. destruct X as (e1 & H1 & H1').
      apply String.eqb_eq in H1'.
      rewrite (IH (withFields t f)); [reflexivity| |exists e1; auto].
      intros e' He' Hid. apply Hall; [now right|exact Hid].
    + fold (writesTo r (withFields t f)). apply writesTo_none.
      intros e' He' Hid. simpl in Hid.
      assert (existsb (fun e' => String.eqb (Task.id t) (fst e')) r = true).
      { apply existsb_exists. exists e'. split; [exact He'|].
        apply String.eqb_eq. auto. }
      congruence.
  - apply IH.
    + intros e' He'. apply Hall. now right.
    + destruct Hin as [<-|Hin]; [|exists e0; auto].
      rewrite He0, String.eqb_refl in E. discriminate.
Qed.

(** A sequence of writes whose net effect on every first-with-its-id task
    is nil leaves the collection as it was. *)
Lemma writeAll_identity : forall tasks entries,
  (forall x t, find (fun t => String.eqb (Task.id t) x) tasks = Some t ->
               writesTo entries t = t) ->
  writeAll entries tasks = tasks.
Proof.
  induction tasks as [|t rest IH]; intros entries H; [apply writeAll_nil|].
  rewrite writeAll_cons. f_equal.
  - apply (H (Task.id t)). simpl. now rewrite String.eqb_refl.
  - apply IH. intros x t2 Hfind.
    assert (Hid : Task.id t2 = x).
    { apply find_some in Hfind. destruct Hfind as [_ E]. now apply String.eqb_eq in E. }
    destruct (String.eqb (Task.id t) x) eqn:E.
    + apply String.eqb_eq in E. apply writesTo_none.
      intros e He. apply filter_In in He. destruct He as [_ He].
      apply negb_true_iff, String.eqb_neq in He. congruence.
    + rewrite writesTo_filter.
      * apply (H x). simpl. now rewrite E.
      * apply String.eqb_neq in E. congruence.
Qed.

End WriteFacts.

(* ================================================================== *)
(** * Re-planning from the updated state *)
(* ================================================================== *)

Section MoreListFacts.
Context {A : Type}.

Lemma NoDup_map_filter {B : Type} (f : A -> B) (p : A -> bool) l :
  NoDup (map f l) -> NoDup (map f (filter p l)).
Proof.
  induction l as [|x r IH]; simpl; intros H; [constructor|].
  inversion H as [|? ? Hx Hr]; subst.
  destruct (p x); simpl; [|now apply IH].
  constructor; [|now apply IH].
  intros Hin. apply Hx. apply in_map_iff in Hin. destruct Hin as (y & E & Hy).
  apply filter_In in Hy. apply in_map_iff. exists y. tauto.
Qed.

Lemma NoDup_map_inj_on {B : Type} (f : A -> B) l x y :
  NoDup (map f l) -> In x l -> In y l -> f x = f y -> x = y.
Proof.
  induction l as [|z r IH]; simpl; intros H Hx Hy E; [destruct Hx|].
  inversion H as [|? ? Hz Hr]; subst.
  destruct Hx as [->|Hx], Hy as [->|Hy]; auto.
  - exfalso. apply Hz. rewrite E. now apply in_map.
  - exfalso. apply Hz. rewrite <- E. now apply in_map.
Qed.

Lemma NoDup_of_map {B : Type} (f : A -> B) l : NoDup (map f l) -> NoDup l.
Proof.
  induction l as [|x r IH]; simpl; intros H; [constructor|].
  inversion H; subst. constructor; [|auto].
  intros Hin. apply H2. now apply in_map.
Qed.

Lemma filter_map_commute {B : Type} (f : A -> B) (p : B -> bool) l :
  filter p (map f l) = map f (filter (fun x => p (f x)) l).
Proof.
  induction l as [|x r IH]; simpl; [reflexivity|].
  destruct (p (f x)); simpl; now rewrite IH.
Qed.

Lemma filter_all (p : A -> bool) l :
  (forall x, In x l -> p x = true) -> filter p l = l.
Proof.
  induction l as [|x r IH]; simpl; intros H; [reflexivity|].
  rewrite (H x) by now left. f_equal. apply IH. intros y Hy. apply H. now right.
Qed.

Lemma filter_none (p : A -> bool) l :
  (forall x, In x l -> p x = false) -> filter p l = [].
Proof.
  induction l as [|x r IH]; simpl; intros H; [reflexivity|].
  rewrite (H x) by now left. apply IH. intros y Hy. apply H. now right.
Qed.

Lemma find_map_commute (f : A -> A) (p : A -> bool) l :
  (forall x, p (f x) = p x) -> find p (map f l) = option_map f (find p l).
Proof.
  intros H. induction l as [|x r IH]; simpl; [reflexivity|].
  rewrite H. destruct (p x); [reflexivity|exact IH].
Qed.

Lemma findIndex_map (f : A -> A) (p : A -> bool) l :
  (forall x, p (f x) = p x) -> Js.findIndex p (map f l) = Js.findIndex p l.
Proof.
  intros H. induction l as [|x r IH]; simpl; [reflexivity|].
  rewrite H, IH. reflexivity.
Qed.

Lemma splice_map (f : A -> A) l i x :
  Js.splice (map f l) i (f x) = map f (Js.splice l i x).
Proof.
  unfold Js.splice. now rewrite map_app, firstn_map, skipn_map.
Qed.

Lemma splice_nth_error_at l i (x : A) :
  (i <= List.length l)%nat -> nth_error (Js.splice l i x) i = Some x.
Proof.
  intros H. unfold Js.splice.
  rewrite nth_error_app2; rewrite firstn_length_le by exact H; [|lia].
  now rewrite Nat.sub_diag.
Qed.

Lemma splice_nth_error_before l i (x : A) j :
  (j < i)%nat -> (i <= List.length l)%nat ->
  nth_error (Js.splice l i x) j = nth_error l j.
Proof.
  intros H Hi. unfold Js.splice.
  rewrite nth_error_app1 by (rewrite firstn_length_le; lia).
  rewrite nth_error_firstn.
  apply Nat.ltb_lt in H. now rewrite H.
Qed.

Lemma splice_nth_error_after l i (x : A) j :
  (i <= j)%nat -> (i <= List.length l)%nat ->
  nth_error (Js.splice l i x) (S j) = nth_error l j.
Proof.
  intros H Hi. unfold Js.splice.
  rewrite nth_error_app2; rewrite firstn_length_le by exact Hi; [|lia].
  replace (S j - i)%nat with (S (j - i)) by lia. simpl.
  rewrite nth_error_skipn. f_equal. lia.
Qed.

(** In a list without repeated images, the first index that matches is
    the index. *)
Lemma findIndex_nth_NoDup {B : Type} (f : A -> B) (p : A -> bool) l i x :
  NoDup (map f l) ->
  (forall y, p y = true -> f y = f x) ->
  nth_error l i = Some x -> p x = true ->
  Js.findIndex p l = Some i.
Proof.
  revert i. induction l as [|z r IH]; intros i ND Hp Hn Hx; [now destruct i|].
  inversion ND as [|? ? Hz Hr]; subst. destruct i as [|i]; simpl in *.
  - inversion Hn; subst. now rewrite Hx.
  - destruct (p z) eqn:Pz.
    + exfalso. apply Hz. rewrite (Hp z Pz). apply in_map. eapply nth_error_In; eauto.
    + now rewrite (IH i).
Qed.

End MoreListFacts.

Lemma orNull_idempotent x : Js.orNull (Js.orNull x) = Js.orNull x.
Proof.
  destruct x as [| |s]; simpl; try reflexivity.
  destruct (String.eqb s "") eqn:E; simpl; [reflexivity|now rewrite E].
Qed.

Lemma ascending_mapi_stride {A : Type} (key : A -> Z) (f : nat -> A -> A) l i :
  (forall n a, key (f n a) = Z.of_nat n * 1000) ->
  Js.ascending key (Js.mapiFrom f i l).
Proof.
  intros Hk. unfold Js.ascending. revert i.
  induction l as [|x r IH]; intros i; simpl; constructor; [apply IH|].
  rewrite Forall_forall. intros y Hy.
  apply In_nth_error in Hy. destruct Hy as [n Hn].
  rewrite mapiFrom_nth_error in Hn. destruct (nth_error r n); [|discriminate].
  inversion Hn; subst. rewrite !Hk. lia.
Qed.

Lemma NoDup_key_mapi_stride {A : Type} (key : A -> Z) (f : nat -> A -> A) l i :
  (forall n a, key (f n a) = Z.of_nat n * 1000) ->
  NoDup (map key (Js.mapiFrom f i l)).
Proof.
  intros Hk. revert i.
  induction l as [|x r IH]; intros i; simpl; constructor; [|apply IH].
  intros Hin. apply in_map_iff in Hin. destruct Hin as (y & E & Hy).
  apply In_nth_error in Hy. destruct Hy as [n Hn].
  rewrite mapiFrom_nth_error in Hn. destruct (nth_error r n); [|discriminate].
  inversion Hn; subst. rewrite !Hk in E. lia.
Qed.

Lemma filter_key_unique {A : Type} (key : A -> Z) (l : list A) k :
  NoDup (map key l) -> (List.length (filter (fun a => (key a =? k)%Z) l) <= 1)%nat.
Proof.
  induction l as [|x r IH]; simpl; intros H; [lia|].
  inversion H as [|? ? Hx Hr]; subst.
  destruct (key x =? k) eqn:E; [|now apply IH].
  apply Z.eqb_eq in E. simpl.
  rewrite filter_none; [simpl; lia|].
  intros y Hy. apply Z.eqb_neq. intros E'. apply Hx.
  rewrite E, <- E'. now apply in_map.
Qed.

(** A list whose keys are ascending and pairwise distinct is what the sort
    makes of any permutation of it. *)
Lemma sortBy_of_permutation {A : Type} (key : A -> Z) (l sorted : list A) :
  Permutation l sorted -> Js.ascending key sorted -> NoDup (map key sorted) ->
  Js.sortBy key l = sorted.
Proof.
  intros P Asc ND. apply (StableSortOf_unique key l); [apply sortBy_stable|].
  split; [exact Asc|]. intros k.
  pose proof (Permutation_filter (fun a => key a =? k) _ _ P) as PF.
  pose proof (filter_key_unique key sorted k ND) as Len.
  destruct (filter (fun a => key a =? k) sorted) as [|x [|y r]] eqn:E.
  - symmetry. apply Permutation_nil. now symmetry.
  - symmetry. apply Permutation_length_1_inv. now symmetry.
  - simpl in Len. lia.
Qed.

Lemma writeAll_map_NoDup : forall tasks entries,
  NoDup (map Task.id tasks) ->
  writeAll entries tasks = map (writesTo entries) tasks.
Proof.
  induction tasks as [|t rest IH]; intros entries ND; [apply writeAll_nil|].
  inversion ND as [|? ? Ht Hr]; subst.
  rewrite writeAll_cons. simpl. f_equal.
  rewrite IH by exact Hr. apply map_ext_in.
  intros t2 Hin. apply writesTo_filter.
  intros E. apply Ht. rewrite <- E. now apply in_map.
Qed.

Section Replan.
Import TaskList.

Variables (tasks : list Task.t) (taskId target : Js.nullable).
Variables (moved : Task.t) (k : nat).

Hypothesis ids_unique : NoDup (map Task.id tasks).
Hypothesis moved_found :
  find (fun t => Js.eqb (Js.Str (Task.id t)) taskId) tasks = Some moved.

Let rest := siblingsOf tasks taskId target.

Hypothesis k_le : (k <= List.length rest)%nat.

Let placed := Js.splice rest k moved.
Let updates := Js.mapi (TaskListTerms.mkUpdate target) placed.
Let renumber := renumberWith placed target.
Let isPlaced := isPlacedIn placed.
Let normalTarget := isNormalTarget target.

Lemma moved_id : Js.Str (Task.id moved) = taskId.
Proof.
  apply find_some in moved_found. destruct moved_found as [_ E].
  now apply Js_eqb_eq in E.
Qed.

Lemma moved_In : In moved tasks.
Proof. apply find_some in moved_found. tauto. Qed.

Lemma rest_In t : In t rest -> In t tasks /\ Js.Str (Task.id t) <> taskId.
Proof. intros H. apply TaskListFacts.siblingsOf_In in H. tauto. Qed.

Lemma placed_In t : In t placed -> In t tasks.
Proof.
  intros H. apply splice_In in H. destruct H as [->|H]; [apply moved_In|].
  now apply rest_In in H.
Qed.

Lemma rest_ids_NoDup : NoDup (map Task.id rest).
Proof.
  unfold rest, siblingsOf. apply NoDup_map_filter.
  eapply Permutation_NoDup.
  - apply Permutation_map. symmetry. apply sortBy_perm.
  - now apply NoDup_map_filter.
Qed.

Lemma placed_ids_NoDup : NoDup (map Task.id placed).
Proof.
  eapply Permutation_NoDup.
  - apply Permutation_map. symmetry. apply splice_perm.
  - simpl. constructor; [|apply rest_ids_NoDup].
    intros Hin. apply in_map_iff in Hin. destruct Hin as (t & E & Ht).
    apply rest_In in Ht. destruct Ht as [_ Hne]. apply Hne.
    rewrite E. apply moved_id.
Qed.

Lemma entries_In e :
  In e (map toEntry updates) <->
  exists j y, nth_error placed j = Some y /\
              e = (Task.id y, (Some (Z.of_nat j * 1000), target)).
Proof.
  rewrite in_map_iff. split.
  - intros (u & <- & Hu). apply In_nth_error in Hu. destruct Hu as [j Hj].
    unfold updates in Hj. rewrite mapi_nth_error in Hj.
    destruct (nth_error placed j) as [y|] eqn:E; [|discriminate].
    inversion Hj; subst. exists j, y. auto.
  - intros (j & y & Hj & ->).
    exists (TaskListTerms.mkUpdate target j y). split; [reflexivity|].
    apply (nth_error_In _ j). unfold updates. rewrite mapi_nth_error, Hj. reflexivity.
Qed.

Lemma placed_index_unique i j x y :
  nth_error placed i = Some x -> nth_error placed j = Some y ->
  Task.id x = Task.id y -> i = j.
Proof.
  intros Hi Hj E.
  apply (proj1 (NoDup_nth_error (map Task.id placed)) placed_ids_NoDup).
  - rewrite length_map. apply nth_error_Some. congruence.
  - rewrite !nth_error_map, Hi, Hj. simpl. now rewrite E.
Qed.

Lemma writesTo_renumber t : writesTo (map toEntry updates) t = renumber t.
Proof.
  unfold renumber, renumberWith.
  destruct (Js.findIndex _ placed) as [i|] eqn:F.
  - apply findIndex_Some in F. destruct F as (_ & (x & Hx & Ex) & _).
    apply String.eqb_eq in Ex.
    apply writesTo_same.
    + intros e He Hfst. apply entries_In in He. destruct He as (j & y & Hj & ->).
      simpl in *. assert (i = j) by (eapply placed_index_unique; eauto; congruence).
      now subst.
    + exists (Task.id x, (Some (Z.of_nat i * 1000), target)). split; [|exact Ex].
      apply entries_In. eauto.
  - apply writesTo_none. intros e He Hfst.
    apply entries_In in He. destruct He as (j & y & Hj & ->). simpl in Hfst.
    rewrite findIndex_None in F. specialize (F y (nth_error_In _ _ Hj)).
    apply String.eqb_neq in F. auto.
Qed.

Lemma applyUpdatesLocally_renumber :
  applyUpdatesLocally updates tasks = map renumber tasks.
Proof.
  rewrite applyUpdatesLocally_writeAll, writeAll_map_NoDup by exact ids_unique.
  apply map_ext. apply writesTo_renumber.
Qed.

Lemma renumber_id t : Task.id (renumber t) = Task.id t.
Proof. unfold renumber, renumberWith. now destruct (Js.findIndex _ placed). Qed.

Lemma renumber_idempotent t : renumber (renumber t) = renumber t.
Proof.
  unfold renumber, renumberWith at 1. rewrite renumber_id. unfold renumber, renumberWith.
  now destruct (Js.findIndex _ placed).
Qed.

(** Applying the same plan a second time changes nothing. *)
Lemma applyUpdatesLocally_twice :
  applyUpdatesLocally updates (applyUpdatesLocally updates tasks)
  = applyUpdatesLocally updates tasks.
Proof.
  rewrite applyUpdatesLocally_renumber.
  rewrite applyUpdatesLocally_writeAll, writeAll_map_NoDup.
  - rewrite map_map. apply map_ext. intros t.
    rewrite writesTo_renumber. apply renumber_idempotent.
  - rewrite map_map. erewrite map_ext; [exact ids_unique|]. apply renumber_id.
Qed.

Lemma renumber_placed i x :
  nth_error placed i = Some x ->
  renumber x = withFields x (Some (Z.of_nat i * 1000), target).
Proof.
  intros Hx. unfold renumber, renumberWith.
  rewrite (findIndex_nth_NoDup Task.id _ placed i x placed_ids_NoDup); auto.
  - intros y Hy. now apply String.eqb_eq in Hy.
  - apply String.eqb_refl.
Qed.

Lemma map_renumber_placed :
  map renumber placed
  = Js.mapi (fun i x => withFields x (Some (Z.of_nat i * 1000), target)) placed.
Proof.
  apply nth_error_ext. intros n.
  rewrite nth_error_map, mapi_nth_error.
  destruct (nth_error placed n) as [x|] eqn:E; simpl; [|reflexivity].
  now rewrite (renumber_placed n x E).
Qed.

Lemma isPlaced_In t : In t tasks -> (isPlaced t = true <-> In t placed).
Proof.
  intros Ht. unfold isPlaced, isPlacedIn. rewrite existsb_exists. split.
  - intros (x & Hx & E). apply String.eqb_eq in E.
    assert (x = t); [|now subst].
    eapply (NoDup_map_inj_on Task.id tasks); eauto. now apply placed_In.
  - intros H. exists t. split; [exact H|apply String.eqb_refl].
Qed.

Lemma isPlaced_findIndex t :
  isPlaced t = false <->
  Js.findIndex (fun x => String.eqb (Task.id x) (Task.id t)) placed = None.
Proof.
  rewrite findIndex_None. unfold isPlaced, isPlacedIn. split.
  - intros H x Hx. destruct (String.eqb (Task.id x) (Task.id t)) eqn:E; [|reflexivity].
    assert (existsb (fun x => String.eqb (Task.id x) (Task.id t)) placed = true).
    { apply existsb_exists. eauto. }
    congruence.
  - intros H. destruct (existsb _ placed) eqn:E; [|reflexivity].
    apply existsb_exists in E. destruct E as (x & Hx & E). now rewrite (H x Hx) in E.
Qed.

Lemma placed_members :
  Permutation (filter isPlaced tasks) placed.
Proof.
  apply NoDup_Permutation.
  - apply NoDup_filter. now apply (NoDup_of_map Task.id).
  - apply (NoDup_of_map Task.id), placed_ids_NoDup.
  - intros t. rewrite filter_In. split.
    + intros [Ht Hp]. now apply isPlaced_In.
    + intros H. split; [now apply placed_In|].
      apply isPlaced_In; [now apply placed_In|exact H].
Qed.

Lemma inContainer_abnormal t :
  ~ normalTarget -> TaskListTerms.inContainer target t = false.
Proof.
  intros H. apply Js_eqb_neq. intros E. apply H. unfold normalTarget, isNormalTarget.
  rewrite <- E. apply orNull_idempotent.
Qed.

Lemma inContainer_renumber t :
  normalTarget -> In t tasks ->
  TaskListTerms.inContainer target (renumber t) = isPlaced t.
Proof.
  intros Hn Ht. unfold renumber, renumberWith.
  destruct (Js.findIndex _ placed) as [i|] eqn:F.
  - unfold TaskListTerms.inContainer. simpl. rewrite Hn, Js_eqb_refl.
    symmetry. destruct (isPlaced t) eqn:E; [reflexivity|].
    apply isPlaced_findIndex in E. congruence.
  - assert (Hp : isPlaced t = false) by now apply isPlaced_findIndex.
    rewrite Hp. apply Js_eqb_neq. intros E.
    assert (In t placed); [|apply isPlaced_In in H; [congruence|exact Ht]].
    apply splice_In.
    destruct (Js.eqb (Js.Str (Task.id t)) taskId) eqn:Et.
    + left. apply Js_eqb_eq in Et.
      eapply (NoDup_map_inj_on Task.id tasks); eauto using moved_In.
      pose proof moved_id as M. rewrite <- M in Et. now inversion Et.
    + right. apply TaskListFacts.siblingsOf_In. apply Js_eqb_neq in Et. auto.
Qed.

Lemma renumber_ascending : Js.ascending TaskListTerms.key (map renumber placed).
Proof. rewrite map_renumber_placed. now apply ascending_mapi_stride. Qed.

Lemma renumber_keys_NoDup : NoDup (map TaskListTerms.key (map renumber placed)).
Proof. rewrite map_renumber_placed. now apply NoDup_key_mapi_stride. Qed.

(** After the plan is applied, the sorted container is the planned list. *)
Lemma sortedContainer_applied :
  normalTarget ->
  sortedContainer (map renumber tasks) target = map renumber placed.
Proof.
  intros Hn. unfold sortedContainer.
  apply sortBy_of_permutation;
    [|apply renumber_ascending|apply renumber_keys_NoDup].
  rewrite filter_map_commute.
  rewrite (filter_ext_in _ isPlaced).
  - apply Permutation_map, placed_members.
  - intros t Ht. now apply inContainer_renumber.
Qed.

Lemma sortedContainer_abnormal l : ~ normalTarget -> sortedContainer l target = [].
Proof.
  intros H. unfold sortedContainer. rewrite filter_none; [reflexivity|].
  intros t _. now apply inContainer_abnormal.
Qed.

Lemma rest_abnormal : ~ normalTarget -> rest = [].
Proof.
  intros H. unfold rest, siblingsOf. rewrite (filter_none _ tasks); [reflexivity|].
  intros t _. now apply inContainer_abnormal.
Qed.

Lemma isNot_renumber t :
  TaskListTerms.isNot taskId (renumber t) = TaskListTerms.isNot taskId t.
Proof. unfold TaskListTerms.isNot. now rewrite renumber_id. Qed.

Lemma filter_isNot_placed : filter (TaskListTerms.isNot taskId) placed = rest.
Proof.
  unfold placed. rewrite splice_filter_out.
  - apply filter_all. intros t Ht. apply rest_In in Ht.
    unfold TaskListTerms.isNot. apply negb_true_iff, Js_eqb_neq. tauto.
  - unfold TaskListTerms.isNot. now rewrite moved_id, Js_eqb_refl.
Qed.

(** The siblings the second run starts from are the first run's, renumbered. *)
Lemma siblingsOf_applied :
  siblingsOf (map renumber tasks) taskId target = map renumber rest.
Proof.
  destruct (Js.eqb (Js.orNull target) target) eqn:N.
  - apply Js_eqb_eq in N.
    change (siblingsOf (map renumber tasks) taskId target)
      with (filter (TaskListTerms.isNot taskId) (sortedContainer (map renumber tasks) target)).
    rewrite (sortedContainer_applied N), filter_map_commute.
    rewrite (filter_ext _ (TaskListTerms.isNot taskId)) by apply isNot_renumber.
    now rewrite filter_isNot_placed.
  - apply Js_eqb_neq in N.
    change (siblingsOf (map renumber tasks) taskId target)
      with (filter (TaskListTerms.isNot taskId) (sortedContainer (map renumber tasks) target)).
    rewrite (sortedContainer_abnormal _ N), (rest_abnormal N). reflexivity.
Qed.

Lemma find_moved_applied :
  find (fun t => Js.eqb (Js.Str (Task.id t)) taskId) (map renumber tasks)
  = Some (renumber moved).
Proof.
  rewrite find_map_commute, moved_found; [reflexivity|].
  intros t. now rewrite renumber_id.
Qed.

Lemma positionOf_placed : positionOf taskId (map renumber placed) = Some k.
Proof.
  unfold positionOf. rewrite findIndex_map by (intros; now rewrite renumber_id).
  unfold placed, Js.splice.
  rewrite findIndex_app_hit.
  - now rewrite firstn_length_le.
  - intros y Hy. apply Js_eqb_neq.
    assert (In y rest) by (rewrite <- (firstn_skipn k rest); apply in_or_app; auto).
    apply rest_In in H. tauto.
  - rewrite moved_id. apply Js_eqb_refl.
Qed.

Variables prevEl' nextEl' : option Element.t.
Hypothesis same_placement : placedAs (map renumber tasks) taskId target prevEl' nextEl'.

(** The second run inserts at the same index. *)
Lemma insertIndexOf_applied :
  insertIndexOf (map renumber rest) prevEl' nextEl' = k.
Proof.
  destruct same_placement as [Hprev Hnext].
  unfold prevSiblingId, nextSiblingId in *.
  assert (Hcase : k = O \/ exists j, k = S j).
  { destruct (Nat.eq_dec k 0); [left|right; exists (pred k)]; lia. }
  destruct (Js.eqb (Js.orNull target) target) eqn:N.
  - apply Js_eqb_eq in N.
    rewrite (sortedContainer_applied N), positionOf_placed in *.
    rewrite nth_error_map in Hnext.
    unfold placed in Hnext. rewrite splice_nth_error_after in Hnext by lia.
    unfold insertIndexOf. destruct Hcase as [Ek|[j Ek]].
    + rewrite Ek in Hprev. rewrite Ek.
      destruct prevEl' as [p|]; [discriminate|].
      destruct nextEl' as [n|]; [reflexivity|].
      rewrite length_map. rewrite Ek in Hnext.
      destruct (nth_error rest 0) as [y|] eqn:Ey; [discriminate|].
      apply nth_error_None in Ey. lia.
    + rewrite Ek in Hprev. rewrite nth_error_map in Hprev.
      unfold placed in Hprev.
      rewrite splice_nth_error_before in Hprev by lia.
      assert (Hj : (j < List.length rest)%nat) by lia.
      apply nth_error_Some in Hj.
      destruct (nth_error rest j) as [y|] eqn:Ey; [|congruence].
      simpl in Hprev. rewrite renumber_id in Hprev.
      destruct prevEl' as [p|]; [|discriminate].
      simpl in Hprev. inversion Hprev as [Hp]. fold (elTaskId p). rewrite Hp.
      rewrite findIndex_map by (intros; now rewrite renumber_id).
      rewrite (findIndex_nth_NoDup Task.id _ rest j y rest_ids_NoDup); auto.
      * rewrite Ek. f_equal. lia.
      * intros z Hz. apply Js_eqb_eq in Hz. now inversion Hz.
      * apply Js_eqb_refl.
  - apply Js_eqb_neq in N.
    rewrite (sortedContainer_abnormal _ N) in *. simpl in *.
    pose proof (rest_abnormal N) as R.
    assert (Hk0 : k = O) by (rewrite R in k_le; simpl in k_le; lia).
    rewrite Hk0, R.
    destruct prevEl'; [discriminate|]. destruct nextEl'; [discriminate|].
    reflexivity.
Qed.

(** Re-running the planner on the updated state returns the same plan. *)
Lemma buildUpdatesArray_applied :
  buildUpdatesArray (applyUpdatesLocally updates tasks) taskId target prevEl' nextEl'
  = Some updates.
Proof.
  rewrite applyUpdatesLocally_renumber.
  rewrite (TaskListFacts.buildUpdatesArray_found _ _ _ _ _ _ find_moved_applied).
  rewrite siblingsOf_applied, insertIndexOf_applied, splice_map.
  f_equal. unfold updates, Js.mapi. apply (mapiFrom_ext_on _ Task.id).
  - intros n a b E. unfold TaskListTerms.mkUpdate. now rewrite E.
  - rewrite map_map. apply map_ext. apply renumber_id.
Qed.

End Replan.

(** Idempotence of the task-list planner, from any state with unique ids. *)
Lemma TaskList_replan_same tasks taskId target prevEl nextEl updates prevEl' nextEl' :
  NoDup (map Task.id tasks) ->
  TaskList.buildUpdatesArray tasks taskId target prevEl nextEl = Some updates ->
  placedAs (TaskList.applyUpdatesLocally updates tasks) taskId target prevEl' nextEl' ->
  TaskList.buildUpdatesArray (TaskList.applyUpdatesLocally updates tasks)
    taskId target prevEl' nextEl' = Some updates /\
  TaskList.applyUpdatesLocally updates (TaskList.applyUpdatesLocally updates tasks)
  = TaskList.applyUpdatesLocally updates tasks.
Proof.
  intros ND Hb Hp.
  destruct (find (fun t => Js.eqb (Js.Str (Task.id t)) taskId) tasks) as [moved|] eqn:F.
  - rewrite (TaskListFacts.buildUpdatesArray_found _ _ _ _ _ _ F) in Hb.
    inversion Hb as [Hu]. clear Hb. subst updates.
    pose proof (TaskListFacts.insertIndexOf_le
                  (TaskList.siblingsOf tasks taskId target) prevEl nextEl) as Hk.
    split.
    + apply (buildUpdatesArray_applied tasks taskId target moved _ ND F Hk).
      rewrite (applyUpdatesLocally_renumber tasks taskId target moved _ ND F) in Hp.
      exact Hp.
    + apply (applyUpdatesLocally_twice tasks taskId target moved _ ND F).
  - unfold TaskList.buildUpdatesArray in Hb. rewrite F in Hb. discriminate.
Qed.

(* ================================================================== *)
(** * Drops into a task or folder *)
(* ================================================================== *)

(** [canDrop] of the side list rejects a folder dragged onto itself or
    onto a folder that the tree utility reports as its descendant. *)
Lemma SideList_canDrop_rejects isDescendantOf draggedEl targetEl draggedData :
  SideList.isType (SideList.type draggedData) "folder" = true ->
  SideList.id draggedData = Dataset.folderId (Element.dataset targetEl) \/
  isDescendantOf (Dataset.folderId (Element.dataset targetEl)) (SideList.id draggedData)
    = true ->
  SideList.canDrop isDescendantOf draggedEl targetEl draggedData = Some false.
Proof.
  intros Hf H. unfold SideList.canDrop. rewrite Hf. simpl.
  destruct (Js.eqb (SideList.id draggedData) (Dataset.folderId (Element.dataset targetEl)))
    eqn:E; [reflexivity|].
  destruct H as [H|H]; [apply Js_eqb_neq in E; contradiction|].
  now rewrite H.
Qed.

(* ================================================================== *)
(** * Plans of the side list and their application *)
(* ================================================================== *)

Section SidePlanFacts.
Import SideList SideListTerms.

Lemma collect_knownType data bookmarks target item :
  In item (collect data bookmarks target) -> knownType (Item._type item).
Proof.
  unfold collect, knownType. rewrite !in_app_iff, !in_map_iff.
  intros [(x & <- & _)|[(x & <- & _)|[(x & <- & _)|[(x & <- & _)|(x & <- & _)]]]];
    simpl; auto 6.
Qed.

Lemma findDropped_knownType data bookmarks type id dropped :
  findDropped data bookmarks type id = Some dropped -> knownType (Item._type dropped).
Proof.
  unfold findDropped, isType, knownType. intros H.
  assert (L : forall (l : list Leaf.t),
             option_map (tagLeaf type)
               (find (fun x => Js.eqb (Js.Str (Leaf.id x)) id) l) = Some dropped ->
             Item._type dropped = type).
  { intros l G. destruct (find _ l); simpl in G; [|discriminate]. now inversion G. }
  destruct (Js.eqb type (Js.Str "folder")) eqn:E1.
  { apply Js_eqb_eq in E1. left. rewrite <- E1.
    destruct (find _ (folders data)); simpl in H; [|discriminate]. now inversion H. }
  destruct (Js.eqb type (Js.Str "objective")) eqn:E2.
  { apply Js_eqb_eq in E2. right; left. rewrite <- E2. eapply L; eauto. }
  destruct (Js.eqb type (Js.Str "note")) eqn:E3.
  { apply Js_eqb_eq in E3. right; right; left. rewrite <- E3. eapply L; eauto. }
  destruct (Js.eqb type (Js.Str "bookmark")) eqn:E4.
  { apply Js_eqb_eq in E4. right; right; right; left. rewrite <- E4. eapply L; eauto. }
  destruct (Js.eqb type (Js.Str "task-list")) eqn:E5.
  { apply Js_eqb_eq in E5. right; right; right; right. rewrite <- E5. eapply L; eauto. }
  discriminate.
Qed.

(** The entries of a plan are the items of the target folder, without
    the dropped one where it was, and the dropped item, each of a known
    type. *)
Lemma plan_items data bookmarks type id target prevEl nextEl updates :
  buildUpdatesArray data bookmarks type id target prevEl nextEl = Some updates ->
  exists l,
    updates = Js.mapi (mkUpdate target) l /\
    Forall (fun item => knownType (Item._type item)) l.
Proof.
  unfold buildUpdatesArray. intros H.
  destruct (findDropped data bookmarks type id) as [dropped|] eqn:Ed; [|discriminate].
  inversion H; subst. eexists. split; [reflexivity|].
  apply Forall_forall. intros item Hin. apply splice_In in Hin.
  destruct Hin as [->|Hin]; [eapply findDropped_knownType; eauto|].
  unfold siblingsOf in Hin. apply filter_In in Hin. destruct Hin as [Hin _].
  eapply collect_knownType.
  eapply Permutation_in; [apply sortBy_perm|exact Hin].
Qed.

Lemma itemTypeOf_known type u : knownType (Update._type u) -> itemTypeOf type u = Update._type u.
Proof.
  unfold itemTypeOf, knownType.
  intros [E|[E|[E|[E|E]]]]; rewrite E; reflexivity.
Qed.

Lemma persistUpdates_cons type u us repository noteStorage :
  persistUpdates type (u :: us) repository noteStorage
  = persistUpdates type [u] repository noteStorage
    ++ persistUpdates type us repository noteStorage.
Proof. unfold persistUpdates. simpl. now rewrite app_nil_r. Qed.

Lemma persist_one type target repository noteStorage i item :
  knownType (Item._type item) ->
  updateFolder repository = true ->
  updateObjectiveOrder repository = true ->
  updateTaskListOrder repository = true ->
  updateNoteOrder noteStorage = true ->
  map callArgs
    (persistUpdates type [mkUpdate target i item] (Some repository) (Some noteStorage))
  = map (fun u => (Update._type u, Update.id u, Update.orderIndex u, target))
      (filter (fun u => negb (isType (Update._type u) "bookmark"))
         [mkUpdate target i item]).
Proof.
  intros Hk H1 H2 H3 H4. unfold persistUpdates. simpl.
  rewrite itemTypeOf_known by exact Hk. unfold hasMethod.
  rewrite H1, H2, H3, H4. unfold mkUpdate. simpl.
  destruct Hk as [E|[E|[E|[E|E]]]]; rewrite E; reflexivity.
Qed.

Lemma persist_known type target repository noteStorage l : forall i,
  Forall (fun item => knownType (Item._type item)) l ->
  updateFolder repository = true ->
  updateObjectiveOrder repository = true ->
  updateTaskListOrder repository = true ->
  updateNoteOrder noteStorage = true ->
  map callArgs
    (persistUpdates type (Js.mapiFrom (mkUpdate target) i l)
       (Some repository) (Some noteStorage))
  = map (fun u => (Update._type u, Update.id u, Update.orderIndex u, target))
      (filter (fun u => negb (isType (Update._type u) "bookmark"))
         (Js.mapiFrom (mkUpdate target) i l)).
Proof.
  intros i Hl H1 H2 H3 H4. revert i.
  induction Hl as [|item r Hk _ IH]; intros i; [reflexivity|].
  change (Js.mapiFrom (mkUpdate target) i (item :: r))
    with ([mkUpdate target i item] ++ Js.mapiFrom (mkUpdate target) (S i) r).
  rewrite filter_app, map_app. simpl app at 1.
  rewrite persistUpdates_cons, map_app, IH.
  now rewrite (persist_one type target repository noteStorage i item Hk H1 H2 H3 H4).
Qed.

End SidePlanFacts.

Section WriteFirstFacts.
Import SideList.
Context {A : Type}.
Variable idOf : A -> string.
Variable write : Update.t -> A -> A.
Variable selects : Update.t -> bool.
Hypothesis write_id : forall u a, idOf (write u a) = idOf a.

Lemma writeFirst_as_map k (w : A -> A) l :
  (forall a, idOf (w a) = idOf a) ->
  NoDup (map idOf l) ->
  writeFirst (fun a => String.eqb (idOf a) k) w l
  = map (fun a => if String.eqb (idOf a) k then w a else a) l.
Proof.
  intros Hw. induction l as [|x r IH]; simpl; intros Hnd; [reflexivity|].
  inversion Hnd as [|? ? Hx Hr]; subst.
  destruct (String.eqb (idOf x) k) eqn:E.
  - f_equal. apply String.eqb_eq in E. subst k.
    clear IH Hnd Hr. induction r as [|y r IH]; simpl; [reflexivity|].
    destruct (String.eqb (idOf y) (idOf x)) eqn:Ey.
    + apply String.eqb_eq in Ey. exfalso. apply Hx. left. exact Ey.
    + f_equal. apply IH. intros H. apply Hx. now right.
  - f_equal. now apply IH.
Qed.

Lemma writeElement_id a u : idOf (writeElement idOf write selects a u) = idOf a.
Proof.
  unfold writeElement.
  destruct (selects u && String.eqb (idOf a) (Update.id u)); [apply write_id|reflexivity].
Qed.

Lemma fold_writeElement_id us : forall a,
  idOf (fold_left (writeElement idOf write selects) us a) = idOf a.
Proof.
  induction us as [|u r IH]; intros a; simpl; [reflexivity|].
  now rewrite IH, writeElement_id.
Qed.

(** The loop over the updates, seen from each element of the collection. *)
Lemma fold_writeFirst_as_map us : forall l,
  NoDup (map idOf l) ->
  fold_left
    (fun l u => if selects u
                then writeFirst (fun a => String.eqb (idOf a) (Update.id u)) (write u) l
                else l) us l
  = map (fun a => fold_left (writeElement idOf write selects) us a) l.
Proof.
  induction us as [|u r IH]; intros l Hnd; simpl.
  - now rewrite map_id.
  - assert (E : (if selects u
                 then writeFirst (fun a => String.eqb (idOf a) (Update.id u)) (write u) l
                 else l)
                = map (fun a => writeElement idOf write selects a u) l).
    { unfold writeElement. destruct (selects u); simpl.
      - apply writeFirst_as_map; [apply write_id|exact Hnd].
      - now rewrite map_id. }
    rewrite E, IH.
    + now rewrite map_map.
    + rewrite map_map.
      erewrite map_ext; [exact Hnd|]. intros a. apply writeElement_id.
Qed.

Lemma fold_writeElement_none us : forall a,
  (forall u, In u us -> selects u && String.eqb (idOf a) (Update.id u) = false) ->
  fold_left (writeElement idOf write selects) us a = a.
Proof.
  induction us as [|u r IH]; intros a H; simpl; [reflexivity|].
  unfold writeElement at 2. rewrite (H u) by now left.
  apply IH. intros v Hv. apply H. now right.
Qed.

Lemma fold_writeElement_one us1 u us2 a :
  selects u = true -> idOf a = Update.id u ->
  (forall v, In v (us1 ++ us2) ->
     selects v && String.eqb (idOf a) (Update.id v) = false) ->
  fold_left (writeElement idOf write selects) (us1 ++ u :: us2) a = write u a.
Proof.
  intros Hs Hid H. rewrite fold_left_app. simpl.
  rewrite (fold_writeElement_none us1 a)
    by (intros v Hv; apply H; apply in_or_app; now left).
  unfold writeElement at 2. rewrite Hs, Hid, String.eqb_refl. simpl.
  apply fold_writeElement_none. intros v Hv. rewrite write_id.
  apply H. apply in_or_app. now right.
Qed.

End WriteFirstFacts.

Section SideApplyFacts.
Import SideList SideListTerms.
Variable updateBookmarkOrder :
  option (string -> Z -> Js.nullable -> option (list Leaf.t) -> option (list Leaf.t)).

(** The collections after [applyUpdatesLocally], each as its own loop over
    the updates. *)
Lemma applyUpdatesLocally_collections type us : forall data bookmarks,
  Forall (fun u => knownType (Update._type u)) us ->
  fst (applyUpdatesLocally updateBookmarkOrder type us (data, bookmarks))
  = {| folders :=
         fold_left
           (fun l u => if updateFor "folder" u
                       then writeFirst (fun f => String.eqb (Folder.id f) (Update.id u))
                              (writeFolder u) l
                       else l) us (folders data);
       objectives :=
         fold_left
           (fun l u => if updateFor "objective" u
                       then writeFirst (fun x => String.eqb (Leaf.id x) (Update.id u))
                              (writeLeaf u) l
                       else l) us (objectives data);
       notes :=
         option_map
           (fold_left
              (fun l u => if updateFor "note" u
                          then writeFirst (fun x => String.eqb (Leaf.id x) (Update.id u))
                                 (writeLeaf u) l
                          else l) us) (notes data);
       taskLists :=
         option_map
           (fold_left
              (fun l u => if updateFor "task-list" u
                          then writeFirst (fun x => String.eqb (Leaf.id x) (Update.id u))
                                 (writeLeaf u) l
                          else l) us) (taskLists data) |}.
Proof.
  induction us as [|u r IH]; intros data bookmarks Hk.
  - destruct data as [F O [N|] [T|]]; reflexivity.
  - inversion Hk as [|? ? Hu Hr]; subst.
    unfold applyUpdatesLocally in *. cbn [fold_left].
    unfold applyUpdate at 2. rewrite (itemTypeOf_known type u Hu).
    unfold updateFor.
    destruct data as [F O N T].
    destruct Hu as [E|[E|[E|[E|E]]]]; rewrite E; cbn -[fold_left writeFirst];
      rewrite (IH _ _ Hr); cbn -[fold_left writeFirst];
      destruct N, T; reflexivity.
Qed.

End SideApplyFacts.

Section CountFacts.
Context {A : Type}.

Lemma filter_length_0 (p : A -> bool) l :
  List.length (filter p l) = O -> forall a, In a l -> p a = false.
Proof.
  induction l as [|x r IH]; simpl; intros H a Ha; [contradiction|].
  destruct (p x) eqn:E; [discriminate|].
  destruct Ha as [<-|Ha]; auto.
Qed.

Lemma filter_filter_length (p q : A -> bool) l :
  (List.length (filter p (filter q l)) <= List.length (filter p l))%nat.
Proof.
  induction l as [|x r IH]; simpl; [lia|].
  destruct (q x) eqn:Q; simpl; destruct (p x) eqn:P; simpl; lia.
Qed.

Lemma filter_map_length {B : Type} (f : B -> A) (p : A -> bool) l :
  List.length (filter p (map f l)) = List.length (filter (fun b => p (f b)) l).
Proof.
  induction l as [|x r IH]; simpl; [reflexivity|].
  destruct (p (f x)); simpl; now rewrite IH.
Qed.

Lemma NoDup_filter_id_length (idOf : A -> string) k l :
  NoDup (map idOf l) ->
  (List.length (filter (fun a => String.eqb (idOf a) k) l) <= 1)%nat.
Proof.
  induction l as [|x r IH]; simpl; intros H; [lia|].
  inversion H as [|? ? Hx Hr]; subst.
  destruct (String.eqb (idOf x) k) eqn:E; [|now apply IH].
  apply String.eqb_eq in E. subst k. simpl.
  rewrite filter_none; [simpl; lia|].
  intros a Ha. destruct (String.eqb (idOf a) (idOf x)) eqn:Ea; [|reflexivity].
  apply String.eqb_eq in Ea. exfalso. apply Hx. rewrite <- Ea. now apply in_map.
Qed.

End CountFacts.

Section PlanUniqueFacts.
Import SideList SideListTerms.
Variable data : Data.
Variable bookmarks : option (list Leaf.t).
Hypothesis Hfolders : NoDup (map Folder.id (folders data)).
Hypothesis Hobjectives : NoDup (map Leaf.id (objectives data)).
Hypothesis Hnotes : NoDup (map Leaf.id (orEmpty (notes data))).
Hypothesis HtaskLists : NoDup (map Leaf.id (orEmpty (taskLists data))).

Lemma leaf_segment_other type type' id p l :
  String.eqb type' type = false ->
  List.length (filter (itemIs type id) (map (tagLeaf (Js.Str type')) (filter p l))) = O.
Proof.
  intros E. rewrite filter_map_length, filter_none; [reflexivity|].
  intros a _. unfold itemIs, isType, tagLeaf, Js.eqb. cbn [Item._type]. now rewrite E.
Qed.

Lemma leaf_segment_same type id p l :
  NoDup (map Leaf.id l) ->
  (List.length (filter (itemIs type id) (map (tagLeaf (Js.Str type)) (filter p l)))
   <= 1)%nat.
Proof.
  intros H. rewrite filter_map_length.
  erewrite filter_ext.
  - apply (NoDup_filter_id_length Leaf.id id). now apply NoDup_map_filter.
  - intros a. unfold itemIs, isType, tagLeaf, Js.eqb. cbn [Item._type Item.id].
    now rewrite String.eqb_refl.
Qed.

Lemma folder_segment_other type id p l :
  String.eqb "folder" type = false ->
  List.length (filter (itemIs type id) (map tagFolder (filter p l))) = O.
Proof.
  intros E. rewrite filter_map_length, filter_none; [reflexivity|].
  intros a _. unfold itemIs, isType, tagFolder, Js.eqb. cbn [Item._type]. now rewrite E.
Qed.

Lemma folder_segment_same id p l :
  NoDup (map Folder.id l) ->
  (List.length (filter (itemIs "folder" id) (map tagFolder (filter p l))) <= 1)%nat.
Proof.
  intros H. rewrite filter_map_length.
  erewrite filter_ext.
  - apply (NoDup_filter_id_length Folder.id id). now apply NoDup_map_filter.
  - intros a. reflexivity.
Qed.

(** Among the items of a folder at most one has a given id and a given
    type other than bookmark. *)
Lemma collect_at_most_one type id target :
  type = "folder"%string \/ type = "objective"%string \/
  type = "note"%string \/ type = "task-list"%string ->
  (List.length (filter (itemIs type id) (collect data bookmarks target)) <= 1)%nat.
Proof.
  intros Ht. unfold collect. rewrite !filter_app, !length_app.
  destruct Ht as [E|[E|[E|E]]]; subst type.
  - pose proof (folder_segment_same id
                  (fun f => Js.eqb (Js.orNull (Folder.parentId f)) target)
                  (folders data) Hfolders).
    rewrite !(leaf_segment_other "folder") by reflexivity. lia.
  - pose proof (leaf_segment_same "objective" id (inFolder target) _ Hobjectives).
    rewrite (folder_segment_other "objective") by reflexivity.
    rewrite (leaf_segment_other "objective" "note") by reflexivity.
    rewrite (leaf_segment_other "objective" "bookmark") by reflexivity.
    rewrite (leaf_segment_other "objective" "task-list") by reflexivity. lia.
  - pose proof (leaf_segment_same "note" id (inFolder target) _ Hnotes).
    rewrite (folder_segment_other "note") by reflexivity.
    rewrite (leaf_segment_other "note" "objective") by reflexivity.
    rewrite (leaf_segment_other "note" "bookmark") by reflexivity.
    rewrite (leaf_segment_other "note" "task-list") by reflexivity. lia.
  - pose proof (leaf_segment_same "task-list" id (inFolder target) _ HtaskLists).
    rewrite (folder_segment_other "task-list") by reflexivity.
    rewrite (leaf_segment_other "task-list" "objective") by reflexivity.
    rewrite (leaf_segment_other "task-list" "note") by reflexivity.
    rewrite (leaf_segment_other "task-list" "bookmark") by reflexivity. lia.
Qed.

(** The same in the list the plan is made of. *)
Lemma plan_at_most_one type id target dropped k itemType itemId :
  findDropped data bookmarks type id = Some dropped ->
  itemType = "folder"%string \/ itemType = "objective"%string \/
  itemType = "note"%string \/ itemType = "task-list"%string ->
  (List.length
     (filter (itemIs itemType itemId)
        (Js.splice (siblingsOf data bookmarks id target) k dropped)) <= 1)%nat.
Proof.
  intros Hd Ht.
  assert (P1 : Permutation
                 (filter (itemIs itemType itemId)
                    (Js.splice (siblingsOf data bookmarks id target) k dropped))
                 (filter (itemIs itemType itemId)
                    (dropped :: siblingsOf data bookmarks id target)))
    by apply Permutation_filter, splice_perm.
  rewrite (Permutation_length P1). simpl.
  assert (Hrest : (List.length (filter (itemIs itemType itemId)
                                  (siblingsOf data bookmarks id target)) <= 1)%nat).
  { unfold siblingsOf.
    eapply Nat.le_trans; [apply filter_filter_length|].
    assert (P2 : Permutation
                   (filter (itemIs itemType itemId)
                      (Js.sortBy (fun a => Js.orZero (Item.orderIndex a))
                         (collect data bookmarks target)))
                   (filter (itemIs itemType itemId) (collect data bookmarks target)))
      by apply Permutation_filter, sortBy_perm.
    rewrite (Permutation_length P2).
    now apply collect_at_most_one. }
  destruct (itemIs itemType itemId dropped) eqn:E; [|exact Hrest].
  simpl. rewrite filter_none; [simpl; lia|].
  intros a Ha. unfold siblingsOf in Ha. apply filter_In in Ha. destruct Ha as [_ Ha].
  unfold itemIs in *. apply andb_true_iff in E. destruct E as [_ E].
  apply String.eqb_eq in E.
  apply SideListFacts.findDropped_id in Hd. rewrite <- Hd, E in Ha.
  simpl in Ha. destruct (String.eqb (Item.id a) itemId); [discriminate|].
  apply andb_false_r.
Qed.

End PlanUniqueFacts.

Section PlanWriteFacts.
Import SideList SideListTerms.
Context {A : Type}.
Variable idOf : A -> string.
Variable write : Update.t -> A -> A.
Hypothesis write_id : forall u a, idOf (write u a) = idOf a.

Lemma mapiFrom_app {X Y : Type} (f : nat -> X -> Y) l1 : forall i l2,
  Js.mapiFrom f i (l1 ++ l2)
  = Js.mapiFrom f i l1 ++ Js.mapiFrom f (i + List.length l1) l2.
Proof.
  induction l1 as [|x r IH]; intros i l2; simpl.
  - now rewrite Nat.add_0_r.
  - rewrite IH. now rewrite Nat.add_succ_comm.
Qed.

Lemma In_mapiFrom {X Y : Type} (f : nat -> X -> Y) l : forall i y,
  In y (Js.mapiFrom f i l) -> exists j x, In x l /\ y = f j x.
Proof.
  induction l as [|x r IH]; intros i y; simpl; [intros []|].
  intros [<-|H]; [exists i, x; auto|].
  destruct (IH _ _ H) as (j & x' & Hx & ->). exists j, x'. auto.
Qed.

(** The one entry of the plan made for an element decides what the
    element is after the loop. *)
Lemma plan_write_unique type target l i item a :
  nth_error l i = Some item ->
  isType (Item._type item) type = true ->
  idOf a = Item.id item ->
  (List.length (filter (itemIs type (Item.id item)) l) <= 1)%nat ->
  fold_left (writeElement idOf write (updateFor type)) (Js.mapi (mkUpdate target) l) a
  = write (mkUpdate target i item) a.
Proof.
  intros Hn Ht Hid Hc.
  apply nth_error_split in Hn. destruct Hn as (l1 & l2 & -> & Hlen).
  unfold Js.mapi. rewrite mapiFrom_app. simpl. rewrite Hlen.
  assert (Hit : itemIs type (Item.id item) item = true).
  { unfold itemIs. now rewrite Ht, String.eqb_refl. }
  rewrite filter_app, length_app in Hc. simpl in Hc. rewrite Hit in Hc. simpl in Hc.
  apply (fold_writeElement_one idOf write (updateFor type) write_id).
  - exact Ht.
  - exact Hid.
  - intros v Hv. apply in_app_or in Hv.
    assert (Hx : exists j x, In x (l1 ++ l2) /\ v = mkUpdate target j x).
    { destruct Hv as [Hv|Hv]; apply In_mapiFrom in Hv;
        destruct Hv as (j & x & Hx & ->); exists j, x; split; auto;
        apply in_or_app; auto. }
    destruct Hx as (j & x & Hx & ->).
    assert (Hno : itemIs type (Item.id item) x = false).
    { apply in_app_or in Hx. destruct Hx as [Hx|Hx].
      - apply (filter_length_0 (itemIs type (Item.id item)) l1); [lia|exact Hx].
      - apply (filter_length_0 (itemIs type (Item.id item)) l2); [lia|exact Hx]. }
    unfold itemIs in Hno. unfold updateFor, mkUpdate. simpl.
    rewrite Hid, String.eqb_sym. exact Hno.
Qed.

Lemma plan_write_none type target l a :
  (forall item, In item l -> itemIs type (idOf a) item = false) ->
  fold_left (writeElement idOf write (updateFor type)) (Js.mapi (mkUpdate target) l) a = a.
Proof.
  intros H. apply fold_writeElement_none. intros v Hv.
  apply In_mapiFrom in Hv. destruct Hv as (j & x & Hx & ->).
  specialize (H x Hx). unfold itemIs in H. unfold updateFor, mkUpdate. simpl.
  rewrite String.eqb_sym. exact H.
Qed.

End PlanWriteFacts.

Section PlanSourceFacts.
Import SideList SideListTerms.
Variable data : Data.
Variable bookmarks : option (list Leaf.t).

Lemma collect_folder target item :
  In item (collect data bookmarks target) -> Item._type item = Js.Str "folder" ->
  exists f, In f (folders data) /\ Folder.id f = Item.id item.
Proof.
  unfold collect. rewrite !in_app_iff, !in_map_iff.
  intros [(f & <- & Hf)|[(x & <- & _)|[(x & <- & _)|[(x & <- & _)|(x & <- & _)]]]];
    simpl; try discriminate.
  intros _. apply filter_In in Hf. exists f. tauto.
Qed.

Lemma collect_leaf target type item :
  type = "objective"%string \/ type = "note"%string \/ type = "task-list"%string ->
  In item (collect data bookmarks target) -> Item._type item = Js.Str type ->
  exists x, In x (leavesOf data type) /\ Leaf.id x = Item.id item.
Proof.
  unfold collect. rewrite !in_app_iff, !in_map_iff.
  intros Ht [(f & <- & _)|[(x & <- & Hx)|[(x & <- & Hx)|[(x & <- & Hx)|(x & <- & Hx)]]]];
    simpl; intros E; inversion E as [E']; clear E;
    destruct Ht as [Ht|[Ht|Ht]]; subst type; try discriminate;
    apply filter_In in Hx; exists x; split; try reflexivity; apply Hx.
Qed.

Lemma findDropped_folder type id dropped :
  findDropped data bookmarks type id = Some dropped ->
  Item._type dropped = Js.Str "folder" ->
  exists f, In f (folders data) /\ Folder.id f = Item.id dropped.
Proof.
  unfold findDropped, isType. intros H E.
  assert (L : forall (l : list Leaf.t),
             option_map (tagLeaf type)
               (find (fun x => Js.eqb (Js.Str (Leaf.id x)) id) l) = Some dropped ->
             Item._type dropped = type).
  { intros l G. destruct (find _ l); simpl in G; [|discriminate]. now inversion G. }
  destruct (Js.eqb type (Js.Str "folder")) eqn:E1.
  { destruct (find _ (folders data)) as [f|] eqn:Ef; simpl in H; [|discriminate].
    apply find_some in Ef. inversion H; subst. simpl. exists f. tauto. }
  assert (Hty : Item._type dropped = type).
  { destruct (Js.eqb type (Js.Str "objective")); [eapply L; eauto|].
    destruct (Js.eqb type (Js.Str "note")); [eapply L; eauto|].
    destruct (Js.eqb type (Js.Str "bookmark")); [eapply L; eauto|].
    destruct (Js.eqb type (Js.Str "task-list")); [eapply L; eauto|discriminate]. }
  rewrite <- Hty, E in E1. discriminate.
Qed.

Lemma findDropped_leaf type id dropped leafType :
  leafType = "objective"%string \/ leafType = "note"%string \/
  leafType = "task-list"%string ->
  findDropped data bookmarks type id = Some dropped ->
  Item._type dropped = Js.Str leafType ->
  exists x, In x (leavesOf data leafType) /\ Leaf.id x = Item.id dropped.
Proof.
  unfold findDropped, isType. intros Ht H E.
  assert (L : forall (l : list Leaf.t),
             option_map (tagLeaf type)
               (find (fun x => Js.eqb (Js.Str (Leaf.id x)) id) l) = Some dropped ->
             Item._type dropped = type /\
             exists x, In x l /\ Leaf.id x = Item.id dropped).
  { intros l G. destruct (find _ l) as [x|] eqn:Ex; simpl in G; [|discriminate].
    apply find_some in Ex. inversion G; subst. simpl. split; [reflexivity|].
    exists x. tauto. }
  destruct (Js.eqb type (Js.Str "folder")) eqn:E1.
  { destruct (find _ (folders data)) as [f|]; simpl in H; [|discriminate].
    inversion H; subst. simpl in E. apply Js_eqb_eq in E1. rewrite E1 in E.
    destruct Ht as [Ht|[Ht|Ht]]; subst leafType; discriminate. }
  destruct (Js.eqb type (Js.Str "objective")) eqn:E2.
  { apply Js_eqb_eq in E2. destruct (L _ H) as (Hty & Hx).
    rewrite Hty, E2 in E. inversion E; subst. exact Hx. }
  destruct (Js.eqb type (Js.Str "note")) eqn:E3.
  { apply Js_eqb_eq in E3. destruct (L _ H) as (Hty & Hx).
    rewrite Hty, E3 in E. inversion E; subst. exact Hx. }
  destruct (Js.eqb type (Js.Str "bookmark")) eqn:E4.
  { apply Js_eqb_eq in E4. destruct (L _ H) as (Hty & Hx).
    rewrite Hty, E4 in E. inversion E; subst.
    destruct Ht as [Ht|[Ht|Ht]]; discriminate. }
  destruct (Js.eqb type (Js.Str "task-list")) eqn:E5; [|discriminate].
  apply Js_eqb_eq in E5. destruct (L _ H) as (Hty & Hx).
  rewrite Hty, E5 in E. inversion E; subst. exact Hx.
Qed.

(** Where the items of a plan come from. *)
Lemma plan_source_folder type id target k dropped item :
  findDropped data bookmarks type id = Some dropped ->
  In item (Js.splice (siblingsOf data bookmarks id target) k dropped) ->
  Item._type item = Js.Str "folder" ->
  exists f, In f (folders data) /\ Folder.id f = Item.id item.
Proof.
  intros Hd Hin E. apply splice_In in Hin. destruct Hin as [->|Hin].
  - eapply findDropped_folder; eauto.
  - unfold siblingsOf in Hin. apply filter_In in Hin. destruct Hin as [Hin _].
    eapply collect_folder; [|exact E].
    eapply Permutation_in; [apply sortBy_perm|exact Hin].
Qed.

Lemma plan_source_leaf type id target k dropped item leafType :
  leafType = "objective"%string \/ leafType = "note"%string \/
  leafType = "task-list"%string ->
  findDropped data bookmarks type id = Some dropped ->
  In item (Js.splice (siblingsOf data bookmarks id target) k dropped) ->
  Item._type item = Js.Str leafType ->
  exists x, In x (leavesOf data leafType) /\ Leaf.id x = Item.id item.
Proof.
  intros Ht Hd Hin E. apply splice_In in Hin. destruct Hin as [->|Hin].
  - eapply findDropped_leaf; eauto.
  - unfold siblingsOf in Hin. apply filter_In in Hin. destruct Hin as [Hin _].
    eapply collect_leaf; [exact Ht| |exact E].
    eapply Permutation_in; [apply sortBy_perm|exact Hin].
Qed.

End PlanSourceFacts.

Section SideAppliedFacts.
Import SideList SideListTerms.
Variable updateBookmarkOrder :
  option (string -> Z -> Js.nullable -> option (list Leaf.t) -> option (list Leaf.t)).
Variable data : Data.
Variable bookmarks : option (list Leaf.t).
Variable target : Js.nullable.
Variable l : list Item.t.
Hypothesis Hfolders : NoDup (map Folder.id (folders data)).
Hypothesis Hobjectives : NoDup (map Leaf.id (objectives data)).
Hypothesis Hnotes : NoDup (map Leaf.id (orEmpty (notes data))).
Hypothesis HtaskLists : NoDup (map Leaf.id (orEmpty (taskLists data))).
Hypothesis Hknown : Forall (fun item => knownType (Item._type item)) l.
Hypothesis Hunique :
  forall itemType itemId,
    itemType = "folder"%string \/ itemType = "objective"%string \/
    itemType = "note"%string \/ itemType = "task-list"%string ->
    (List.length (filter (itemIs itemType itemId) l) <= 1)%nat.
Hypothesis Hfolder :
  forall item, In item l -> Item._type item = Js.Str "folder" ->
    exists f, In f (folders data) /\ Folder.id f = Item.id item.
Hypothesis Hleaf :
  forall item leafType,
    leafType = "objective"%string \/ leafType = "note"%string \/
    leafType = "task-list"%string ->
    In item l -> Item._type item = Js.Str leafType ->
    exists x, In x (leavesOf data leafType) /\ Leaf.id x = Item.id item.

Lemma writeFolder_id u f : Folder.id (writeFolder u f) = Folder.id f.
Proof. reflexivity. Qed.

Lemma writeLeaf_id u x : Leaf.id (writeLeaf u x) = Leaf.id x.
Proof. reflexivity. Qed.

Lemma plan_updates_known :
  Forall (fun u => knownType (Update._type u)) (Js.mapi (mkUpdate target) l).
Proof.
  apply Forall_forall. intros u Hu. apply In_mapiFrom in Hu.
  destruct Hu as (j & x & Hx & ->). simpl.
  rewrite Forall_forall in Hknown. now apply Hknown.
Qed.

(** The state after the plan has been applied. *)
Lemma applied_shape type' :
  fst (applyUpdatesLocally updateBookmarkOrder type' (Js.mapi (mkUpdate target) l)
         (data, bookmarks))
  = {| folders :=
         map (fun f => fold_left (writeElement Folder.id writeFolder (updateFor "folder"))
                         (Js.mapi (mkUpdate target) l) f) (folders data);
       objectives :=
         map (fun x => fold_left (writeElement Leaf.id writeLeaf (updateFor "objective"))
                         (Js.mapi (mkUpdate target) l) x) (objectives data);
       notes :=
         option_map
           (map (fun x => fold_left (writeElement Leaf.id writeLeaf (updateFor "note"))
                            (Js.mapi (mkUpdate target) l) x)) (notes data);
       taskLists :=
         option_map
           (map (fun x => fold_left (writeElement Leaf.id writeLeaf (updateFor "task-list"))
                            (Js.mapi (mkUpdate target) l) x)) (taskLists data) |}.
Proof.
  rewrite (applyUpdatesLocally_collections _ _ _ _ _ plan_updates_known).
  rewrite (fold_writeFirst_as_map Folder.id writeFolder (updateFor "folder")
             writeFolder_id _ _ Hfolders).
  rewrite (fold_writeFirst_as_map Leaf.id writeLeaf (updateFor "objective")
             writeLeaf_id _ _ Hobjectives).
  f_equal.
  - destruct (notes data) as [N|]; simpl; [|reflexivity]. f_equal.
    apply (fold_writeFirst_as_map Leaf.id writeLeaf (updateFor "note") writeLeaf_id).
    exact Hnotes.
  - destruct (taskLists data) as [T|]; simpl; [|reflexivity]. f_equal.
    apply (fold_writeFirst_as_map Leaf.id writeLeaf (updateFor "task-list") writeLeaf_id).
    exact HtaskLists.
Qed.

Lemma orEmpty_option_map {X : Type} (f : X -> X) (o : option (list X)) :
  orEmpty (option_map (map f) o) = map f (orEmpty o).
Proof. destruct o; reflexivity. Qed.

Lemma applied_sideItems type' :
  sideItems (fst (applyUpdatesLocally updateBookmarkOrder type'
                    (Js.mapi (mkUpdate target) l) (data, bookmarks)))
  = map (fun f => (Js.Str "folder", Folder.id f, Folder.parentId f, Folder.orderIndex f))
      (map (fun f => fold_left (writeElement Folder.id writeFolder (updateFor "folder"))
                       (Js.mapi (mkUpdate target) l) f) (folders data))
    ++ map (fun x => (Js.Str "objective", Leaf.id x, Leaf.folderId x, Leaf.orderIndex x))
         (map (fun x => fold_left (writeElement Leaf.id writeLeaf (updateFor "objective"))
                          (Js.mapi (mkUpdate target) l) x) (leavesOf data "objective"))
    ++ map (fun x => (Js.Str "note", Leaf.id x, Leaf.folderId x, Leaf.orderIndex x))
         (map (fun x => fold_left (writeElement Leaf.id writeLeaf (updateFor "note"))
                          (Js.mapi (mkUpdate target) l) x) (leavesOf data "note"))
    ++ map (fun x => (Js.Str "task-list", Leaf.id x, Leaf.folderId x, Leaf.orderIndex x))
         (map (fun x => fold_left (writeElement Leaf.id writeLeaf (updateFor "task-list"))
                          (Js.mapi (mkUpdate target) l) x) (leavesOf data "task-list")).
Proof.
  rewrite applied_shape. unfold sideItems. simpl.
  now rewrite !orEmpty_option_map.
Qed.

Lemma sideItems_leaves :
  sideItems data
  = map (fun f => (Js.Str "folder", Folder.id f, Folder.parentId f, Folder.orderIndex f))
      (folders data)
    ++ map (fun x => (Js.Str "objective", Leaf.id x, Leaf.folderId x, Leaf.orderIndex x))
         (leavesOf data "objective")
    ++ map (fun x => (Js.Str "note", Leaf.id x, Leaf.folderId x, Leaf.orderIndex x))
         (leavesOf data "note")
    ++ map (fun x => (Js.Str "task-list", Leaf.id x, Leaf.folderId x, Leaf.orderIndex x))
         (leavesOf data "task-list").
Proof. reflexivity. Qed.

Lemma leaves_NoDup leafType :
  leafType = "objective"%string \/ leafType = "note"%string \/
  leafType = "task-list"%string ->
  NoDup (map Leaf.id (leavesOf data leafType)).
Proof. intros [E|[E|E]]; subst leafType; assumption. Qed.

(** A leaf of the plan, after the loop. *)
Lemma applied_leaf leafType i item :
  leafType = "objective"%string \/ leafType = "note"%string \/
  leafType = "task-list"%string ->
  nth_error l i = Some item ->
  Item._type item = Js.Str leafType ->
  In (Js.Str leafType, Item.id item, target, Some (Z.of_nat i * 1000))
     (map (fun x => (Js.Str leafType, Leaf.id x, Leaf.folderId x, Leaf.orderIndex x))
        (map (fun x => fold_left (writeElement Leaf.id writeLeaf (updateFor leafType))
                         (Js.mapi (mkUpdate target) l) x) (leavesOf data leafType))).
Proof.
  intros Ht Hn E.
  destruct (Hleaf item leafType Ht (nth_error_In _ _ Hn) E) as (x & Hx & Hid).
  rewrite map_map. apply in_map_iff. exists x. split; [|exact Hx].
  assert (Hty : isType (Item._type item) leafType = true).
  { unfold isType. rewrite E. simpl. apply String.eqb_refl. }
  rewrite (plan_write_unique Leaf.id writeLeaf writeLeaf_id leafType target l i item x
             Hn Hty Hid).
  - unfold writeLeaf, mkUpdate. simpl. rewrite Hid. do 2 f_equal.
    rewrite E. destruct Ht as [Ht|[Ht|Ht]]; subst leafType; reflexivity.
  - apply Hunique. tauto.
Qed.

Lemma applied_folder i item :
  nth_error l i = Some item ->
  Item._type item = Js.Str "folder" ->
  In (Js.Str "folder", Item.id item, target, Some (Z.of_nat i * 1000))
     (map (fun f => (Js.Str "folder", Folder.id f, Folder.parentId f, Folder.orderIndex f))
        (map (fun f => fold_left (writeElement Folder.id writeFolder (updateFor "folder"))
                         (Js.mapi (mkUpdate target) l) f) (folders data))).
Proof.
  intros Hn E.
  destruct (Hfolder item (nth_error_In _ _ Hn) E) as (f & Hf & Hid).
  rewrite map_map. apply in_map_iff. exists f. split; [|exact Hf].
  assert (Hty : isType (Item._type item) "folder" = true) by now rewrite E.
  rewrite (plan_write_unique Folder.id writeFolder writeFolder_id "folder" target l i item f
             Hn Hty Hid).
  - unfold writeFolder, mkUpdate. simpl. rewrite Hid, E. reflexivity.
  - apply Hunique. tauto.
Qed.

End SideAppliedFacts.

Lemma In_mapi_mkUpdate target l item :
  In item l -> exists j, In (SideListTerms.mkUpdate target j item)
                            (Js.mapi (SideListTerms.mkUpdate target) l).
Proof.
  intros H. apply In_nth_error in H. destruct H as [j Hj]. exists j.
  apply (nth_error_In _ j). rewrite mapi_nth_error, Hj. reflexivity.
Qed.

(* ================================================================== *)
(** * The side-list planner and the stored nodes *)
(* ================================================================== *)

Lemma filter_filter_andb {A : Type} (p q : A -> bool) l :
  filter p (filter q l) = filter (fun x => q x && p x) l.
Proof.
  induction l as [|x r IH]; simpl; [reflexivity|].
  destruct (q x); simpl; [destruct (p x)|]; now rewrite IH.
Qed.

(** [allItems], before it is sorted, holds exactly the nodes filed under
    the target. *)
Lemma collect_nodes data bookmarks target :
  SideList.collect data bookmarks target
  = map nodeItem (filter (nodeIn target) (sideNodes data bookmarks)).
Proof.
  unfold SideList.collect, sideNodes.
  rewrite !filter_app, !map_app, !filter_map_commute, !map_map.
  reflexivity.
Qed.

Lemma siblingsOf_nodes data bookmarks id target :
  Permutation (SideList.siblingsOf data bookmarks id target)
    (map nodeItem
       (filter (fun n => nodeIn target n && nodeIsNot id n) (sideNodes data bookmarks))).
Proof.
  eapply Permutation_trans; [apply SideListFacts.side_siblingsOf_perm|].
  rewrite collect_nodes, filter_map_commute, filter_filter_andb.
  apply Permutation_refl.
Qed.

Lemma find_exists {A : Type} (p : A -> bool) l x :
  In x l -> p x = true -> exists y, find p l = Some y.
Proof.
  intros Hin Hp. destruct (find p l) as [y|] eqn:E; [eauto|].
  rewrite (find_none _ _ E x Hin) in Hp. discriminate.
Qed.

(** A node of the given kind and id is found by the lookup of the dropped
    item. *)
Lemma findDropped_complete data bookmarks type id node :
  In node (sideNodes data bookmarks) ->
  nodeKind node = type -> Js.Str (nodeId node) = id ->
  exists dropped,
    SideList.findDropped data bookmarks type id = Some dropped /\
    SideList.Item.id dropped = nodeId node /\
    SideList.Item._type dropped = type.
Proof.
  intros Hin Hk Hid.
  assert (Hleaf : forall l x kind,
            In x l -> leafNode kind x = node ->
            exists y, find (fun x => Js.eqb (Js.Str (Leaf.id x)) id) l = Some y).
  { intros l x kind Hx E. apply (find_exists _ l x Hx).
    apply Js_eqb_eq. rewrite <- Hid, <- E. reflexivity. }
  assert (Hdone : forall dropped,
            SideList.findDropped data bookmarks type id = Some dropped ->
            SideList.Item._type dropped = type ->
            exists dropped,
              SideList.findDropped data bookmarks type id = Some dropped /\
              SideList.Item.id dropped = nodeId node /\
              SideList.Item._type dropped = type).
  { intros dropped Hd Ht. exists dropped. split; [exact Hd|]. split; [|exact Ht].
    apply SideListFacts.findDropped_id in Hd. rewrite <- Hid in Hd. now inversion Hd. }
  unfold sideNodes in Hin. rewrite !in_app_iff, !in_map_iff in Hin.
  destruct Hin as [(f & E & Hf)|[(x & E & Hx)|[(x & E & Hx)|[(x & E & Hx)|(x & E & Hx)]]]].
  - assert (Hfind : exists y,
              find (fun f => Js.eqb (Js.Str (Folder.id f)) id) (SideList.folders data)
              = Some y).
    { apply (find_exists _ _ f Hf). apply Js_eqb_eq. rewrite <- Hid, <- E. reflexivity. }
    destruct Hfind as [y Hy].
    apply (Hdone {| SideList.Item.id := Folder.id y; SideList.Item._type := type;
                    SideList.Item.orderIndex := Folder.orderIndex y |}); [|reflexivity].
    unfold SideList.findDropped. cbv zeta. rewrite Hy, <- Hk, <- E. reflexivity.
  - destruct (Hleaf _ x _ Hx E) as [y Hy].
    apply (Hdone (SideList.tagLeaf type y)); [|reflexivity].
    unfold SideList.findDropped. cbv zeta. rewrite Hy, <- Hk, <- E. reflexivity.
  - destruct (Hleaf _ x _ Hx E) as [y Hy].
    apply (Hdone (SideList.tagLeaf type y)); [|reflexivity].
    unfold SideList.findDropped. cbv zeta. rewrite Hy, <- Hk, <- E. reflexivity.
  - destruct (Hleaf _ x _ Hx E) as [y Hy].
    apply (Hdone (SideList.tagLeaf type y)); [|reflexivity].
    unfold SideList.findDropped. cbv zeta. rewrite Hy, <- Hk, <- E. reflexivity.
  - destruct (Hleaf _ x _ Hx E) as [y Hy].
    apply (Hdone (SideList.tagLeaf type y)); [|reflexivity].
    unfold SideList.findDropped. cbv zeta. rewrite Hy, <- Hk, <- E. reflexivity.
Qed.

(* ================================================================== *)
(** * Re-planning the side list from the updated state *)
(* ================================================================== *)

Lemma sideNodes_ids data bookmarks :
  map nodeId (sideNodes data bookmarks)
  = map Folder.id (SideList.folders data)
    ++ map Leaf.id (SideList.objectives data)
    ++ map Leaf.id (SideList.orEmpty (SideList.notes data))
    ++ map Leaf.id (SideList.orEmpty bookmarks)
    ++ map Leaf.id (SideList.orEmpty (SideList.taskLists data)).
Proof. unfold sideNodes. now rewrite !map_app, !map_map. Qed.

Lemma sideNodes_known data bookmarks n :
  In n (sideNodes data bookmarks) -> knownType (nodeKind n).
Proof.
  unfold sideNodes, knownType. rewrite !in_app_iff, !in_map_iff.
  intros [(x & <- & _)|[(x & <- & _)|[(x & <- & _)|[(x & <- & _)|(x & <- & _)]]]];
    simpl; auto 6.
Qed.

Lemma NoDup_app_l {A : Type} (l1 l2 : list A) : NoDup (l1 ++ l2) -> NoDup l1.
Proof.
  induction l1 as [|x r IH]; simpl; intros H; [constructor|].
  inversion H as [|? ? Hx Hr]; subst. constructor; [|auto].
  intros Hin. apply Hx. apply in_or_app. now left.
Qed.

Lemma NoDup_app_r {A : Type} (l1 l2 : list A) : NoDup (l1 ++ l2) -> NoDup l2.
Proof.
  induction l1 as [|x r IH]; simpl; intros H; [exact H|].
  inversion H; subst. auto.
Qed.

(** The lookup of the dropped item returns a stored node of the type asked
    for. *)
Lemma findDropped_node data bookmarks type id dropped :
  SideList.findDropped data bookmarks type id = Some dropped ->
  SideList.Item._type dropped = type /\
  exists n, In n (sideNodes data bookmarks) /\ nodeItem n = dropped.
Proof.
  unfold SideList.findDropped, SideList.isType. cbv zeta. intros H.
  assert (L : forall kind (l : list Leaf.t),
             type = Js.Str kind ->
             (forall x, In x l -> In (leafNode kind x) (sideNodes data bookmarks)) ->
             option_map (SideList.tagLeaf type)
               (find (fun x => Js.eqb (Js.Str (Leaf.id x)) id) l) = Some dropped ->
             SideList.Item._type dropped = type /\
             exists n, In n (sideNodes data bookmarks) /\ nodeItem n = dropped).
  { intros kind l Et Hl G. destruct (find _ l) as [x|] eqn:Ex; simpl in G; [|discriminate].
    apply find_some in Ex. destruct Ex as [Hx _]. inversion G; subst dropped.
    split; [reflexivity|]. exists (leafNode kind x). split; [now apply Hl|].
    rewrite Et. reflexivity. }
  destruct (Js.eqb type (Js.Str "folder")) eqn:E1.
  { apply Js_eqb_eq in E1.
    destruct (find _ (SideList.folders data)) as [f|] eqn:Ef; simpl in H; [|discriminate].
    apply find_some in Ef. destruct Ef as [Hf _]. inversion H; subst dropped.
    split; [reflexivity|]. exists (folderNode f). split.
    - unfold sideNodes. apply in_or_app. left. now apply in_map.
    - rewrite E1. reflexivity. }
  destruct (Js.eqb type (Js.Str "objective")) eqn:E2.
  { apply Js_eqb_eq in E2. refine (L "objective" _ E2 _ H).
    intros x Hx. unfold sideNodes. rewrite !in_app_iff. right; left. now apply in_map. }
  destruct (Js.eqb type (Js.Str "note")) eqn:E3.
  { apply Js_eqb_eq in E3. refine (L "note" _ E3 _ H).
    intros x Hx. unfold sideNodes. rewrite !in_app_iff. right; right; left.
    now apply in_map. }
  destruct (Js.eqb type (Js.Str "bookmark")) eqn:E4.
  { apply Js_eqb_eq in E4. refine (L "bookmark" _ E4 _ H).
    intros x Hx. unfold sideNodes. rewrite !in_app_iff. right; right; right; left.
    now apply in_map. }
  destruct (Js.eqb type (Js.Str "task-list")) eqn:E5; [|discriminate].
  apply Js_eqb_eq in E5. refine (L "task-list" _ E5 _ H).
  intros x Hx. unfold sideNodes. rewrite !in_app_iff. right; right; right; right.
  now apply in_map.
Qed.

Lemma itemIs_at_most_one type id (l : list SideList.Item.t) :
  NoDup (map SideList.Item.id l) ->
  (List.length (filter (itemIs type id) l) <= 1)%nat.
Proof.
  intros H. unfold itemIs.
  rewrite <- (filter_filter_andb
                (fun item => String.eqb (SideList.Item.id item) id)
                (fun item => SideList.isType (SideList.Item._type item) type)).
  eapply Nat.le_trans; [apply filter_filter_length|].
  now apply (NoDup_filter_id_length SideList.Item.id).
Qed.

Lemma applyUpdatesLocally_bookmarks updateBookmarkOrder type us : forall state,
  Forall (fun u => knownType (SideList.Update._type u) /\
                   SideList.Update._type u <> Js.Str "bookmark") us ->
  snd (SideList.applyUpdatesLocally updateBookmarkOrder type us state) = snd state.
Proof.
  induction us as [|u r IH]; intros state H; [reflexivity|].
  inversion H as [|? ? [Hk Hb] Hr]; subst.
  unfold SideList.applyUpdatesLocally in *. cbn [fold_left].
  rewrite (IH _ Hr). unfold SideList.applyUpdate. destruct state as [data bookmarks].
  rewrite (itemTypeOf_known type u Hk).
  destruct Hk as [E|[E|[E|[E|E]]]]; rewrite E in *; try reflexivity.
  congruence.
Qed.

Lemma mapiFrom_map {A B C : Type} (f : nat -> B -> C) (g : A -> B) l : forall i,
  Js.mapiFrom f i (map g l) = Js.mapiFrom (fun n a => f n (g a)) i l.
Proof. induction l as [|x r IH]; intros i; simpl; [reflexivity|now rewrite IH]. Qed.

Lemma mapiFrom_ext {A B : Type} (f g : nat -> A -> B) l : forall i,
  (forall n a, f n a = g n a) -> Js.mapiFrom f i l = Js.mapiFrom g i l.
Proof. induction l as [|x r IH]; intros i H; simpl; [reflexivity|now rewrite H, IH]. Qed.

Section SideApplied.
Import SideList SideListTerms.
Variable updateBookmarkOrder :
  option (string -> Z -> Js.nullable -> option (list Leaf.t) -> option (list Leaf.t)).
Variable data : Data.
Variable bookmarks : option (list Leaf.t).
Variable target : Js.nullable.
Variable placed : list Item.t.

Hypothesis ids_unique : NoDup (map nodeId (sideNodes data bookmarks)).
Hypothesis placed_unique : NoDup (map Item.id placed).
Hypothesis placed_stored :
  forall item, In item placed ->
    exists n, In n (sideNodes data bookmarks) /\
              nodeId n = Item.id item /\ nodeKind n = Item._type item.
Hypothesis no_bookmark :
  forall item, In item placed -> Item._type item <> Js.Str "bookmark".

Lemma node_inj n m :
  In n (sideNodes data bookmarks) -> In m (sideNodes data bookmarks) ->
  nodeId n = nodeId m -> n = m.
Proof. intros Hn Hm E. exact (NoDup_map_inj_on nodeId _ n m ids_unique Hn Hm E). Qed.

Lemma folders_unique : NoDup (map Folder.id (folders data)).
Proof. pose proof ids_unique as H. rewrite sideNodes_ids in H. now apply NoDup_app_l in H. Qed.

Lemma objectives_unique : NoDup (map Leaf.id (objectives data)).
Proof.
  pose proof ids_unique as H. rewrite sideNodes_ids in H.
  apply NoDup_app_r in H. now apply NoDup_app_l in H.
Qed.

Lemma notes_unique : NoDup (map Leaf.id (orEmpty (notes data))).
Proof.
  pose proof ids_unique as H. rewrite sideNodes_ids in H.
  do 2 apply NoDup_app_r in H. now apply NoDup_app_l in H.
Qed.

Lemma taskLists_unique : NoDup (map Leaf.id (orEmpty (taskLists data))).
Proof.
  pose proof ids_unique as H. rewrite sideNodes_ids in H.
  now do 4 apply NoDup_app_r in H.
Qed.

Lemma placed_known : Forall (fun item => knownType (Item._type item)) placed.
Proof.
  apply Forall_forall. intros item Hin.
  destruct (placed_stored item Hin) as (n & Hn & _ & <-).
  eapply sideNodes_known; eauto.
Qed.

Lemma placedIndex_Some s i :
  placedIndex placed s = Some i ->
  exists item, nth_error placed i = Some item /\ Item.id item = s.
Proof.
  intros H. apply findIndex_Some in H. destruct H as (_ & (item & Hn & E) & _).
  apply String.eqb_eq in E. eauto.
Qed.

Lemma placedIndex_nth i item :
  nth_error placed i = Some item -> placedIndex placed (Item.id item) = Some i.
Proof.
  intros H. unfold placedIndex.
  apply (findIndex_nth_NoDup Item.id _ placed i item placed_unique); auto.
  - intros y Hy. now apply String.eqb_eq in Hy.
  - apply String.eqb_refl.
Qed.

Lemma placedIndex_None s item :
  placedIndex placed s = None -> In item placed -> Item.id item <> s.
Proof.
  intros H Hin E. unfold placedIndex in H. rewrite findIndex_None in H.
  specialize (H item Hin). rewrite E, String.eqb_refl in H. discriminate.
Qed.

(** The entry of the plan for a stored node has the node's kind. *)
Lemma placed_kind i item n :
  nth_error placed i = Some item -> In n (sideNodes data bookmarks) ->
  nodeId n = Item.id item -> Item._type item = nodeKind n.
Proof.
  intros Hi Hn E.
  destruct (placed_stored item (nth_error_In _ _ Hi)) as (m & Hm & Em & Ek).
  assert (m = n) by (apply node_inj; congruence). now subst m.
Qed.

Lemma written_folder f :
  In f (folders data) ->
  fold_left (writeElement Folder.id writeFolder (updateFor "folder"))
    (Js.mapi (mkUpdate target) placed) f
  = renumberFolder placed target f.
Proof.
  intros Hf. unfold renumberFolder.
  assert (Hnode : In (folderNode f) (sideNodes data bookmarks)).
  { unfold sideNodes. apply in_or_app. left. now apply in_map. }
  destruct (placedIndex placed (Folder.id f)) as [i|] eqn:P.
  - destruct (placedIndex_Some _ _ P) as (item & Hi & Eid).
    assert (Et : Item._type item = Js.Str "folder")
      by (apply (placed_kind i item (folderNode f)); auto).
    rewrite (plan_write_unique Folder.id writeFolder (fun _ _ => eq_refl)
               "folder" target placed i item f Hi).
    + unfold writeFolder, mkUpdate. simpl. now rewrite Et.
    + now rewrite Et.
    + now rewrite Eid.
    + now apply itemIs_at_most_one.
  - apply plan_write_none. intros item Hin. unfold itemIs.
    apply (placedIndex_None _ _ P) in Hin. apply String.eqb_neq in Hin.
    rewrite Hin. apply andb_false_r.
Qed.

Lemma written_leaf kind x :
  String.eqb kind "folder" = false ->
  In (leafNode kind x) (sideNodes data bookmarks) ->
  fold_left (writeElement Leaf.id writeLeaf (updateFor kind))
    (Js.mapi (mkUpdate target) placed) x
  = renumberLeaf placed target x.
Proof.
  intros Hkind Hnode. unfold renumberLeaf.
  destruct (placedIndex placed (Leaf.id x)) as [i|] eqn:P.
  - destruct (placedIndex_Some _ _ P) as (item & Hi & Eid).
    assert (Et : Item._type item = Js.Str kind)
      by (apply (placed_kind i item (leafNode kind x)); auto).
    rewrite (plan_write_unique Leaf.id writeLeaf (fun _ _ => eq_refl)
               kind target placed i item x Hi).
    + unfold writeLeaf, mkUpdate. simpl. rewrite Et. unfold isType. simpl.
      now rewrite Hkind.
    + rewrite Et. unfold isType. simpl. apply String.eqb_refl.
    + now rewrite Eid.
    + now apply itemIs_at_most_one.
  - apply plan_write_none. intros item Hin. unfold itemIs.
    apply (placedIndex_None _ _ P) in Hin. apply String.eqb_neq in Hin.
    rewrite Hin. apply andb_false_r.
Qed.

Lemma plan_has_no_bookmark :
  Forall (fun u => knownType (Update._type u) /\ Update._type u <> Js.Str "bookmark")
    (Js.mapi (mkUpdate target) placed).
Proof.
  apply Forall_forall. intros u Hu. apply In_mapiFrom in Hu.
  destruct Hu as (j & item & Hin & ->). simpl. split; [|now apply no_bookmark].
  pose proof placed_known as K. rewrite Forall_forall in K. now apply K.
Qed.

(** The state after the plan has been applied. *)
Lemma applied_state type' :
  applyUpdatesLocally updateBookmarkOrder type' (Js.mapi (mkUpdate target) placed)
    (data, bookmarks)
  = (renumberData placed target data, bookmarks).
Proof.
  apply injective_projections.
  - rewrite (applied_shape updateBookmarkOrder data bookmarks target placed
               folders_unique objectives_unique notes_unique taskLists_unique
               placed_known type').
    unfold renumberData. cbn [fst]. f_equal.
    + apply map_ext_in. intros f Hf. now apply written_folder.
    + apply map_ext_in. intros x Hx. apply written_leaf; [reflexivity|].
      unfold sideNodes. rewrite !in_app_iff. right; left. now apply in_map.
    + destruct (notes data) as [N|] eqn:EN; simpl; [|reflexivity]. f_equal.
      apply map_ext_in. intros x Hx. apply written_leaf; [reflexivity|].
      unfold sideNodes. rewrite !in_app_iff, EN. right; right; left. now apply in_map.
    + destruct (taskLists data) as [T|] eqn:ET; simpl; [|reflexivity]. f_equal.
      apply map_ext_in. intros x Hx. apply written_leaf; [reflexivity|].
      unfold sideNodes. rewrite !in_app_iff, ET. right; right; right; right.
      now apply in_map.
  - rewrite applyUpdatesLocally_bookmarks; [reflexivity|apply plan_has_no_bookmark].
Qed.

(** No bookmark has the id of an entry of the plan. *)
Lemma bookmark_not_placed b :
  In b (orEmpty bookmarks) -> placedIndex placed (Leaf.id b) = None.
Proof.
  intros Hb. destruct (placedIndex placed (Leaf.id b)) as [i|] eqn:P; [|reflexivity].
  exfalso. destruct (placedIndex_Some _ _ P) as (item & Hi & Eid).
  apply (no_bookmark item (nth_error_In _ _ Hi)).
  apply (placed_kind i item (leafNode "bookmark" b)); auto.
  unfold sideNodes. rewrite !in_app_iff. right; right; right; left. now apply in_map.
Qed.

(** The stored nodes after the plan has been applied. *)
Lemma sideNodes_applied :
  sideNodes (renumberData placed target data) bookmarks
  = map (renumberNode placed target) (sideNodes data bookmarks).
Proof.
  unfold sideNodes, renumberData. cbn [folders objectives notes taskLists].
  rewrite !map_app, !map_map.
  assert (HF : forall f, folderNode (renumberFolder placed target f)
                         = renumberNode placed target (folderNode f)).
  { intros f. unfold renumberFolder, renumberNode. cbn [nodeId folderNode fst snd].
    now destruct (placedIndex placed (Folder.id f)). }
  assert (HL : forall kind x, leafNode kind (renumberLeaf placed target x)
                              = renumberNode placed target (leafNode kind x)).
  { intros kind x. unfold renumberLeaf, renumberNode. cbn [nodeId leafNode fst snd].
    now destruct (placedIndex placed (Leaf.id x)). }
  f_equal; [apply map_ext; intros; apply HF|].
  f_equal; [apply map_ext; intros; apply HL|].
  f_equal.
  { destruct (notes data); simpl; [|reflexivity].
    rewrite map_map. apply map_ext. intros; apply HL. }
  f_equal.
  { apply map_ext_in. intros b Hb. unfold renumberNode. cbn [nodeId leafNode fst snd].
    now rewrite (bookmark_not_placed b Hb). }
  destruct (taskLists data); simpl; [|reflexivity].
  rewrite map_map. apply map_ext. intros; apply HL.
Qed.

Lemma renumberNode_id n : nodeId (renumberNode placed target n) = nodeId n.
Proof. unfold renumberNode. now destruct (placedIndex placed (nodeId n)). Qed.

Lemma renumberNode_kind n : nodeKind (renumberNode placed target n) = nodeKind n.
Proof. unfold renumberNode. now destruct (placedIndex placed (nodeId n)). Qed.

Lemma renumberItem_id item : Item.id (renumberItem placed item) = Item.id item.
Proof. unfold renumberItem. now destruct (placedIndex placed (Item.id item)). Qed.

Lemma renumberItem_type item : Item._type (renumberItem placed item) = Item._type item.
Proof. unfold renumberItem. now destruct (placedIndex placed (Item.id item)). Qed.

Lemma nodeItem_renumber n :
  nodeItem (renumberNode placed target n) = renumberItem placed (nodeItem n).
Proof.
  unfold renumberNode, renumberItem. cbn [nodeItem Item.id].
  now destruct (placedIndex placed (nodeId n)).
Qed.

Lemma applied_ids_unique :
  NoDup (map nodeId (sideNodes (renumberData placed target data) bookmarks)).
Proof.
  rewrite sideNodes_applied, map_map.
  erewrite map_ext; [exact ids_unique|]. apply renumberNode_id.
Qed.

Lemma applied_placed_stored :
  forall item, In item placed ->
    exists n, In n (sideNodes (renumberData placed target data) bookmarks) /\
              nodeId n = Item.id item /\ nodeKind n = Item._type item.
Proof.
  intros item Hin. destruct (placed_stored item Hin) as (n & Hn & Ei & Ek).
  exists (renumberNode placed target n). rewrite sideNodes_applied.
  split; [now apply in_map|]. now rewrite renumberNode_id, renumberNode_kind.
Qed.

Lemma renumberFolder_twice f :
  renumberFolder placed target (renumberFolder placed target f)
  = renumberFolder placed target f.
Proof.
  unfold renumberFolder.
  destruct (placedIndex placed (Folder.id f)) eqn:P; simpl; now rewrite P.
Qed.

Lemma renumberLeaf_twice x :
  renumberLeaf placed target (renumberLeaf placed target x) = renumberLeaf placed target x.
Proof.
  unfold renumberLeaf.
  destruct (placedIndex placed (Leaf.id x)) eqn:P; simpl; now rewrite P.
Qed.

Lemma renumberData_twice :
  renumberData placed target (renumberData placed target data)
  = renumberData placed target data.
Proof.
  unfold renumberData. cbn [folders objectives notes taskLists]. f_equal.
  - rewrite map_map. apply map_ext, renumberFolder_twice.
  - rewrite map_map. apply map_ext, renumberLeaf_twice.
  - destruct (notes data); simpl; [|reflexivity]. f_equal.
    rewrite map_map. apply map_ext, renumberLeaf_twice.
  - destruct (taskLists data); simpl; [|reflexivity]. f_equal.
    rewrite map_map. apply map_ext, renumberLeaf_twice.
Qed.

End SideApplied.

(** Applying the same plan a second time changes nothing. *)
Lemma side_applied_twice updateBookmarkOrder data bookmarks target placed type' :
  NoDup (map nodeId (sideNodes data bookmarks)) ->
  NoDup (map SideList.Item.id placed) ->
  (forall item, In item placed ->
     exists n, In n (sideNodes data bookmarks) /\
               nodeId n = SideList.Item.id item /\ nodeKind n = SideList.Item._type item) ->
  (forall item, In item placed -> SideList.Item._type item <> Js.Str "bookmark") ->
  SideList.applyUpdatesLocally updateBookmarkOrder type'
    (Js.mapi (SideListTerms.mkUpdate target) placed)
    (renumberData placed target data, bookmarks)
  = (renumberData placed target data, bookmarks).
Proof.
  intros Hu Hp Hs Hb.
  rewrite (applied_state updateBookmarkOrder (renumberData placed target data) bookmarks
             target placed
             (applied_ids_unique data bookmarks target placed Hu Hs Hb)
             Hp
             (applied_placed_stored data bookmarks target placed Hu Hs Hb)
             Hb type').
  now rewrite renumberData_twice.
Qed.

Section SideReplan.
Import SideList SideListTerms.

Variable updateBookmarkOrder :
  option (string -> Z -> Js.nullable -> option (list Leaf.t) -> option (list Leaf.t)).
Variables (data : Data) (bookmarks : option (list Leaf.t)).
Variables (type id target : Js.nullable) (dropped : Item.t) (k : nat).

Hypothesis ids_unique : NoDup (map nodeId (sideNodes data bookmarks)).
Hypothesis dropped_found : findDropped data bookmarks type id = Some dropped.

Let rest := siblingsOf data bookmarks id target.

Hypothesis k_le : (k <= List.length rest)%nat.

Let placed := Js.splice rest k dropped.
Let updates := Js.mapi (mkUpdate target) placed.

Hypothesis no_bookmark : forall item, In item placed -> Item._type item <> Js.Str "bookmark".

Let data' := renumberData placed target data.
Let normalTarget := isNormalTarget target.

Lemma side_dropped_id : Js.Str (Item.id dropped) = id.
Proof. exact (SideListFacts.findDropped_id _ _ _ _ _ dropped_found). Qed.

Lemma side_rest_In item :
  In item rest <->
  exists n, In n (sideNodes data bookmarks) /\ nodeItem n = item /\
            nodeIn target n = true /\ Js.Str (Item.id item) <> id.
Proof.
  split.
  - intros H.
    apply (Permutation_in _ (siblingsOf_nodes data bookmarks id target)) in H.
    apply in_map_iff in H. destruct H as (n & E & Hn).
    apply filter_In in Hn. destruct Hn as [Hn Hp].
    apply andb_true_iff in Hp. destruct Hp as [Hin Hnot].
    exists n. split; [exact Hn|]. split; [exact E|]. split; [exact Hin|].
    rewrite <- E. unfold nodeIsNot in Hnot.
    now apply negb_true_iff, Js_eqb_neq in Hnot.
  - intros (n & Hn & E & Hin & Hnot).
    apply (Permutation_in _ (Permutation_sym (siblingsOf_nodes data bookmarks id target))).
    apply in_map_iff. exists n. split; [exact E|].
    apply filter_In. split; [exact Hn|]. rewrite Hin. simpl.
    unfold nodeIsNot. apply negb_true_iff, Js_eqb_neq. now rewrite <- E in Hnot.
Qed.

Lemma side_placed_node item :
  In item placed -> exists n, In n (sideNodes data bookmarks) /\ nodeItem n = item.
Proof.
  intros H. apply splice_In in H. destruct H as [->|H].
  - exact (proj2 (findDropped_node _ _ _ _ _ dropped_found)).
  - apply side_rest_In in H. destruct H as (n & Hn & E & _). eauto.
Qed.

Lemma side_placed_stored item :
  In item placed ->
  exists n, In n (sideNodes data bookmarks) /\
            nodeId n = Item.id item /\ nodeKind n = Item._type item.
Proof.
  intros H. destruct (side_placed_node item H) as (n & Hn & <-). eauto.
Qed.

Lemma side_rest_ids_NoDup : NoDup (map Item.id rest).
Proof.
  eapply Permutation_NoDup.
  - apply Permutation_map. symmetry. apply siblingsOf_nodes.
  - rewrite map_map. now apply (NoDup_map_filter nodeId).
Qed.

Lemma side_placed_ids_NoDup : NoDup (map Item.id placed).
Proof.
  eapply Permutation_NoDup.
  - apply Permutation_map. symmetry. apply splice_perm.
  - simpl. constructor; [|apply side_rest_ids_NoDup].
    intros Hin. apply in_map_iff in Hin. destruct Hin as (item & E & Hitem).
    apply side_rest_In in Hitem. destruct Hitem as (_ & _ & _ & _ & Hne).
    apply Hne. rewrite E. apply side_dropped_id.
Qed.

Lemma side_applied_state type' :
  applyUpdatesLocally updateBookmarkOrder type' updates (data, bookmarks)
  = (data', bookmarks).
Proof.
  exact (applied_state updateBookmarkOrder data bookmarks target placed
           ids_unique side_placed_ids_NoDup side_placed_stored no_bookmark type').
Qed.

Lemma side_sideNodes_applied :
  sideNodes data' bookmarks = map (renumberNode placed target) (sideNodes data bookmarks).
Proof.
  exact (sideNodes_applied data bookmarks target placed
           ids_unique side_placed_stored no_bookmark).
Qed.

Lemma side_placedIndex_nth i item :
  nth_error placed i = Some item -> placedIndex placed (Item.id item) = Some i.
Proof. exact (placedIndex_nth placed side_placed_ids_NoDup i item). Qed.

Lemma side_placedIndex_In item :
  In item placed -> exists i, placedIndex placed (Item.id item) = Some i.
Proof.
  intros H. apply In_nth_error in H. destruct H as [i Hi]. exists i.
  now apply side_placedIndex_nth.
Qed.

Lemma renumberItem_placed i item :
  nth_error placed i = Some item ->
  renumberItem placed item
  = {| Item.id := Item.id item; Item._type := Item._type item;
       Item.orderIndex := Some (Z.of_nat i * 1000) |}.
Proof. intros H. unfold renumberItem. now rewrite (side_placedIndex_nth i item H). Qed.

Lemma map_renumberItem_placed :
  map (renumberItem placed) placed
  = Js.mapi (fun i item => {| Item.id := Item.id item; Item._type := Item._type item;
                              Item.orderIndex := Some (Z.of_nat i * 1000) |}) placed.
Proof.
  apply nth_error_ext. intros n.
  rewrite nth_error_map, mapi_nth_error.
  destruct (nth_error placed n) as [x|] eqn:E; simpl; [|reflexivity].
  now rewrite (renumberItem_placed n x E).
Qed.

(** A node that the plan does not name is outside the target. *)
Lemma unplaced_outside n :
  In n (sideNodes data bookmarks) -> placedIndex placed (nodeId n) = None ->
  nodeIn target n = false.
Proof.
  intros Hn P. destruct (nodeIn target n) eqn:E; [|reflexivity]. exfalso.
  assert (Hin : In (nodeItem n) placed).
  { apply splice_In.
    destruct (Js.eqb (Js.Str (nodeId n)) id) eqn:Eid.
    - left. apply Js_eqb_eq in Eid.
      destruct (proj2 (findDropped_node _ _ _ _ _ dropped_found)) as (m & Hm & Em).
      assert (m = n); [|now subst m].
      apply (NoDup_map_inj_on nodeId _ m n ids_unique Hm Hn).
      pose proof side_dropped_id as D. rewrite <- Em, <- Eid in D.
      now inversion D.
    - right. apply side_rest_In. exists n. split; [exact Hn|]. split; [reflexivity|].
      split; [exact E|]. now apply Js_eqb_neq in Eid. }
  destruct (side_placedIndex_In _ Hin) as [i Hi]. simpl in Hi. congruence.
Qed.

Lemma nodeIn_renumber n :
  normalTarget -> In n (sideNodes data bookmarks) ->
  nodeIn target (renumberNode placed target n)
  = match placedIndex placed (nodeId n) with Some _ => true | None => false end.
Proof.
  intros Hnorm Hn. unfold renumberNode.
  destruct (placedIndex placed (nodeId n)) as [i|] eqn:P.
  - unfold nodeIn. cbn [nodeContainer fst snd]. rewrite Hnorm. apply Js_eqb_refl.
  - now apply unplaced_outside.
Qed.

Lemma side_placed_members :
  Permutation
    (map nodeItem
       (filter (fun n => match placedIndex placed (nodeId n) with
                         | Some _ => true | None => false end)
          (sideNodes data bookmarks)))
    placed.
Proof.
  apply NoDup_Permutation.
  - apply (NoDup_of_map Item.id). rewrite map_map.
    now apply (NoDup_map_filter nodeId).
  - apply (NoDup_of_map Item.id), side_placed_ids_NoDup.
  - intros x. rewrite in_map_iff. split.
    + intros (n & <- & Hn). apply filter_In in Hn. destruct Hn as [Hn P].
      destruct (placedIndex placed (nodeId n)) as [i|] eqn:Pi; [|discriminate].
      destruct (placedIndex_Some placed _ _ Pi) as (item & Hi & Eid).
      destruct (side_placed_node item (nth_error_In _ _ Hi)) as (m & Hm & Em).
      assert (m = n).
      { apply (NoDup_map_inj_on nodeId _ m n ids_unique Hm Hn).
        rewrite <- Eid, <- Em. reflexivity. }
      subst m. rewrite Em. eapply nth_error_In; eauto.
    + intros Hx. destruct (side_placed_node x Hx) as (n & Hn & En).
      exists n. split; [exact En|]. apply filter_In. split; [exact Hn|].
      destruct (side_placedIndex_In x Hx) as [i Hi].
      rewrite <- En in Hi. simpl in Hi. now rewrite Hi.
Qed.

(** After the plan is applied, the sorted container is the planned list. *)
Lemma side_sideContainer_applied :
  normalTarget ->
  sideContainer data' bookmarks target = map (renumberItem placed) placed.
Proof.
  intros Hnorm. unfold sideContainer. rewrite side_sideNodes_applied.
  apply sortBy_of_permutation.
  - rewrite filter_map_commute, map_map.
    rewrite (filter_ext_in _ _ _ (fun n Hn => nodeIn_renumber n Hnorm Hn)).
    erewrite map_ext; [|intros n; apply (nodeItem_renumber target placed)].
    rewrite <- map_map. apply Permutation_map, side_placed_members.
  - rewrite map_renumberItem_placed. now apply ascending_mapi_stride.
  - rewrite map_renumberItem_placed. now apply NoDup_key_mapi_stride.
Qed.

Lemma nodeIn_abnormal n : ~ normalTarget -> nodeIn target n = false.
Proof.
  intros H. apply Js_eqb_neq. intros E. apply H. unfold normalTarget, isNormalTarget.
  rewrite <- E. apply orNull_idempotent.
Qed.

Lemma side_sideContainer_abnormal d b : ~ normalTarget -> sideContainer d b target = [].
Proof.
  intros H. unfold sideContainer. rewrite filter_none; [reflexivity|].
  intros n _. now apply nodeIn_abnormal.
Qed.

Lemma siblingsOf_container d b :
  siblingsOf d b id target = filter (isNot id) (sideContainer d b target).
Proof. unfold siblingsOf, sideContainer. now rewrite collect_nodes. Qed.

Lemma side_rest_abnormal : ~ normalTarget -> rest = [].
Proof.
  intros H. unfold rest. now rewrite siblingsOf_container, side_sideContainer_abnormal.
Qed.

Lemma side_filter_isNot_placed : filter (isNot id) placed = rest.
Proof.
  unfold placed. rewrite splice_filter_out.
  - apply filter_all. intros item Hitem. apply side_rest_In in Hitem.
    destruct Hitem as (_ & _ & _ & _ & Hne).
    unfold isNot. now apply negb_true_iff, Js_eqb_neq.
  - unfold isNot. now rewrite side_dropped_id, Js_eqb_refl.
Qed.

(** The items the second run starts from are the first run's, renumbered. *)
Lemma side_siblingsOf_applied :
  siblingsOf data' bookmarks id target = map (renumberItem placed) rest.
Proof.
  rewrite siblingsOf_container.
  destruct (Js.eqb (Js.orNull target) target) eqn:N.
  - apply Js_eqb_eq in N.
    rewrite (side_sideContainer_applied N), filter_map_commute.
    rewrite (filter_ext _ (isNot id)).
    + now rewrite side_filter_isNot_placed.
    + intros item. unfold isNot. now rewrite renumberItem_id.
  - apply Js_eqb_neq in N.
    now rewrite (side_sideContainer_abnormal _ _ N), (side_rest_abnormal N).
Qed.

Lemma side_findDropped_applied :
  findDropped data' bookmarks type id = Some (renumberItem placed dropped).
Proof.
  destruct (findDropped_node _ _ _ _ _ dropped_found) as (Ety & n0 & Hn0 & En0).
  assert (Hn0' : In (renumberNode placed target n0) (sideNodes data' bookmarks)).
  { rewrite side_sideNodes_applied. now apply in_map. }
  assert (Hkind : nodeKind (renumberNode placed target n0) = type).
  { rewrite renumberNode_kind, <- Ety, <- En0. reflexivity. }
  assert (Hid : Js.Str (nodeId (renumberNode placed target n0)) = id).
  { rewrite renumberNode_id. rewrite <- side_dropped_id, <- En0. reflexivity. }
  destruct (findDropped_complete data' bookmarks type id _ Hn0' Hkind Hid)
    as (d' & Hd' & Hdi & _).
  rewrite Hd'. f_equal.
  destruct (findDropped_node _ _ _ _ _ Hd') as (_ & m & Hm & Em).
  assert (m = renumberNode placed target n0).
  { apply (NoDup_map_inj_on nodeId _ m _
             (applied_ids_unique data bookmarks target placed
                ids_unique side_placed_stored no_bookmark) Hm Hn0').
    rewrite <- Hdi, <- Em. reflexivity. }
  subst m. rewrite <- Em, nodeItem_renumber, En0. reflexivity.
Qed.

Lemma side_positionOf_placed :
  sidePositionOf id (map (renumberItem placed) placed) = Some k.
Proof.
  unfold sidePositionOf. rewrite findIndex_map by (intros; now rewrite renumberItem_id).
  unfold placed, Js.splice.
  rewrite findIndex_app_hit.
  - now rewrite firstn_length_le.
  - intros y Hy. apply Js_eqb_neq.
    assert (In y rest) by (rewrite <- (firstn_skipn k rest); apply in_or_app; auto).
    apply side_rest_In in H. destruct H as (_ & _ & _ & _ & Hne). exact Hne.
  - rewrite side_dropped_id. apply Js_eqb_refl.
Qed.

Variables prevEl' nextEl' : option Element.t.
Hypothesis same_placement : sidePlacedAs data' bookmarks id target prevEl' nextEl'.

(** The second run inserts at the same index. *)
Lemma side_insertIndexOf_applied :
  insertIndexOf (map (renumberItem placed) rest) prevEl' nextEl' = k.
Proof.
  destruct same_placement as [Hprev Hnext].
  unfold sidePrevSiblingId, sideNextSiblingId in *.
  assert (Hcase : k = O \/ exists j, k = S j).
  { destruct (Nat.eq_dec k 0); [left|right; exists (pred k)]; lia. }
  destruct (Js.eqb (Js.orNull target) target) eqn:N.
  - apply Js_eqb_eq in N.
    rewrite (side_sideContainer_applied N), side_positionOf_placed in *.
    rewrite nth_error_map in Hnext.
    unfold placed in Hnext. rewrite splice_nth_error_after in Hnext by lia.
    unfold insertIndexOf. destruct Hcase as [Ek|[j Ek]].
    + rewrite Ek in Hprev. rewrite Ek.
      destruct prevEl' as [p|]; [discriminate|].
      destruct nextEl' as [n|]; [reflexivity|].
      rewrite length_map. rewrite Ek in Hnext.
      destruct (nth_error rest 0) as [y|] eqn:Ey; [discriminate|].
      apply nth_error_None in Ey. lia.
    + rewrite Ek in Hprev. rewrite nth_error_map in Hprev.
      unfold placed in Hprev.
      rewrite splice_nth_error_before in Hprev by lia.
      assert (Hj : (j < List.length rest)%nat) by lia.
      apply nth_error_Some in Hj.
      destruct (nth_error rest j) as [y|] eqn:Ey; [|congruence].
      simpl in Hprev. rewrite renumberItem_id in Hprev.
      destruct prevEl' as [p|]; [|discriminate].
      simpl in Hprev. inversion Hprev as [Hp]. rewrite Hp.
      rewrite findIndex_map by (intros; now rewrite renumberItem_id).
      rewrite (findIndex_nth_NoDup Item.id _ rest j y side_rest_ids_NoDup); auto.
      * rewrite Ek. f_equal. lia.
      * intros z Hz. apply Js_eqb_eq in Hz. now inversion Hz.
      * apply Js_eqb_refl.
  - apply Js_eqb_neq in N.
    rewrite (side_sideContainer_abnormal _ _ N) in *. simpl in *.
    pose proof (side_rest_abnormal N) as R.
    assert (Hk0 : k = O) by (rewrite R in k_le; simpl in k_le; lia).
    rewrite Hk0, R.
    destruct prevEl'; [discriminate|]. destruct nextEl'; [discriminate|].
    reflexivity.
Qed.

(** Re-running the planner on the updated state returns the same plan. *)
Lemma side_buildUpdatesArray_applied :
  buildUpdatesArray data' bookmarks type id target prevEl' nextEl' = Some updates.
Proof.
  rewrite (SideListFacts.side_buildUpdatesArray_found _ _ _ _ _ _ _ _
             side_findDropped_applied).
  rewrite side_siblingsOf_applied, side_insertIndexOf_applied, splice_map.
  f_equal. unfold updates, Js.mapi. rewrite mapiFrom_map.
  apply mapiFrom_ext. intros n a. unfold mkUpdate.
  now rewrite renumberItem_id, renumberItem_type.
Qed.

End SideReplan.

(** Idempotence of the side-list planner, from any state in which ids
    identify the stored items, for a plan that names no bookmark. *)
Lemma SideList_replan_same updateBookmarkOrder data bookmarks type id target
    prevEl nextEl updates prevEl' nextEl' :
  NoDup (map nodeId (sideNodes data bookmarks)) ->
  SideList.buildUpdatesArray data bookmarks type id target prevEl nextEl = Some updates ->
  (forall u, In u updates -> SideList.Update._type u <> Js.Str "bookmark") ->
  let state' :=
    SideList.applyUpdatesLocally updateBookmarkOrder type updates (data, bookmarks) in
  sidePlacedAs (fst state') (snd state') id target prevEl' nextEl' ->
  SideList.buildUpdatesArray (fst state') (snd state') type id target prevEl' nextEl'
  = Some updates /\
  SideList.applyUpdatesLocally updateBookmarkOrder type updates state' = state'.
Proof.
  intros ND Hb Hnb.
  destruct (SideList.findDropped data bookmarks type id) as [dropped|] eqn:F.
  - rewrite (SideListFacts.side_buildUpdatesArray_found _ _ _ _ _ _ _ _ F) in Hb.
    inversion Hb as [Hu]. clear Hb. subst updates.
    pose proof (SideListFacts.side_insertIndexOf_le
                  (SideList.siblingsOf data bookmarks id target) prevEl nextEl) as Hk.
    set (k := SideList.insertIndexOf (SideList.siblingsOf data bookmarks id target)
                prevEl nextEl) in *.
    assert (Hnb' : forall item,
              In item (Js.splice (SideList.siblingsOf data bookmarks id target) k dropped) ->
              SideList.Item._type item <> Js.Str "bookmark").
    { intros item Hitem. destruct (In_mapi_mkUpdate target _ item Hitem) as [j Hj].
      exact (Hnb _ Hj). }
    rewrite (side_applied_state updateBookmarkOrder data bookmarks type id target dropped k
               ND F Hnb' type).
    cbv zeta. cbn [fst snd]. intros Hp. split.
    + exact (side_buildUpdatesArray_applied data bookmarks type id target dropped k
               ND F Hk Hnb' prevEl' nextEl' Hp).
    + apply side_applied_twice; auto.
      * exact (side_placed_ids_NoDup data bookmarks type id target dropped k ND F).
      * exact (side_placed_stored data bookmarks type id target dropped k F).
  - unfold SideList.buildUpdatesArray in Hb. rewrite F in Hb. discriminate.
Qed.

(* ================================================================== *)
(** * Verified properties *)
(* ================================================================== *)

(** C1. Whenever the moved node exists, the planner returns a full
    replacement set for the target container: the current members of the
    container other than the moved node (each exactly once, ascending by
    [orderIndex]) with the moved node spliced in at some index [k]; entry
    [i] of the result carries [orderIndex = i * 1000] and the target as
    its parent/container field, whether or not its position changed; so
    adjacent entries differ by exactly 1000.  First conjunct: the task
    list, whose members are the tasks with the target as [parentTaskId].
    Second conjunct: the side list, whose members are the stored nodes of
    every kind (folders, objectives, notes, bookmarks, task lists) with the
    target as container key; the moved node is any stored node of the
    dropped kind and id. *)
Theorem planner_renumbers_whole_container :
  (forall tasks taskId target prevEl nextEl moved,
     find (fun t => Js.eqb (Js.Str (Task.id t)) taskId) tasks = Some moved ->
     let rest := TaskList.siblingsOf tasks taskId target in
     Permutation rest
       (filter (TaskListTerms.isNot taskId)
          (filter (TaskListTerms.inContainer target) tasks)) /\
     Js.ascending TaskListTerms.key rest /\
     exists k updates,
       (k <= List.length rest)%nat /\
       TaskList.buildUpdatesArray tasks taskId target prevEl nextEl = Some updates /\
       map TaskList.Update.id updates
         = map Task.id (firstn k rest) ++ Task.id moved :: map Task.id (skipn k rest) /\
       List.length updates = S (List.length rest) /\
       (forall i u, nth_error updates i = Some u ->
          TaskList.Update.orderIndex u = Z.of_nat i * 1000 /\
          TaskList.Update.parentTaskId u = target) /\
       (forall i u v, nth_error updates i = Some u -> nth_error updates (S i) = Some v ->
          TaskList.Update.orderIndex v - TaskList.Update.orderIndex u = 1000))
  /\
  (forall data bookmarks type id target prevEl nextEl moved,
     In moved (sideNodes data bookmarks) ->
     nodeKind moved = type -> Js.Str (nodeId moved) = id ->
     let rest := SideList.siblingsOf data bookmarks id target in
     Permutation rest
       (map nodeItem
          (filter (fun n => nodeIn target n && nodeIsNot id n)
             (sideNodes data bookmarks))) /\
     Js.ascending SideListTerms.key rest /\
     exists k updates,
       (k <= List.length rest)%nat /\
       SideList.buildUpdatesArray data bookmarks type id target prevEl nextEl
         = Some updates /\
       map SideList.Update.id updates
         = map SideList.Item.id (firstn k rest)
           ++ nodeId moved :: map SideList.Item.id (skipn k rest) /\
       map SideList.Update._type updates
         = map SideList.Item._type (firstn k rest)
           ++ type :: map SideList.Item._type (skipn k rest) /\
       List.length updates = S (List.length rest) /\
       (forall i u, nth_error updates i = Some u ->
          SideList.Update.orderIndex u = Z.of_nat i * 1000 /\
          SideList.containerOf u = target) /\
       (forall i u v, nth_error updates i = Some u -> nth_error updates (S i) = Some v ->
          SideList.Update.orderIndex v - SideList.Update.orderIndex u = 1000)).
Proof.
  split.
  - exact TaskListFacts.full_renumbering.
  - intros data bookmarks type id target prevEl nextEl moved Hin Hk Hid rest.
    destruct (findDropped_complete data bookmarks type id moved Hin Hk Hid)
      as (dropped & Hd & Hdi & Hdt).
    split; [apply siblingsOf_nodes|].
    split; [apply SideListFacts.side_siblingsOf_ascending|].
    exists (SideList.insertIndexOf rest prevEl nextEl),
           (Js.mapi (SideListTerms.mkUpdate target)
              (Js.splice rest (SideList.insertIndexOf rest prevEl nextEl) dropped)).
    split; [apply SideListFacts.side_insertIndexOf_le|].
    split; [now apply SideListFacts.side_buildUpdatesArray_found|].
    split.
    { unfold Js.mapi. rewrite (map_mapiFrom _ _ SideList.Item.id) by reflexivity.
      unfold Js.splice. rewrite map_app. simpl. now rewrite Hdi. }
    split.
    { unfold Js.mapi. rewrite (map_mapiFrom _ _ SideList.Item._type) by reflexivity.
      unfold Js.splice. rewrite map_app. simpl. now rewrite Hdt. }
    split; [now rewrite mapi_length, splice_length|].
    split; [intros i u; apply SideListFacts.side_mapi_mkUpdate_nth|].
    intros i u v Hu Hv.
    apply SideListFacts.side_mapi_mkUpdate_nth in Hu, Hv.
    destruct Hu as [Eu _], Hv as [Ev _]. rewrite Eu, Ev. lia.
Qed.

Lemma planner_renumbers_whole_container_witness :
  (exists updates,
     TaskList.buildUpdatesArray Sample.tasksABC (Js.Str "C") (Js.Str "P")
       (Some Sample.rowA) (Some Sample.rowB) = Some updates /\
     List.length updates = 3%nat /\
     forall i u v, nth_error updates i = Some u -> nth_error updates (S i) = Some v ->
       TaskList.Update.orderIndex v - TaskList.Update.orderIndex u = 1000) /\
  (exists updates,
     SideList.buildUpdatesArray Sample.sideData None (Js.Str "note") (Js.Str "L")
       (Js.Str "F") None None = Some updates /\
     map SideList.Update.id updates = ["O"; "L"] /\
     List.length updates = 2%nat /\
     forall i u, nth_error updates i = Some u ->
       SideList.Update.orderIndex u = Z.of_nat i * 1000 /\
       SideList.containerOf u = Js.Str "F").
Proof.
  split.
  - destruct (proj1 planner_renumbers_whole_container
                Sample.tasksABC (Js.Str "C") (Js.Str "P")
                (Some Sample.rowA) (Some Sample.rowB)
                (Sample.task "C" (Js.Str "P") 2000) eq_refl)
      as (_ & _ & k & updates & _ & Hb & _ & Hlen & _ & Hstride).
    exists updates. split; [exact Hb|]. split; [exact Hlen|exact Hstride].
  - destruct (proj2 planner_renumbers_whole_container
                Sample.sideData None (Js.Str "note") (Js.Str "L") (Js.Str "F") None None
                (Js.Str "note", "L", Js.Null, Some 1000)
                (or_intror (or_intror (or_introl eq_refl))) eq_refl eq_refl)
      as (_ & _ & k & updates & _ & Hb & Hids & _ & Hlen & Hidx & _).
    exists updates. split; [exact Hb|].
    assert (E : Some updates
                = Some [ SideList.Update.mk "O" (Js.Str "objective") 0 Js.Undefined
                           (Js.Str "F");
                         SideList.Update.mk "L" (Js.Str "note") 1000 Js.Undefined
                           (Js.Str "F") ])
      by (rewrite <- Hb; reflexivity).
    inversion E; subst updates.
    split; [reflexivity|]. split; [reflexivity|exact Hidx].
Defined.

(** C2, as claimed, fails.  With [A], [B] the remaining siblings of [C]:
    a stale [prevEl] puts [C] first, not last; and with no [prevEl] and
    [nextEl = B] (index 1 among the siblings) [C] is again put first, not
    at index 1 before [B]. *)
Lemma stale_prev_inserts_first_not_last :
  let rest := TaskList.siblingsOf Sample.tasksABC (Js.Str "C") (Js.Str "P") in
  let first := Some [ TaskList.Update.mk "C" 0 (Js.Str "P");
                      TaskList.Update.mk "A" 1000 (Js.Str "P");
                      TaskList.Update.mk "B" 2000 (Js.Str "P") ] in
  map Task.id rest = ["A"; "B"] /\
  Js.findIndex (fun t => Js.eqb (Js.Str (Task.id t)) (elTaskId Sample_rowZ)) rest = None /\
  TaskList.buildUpdatesArray Sample.tasksABC (Js.Str "C") (Js.Str "P")
    (Some Sample_rowZ) None = first /\
  first <> Some [ TaskList.Update.mk "A" 0 (Js.Str "P");
                  TaskList.Update.mk "B" 1000 (Js.Str "P");
                  TaskList.Update.mk "C" 2000 (Js.Str "P") ] /\
  Js.findIndex (fun t => Js.eqb (Js.Str (Task.id t)) (elTaskId Sample.rowB)) rest
    = Some 1%nat /\
  TaskList.buildUpdatesArray Sample.tasksABC (Js.Str "C") (Js.Str "P")
    None (Some Sample.rowB) = first /\
  first <> Some [ TaskList.Update.mk "A" 0 (Js.Str "P");
                  TaskList.Update.mk "C" 1000 (Js.Str "P");
                  TaskList.Update.mk "B" 2000 (Js.Str "P") ].
Proof.
  cbv zeta. repeat split; try reflexivity; discriminate.
Qed.

(** C2, amended.  A [prevEl] that is not found among the sorted siblings
    does not make the planner fail: the moved node is inserted at index 0,
    before all remaining siblings.  With no [prevEl] and some [nextEl] the
    moved node is inserted at index 0 as well, whichever element [nextEl]
    is.  First conjunct: the task list; second: the side list. *)
Theorem unresolved_neighbour_inserts_first :
  (forall tasks taskId target prevEl nextEl moved,
     find (fun t => Js.eqb (Js.Str (Task.id t)) taskId) tasks = Some moved ->
     let rest := TaskList.siblingsOf tasks taskId target in
     (match prevEl with
      | Some prev =>
          Js.findIndex (fun t => Js.eqb (Js.Str (Task.id t)) (elTaskId prev)) rest = None
      | None => nextEl <> None
      end) ->
     exists updates,
       TaskList.buildUpdatesArray tasks taskId target prevEl nextEl = Some updates /\
       map TaskList.Update.id updates = Task.id moved :: map Task.id rest)
  /\
  (forall data bookmarks type id target prevEl nextEl dropped,
     SideList.findDropped data bookmarks type id = Some dropped ->
     let rest := SideList.siblingsOf data bookmarks id target in
     (match prevEl with
      | Some prev =>
          Js.findIndex
            (fun item => Js.eqb (Js.Str (SideList.Item.id item))
                           (SideList.getItemIdFromElement prev)) rest = None
      | None => nextEl <> None
      end) ->
     exists updates,
       SideList.buildUpdatesArray data bookmarks type id target prevEl nextEl
         = Some updates /\
       map SideList.Update.id updates
         = SideList.Item.id dropped :: map SideList.Item.id rest).
Proof.
  split.
  - intros tasks taskId target prevEl nextEl moved Hf rest Hn.
    eexists. split.
    + apply TaskList_insert_front; [exact Hf|].
      unfold TaskList.insertIndexOf. destruct prevEl as [prev|].
      * unfold elTaskId in Hn. fold rest. now rewrite Hn.
      * destruct nextEl; [reflexivity|congruence].
    + unfold Js.mapi. now rewrite (map_mapiFrom _ _ Task.id).
  - intros data bookmarks type id target prevEl nextEl dropped Hf rest Hn.
    eexists. split.
    + apply SideList_insert_front; [exact Hf|].
      unfold SideList.insertIndexOf. destruct prevEl as [prev|].
      * fold rest. now rewrite Hn.
      * destruct nextEl; [reflexivity|congruence].
    + unfold Js.mapi. now rewrite (map_mapiFrom _ _ SideList.Item.id).
Qed.

Lemma unresolved_neighbour_inserts_first_witness :
  exists updates,
    TaskList.buildUpdatesArray Sample.tasksABC (Js.Str "C") (Js.Str "P")
      (Some Sample_rowZ) None = Some updates /\
    map TaskList.Update.id updates = ["C"; "A"; "B"].
Proof.
  exact (proj1 unresolved_neighbour_inserts_first
           Sample.tasksABC (Js.Str "C") (Js.Str "P") (Some Sample_rowZ) None
           (Sample.task "C" (Js.Str "P") 2000) eq_refl eq_refl).
Defined.


Lemma Sample_tasksABC_ids : NoDup (map Task.id Sample.tasksABC).
Proof.
  simpl. repeat constructor; simpl; intuition discriminate.
Qed.

Lemma Sample_sideData_ids : NoDup (map nodeId (sideNodes Sample.sideData None)).
Proof.
  simpl. repeat constructor; simpl; intuition discriminate.
Qed.


(** C8. When the moved node is not in the collection the planner returns
    [null] (no update list).  [updateTaskPosition] then leaves the whole
    state as it was: no task is changed, no persistence call is issued,
    nothing is rendered; [updateItemPosition] of the side list only
    re-renders: its data and bookmarks are unchanged and no persistence
    call is issued. *)
Theorem missing_node_emits_nothing :
  (forall accepts taskId target prevEl nextEl w,
     (forall t, In t (TaskList.currentTasks w) -> Js.Str (Task.id t) <> taskId) ->
     TaskList.buildUpdatesArray (TaskList.currentTasks w) taskId target prevEl nextEl
       = None /\
     fst (TaskList.updateTaskPosition accepts taskId target prevEl nextEl w) = w /\
     forall updates,
       snd (TaskList.updateTaskPosition accepts taskId target prevEl nextEl w)
       <> TaskList.Submitted updates)
  /\
  (forall submit type id target prevEl nextEl w,
     SideList.findDropped (SideList.data w) (SideList.bookmarks w) type id = None ->
     let result := SideList.updateItemPosition submit type id target prevEl nextEl w in
     SideList.buildUpdatesArray (SideList.data w) (SideList.bookmarks w)
       type id target prevEl nextEl = None /\
     snd result = SideList.CouldNotBuildUpdates /\
     SideList.data (fst result) = SideList.data w /\
     SideList.bookmarks (fst result) = SideList.bookmarks w /\
     SideList.persisted (fst result) = SideList.persisted w).
Proof.
  split.
  - intros accepts taskId target prevEl nextEl w Hmissing.
    assert (Hfind : find (fun t => Js.eqb (Js.Str (Task.id t)) taskId)
                      (TaskList.currentTasks w) = None).
    { destruct (find _ (TaskList.currentTasks w)) as [t|] eqn:E; [|reflexivity].
      apply find_some in E. destruct E as [Hin E]. apply Js_eqb_eq in E.
      now destruct (Hmissing t Hin). }
    assert (Hb : TaskList.buildUpdatesArray (TaskList.currentTasks w)
                   taskId target prevEl nextEl = None).
    { unfold TaskList.buildUpdatesArray. now rewrite Hfind. }
    split; [exact Hb|].
    unfold TaskList.updateTaskPosition. rewrite Hb.
    destruct (TaskList.repository w); simpl; split; try reflexivity; discriminate.
  - intros submit type id target prevEl nextEl w Hmissing result.
    assert (Hb : SideList.buildUpdatesArray (SideList.data w) (SideList.bookmarks w)
                   type id target prevEl nextEl = None).
    { unfold SideList.buildUpdatesArray. now rewrite Hmissing. }
    split; [exact Hb|].
    unfold result, SideList.updateItemPosition. rewrite Hb. simpl. auto.
Qed.

Lemma missing_node_emits_nothing_witness :
  fst (TaskList.updateTaskPosition (fun _ => true) (Js.Str "Z") Js.Null None None
         Sample_worldAB) = Sample_worldAB.
Proof.
  refine (proj1 (proj2
    (proj1 missing_node_emits_nothing (fun _ => true) (Js.Str "Z") Js.Null None None
       Sample_worldAB _))).
  simpl. intros t [<-|[<-|[]]]; discriminate.
Defined.

(** C9. The planner is deterministic.  On every engine whose [sort]
    meets the ECMAScript contract (stable, ascending), two runs on the
    same inputs return the same ordered update list, siblings with equal
    [orderIndex] included: their order is fixed by their order in the
    collection.  The functions [buildUpdatesArray] above are such runs.
    First and second conjunct: the task list; third and fourth: the side
    list. *)
Theorem planner_deterministic :
  (forall tasks taskId target prevEl nextEl r1 r2,
     TaskList_run tasks taskId target prevEl nextEl r1 ->
     TaskList_run tasks taskId target prevEl nextEl r2 ->
     r1 = r2) /\
  (forall tasks taskId target prevEl nextEl r,
     TaskList_run tasks taskId target prevEl nextEl r ->
     r = TaskList.buildUpdatesArray tasks taskId target prevEl nextEl) /\
  (forall data bookmarks type id target prevEl nextEl r1 r2,
     SideList_run data bookmarks type id target prevEl nextEl r1 ->
     SideList_run data bookmarks type id target prevEl nextEl r2 ->
     r1 = r2) /\
  (forall data bookmarks type id target prevEl nextEl r,
     SideList_run data bookmarks type id target prevEl nextEl r ->
     r = SideList.buildUpdatesArray data bookmarks type id target prevEl nextEl).
Proof.
  split; [exact TaskList_run_functional|].
  split.
  { intros. eapply TaskList_run_functional; [eassumption|].
    apply TaskList_buildUpdatesArray_runs. }
  split; [exact SideList_run_functional|].
  intros. eapply SideList_run_functional; [eassumption|].
  apply SideList_buildUpdatesArray_runs.
Qed.

Lemma planner_deterministic_witness :
  TaskList_buildUpdatesArrayOn Sample_ties Sample_ties (Js.Str "B") Js.Null None None
  = TaskList.buildUpdatesArray Sample_ties (Js.Str "B") Js.Null None None.
Proof.
  refine (proj1 (proj2 planner_deterministic)
            Sample_ties (Js.Str "B") Js.Null None None _ _).
  exists Sample_ties. split; [split|reflexivity].
  - repeat constructor; simpl; lia.
  - intros k. reflexivity.
Defined.

(** C5, as claimed, fails on the boundary of the center zone.  With the
    default threshold and a target 100 high, the pointer at
    [relativeY = 25] satisfies [0.25 * 100 <= relativeY <= 0.75 * 100]
    (all of these numbers are doubles and the products are exact), the
    target is nest-capable, is not the dragged element, contains the
    pointer and passes [canDrop]; yet it is not classified [into]: the
    hover target stays empty and the drop is a reorder. *)
Lemma boundary_of_center_zone_is_not_into :
  let config := Sortable.makeConfig Sample_options in
  let e := {| Sortable.pageX := 50; Sortable.pageY := 25 |} in
  let rect := Element.rect Sample_target in
  let relativeY := (Sortable.pageY e - Rect.top rect)%float in
  Sortable.isDropTarget config Sample_target = true /\
  Element.same Sample_target Sample_dragged = false /\
  Sortable.outside e rect = false /\
  Sortable.canDrop config Sample_dragged Sample_target
    (TaskList.getItemData Sample_dragged) = Some true /\
  (Sortable.dropZoneThreshold config * Rect.height rect <=? relativeY)%float = true /\
  (relativeY <=? (1 - Sortable.dropZoneThreshold config) * Rect.height rect)%float
  = true /\
  Sortable.dropsInto config e Sample_dragged (TaskList.getItemData Sample_dragged)
    Sample_target = Some false /\
  option_map (@Sortable._hoverTargetEl _)
    (Sortable.handleSort config e [Sample_target] Sample_dragging) = Some None.
Proof.
  cbv zeta. repeat split; reflexivity.
Qed.

(** C5, amended.  For a candidate that is nest-capable, is not the dragged
    element, contains the pointer and passes [canDrop], the classification
    is [into] exactly when [threshold < relativeY < height - threshold],
    with strict inequalities, where [relativeY = cursorY - rect.top] and
    [threshold = rect.height * dropZoneThreshold] are the doubles the
    source computes, and the threshold fraction is 0.25 unless the
    consumer sets it.  On either boundary ([relativeY] equal to
    [threshold] or to [height - threshold]) the candidate is not
    classified [into].  With that candidate alone under the pointer,
    [handleSort] makes it the hover target in the first case, and
    otherwise leaves no hover target, so that the drop is reported as a
    reorder. *)
Theorem center_zone_is_strict :
  forall (ItemData : Type) (options : Sortable.Options ItemData)
         (e : Sortable.Pointer) (draggedEl targetEl : Element.t) (draggedData : ItemData),
    let config := Sortable.makeConfig options in
    let rect := Element.rect targetEl in
    let relativeY := (Sortable.pageY e - Rect.top rect)%float in
    let threshold := (Rect.height rect * Sortable.dropZoneThreshold config)%float in
    let inside := ((threshold <? relativeY)%float = true /\
                   (relativeY <? Rect.height rect - threshold)%float = true) in
    let dragging := {| Sortable._isActive := true; Sortable._hoverTargetEl := None;
                       Sortable._draggedEl := Some draggedEl;
                       Sortable._draggedData := Some draggedData |} in
    Sortable.isDropTarget config targetEl = true ->
    Element.same targetEl draggedEl = false ->
    Sortable.outside e rect = false ->
    Sortable.canDrop config draggedEl targetEl draggedData = Some true ->
    (Sortable.opt_dropZoneThreshold options = None ->
     Sortable.dropZoneThreshold config = 0.25%float) /\
    (Sortable.dropsInto config e draggedEl draggedData targetEl = Some true <-> inside) /\
    ((threshold =? relativeY)%float = true \/
     (relativeY =? Rect.height rect - threshold)%float = true ->
     Sortable.dropsInto config e draggedEl draggedData targetEl = Some false) /\
    (inside ->
     exists st, Sortable.handleSort config e [targetEl] dragging = Some st /\
                Sortable._hoverTargetEl st = Some targetEl) /\
    (~ inside ->
     exists st, Sortable.handleSort config e [targetEl] dragging = Some st /\
                Sortable._hoverTargetEl st = None /\
                forall el prev next,
                  snd (Sortable.handleDragStop config el prev next st)
                  = [ Sortable.OnDragEnd el (Sortable.getItemData config el);
                      Sortable.OnReorder el (Sortable.getItemData config el) prev next
                        (option_map (Sortable.getItemData config) prev)
                        (option_map (Sortable.getItemData config) next) ]).
Proof.
  intros ItemData options e draggedEl targetEl draggedData
         config rect relativeY threshold inside dragging Ht Hs Ho Hc.
  assert (Hiff : Sortable.dropsInto config e draggedEl draggedData targetEl = Some true
                 <-> inside).
  { rewrite dropsInto_true, inCenterZone_iff. unfold inside, threshold, relativeY, rect.
    tauto. }
  assert (Hnot : ~ inside ->
                 Sortable.dropsInto config e draggedEl draggedData targetEl = Some false).
  { intros Hout. destruct (Sortable.inCenterZone config e rect) eqn:Z.
    - exfalso. apply Hout, Hiff, dropsInto_true. auto.
    - unfold Sortable.dropsInto. fold rect. now rewrite Ht, Hs, Ho, Hc, Z. }
  split.
  { intros Hnone. unfold config, Sortable.makeConfig. simpl.
    now rewrite Hnone. }
  split; [exact Hiff|]. split; [|split].
  - intros Hb. apply Hnot. intros [H1 H2].
    destruct Hb as [Hb|Hb]; apply number_lt_not_eq in Hb; congruence.
  - intros Hin. apply Hiff in Hin.
    unfold Sortable.handleSort. simpl. rewrite Hin. eauto.
  - intros Hout. apply Hnot in Hout.
    unfold Sortable.handleSort. simpl. rewrite Hout.
    eexists. split; [reflexivity|]. split; reflexivity.
Qed.

Lemma center_zone_is_strict_witness :
  exists st,
    Sortable.handleSort (Sortable.makeConfig Sample_options)
      {| Sortable.pageX := 50; Sortable.pageY := 50 |} [Sample_target]
      {| Sortable._isActive := true; Sortable._hoverTargetEl := None;
         Sortable._draggedEl := Some Sample_dragged;
         Sortable._draggedData := Some (TaskList.getItemData Sample_dragged) |}
    = Some st /\
    Sortable._hoverTargetEl st = Some Sample_target.
Proof.
  refine (proj1 (proj2 (proj2 (proj2
    (center_zone_is_strict TaskList.ItemData Sample_options
       {| Sortable.pageX := 50; Sortable.pageY := 50 |}
       Sample_dragged Sample_target (TaskList.getItemData Sample_dragged)
       eq_refl eq_refl eq_refl eq_refl)))) _).
  split; reflexivity.
Defined.



(** C10. On a finite collection whose [parentTaskId] relation has no
    cycle, [getTaskDescendants] returns for every id: a recursion depth of
    [length tasks + 1] is enough, more fuel gives the same list, and the
    list holds exactly the ids below [taskId]; hence [isTaskDescendantOf]
    returns too.  For an id without children, in the collection or not,
    the result is the empty list.  Acyclicity is needed: started on an id
    that lies on a cycle the recursion returns for no depth, and so does
    [isTaskDescendantOf] for a candidate other than that id. *)
Theorem descendants_terminate_iff_acyclic :
  forall tasks : list Task.t,
    (TaskHelpers.acyclic tasks ->
     forall taskId, exists l,
       TaskHelpers.getTaskDescendants (S (List.length tasks)) tasks taskId = Some l /\
       (forall fuel, (S (List.length tasks) <= fuel)%nat ->
          TaskHelpers.getTaskDescendants fuel tasks taskId = Some l) /\
       (forall d, In d l <-> below tasks taskId d) /\
       (forall candidate, exists b,
          TaskHelpers.isTaskDescendantOf (S (List.length tasks)) tasks candidate taskId
          = Some b)) /\
    (forall taskId fuel,
       (forall t, In t tasks -> Task.parentTaskId t <> taskId) ->
       TaskHelpers.getTaskDescendants (S fuel) tasks taskId = Some []) /\
    (forall x,
       TaskHelpers.descendantOf tasks x x ->
       forall fuel,
         TaskHelpers.getTaskDescendants fuel tasks (Js.Str x) = None /\
         forall candidate, candidate <> Js.Str x ->
           TaskHelpers.isTaskDescendantOf fuel tasks candidate (Js.Str x) = None).
Proof.
  intros tasks. split; [|split].
  - intros Hac taskId.
    destruct (getTaskDescendants_terminates tasks taskId Hac) as [l Hl].
    exists l. split; [exact Hl|]. split; [|split].
    + intros fuel Hle. eapply getTaskDescendants_fuel_le; eauto.
    + intros d. eapply getTaskDescendants_spec; eauto.
    + intros candidate. now apply isTaskDescendantOf_terminates.
  - intros taskId fuel Hleaf. now apply getTaskDescendants_leaf.
  - intros x Hx fuel.
    assert (Hd : TaskHelpers.getTaskDescendants fuel tasks (Js.Str x) = None).
    { apply getTaskDescendants_diverges. exists x. auto. }
    split; [exact Hd|]. intros candidate Hne.
    unfold TaskHelpers.isTaskDescendantOf. rewrite Hd.
    apply Js_eqb_neq in Hne. now rewrite Hne.
Qed.

Lemma descendants_terminate_iff_acyclic_witness :
  exists l,
    TaskHelpers.getTaskDescendants (S (List.length Sample.tasksABC)) Sample.tasksABC
      (Js.Str "P") = Some l /\
    forall d, In d l <-> below Sample.tasksABC (Js.Str "P") d.
Proof.
  destruct (proj1 (descendants_terminate_iff_acyclic Sample.tasksABC)
              (acyclicb_sound Sample.tasksABC eq_refl) (Js.Str "P"))
    as (l & Hl & _ & Hspec & _).
  exists l. split; [exact Hl|exact Hspec].
Defined.

Example descendants_of_P :
  TaskHelpers.getTaskDescendants 5 Sample.tasksABC (Js.Str "P") = Some ["A"; "B"; "C"].
Proof. reflexivity. Qed.

(** C4 at a failing input.  [A] is dragged over the center of its own
    subtask [C] and released right below it.  [canDrop] rejects [C], so
    there is no hover target and no drop-into; but the drop is then
    reported as a reorder with [C] as the previous row, [handleReorder]
    takes [C]'s parent, [A] itself, as the target parent, and the plan
    that is built and applied gives [A] the parent [A]: the node has
    become its own ancestor, and [getTaskDescendants] no longer returns
    on it. *)
Theorem reorder_below_own_child_makes_cycle :
  let tasks := Sample_parentAndChild in
  let config := Sortable.makeConfig (TaskList.sortableOptions 3 tasks) in
  let dataA := TaskList.getItemData Sample_rowParent in
  let dataC := TaskList.getItemData Sample_rowChild in
  let overChild := {| Sortable.pageX := 100; Sortable.pageY := 60 |} in
  let reorder :=
    Sortable.OnReorder Sample_rowParent dataA (Some Sample_rowChild) None (Some dataC) None in
  let plan := [ TaskList.Update.mk "C" 0 (Js.Str "A");
                TaskList.Update.mk "A" 1000 (Js.Str "A") ] in
  let after := fst (TaskList.onEvent (fun _ => true) reorder Sample_worldAC) in
  TaskHelpers.descendantOf tasks "A" "C" /\
  Sortable.inCenterZone config overChild (Element.rect Sample_rowChild) = true /\
  Sortable.canDrop config Sample_rowParent Sample_rowChild dataA = Some false /\
  Sortable.run config
    [ Sortable.Start Sample_rowParent;
      Sortable.Sort overChild [Sample_rowParent; Sample_rowChild];
      Sortable.Stop Sample_rowParent (Some Sample_rowChild) None ]
    Sortable.initialState
  = Some (Sortable.initialState,
          [ Sortable.OnDragStart Sample_rowParent dataA;
            Sortable.OnDragEnd Sample_rowParent dataA;
            reorder ]) /\
  TaskList.getTargetParentId (Some Sample_rowChild) None = Js.Str "A" /\
  snd (TaskList.onEvent (fun _ => true) reorder Sample_worldAC)
  = Some (TaskList.Submitted plan) /\
  TaskList.currentTasks after
  = [ Task.mk "A" (Js.Str "A") (Some 1000) "A"; Task.mk "C" (Js.Str "A") (Some 0) "C" ] /\
  TaskList.persisted after = plan /\
  TaskHelpers.descendantOf (TaskList.currentTasks after) "A" "A" /\
  forall fuel,
    TaskHelpers.getTaskDescendants fuel (TaskList.currentTasks after) (Js.Str "A") = None.
Proof.
  cbv zeta.
  assert (Hcycle : TaskHelpers.descendantOf
                     [ Task.mk "A" (Js.Str "A") (Some 1000) "A";
                       Task.mk "C" (Js.Str "A") (Some 0) "C" ] "A" "A").
  { apply TaskHelpers.desc_child.
    exists (Task.mk "A" (Js.Str "A") (Some 1000) "A"). simpl. auto. }
  split.
  { apply TaskHelpers.desc_child.
    exists (Sample.task "C" (Js.Str "A") 0). simpl. auto. }
  repeat (split; [reflexivity|]).
  split; [exact Hcycle|].
  intros fuel. apply getTaskDescendants_diverges. exists "A". auto.
Qed.

(* ================================================================== *)
(** * Further properties: the gesture of the sortable *)
(* ================================================================== *)

Section GestureFacts.
Variable ItemData : Type.
Variable config : Sortable.Config ItemData.

Lemma run_app inputs1 inputs2 (st : Sortable.State ItemData) :
  Sortable.run config (inputs1 ++ inputs2) st
  = match Sortable.run config inputs1 st with
    | Some (st1, evs1) =>
        match Sortable.run config inputs2 st1 with
        | Some (st2, evs2) => Some (st2, evs1 ++ evs2)
        | None => None
        end
    | None => None
    end.
Proof.
  revert st. induction inputs1 as [|i r IH]; intros st; simpl.
  - destruct (Sortable.run config inputs2 st) as [[s e]|]; reflexivity.
  - destruct (Sortable.step config i st) as [[s1 e1]|]; [|reflexivity].
    rewrite IH.
    destruct (Sortable.run config r s1) as [[s2 e2]|]; [|reflexivity].
    destruct (Sortable.run config inputs2 s2) as [[s3 e3]|]; [|reflexivity].
    now rewrite app_assoc.
Qed.

Lemma handleSort_draggingOf el e items st st' :
  draggingOf config el st ->
  Sortable.handleSort config e items st = Some st' ->
  draggingOf config el st'.
Proof.
  intros (Ha & Hd & Hdd). unfold Sortable.handleSort. rewrite Ha, Hd, Hdd.
  destruct (Sortable.firstDropTarget config e el _ items); [|discriminate].
  intros H. inversion H; subst. unfold draggingOf. simpl. auto.
Qed.

Lemma sortEvents_keep el moves : forall st st' evs,
  draggingOf config el st -> hoverChecked config st ->
  Sortable.run config (sortEvents moves) st = Some (st', evs) ->
  draggingOf config el st' /\ hoverChecked config st' /\ evs = [].
Proof.
  induction moves as [|m r IH]; intros st st' evs Hd Hh H; simpl in H.
  - inversion H; subst. auto.
  - destruct (Sortable.handleSort config (fst m) (snd m) st) as [s1|] eqn:E; [|discriminate].
    destruct (Sortable.run config (sortEvents r) s1) as [[s2 e2]|] eqn:R; [|discriminate].
    destruct (IH s1 s2 e2 (handleSort_draggingOf _ _ _ _ _ Hd E)
                (handleSort_hoverChecked _ _ _ _ _ _ Hh E) R) as (A & B & C).
    inversion H; subst. auto.
Qed.

(** The first candidate in document order that passes is the hover
    target; candidates after it are not evaluated. *)
Lemma firstDropTarget_first e draggedEl draggedData items t :
  Sortable.firstDropTarget config e draggedEl draggedData items = Some (Some t) <->
  exists before after,
    items = before ++ t :: after /\
    (forall x, In x before ->
       Sortable.dropsInto config e draggedEl draggedData x = Some false) /\
    Sortable.dropsInto config e draggedEl draggedData t = Some true.
Proof.
  split.
  - induction items as [|x r IH]; simpl; [discriminate|].
    destruct (Sortable.dropsInto config e draggedEl draggedData x) as [[|]|] eqn:E;
      [| |discriminate].
    + intros H. inversion H; subst. exists [], r. simpl. intuition.
    + intros H. destruct (IH H) as (b & a & -> & Hb & Ht).
      exists (x :: b), a. split; [reflexivity|]. split; [|exact Ht].
      intros y [<-|Hy]; auto.
  - intros (b & a & -> & Hb & Ht).
    induction b as [|x b IH]; simpl.
    + now rewrite Ht.
    + rewrite (Hb x) by now left. apply IH. intros y Hy. apply Hb. now right.
Qed.

End GestureFacts.

(** X1. A gesture (drag start, any number of sort events, drag stop) that
    runs to its end leaves the instance in its initial state and calls the
    consumer exactly three times: [onDragStart], [onDragEnd] and one of
    [onDropInto] and [onReorder].  A drop-into names a target that is
    nest-capable, is not the dragged element and was accepted by [canDrop]
    for the dragged element; a reorder carries the DOM neighbours passed at
    the stop. *)
Theorem gesture_emits_one_terminal_event :
  forall (ItemData : Type) (config : Sortable.Config ItemData)
         el moves el' prev next st0 st evs,
    Sortable.run config
      (Sortable.Start el :: sortEvents moves ++ [Sortable.Stop el' prev next]) st0
    = Some (st, evs) ->
    st = Sortable.initialState /\
    exists terminal,
      evs = [ Sortable.OnDragStart el (Sortable.getItemData config el);
              Sortable.OnDragEnd el' (Sortable.getItemData config el');
              terminal ] /\
      (terminal
       = Sortable.OnReorder el' (Sortable.getItemData config el') prev next
           (option_map (Sortable.getItemData config) prev)
           (option_map (Sortable.getItemData config) next)
       \/
       exists targetEl,
         terminal
         = Sortable.OnDropInto el' (Sortable.getItemData config el') targetEl
             (Sortable.getItemData config targetEl) /\
         Sortable.isDropTarget config targetEl = true /\
         Element.same targetEl el = false /\
         Sortable.canDrop config el targetEl (Sortable.getItemData config el) = Some true).
Proof.
  intros ItemData config el moves el' prev next st0 st evs H.
  change (Sortable.Start el :: sortEvents moves ++ [Sortable.Stop el' prev next])
    with ([Sortable.Start el] ++ sortEvents moves ++ [Sortable.Stop el' prev next]) in H.
  rewrite !run_app in H.
  set (s1 := {| Sortable._isActive := true; Sortable._hoverTargetEl := None;
                Sortable._draggedEl := Some el;
                Sortable._draggedData := Some (Sortable.getItemData config el) |}) in *.
  change (Sortable.run config [Sortable.Start el] st0)
    with (Some (s1, [Sortable.OnDragStart el (Sortable.getItemData config el)])) in H.
  cbv beta iota in H. rewrite run_app in H.
  assert (Hd : draggingOf config el s1) by (unfold draggingOf; simpl; auto).
  assert (Hh : hoverChecked config s1) by (intros t Ht; discriminate).
  destruct (Sortable.run config (sortEvents moves) s1) as [[s2 e2]|] eqn:R; [|discriminate].
  destruct (sortEvents_keep _ config el moves _ _ _ Hd Hh R) as ((Ha & Hel & Hdata) & Hh2 & ->).
  simpl in H. unfold Sortable.handleDragStop in H. rewrite Ha in H. simpl in H.
  destruct (Sortable._hoverTargetEl s2) as [t|] eqn:Et; inversion H; subst; clear H.
  - split; [reflexivity|]. eexists. split; [reflexivity|]. right.
    exists t. split; [reflexivity|].
    destruct (Hh2 t Et) as (T & d & dd & Hd' & Hdd' & S & C).
    rewrite Hel in Hd'. rewrite Hdata in Hdd'. inversion Hd'; inversion Hdd'; subst. auto.
  - split; [reflexivity|]. eexists. split; [reflexivity|]. now left.
Qed.

Lemma gesture_emits_one_terminal_event_witness :
  exists terminal,
    [ Sortable.OnDragStart Sample_rowParent (TaskList.getItemData Sample_rowParent);
      Sortable.OnDragEnd Sample_rowParent (TaskList.getItemData Sample_rowParent);
      Sortable.OnReorder Sample_rowParent (TaskList.getItemData Sample_rowParent)
        (Some Sample_rowChild) None (Some (TaskList.getItemData Sample_rowChild)) None ]
    = [ Sortable.OnDragStart Sample_rowParent (TaskList.getItemData Sample_rowParent);
        Sortable.OnDragEnd Sample_rowParent (TaskList.getItemData Sample_rowParent);
        terminal ].
Proof.
  destruct (gesture_emits_one_terminal_event TaskList.ItemData
              (Sortable.makeConfig (TaskList.sortableOptions 3 Sample_parentAndChild))
              Sample_rowParent
              [({| Sortable.pageX := 100; Sortable.pageY := 60 |},
                [Sample_rowParent; Sample_rowChild])]
              Sample_rowParent (Some Sample_rowChild) None
              Sortable.initialState _ _ eq_refl) as (_ & terminal & E & _).
  exists terminal. exact E.
Defined.

(** X2. [handleSort] takes as hover target the first candidate, in document
    order, at which its loop stops: every candidate before it was skipped
    or rejected, and the candidates after it are not looked at (in
    particular a [canDrop] that would throw on one of them is never
    called). *)
Theorem hover_target_is_first_match :
  forall (ItemData : Type) (config : Sortable.Config ItemData)
         e draggedEl draggedData items hover t,
    (exists st,
       Sortable.handleSort config e items
         {| Sortable._isActive := true; Sortable._hoverTargetEl := hover;
            Sortable._draggedEl := Some draggedEl;
            Sortable._draggedData := Some draggedData |} = Some st /\
       Sortable._hoverTargetEl st = Some t)
    <->
    exists before after,
      items = before ++ t :: after /\
      (forall x, In x before ->
         Sortable.dropsInto config e draggedEl draggedData x = Some false) /\
      Sortable.dropsInto config e draggedEl draggedData t = Some true.
Proof.
  intros ItemData config e draggedEl draggedData items hover t.
  rewrite <- firstDropTarget_first. unfold Sortable.handleSort. simpl. split.
  - intros (st & H & Ht).
    destruct (Sortable.firstDropTarget config e draggedEl draggedData items) as [f|];
      [|discriminate].
    inversion H; subst. simpl in Ht. now subst.
  - intros ->. eexists. split; reflexivity.
Qed.

(* ================================================================== *)
(** * Further properties: where a drop lands *)
(* ================================================================== *)

Lemma splice_at_end {A : Type} (l : list A) x : Js.splice l (List.length l) x = l ++ [x].
Proof. unfold Js.splice. now rewrite firstn_all, skipn_all. Qed.

(** X3. A drop into a task or folder (no previous and no next element)
    appends: the plan lists the current members of the target in their
    sorted order and the dropped node last, with
    [orderIndex = 1000 * (number of those members)].  First conjunct: the
    task list; second: the side list. *)
Theorem drop_into_appends_last :
  (forall tasks taskId target moved,
     find (fun t => Js.eqb (Js.Str (Task.id t)) taskId) tasks = Some moved ->
     let rest := TaskList.siblingsOf tasks taskId target in
     exists updates,
       TaskList.buildUpdatesArray tasks taskId target None None = Some updates /\
       map TaskList.Update.id updates = map Task.id rest ++ [Task.id moved] /\
       nth_error updates (List.length rest)
       = Some (TaskList.Update.mk (Task.id moved)
                 (Z.of_nat (List.length rest) * 1000) target))
  /\
  (forall data bookmarks type id target dropped,
     SideList.findDropped data bookmarks type id = Some dropped ->
     let rest := SideList.siblingsOf data bookmarks id target in
     exists updates,
       SideList.buildUpdatesArray data bookmarks type id target None None
         = Some updates /\
       map SideList.Update.id updates
         = map SideList.Item.id rest ++ [SideList.Item.id dropped] /\
       nth_error updates (List.length rest)
       = Some (SideListTerms.mkUpdate target (List.length rest) dropped)).
Proof.
  split.
  - intros tasks taskId target moved Hf rest.
    rewrite (TaskListFacts.buildUpdatesArray_found _ _ _ _ _ _ Hf).
    fold rest. simpl TaskList.insertIndexOf. rewrite splice_at_end.
    eexists. split; [reflexivity|]. split.
    + unfold Js.mapi. rewrite (map_mapiFrom _ _ Task.id) by reflexivity.
      now rewrite map_app.
    + rewrite mapi_nth_error, nth_error_app2, Nat.sub_diag by lia. reflexivity.
  - intros data bookmarks type id target dropped Hf rest.
    rewrite (SideListFacts.side_buildUpdatesArray_found _ _ _ _ _ _ _ _ Hf).
    fold rest. simpl SideList.insertIndexOf. rewrite splice_at_end.
    eexists. split; [reflexivity|]. split.
    + unfold Js.mapi. rewrite (map_mapiFrom _ _ SideList.Item.id) by reflexivity.
      now rewrite map_app.
    + rewrite mapi_nth_error, nth_error_app2, Nat.sub_diag by lia. reflexivity.
Qed.

Lemma drop_into_appends_last_witness :
  exists updates,
    SideList.buildUpdatesArray Sample.sideData None (Js.Str "note") (Js.Str "L")
      (Js.Str "F") None None = Some updates /\
    map SideList.Update.id updates = ["O"; "L"].
Proof.
  destruct (proj2 drop_into_appends_last Sample.sideData None (Js.Str "note")
              (Js.Str "L") (Js.Str "F")
              (SideList.Item.mk "L" (Js.Str "note") (Some 1000)) eq_refl)
    as (updates & Hb & Hids & _).
  exists updates. split; [exact Hb|exact Hids].
Defined.

(** X4. When the previous element is one of the remaining siblings, at
    index [i] of their sorted list, the moved node is placed right after
    it, whatever the next element is: the sibling keeps index [i]
    ([orderIndex = i * 1000]) and the moved node gets index [i + 1].
    First conjunct: the task list; second: the side list. *)
Theorem drop_after_previous_sibling :
  (forall tasks taskId target prev nextEl moved i,
     find (fun t => Js.eqb (Js.Str (Task.id t)) taskId) tasks = Some moved ->
     let rest := TaskList.siblingsOf tasks taskId target in
     Js.findIndex (fun t => Js.eqb (Js.Str (Task.id t)) (elTaskId prev)) rest = Some i ->
     exists updates sibling,
       TaskList.buildUpdatesArray tasks taskId target (Some prev) nextEl = Some updates /\
       map TaskList.Update.id updates
         = map Task.id (firstn (S i) rest) ++ Task.id moved :: map Task.id (skipn (S i) rest) /\
       Js.Str (Task.id sibling) = elTaskId prev /\
       nth_error updates i
       = Some (TaskList.Update.mk (Task.id sibling) (Z.of_nat i * 1000) target) /\
       nth_error updates (S i)
       = Some (TaskList.Update.mk (Task.id moved) (Z.of_nat (S i) * 1000) target))
  /\
  (forall data bookmarks type id target prev nextEl dropped i,
     SideList.findDropped data bookmarks type id = Some dropped ->
     let rest := SideList.siblingsOf data bookmarks id target in
     Js.findIndex
       (fun item => Js.eqb (Js.Str (SideList.Item.id item))
                      (SideList.getItemIdFromElement prev)) rest = Some i ->
     exists updates sibling,
       SideList.buildUpdatesArray data bookmarks type id target (Some prev) nextEl
         = Some updates /\
       map SideList.Update.id updates
         = map SideList.Item.id (firstn (S i) rest)
           ++ SideList.Item.id dropped :: map SideList.Item.id (skipn (S i) rest) /\
       Js.Str (SideList.Item.id sibling) = SideList.getItemIdFromElement prev /\
       nth_error updates i = Some (SideListTerms.mkUpdate target i sibling) /\
       nth_error updates (S i) = Some (SideListTerms.mkUpdate target (S i) dropped)).
Proof.
  split.
  - intros tasks taskId target prev nextEl moved i Hf rest Hi.
    pose proof (findIndex_Some _ _ _ Hi) as (Hlt & (sibling & Hs & Es) & _).
    apply Js_eqb_eq in Es.
    rewrite (TaskListFacts.buildUpdatesArray_found _ _ _ _ _ _ Hf). fold rest.
    assert (Hk : TaskList.insertIndexOf rest (Some prev) nextEl = S i).
    { unfold TaskList.insertIndexOf. unfold elTaskId in Hi. rewrite Hi. lia. }
    rewrite Hk. exists (Js.mapi (TaskListTerms.mkUpdate target) (Js.splice rest (S i) moved)),
      sibling.
    split; [reflexivity|]. split.
    { unfold Js.mapi. rewrite (map_mapiFrom _ _ Task.id) by reflexivity.
      unfold Js.splice. now rewrite map_app. }
    split; [exact Es|]. split.
    + rewrite mapi_nth_error, splice_nth_error_before, Hs by lia. reflexivity.
    + rewrite mapi_nth_error, splice_nth_error_at by lia. reflexivity.
  - intros data bookmarks type id target prev nextEl dropped i Hf rest Hi.
    pose proof (findIndex_Some _ _ _ Hi) as (Hlt & (sibling & Hs & Es) & _).
    apply Js_eqb_eq in Es.
    rewrite (SideListFacts.side_buildUpdatesArray_found _ _ _ _ _ _ _ _ Hf). fold rest.
    assert (Hk : SideList.insertIndexOf rest (Some prev) nextEl = S i).
    { unfold SideList.insertIndexOf. rewrite Hi. lia. }
    rewrite Hk. exists (Js.mapi (SideListTerms.mkUpdate target) (Js.splice rest (S i) dropped)),
      sibling.
    split; [reflexivity|]. split.
    { unfold Js.mapi. rewrite (map_mapiFrom _ _ SideList.Item.id) by reflexivity.
      unfold Js.splice. now rewrite map_app. }
    split; [exact Es|]. split.
    + rewrite mapi_nth_error, splice_nth_error_before, Hs by lia. reflexivity.
    + rewrite mapi_nth_error, splice_nth_error_at by lia. reflexivity.
Qed.

Lemma drop_after_previous_sibling_witness :
  exists updates,
    TaskList.buildUpdatesArray Sample.tasksABC (Js.Str "C") (Js.Str "P")
      (Some Sample.rowA) (Some Sample.rowB) = Some updates /\
    nth_error updates 1 = Some (TaskList.Update.mk "C" 1000 (Js.Str "P")).
Proof.
  destruct (proj1 drop_after_previous_sibling Sample.tasksABC (Js.Str "C") (Js.Str "P")
              Sample.rowA (Some Sample.rowB) (Sample.task "C" (Js.Str "P") 2000) O
              eq_refl eq_refl)
    as (updates & sibling & Hb & _ & _ & _ & Hm).
  exists updates. split; [exact Hb|exact Hm].
Defined.

(* ================================================================== *)
(** * Further properties: applying a plan *)
(* ================================================================== *)

Lemma writeEntry_shape entry tasks :
  map Task.id (writeEntry entry tasks) = map Task.id tasks /\
  map Task.name (writeEntry entry tasks) = map Task.name tasks.
Proof.
  induction tasks as [|t r [IH1 IH2]]; simpl; [auto|].
  destruct (String.eqb (Task.id t) (fst entry)); simpl; [auto|].
  now rewrite IH1, IH2.
Qed.

Lemma writeAll_shape entries : forall tasks,
  map Task.id (writeAll entries tasks) = map Task.id tasks /\
  map Task.name (writeAll entries tasks) = map Task.name tasks.
Proof.
  induction entries as [|e r IH]; intros tasks; [auto|].
  rewrite writeAll_step. destruct (IH (writeEntry e tasks)) as [H1 H2].
  destruct (writeEntry_shape e tasks) as [G1 G2]. split; congruence.
Qed.

Lemma writeAll_absent entries : forall tasks,
  (forall e t, In e entries -> In t tasks -> Task.id t <> fst e) ->
  writeAll entries tasks = tasks.
Proof.
  intros tasks H. apply writeAll_identity. intros x t Hf.
  apply find_some in Hf. destruct Hf as [Hin _].
  apply writesTo_none. intros e He E. now apply (H e t He Hin).
Qed.

(** X5. [applyUpdatesLocally] only rewrites [orderIndex] and
    [parentTaskId] of tasks that exist: whatever the update list, the
    collection keeps its length, its ids and its names, in the same
    positions; and updates whose ids match no task change nothing. *)
Theorem apply_never_adds_or_removes_tasks :
  forall updates tasks,
    map Task.id (TaskList.applyUpdatesLocally updates tasks) = map Task.id tasks /\
    map Task.name (TaskList.applyUpdatesLocally updates tasks) = map Task.name tasks /\
    List.length (TaskList.applyUpdatesLocally updates tasks) = List.length tasks /\
    ((forall u t, In u updates -> In t tasks -> Task.id t <> TaskList.Update.id u) ->
     TaskList.applyUpdatesLocally updates tasks = tasks).
Proof.
  intros updates tasks. rewrite applyUpdatesLocally_writeAll.
  destruct (writeAll_shape (map toEntry updates) tasks) as [H1 H2].
  split; [exact H1|]. split; [exact H2|]. split.
  - rewrite <- (length_map Task.id), H1. apply length_map.
  - intros H. apply writeAll_absent. intros e t He Ht.
    apply in_map_iff in He. destruct He as (u & <- & Hu). simpl. now apply H.
Qed.

Lemma apply_never_adds_or_removes_tasks_witness :
  TaskList.applyUpdatesLocally [TaskList.Update.mk "Z" 0 Js.Null] Sample.tasksABC
  = Sample.tasksABC.
Proof.
  refine (proj2 (proj2 (proj2
    (apply_never_adds_or_removes_tasks [TaskList.Update.mk "Z" 0 Js.Null]
       Sample.tasksABC))) _).
  intros u t [<-|[]] Ht. simpl in Ht.
  destruct Ht as [<-|[<-|[<-|[<-|[]]]]]; discriminate.
Defined.

(** X6. Applying a plan of the task-list planner to a collection with
    unique ids writes exactly the plan: the task named by entry [i] gets
    [orderIndex = i * 1000] and the target as parent and keeps its place in
    the array, while every task that is neither the moved one nor a member
    of the target container is left as it was (so the container the task
    was taken from is not renumbered). *)
Theorem apply_writes_exactly_the_plan :
  forall tasks taskId target prevEl nextEl updates,
    NoDup (map Task.id tasks) ->
    TaskList.buildUpdatesArray tasks taskId target prevEl nextEl = Some updates ->
    let tasks' := TaskList.applyUpdatesLocally updates tasks in
    (forall n t,
       nth_error tasks n = Some t ->
       Js.orNull (Task.parentTaskId t) <> target ->
       Js.Str (Task.id t) <> taskId ->
       nth_error tasks' n = Some t) /\
    (forall i u,
       nth_error updates i = Some u ->
       exists n t,
         nth_error tasks n = Some t /\
         Task.id t = TaskList.Update.id u /\
         nth_error tasks' n
         = Some (withFields t (Some (Z.of_nat i * 1000), target))).
Proof.
  intros tasks taskId target prevEl nextEl updates ND Hb tasks'.
  destruct (find (fun t => Js.eqb (Js.Str (Task.id t)) taskId) tasks) as [moved|] eqn:F;
    [|unfold TaskList.buildUpdatesArray in Hb; rewrite F in Hb; discriminate].
  rewrite (TaskListFacts.buildUpdatesArray_found _ _ _ _ _ _ F) in Hb.
  inversion Hb as [Hu]. clear Hb.
  pose proof (TaskListFacts.insertIndexOf_le
                (TaskList.siblingsOf tasks taskId target) prevEl nextEl) as Hk.
  set (k := TaskList.insertIndexOf (TaskList.siblingsOf tasks taskId target) prevEl nextEl)
    in *.
  set (placed := Js.splice (TaskList.siblingsOf tasks taskId target) k moved) in *.
  assert (Ht' : tasks' = map (renumberWith placed target) tasks).
  { unfold tasks'. rewrite <- Hu.
    exact (applyUpdatesLocally_renumber tasks taskId target moved k ND F). }
  split.
  - intros n t Hn Hp Hid. rewrite Ht', nth_error_map, Hn. simpl. f_equal.
    unfold renumberWith.
    destruct (Js.findIndex _ placed) as [i|] eqn:E; [|reflexivity].
    exfalso. apply findIndex_Some in E. destruct E as (_ & (x & Hx & Ex) & _).
    apply String.eqb_eq in Ex. apply nth_error_In in Hx.
    assert (x = t).
    { eapply (NoDup_map_inj_on Task.id tasks); eauto using nth_error_In.
      eapply placed_In; eauto. }
    subst x. apply splice_In in Hx. destruct Hx as [->|Hx].
    + apply Hid. eapply moved_id; eauto.
    + apply TaskListFacts.siblingsOf_In in Hx. tauto.
  - intros i u Hi. rewrite mapi_nth_error in Hi.
    destruct (nth_error placed i) as [x|] eqn:Ex; [|discriminate].
    inversion Hi; subst u; clear Hi. simpl.
    assert (Hin : In x tasks).
    { eapply placed_In; eauto. eapply nth_error_In; eauto. }
    apply In_nth_error in Hin. destruct Hin as [n Hn].
    exists n, x. split; [exact Hn|]. split; [reflexivity|].
    rewrite Ht', nth_error_map, Hn. simpl. f_equal.
    exact (renumber_placed tasks taskId target moved k ND F i x Ex).
Qed.

Lemma apply_writes_exactly_the_plan_witness :
  nth_error
    (TaskList.applyUpdatesLocally
       [ TaskList.Update.mk "A" 0 (Js.Str "P");
         TaskList.Update.mk "C" 1000 (Js.Str "P");
         TaskList.Update.mk "B" 2000 (Js.Str "P") ] Sample.tasksABC) 0
  = Some (Sample.task "P" Js.Null 0).
Proof.
  refine (proj1 (apply_writes_exactly_the_plan Sample.tasksABC (Js.Str "C") (Js.Str "P")
            (Some Sample.rowA) (Some Sample.rowB) _ Sample_tasksABC_ids eq_refl)
            O (Sample.task "P" Js.Null 0) eq_refl _ _); discriminate.
Defined.

(** X7. After a plan is applied to a collection with unique ids, the
    members of the target container sorted by [orderIndex] are exactly the
    entries of the plan, in the plan's order (for a target that [x || null]
    can produce: [null] or a non-empty id). *)
Theorem applied_plan_is_the_new_order :
  forall tasks taskId target prevEl nextEl updates,
    NoDup (map Task.id tasks) ->
    Js.orNull target = target ->
    TaskList.buildUpdatesArray tasks taskId target prevEl nextEl = Some updates ->
    map Task.id (sortedContainer (TaskList.applyUpdatesLocally updates tasks) target)
    = map TaskList.Update.id updates.
Proof.
  intros tasks taskId target prevEl nextEl updates ND Hn Hb.
  destruct (find (fun t => Js.eqb (Js.Str (Task.id t)) taskId) tasks) as [moved|] eqn:F;
    [|unfold TaskList.buildUpdatesArray in Hb; rewrite F in Hb; discriminate].
  rewrite (TaskListFacts.buildUpdatesArray_found _ _ _ _ _ _ F) in Hb.
  inversion Hb as [Hu]. clear Hb.
  pose proof (TaskListFacts.insertIndexOf_le
                (TaskList.siblingsOf tasks taskId target) prevEl nextEl) as Hk.
  rewrite (applyUpdatesLocally_renumber tasks taskId target moved _ ND F).
  rewrite (sortedContainer_applied tasks taskId target moved _ ND F Hn).
  rewrite map_map. unfold Js.mapi. rewrite (map_mapiFrom _ _ Task.id) by reflexivity.
  apply map_ext. intros t. unfold renumberWith.
  now destruct (Js.findIndex _ _).
Qed.

Lemma applied_plan_is_the_new_order_witness :
  map Task.id
    (sortedContainer
       (TaskList.applyUpdatesLocally
          [ TaskList.Update.mk "A" 0 (Js.Str "P");
            TaskList.Update.mk "C" 1000 (Js.Str "P");
            TaskList.Update.mk "B" 2000 (Js.Str "P") ] Sample.tasksABC) (Js.Str "P"))
  = ["A"; "C"; "B"].
Proof.
  exact (applied_plan_is_the_new_order Sample.tasksABC (Js.Str "C") (Js.Str "P")
           (Some Sample.rowA) (Some Sample.rowB) _ Sample_tasksABC_ids eq_refl eq_refl).
Defined.

Lemma sortedContainer_ids_NoDup tasks target :
  NoDup (map Task.id tasks) -> NoDup (map Task.id (sortedContainer tasks target)).
Proof.
  intros ND. unfold sortedContainer. eapply Permutation_NoDup.
  - apply Permutation_map. symmetry. apply sortBy_perm.
  - now apply NoDup_map_filter.
Qed.

Lemma siblingsOf_sortedContainer tasks taskId target :
  TaskList.siblingsOf tasks taskId target
  = filter (TaskListTerms.isNot taskId) (sortedContainer tasks target).
Proof. reflexivity. Qed.

Lemma NoDup_map_app_disjoint {A B : Type} (f : A -> B) l1 x l2 :
  NoDup (map f (l1 ++ x :: l2)) ->
  forall y, In y (l1 ++ l2) -> f y <> f x.
Proof.
  rewrite map_app. simpl. intros ND y Hy E.
  apply NoDup_remove_2 in ND. apply ND.
  rewrite <- map_app, <- E. now apply in_map.
Qed.

(** X8. Dropping a task back where it is changes no order.  When the task
    is a member of the target container and the previous and next
    elements are its current neighbours there, the plan lists the
    container in its current sorted order: the move only renumbers. *)
Theorem drop_in_place_keeps_order :
  forall tasks taskId target prevEl nextEl k,
    NoDup (map Task.id tasks) ->
    positionOf taskId (sortedContainer tasks target) = Some k ->
    placedAs tasks taskId target prevEl nextEl ->
    exists updates,
      TaskList.buildUpdatesArray tasks taskId target prevEl nextEl = Some updates /\
      map TaskList.Update.id updates = map Task.id (sortedContainer tasks target).
Proof.
  intros tasks taskId target prevEl nextEl k ND Hpos [Hprev Hnext].
  unfold prevSiblingId, nextSiblingId in *. rewrite Hpos in *.
  pose proof (sortedContainer_ids_NoDup tasks target ND) as NDs.
  unfold positionOf in Hpos.
  destruct (findIndex_Some _ _ _ Hpos) as (Hlt & (m & Hm & Em) & _).
  apply Js_eqb_eq in Em.
  destruct (nth_error_split _ _ Hm) as (l1 & l2 & Hsc & Hlen).
  assert (Hmin : In m tasks).
  { apply nth_error_In in Hm. unfold sortedContainer in Hm.
    apply sortBy_In, filter_In in Hm. tauto. }
  assert (Hfind : find (fun t => Js.eqb (Js.Str (Task.id t)) taskId) tasks = Some m).
  { destruct (find _ tasks) as [x|] eqn:F.
    - apply find_some in F. destruct F as [Hx Ex]. apply Js_eqb_eq in Ex.
      f_equal. eapply (NoDup_map_inj_on Task.id tasks); eauto.
      rewrite <- Em in Ex. now inversion Ex.
    - exfalso. apply (find_none _ _ F) in Hmin.
      rewrite Em, Js_eqb_refl in Hmin. discriminate. }
  assert (Hrest : TaskList.siblingsOf tasks taskId target = l1 ++ l2).
  { rewrite siblingsOf_sortedContainer, Hsc, filter_app. simpl.
    unfold TaskListTerms.isNot at 2. rewrite Em, Js_eqb_refl. simpl.
    rewrite <- filter_app. apply filter_all. intros y Hy.
    unfold TaskListTerms.isNot. apply negb_true_iff, Js_eqb_neq.
    rewrite <- Em. intros E. inversion E as [E'].
    rewrite Hsc in NDs.
    now apply (NoDup_map_app_disjoint Task.id l1 m l2 NDs y Hy). }
  assert (NDr : NoDup (map Task.id (l1 ++ l2))).
  { rewrite Hsc, map_app in NDs. simpl in NDs. apply NoDup_remove_1 in NDs.
    now rewrite map_app. }
  assert (Hk : TaskList.insertIndexOf (l1 ++ l2) prevEl nextEl = k).
  { unfold TaskList.insertIndexOf. rewrite Hsc in Hprev, Hnext.
    destruct l1 as [|z l1'] using rev_ind.
    - simpl in Hlen. subst k. simpl in *.
      destruct prevEl; [discriminate|].
      destruct nextEl, l2; simpl in *; try reflexivity; discriminate.
    - clear IHl1'. rewrite length_app in Hlen. simpl in Hlen.
      replace k with (S (List.length l1')) in * by lia.
      rewrite <- app_assoc in Hprev. simpl in Hprev.
      rewrite nth_error_app2, Nat.sub_diag in Hprev by lia. simpl in Hprev.
      destruct prevEl as [p|]; [|discriminate]. simpl in Hprev.
      inversion Hprev as [Hp]. fold (elTaskId p). rewrite Hp.
      rewrite (findIndex_nth_NoDup Task.id _ _ (List.length l1') z NDr).
      + f_equal. lia.
      + intros y Hy. apply Js_eqb_eq in Hy. now inversion Hy.
      + rewrite <- app_assoc. simpl.
        now rewrite nth_error_app2, Nat.sub_diag by lia.
      + apply Js_eqb_refl. }
  rewrite (TaskListFacts.buildUpdatesArray_found _ _ _ _ _ _ Hfind), Hrest, Hk.
  eexists. split; [reflexivity|].
  unfold Js.mapi. rewrite (map_mapiFrom _ _ Task.id) by reflexivity.
  f_equal. rewrite Hsc. unfold Js.splice.
  rewrite <- Hlen.
  rewrite firstn_app, Nat.sub_diag, firstn_all, firstn_O, app_nil_r.
  rewrite skipn_app, Nat.sub_diag, skipn_all. reflexivity.
Qed.

Lemma drop_in_place_keeps_order_witness :
  exists updates,
    TaskList.buildUpdatesArray Sample.tasksABC (Js.Str "B") (Js.Str "P")
      (Some Sample.rowA) (Some Sample.rowC) = Some updates /\
    map TaskList.Update.id updates = ["A"; "B"; "C"].
Proof.
  exact (drop_in_place_keeps_order Sample.tasksABC (Js.Str "B") (Js.Str "P")
           (Some Sample.rowA) (Some Sample.rowC) 1
           Sample_tasksABC_ids eq_refl (conj eq_refl eq_refl)).
Defined.

(* ================================================================== *)
(** * Further properties: task helpers *)
(* ================================================================== *)

Lemma descendantOf_trans tasks a b c :
  TaskHelpers.descendantOf tasks a b -> TaskHelpers.descendantOf tasks b c ->
  TaskHelpers.descendantOf tasks a c.
Proof.
  induction 1 as [p x Hc|p x d Hc _ IH]; intros H.
  - eapply TaskHelpers.desc_step; eauto.
  - eapply TaskHelpers.desc_step; [exact Hc|]. now apply IH.
Qed.

Lemma below_trans tasks c b a :
  below tasks c b -> TaskHelpers.descendantOf tasks b a -> below tasks c a.
Proof.
  intros (t & Hin & Hp & [<-|D]) H; exists t; split; auto; split; auto.
  right. eapply descendantOf_trans; eauto.
Qed.

(** With enough fuel on an acyclic collection, [isTaskDescendantOf] says
    whether the candidate is the ancestor itself or lies below it. *)
Lemma isTaskDescendantOf_true_iff tasks a b :
  TaskHelpers.acyclic tasks ->
  (TaskHelpers.isTaskDescendantOf (S (List.length tasks)) tasks a b = Some true <->
   a = b \/ exists a', a = Js.Str a' /\ below tasks b a').
Proof.
  intros Hac. unfold TaskHelpers.isTaskDescendantOf.
  destruct (Js.eqb a b) eqn:E.
  - apply Js_eqb_eq in E. split; auto.
  - apply Js_eqb_neq in E.
    destruct (getTaskDescendants_terminates tasks b Hac) as [l Hl]. rewrite Hl.
    pose proof (getTaskDescendants_spec tasks _ _ _ Hl) as Hspec.
    split.
    + intros H. inversion H as [Hi]. right.
      unfold TaskHelpers.includes in Hi. apply existsb_exists in Hi.
      destruct Hi as (d & Hd & Ed). apply Js_eqb_eq in Ed. subst a.
      exists d. split; [reflexivity|]. now apply Hspec.
    + intros [H|(a' & -> & Hb)]; [contradiction|].
      f_equal. apply includes_In. now apply Hspec.
Qed.

(** X9. [cascadeCompletion]: marking a task incomplete touches that task
    only; marking it complete on an acyclic collection touches the task,
    listed first, and exactly the tasks below it; started on a task that
    lies on a parent cycle the call never returns. *)
Theorem cascade_completes_exactly_the_subtree :
  forall tasks taskId fuel,
    TaskHelpers.cascadeCompletion fuel taskId tasks false = Some [taskId] /\
    (TaskHelpers.acyclic tasks ->
     exists ids,
       TaskHelpers.cascadeCompletion (S (List.length tasks)) taskId tasks true
       = Some (taskId :: ids) /\
       forall x, In x ids <-> exists d, x = Js.Str d /\ below tasks taskId d) /\
    (forall x, TaskHelpers.descendantOf tasks x x -> taskId = Js.Str x ->
       TaskHelpers.cascadeCompletion fuel taskId tasks true = None).
Proof.
  intros tasks taskId fuel. split; [reflexivity|]. split.
  - intros Hac. unfold TaskHelpers.cascadeCompletion.
    destruct (getTaskDescendants_terminates tasks taskId Hac) as [l Hl]. rewrite Hl.
    exists (map Js.Str l). split; [reflexivity|].
    intros x. rewrite in_map_iff. split.
    + intros (d & <- & Hd). exists d. split; [reflexivity|].
      now apply (getTaskDescendants_spec tasks _ _ _ Hl).
    + intros (d & -> & Hd). exists d. split; [reflexivity|].
      now apply (getTaskDescendants_spec tasks _ _ _ Hl).
  - intros x Hx ->. unfold TaskHelpers.cascadeCompletion.
    rewrite getTaskDescendants_diverges; [reflexivity|]. exists x. auto.
Qed.

Lemma cascade_completes_exactly_the_subtree_witness :
  exists ids,
    TaskHelpers.cascadeCompletion (S (List.length Sample.tasksABC)) (Js.Str "P")
      Sample.tasksABC true = Some (Js.Str "P" :: ids) /\
    forall x, In x ids <-> exists d, x = Js.Str d /\ below Sample.tasksABC (Js.Str "P") d.
Proof.
  exact (proj1 (proj2 (cascade_completes_exactly_the_subtree Sample.tasksABC (Js.Str "P") O))
           (acyclicb_sound Sample.tasksABC eq_refl)).
Defined.

(** X10. On an acyclic collection, with the recursion depth
    [length tasks + 1], [isTaskDescendantOf] is a partial order on ids:
    every id is a descendant of itself, two ids that are descendants of
    each other are equal, and a descendant of a descendant is a
    descendant. *)
Theorem isTaskDescendantOf_is_a_partial_order :
  forall tasks,
    TaskHelpers.acyclic tasks ->
    let isDescendant := TaskHelpers.isTaskDescendantOf (S (List.length tasks)) tasks in
    (forall a, isDescendant a a = Some true) /\
    (forall a b, isDescendant a b = Some true -> isDescendant b a = Some true -> a = b) /\
    (forall a b c,
       isDescendant a b = Some true -> isDescendant b c = Some true ->
       isDescendant a c = Some true).
Proof.
  intros tasks Hac isDescendant. unfold isDescendant.
  split; [intros a; apply isTaskDescendantOf_self|]. split.
  - intros a b Hab Hba.
    apply (isTaskDescendantOf_true_iff tasks a b Hac) in Hab.
    apply (isTaskDescendantOf_true_iff tasks b a Hac) in Hba.
    destruct Hab as [E|(a' & -> & Ha)]; [exact E|].
    destruct Hba as [E|(b' & -> & Hb)]; [now symmetry|].
    exfalso. apply (Hac a').
    apply below_Str_descendantOf in Ha, Hb. eapply descendantOf_trans; eauto.
  - intros a b c Hab Hbc.
    apply (isTaskDescendantOf_true_iff tasks a b Hac) in Hab.
    apply (isTaskDescendantOf_true_iff tasks b c Hac) in Hbc.
    apply (isTaskDescendantOf_true_iff tasks a c Hac).
    destruct Hab as [->|(a' & -> & Ha)]; [exact Hbc|].
    destruct Hbc as [->|(b' & -> & Hb)]; [right; eauto|].
    right. exists a'. split; [reflexivity|].
    eapply below_trans; [exact Hb|]. now apply below_Str_descendantOf.
Qed.

Lemma isTaskDescendantOf_is_a_partial_order_witness :
  TaskHelpers.isTaskDescendantOf (S (List.length Sample.tasksABC)) Sample.tasksABC
    (Js.Str "A") (Js.Str "A") = Some true.
Proof.
  exact (proj1 (isTaskDescendantOf_is_a_partial_order Sample.tasksABC
                  (acyclicb_sound Sample.tasksABC eq_refl)) (Js.Str "A")).
Defined.

(* ================================================================== *)
(** * Further properties: the task tree *)
(* ================================================================== *)

Section TaskMapFacts.
Import TaskHelpers.

Lemma mapGet_mapSet k k' v m :
  mapGet k (mapSet k' v m) = if String.eqb k' k then Some v else mapGet k m.
Proof.
  induction m as [|[k0 v0] r IH]; simpl.
  - reflexivity.
  - destruct (String.eqb k0 k') eqn:E0; simpl.
    + apply String.eqb_eq in E0. subst k0.
      destruct (String.eqb k' k); reflexivity.
    + destruct (String.eqb k0 k) eqn:E1.
      * apply String.eqb_eq in E1. subst k0.
        destruct (String.eqb k' k) eqn:E2; [|reflexivity].
        apply String.eqb_eq in E2. subst k'. now rewrite String.eqb_refl in E0.
      * exact IH.
Qed.

Lemma mapGet_pushChild k p c m :
  mapGet k (pushChild p c m)
  = if String.eqb p k
    then option_map (fun n => {| Node.task := Node.task n;
                                 Node.children := Node.children n ++ [c] |})
                    (mapGet k m)
    else mapGet k m.
Proof.
  unfold pushChild. destruct (mapGet p m) as [n|] eqn:E.
  - rewrite mapGet_mapSet. destruct (String.eqb p k) eqn:Ek; [|reflexivity].
    apply String.eqb_eq in Ek. subst k. now rewrite E.
  - destruct (String.eqb p k) eqn:Ek; [|reflexivity].
    apply String.eqb_eq in Ek. subst k. now rewrite E.
Qed.

(** The first pass: one node for each task, without children yet. *)
Lemma firstPass_other tasks : forall m k,
  ~ In k (map Task.id tasks) ->
  mapGet k (fold_left (fun m task =>
                         mapSet (Task.id task)
                           {| Node.task := task; Node.children := [] |} m) tasks m)
  = mapGet k m.
Proof.
  induction tasks as [|t r IH]; intros m k Hk; simpl.
  - reflexivity.
  - rewrite IH by (intros H; apply Hk; now right).
    rewrite mapGet_mapSet.
    destruct (String.eqb (Task.id t) k) eqn:E; [|reflexivity].
    apply String.eqb_eq in E. exfalso. apply Hk. now left.
Qed.

Lemma firstPass_get tasks : forall m t,
  NoDup (map Task.id tasks) -> In t tasks ->
  mapGet (Task.id t)
    (fold_left (fun m task =>
                  mapSet (Task.id task)
                    {| Node.task := task; Node.children := [] |} m) tasks m)
  = Some {| Node.task := t; Node.children := [] |}.
Proof.
  induction tasks as [|a r IH]; intros m t Hnd Hin; simpl; [contradiction|].
  inversion Hnd as [|? ? Ha Hr]; subst.
  destruct Hin as [->|Hin].
  - rewrite firstPass_other by exact Ha.
    rewrite mapGet_mapSet, String.eqb_refl. reflexivity.
  - now apply IH.
Qed.

End TaskMapFacts.

Section BuildFacts.
Import TaskHelpers.
Variable tasks : list Task.t.
Hypothesis Hnodup : NoDup (map Task.id tasks).

Lemma existsb_id_In k :
  existsb (fun u => String.eqb (Task.id u) k) tasks = true <-> In k (map Task.id tasks).
Proof.
  rewrite existsb_exists, in_map_iff. split.
  - intros (u & Hu & E). apply String.eqb_eq in E. eauto.
  - intros (u & E & Hu). exists u. split; [exact Hu|]. now apply String.eqb_eq.
Qed.

Lemma same_id_same_task t u :
  In t tasks -> In u tasks -> Task.id t = Task.id u -> t = u.
Proof.
  clear -Hnodup. induction tasks as [|a r IH]; simpl; [contradiction|].
  inversion Hnodup as [|? ? Ha Hr]; subst.
  intros [->|Ht] [->|Hu] E; auto.
  - exfalso. apply Ha. rewrite E. now apply in_map.
  - exfalso. apply Ha. rewrite <- E. now apply in_map.
Qed.

Lemma parentNode_treeParent m t :
  (forall k, mapHas k m = existsb (fun u => String.eqb (Task.id u) k) tasks) ->
  parentNode t m = treeParent tasks t.
Proof.
  intros H. unfold parentNode, treeParent.
  destruct (Task.parentTaskId t); try reflexivity. now rewrite H.
Qed.

Lemma mapHas_pushChild k p c m : mapHas k (pushChild p c m) = mapHas k m.
Proof.
  unfold mapHas. rewrite mapGet_pushChild.
  destruct (String.eqb p k); [|reflexivity].
  destruct (mapGet k m); reflexivity.
Qed.

(** The second pass over a part [l] of the array. *)
Lemma secondPass l : forall tree0,
  (forall k, mapHas k (nodes tree0)
             = existsb (fun u => String.eqb (Task.id u) k) tasks) ->
  let tree :=
    fold_left
      (fun tree task =>
         let node := Task.id task in
         match parentNode task (nodes tree) with
         | Some p => {| roots := roots tree; nodes := pushChild p node (nodes tree) |}
         | None => {| roots := roots tree ++ [node]; nodes := nodes tree |}
         end) l tree0 in
  roots tree
  = roots tree0
    ++ map Task.id (filter (fun t => match treeParent tasks t with
                                     | Some _ => false | None => true end) l) /\
  forall k,
    mapGet k (nodes tree)
    = option_map
        (fun n => {| Node.task := Node.task n;
                     Node.children :=
                       Node.children n
                       ++ map Task.id
                            (filter (fun t => match treeParent tasks t with
                                              | Some q => String.eqb q k
                                              | None => false end) l) |})
        (mapGet k (nodes tree0)).
Proof.
  induction l as [|a r IH]; intros tree0 Hhas; simpl.
  - split; [now rewrite app_nil_r|].
    intros k. destruct (mapGet k (nodes tree0)) as [[t c]|]; simpl; [|reflexivity].
    now rewrite app_nil_r.
  - rewrite (parentNode_treeParent _ a Hhas).
    destruct (treeParent tasks a) as [p|] eqn:Ep.
    + match goal with |- context [fold_left ?f r ?t0] =>
        destruct (IH t0) as [Hr Hg] end.
      { intros k. simpl. rewrite mapHas_pushChild. apply Hhas. }
      simpl in Hr, Hg. split; [exact Hr|].
      intros k. rewrite Hg, mapGet_pushChild.
      destruct (String.eqb p k) eqn:Ek; [|reflexivity].
      destruct (mapGet k (nodes tree0)) as [[t c]|]; simpl; [|reflexivity].
      now rewrite <- app_assoc.
    + match goal with |- context [fold_left ?f r ?t0] =>
        destruct (IH t0) as [Hr Hg] end.
      { intros k. simpl. apply Hhas. }
      simpl in Hr, Hg. split.
      * rewrite Hr. now rewrite <- app_assoc.
      * exact Hg.
Qed.

(** The tree [buildTaskTree] makes of an array without duplicate ids. *)
Lemma buildTaskTree_roots :
  roots (buildTaskTree tasks) = map Task.id (treeRoots tasks).
Proof.
  unfold buildTaskTree.
  match goal with |- context [fold_left ?f tasks ?t0] =>
    destruct (secondPass tasks t0) as [Hr _] end.
  - intros k. simpl. unfold mapHas.
    destruct (existsb (fun u => String.eqb (Task.id u) k) tasks) eqn:E.
    + apply existsb_exists in E. destruct E as (u & Hu & E).
      apply String.eqb_eq in E. subst k. now rewrite firstPass_get.
    + rewrite firstPass_other; [reflexivity|].
      intros H. apply existsb_id_In in H. congruence.
  - exact Hr.
Qed.

Lemma buildTaskTree_node t :
  In t tasks ->
  mapGet (Task.id t) (nodes (buildTaskTree tasks))
  = Some {| Node.task := t;
            Node.children := map Task.id (treeChildren tasks (Task.id t)) |}.
Proof.
  intros Ht. unfold buildTaskTree.
  match goal with |- context [fold_left ?f tasks ?t0] =>
    destruct (secondPass tasks t0) as [_ Hg] end.
  - intros k. simpl. unfold mapHas.
    destruct (existsb (fun u => String.eqb (Task.id u) k) tasks) eqn:E.
    + apply existsb_exists in E. destruct E as (u & Hu & E).
      apply String.eqb_eq in E. subst k. now rewrite firstPass_get.
    + rewrite firstPass_other; [reflexivity|].
      intros H. apply existsb_id_In in H. congruence.
  - rewrite Hg. simpl. rewrite firstPass_get by assumption. reflexivity.
Qed.

End BuildFacts.

Section ShownFacts.
Variable tasks : list Task.t.
Variable expandedTasks : list string.
Hypothesis Hnodup : NoDup (map Task.id tasks).

Lemma In_treeChildren t k :
  In t (treeChildren tasks k) <-> In t tasks /\ treeParent tasks t = Some k.
Proof.
  unfold treeChildren. rewrite filter_In. split; intros [Ht H]; split; auto.
  - destruct (treeParent tasks t) as [q|]; [|discriminate].
    apply String.eqb_eq in H. now subst.
  - rewrite H. apply String.eqb_refl.
Qed.

Lemma In_treeRoots t :
  In t (treeRoots tasks) <-> In t tasks /\ treeParent tasks t = None.
Proof.
  unfold treeRoots. rewrite filter_In. split; intros [Ht H]; split; auto.
  - destruct (treeParent tasks t); [discriminate|reflexivity].
  - now rewrite H.
Qed.

Lemma treeChildren_incl k : incl (treeChildren tasks k) tasks.
Proof. intros t Ht. now apply In_treeChildren in Ht. Qed.

Lemma shownFrom_In nodes d t dt :
  incl nodes tasks -> shownFrom tasks expandedTasks nodes d t dt -> In t tasks.
Proof.
  intros Hi H. induction H as [t Ht|p dp t _ _ _ Ht]; [now apply Hi|].
  now apply In_treeChildren in Ht.
Qed.

Lemma shownFrom_depth nodes d t dt :
  shownFrom tasks expandedTasks nodes d t dt -> (d <= dt)%nat.
Proof. induction 1; lia. Qed.

Lemma shownFrom_incl nodes nodes' d t dt :
  incl nodes nodes' ->
  shownFrom tasks expandedTasks nodes d t dt ->
  shownFrom tasks expandedTasks nodes' d t dt.
Proof.
  intros Hi H. induction H; [apply shown_here; auto|].
  eapply shown_child; eauto.
Qed.

(** What is reached from the children of an expanded task is reached from
    the task. *)
Lemma shownFrom_lift nodes d n t dt :
  In n nodes -> In (Task.id n) expandedTasks ->
  shownFrom tasks expandedTasks (treeChildren tasks (Task.id n)) (S d) t dt ->
  shownFrom tasks expandedTasks nodes d t dt.
Proof.
  intros Hn He H. induction H as [t Ht|p dp t _ IH Hp Ht].
  - eapply shown_child; [apply shown_here; exact Hn|exact He|exact Ht].
  - eapply shown_child; eauto.
Qed.

(** What is reached at the starting depth is a starting node. *)
Lemma shownFrom_top nodes d t :
  shownFrom tasks expandedTasks nodes d t d -> In t nodes.
Proof.
  intros H. inversion H as [? Ht|p dp ? Hp _ _ E]; subst; [exact Ht|].
  apply shownFrom_depth in Hp. lia.
Qed.

(** From starting nodes that are shown at depth [d], what is reached is
    shown. *)
Lemma shownFrom_shownAt nodes d t dt :
  (forall n, In n nodes -> shownAt tasks expandedTasks n d) ->
  shownFrom tasks expandedTasks nodes d t dt ->
  shownAt tasks expandedTasks t dt.
Proof.
  intros Hn H. induction H as [t Ht|p dp t _ IH Hp Ht]; [now apply Hn|].
  eapply shown_child; eauto.
Qed.

Lemma shownAt_In t d : shownAt tasks expandedTasks t d -> In t tasks.
Proof.
  apply shownFrom_In. intros x Hx. now apply In_treeRoots in Hx.
Qed.

(** A task is shown at one depth only. *)
Lemma shownAt_depth_unique t d d' :
  shownAt tasks expandedTasks t d -> shownAt tasks expandedTasks t d' -> d = d'.
Proof.
  intros H. revert d'. unfold shownAt in *.
  induction H as [t Ht|p dp t Hp IH He Ht]; intros d' H'.
  - inversion H' as [? _|p' dp' ? _ _ Ht' E]; subst; [reflexivity|].
    apply In_treeRoots in Ht. apply In_treeChildren in Ht'.
    destruct Ht as [_ A], Ht' as [_ B]. congruence.
  - inversion H' as [? Ht'|p' dp' ? Hp' _ Ht' E]; subst.
    + apply In_treeRoots in Ht'. apply In_treeChildren in Ht.
      destruct Ht as [_ A], Ht' as [_ B]. congruence.
    + f_equal. apply IH.
      assert (E : p = p').
      { apply (same_id_same_task tasks Hnodup).
        - eapply shownAt_In; exact Hp.
        - eapply shownAt_In; exact Hp'.
        - apply In_treeChildren in Ht, Ht'.
          destruct Ht as [_ A], Ht' as [_ B]. congruence. }
      subst p'. exact Hp'.
Qed.

(** Two sets of starting nodes at the same depth from which one task is
    reached share the node it is reached from. *)
Lemma shownFrom_common nodesA nodesB d t dt dt' :
  (forall n, In n nodesA -> shownAt tasks expandedTasks n d) ->
  (forall n, In n nodesB -> shownAt tasks expandedTasks n d) ->
  shownFrom tasks expandedTasks nodesA d t dt ->
  shownFrom tasks expandedTasks nodesB d t dt' ->
  exists n, In n nodesA /\ In n nodesB.
Proof.
  intros HA HB H. revert dt'.
  induction H as [t Ht|p dp t Hp IH He Ht]; intros dt' H'.
  - assert (E : d = dt').
    { eapply shownAt_depth_unique; [apply HA; exact Ht|].
      eapply shownFrom_shownAt; eauto. }
    subst dt'. exists t. split; [exact Ht|]. now apply shownFrom_top in H'.
  - inversion H' as [? Ht'|p' dp' ? Hp' _ Ht' E]; subst.
    + exfalso.
      assert (E : dt' = S dp).
      { eapply shownAt_depth_unique; [apply HB; exact Ht'|].
        eapply shownFrom_shownAt; [exact HA|]. eapply shown_child; eauto. }
      apply shownFrom_depth in Hp. lia.
    + assert (E : p = p').
      { apply (same_id_same_task tasks Hnodup).
        - apply (shownAt_In p dp). apply (shownFrom_shownAt nodesA d); assumption.
        - apply (shownAt_In p' dp'). apply (shownFrom_shownAt nodesB d); assumption.
        - apply In_treeChildren in Ht, Ht'.
          destruct Ht as [_ A], Ht' as [_ B]. congruence. }
      subst p'. eapply IH; eauto.
Qed.

(** The ancestors of a shown task: as many distinct tasks as its depth. *)
Lemma shownAt_chain t d :
  shownAt tasks expandedTasks t d ->
  exists l, NoDup l /\ incl l tasks /\ List.length l = S d /\
            forall a, In a l -> exists da, (da <= d)%nat /\ shownAt tasks expandedTasks a da.
Proof.
  intros H. unfold shownAt in H.
  induction H as [t Ht|p dp t Hp IH He Ht].
  - exists [t]. split; [constructor; [intros []|constructor]|].
    split; [intros x [<-|[]]; now apply In_treeRoots in Ht|].
    split; [reflexivity|].
    intros a [<-|[]]. exists O. split; [lia|]. now apply shown_here.
  - destruct IH as (l & Hnd & Hi & Hlen & Hd).
    assert (Hs : shownAt tasks expandedTasks t (S dp)) by (eapply shown_child; eauto).
    exists (t :: l). split.
    + constructor; [|exact Hnd]. intros Hin.
      destruct (Hd t Hin) as (da & Hle & Ha).
      pose proof (shownAt_depth_unique _ _ _ Hs Ha). lia.
    + split; [intros x [<-|Hx]; [now apply In_treeChildren in Ht|now apply Hi]|].
      split; [simpl; now rewrite Hlen|].
      intros a [<-|Ha]; [exists (S dp); split; [lia|exact Hs]|].
      destruct (Hd a Ha) as (da & Hle & Hsa). exists da. split; [lia|exact Hsa].
Qed.

Lemma shownAt_depth_bound t d :
  shownAt tasks expandedTasks t d -> (d < List.length tasks)%nat.
Proof.
  intros H. destruct (shownAt_chain t d H) as (l & Hnd & Hi & Hlen & _).
  pose proof (NoDup_incl_length Hnd Hi). lia.
Qed.

End ShownFacts.

Section TraverseFacts.
Import TaskHelpers.
Variable tasks : list Task.t.
Variable expandedTasks : list string.
Variable m : list (string * Node.t).
Hypothesis Hnodup : NoDup (map Task.id tasks).
Hypothesis Hnodes :
  forall t, In t tasks ->
    mapGet (Task.id t) m
    = Some {| Node.task := t;
              Node.children := map Task.id (treeChildren tasks (Task.id t)) |}.

Lemma setHas_In s k : setHas s k = true <-> In k s.
Proof.
  unfold setHas. rewrite existsb_exists. split.
  - intros (x & Hx & E). apply String.eqb_eq in E. now subst.
  - intros H. exists k. split; [exact H|apply String.eqb_refl].
Qed.

Lemma forEachNode_cons recurse d n ns :
  In n tasks ->
  forEachNode m expandedTasks recurse d (map Task.id (n :: ns))
  = match (if setHas expandedTasks (Task.id n)
           then recurse (map Task.id (treeChildren tasks (Task.id n)))
           else Some []),
          forEachNode m expandedTasks recurse d (map Task.id ns) with
    | Some s, Some r => Some (itemOf tasks expandedTasks n d :: s ++ r)
    | _, _ => None
    end.
Proof. intros Hn. simpl. rewrite (Hnodes n Hn). reflexivity. Qed.

Lemma itemOf_inj t d t' d' :
  itemOf tasks expandedTasks t d = itemOf tasks expandedTasks t' d' -> t = t' /\ d = d'.
Proof. unfold itemOf. intros H. inversion H. auto. Qed.

(** Every item [traverse] pushes is a task reached from the nodes it was
    called on. *)
Lemma traverse_sound fuel : forall nodes d items,
  incl nodes tasks ->
  traverse fuel m expandedTasks (map Task.id nodes) d = Some items ->
  forall i, In i items ->
    exists t dt, i = itemOf tasks expandedTasks t dt /\
                 shownFrom tasks expandedTasks nodes d t dt.
Proof.
  induction fuel as [|f IHf]; intros nodes d items Hi H; [discriminate|].
  simpl in H. revert items Hi H.
  induction nodes as [|n ns IHn]; intros items Hi H i Hin.
  - simpl in H. inversion H; subst. contradiction.
  - assert (Hn : In n tasks) by (apply Hi; now left).
    assert (Hns : incl ns tasks) by (intros x Hx; apply Hi; now right).
    rewrite (forEachNode_cons _ d n ns Hn) in H.
    destruct (forEachNode m expandedTasks _ d (map Task.id ns)) as [r|] eqn:Er;
      [|destruct (if setHas expandedTasks (Task.id n) then _ else _); discriminate].
    destruct (setHas expandedTasks (Task.id n)) eqn:Ex.
    + destruct (traverse f m expandedTasks _ (S d)) as [s|] eqn:Es; [|discriminate].
      inversion H; subst. destruct Hin as [<-|Hin].
      * exists n, d. split; [reflexivity|]. apply shown_here. now left.
      * apply in_app_or in Hin. destruct Hin as [Hin|Hin].
        -- destruct (IHf _ _ _ (treeChildren_incl tasks _) Es i Hin) as (t & dt & E & Sh).
           exists t, dt. split; [exact E|].
           eapply shownFrom_lift; [now left|now apply setHas_In|exact Sh].
        -- destruct (IHn r Hns eq_refl i Hin) as (t & dt & E & Sh).
           exists t, dt. split; [exact E|].
           eapply shownFrom_incl; [|exact Sh]. intros x Hx. now right.
    + inversion H; subst. destruct Hin as [<-|Hin].
      * exists n, d. split; [reflexivity|]. apply shown_here. now left.
      * destruct (IHn r Hns eq_refl i Hin) as (t & dt & E & Sh).
        exists t, dt. split; [exact E|].
        eapply shownFrom_incl; [|exact Sh]. intros x Hx. now right.
Qed.

(** The nodes [traverse] is called on are pushed, and with a pushed task
    that is expanded its children are. *)
Lemma traverse_closed fuel : forall nodes d items,
  incl nodes tasks ->
  traverse fuel m expandedTasks (map Task.id nodes) d = Some items ->
  (forall n, In n nodes -> In (itemOf tasks expandedTasks n d) items) /\
  (forall p dp t,
     In (itemOf tasks expandedTasks p dp) items ->
     In (Task.id p) expandedTasks ->
     In t (treeChildren tasks (Task.id p)) ->
     In (itemOf tasks expandedTasks t (S dp)) items).
Proof.
  induction fuel as [|f IHf]; intros nodes d items Hi H; [discriminate|].
  simpl in H. revert items Hi H.
  induction nodes as [|n ns IHn]; intros items Hi H.
  - simpl in H. inversion H; subst. split; [intros ? []|intros ? ? ? []].
  - assert (Hn : In n tasks) by (apply Hi; now left).
    assert (Hns : incl ns tasks) by (intros x Hx; apply Hi; now right).
    rewrite (forEachNode_cons _ d n ns Hn) in H.
    destruct (forEachNode m expandedTasks _ d (map Task.id ns)) as [r|] eqn:Er;
      [|destruct (if setHas expandedTasks (Task.id n) then _ else _); discriminate].
    destruct (IHn r Hns eq_refl) as [Ar Br].
    destruct (setHas expandedTasks (Task.id n)) eqn:Ex.
    + destruct (traverse f m expandedTasks _ (S d)) as [s|] eqn:Es; [|discriminate].
      destruct (IHf _ _ _ (treeChildren_incl tasks _) Es) as [As Bs].
      inversion H; subst. split.
      * intros x [<-|Hx]; [now left|]. right. apply in_or_app. right. now apply Ar.
      * intros p dp t [E|Hp] He Ht.
        -- apply itemOf_inj in E. destruct E as [<- <-].
           right. apply in_or_app. left. now apply As.
        -- right. apply in_or_app. apply in_app_or in Hp. destruct Hp as [Hp|Hp].
           ++ left. eapply Bs; eauto.
           ++ right. eapply Br; eauto.
    + inversion H; subst. split.
      * intros x [<-|Hx]; [now left|]. right. now apply Ar.
      * intros p dp t [E|Hp] He Ht.
        -- apply itemOf_inj in E. destruct E as [<- <-].
           apply setHas_In in He. congruence.
        -- right. eapply Br; eauto.
Qed.

Lemma traverse_complete fuel nodes d items :
  incl nodes tasks ->
  traverse fuel m expandedTasks (map Task.id nodes) d = Some items ->
  forall t dt, shownFrom tasks expandedTasks nodes d t dt ->
    In (itemOf tasks expandedTasks t dt) items.
Proof.
  intros Hi H. destruct (traverse_closed fuel nodes d items Hi H) as [A B].
  intros t dt Sh. induction Sh as [t Ht|p dp t _ IH He Ht]; [now apply A|].
  eapply B; eauto.
Qed.

(** [traverse] returns when the fuel covers the levels left below the
    depth it is called at. *)
Lemma traverse_returns f : forall nodes d,
  (forall n, In n nodes -> shownAt tasks expandedTasks n d) ->
  (List.length tasks <= d + f)%nat ->
  exists items, traverse (S f) m expandedTasks (map Task.id nodes) d = Some items.
Proof.
  induction f as [|f IHf]; intros nodes d Hd Hlen.
  - destruct nodes as [|n ns]; [exists []; reflexivity|].
    exfalso. pose proof (shownAt_depth_bound tasks expandedTasks Hnodup n d
                           (Hd n (or_introl eq_refl))). lia.
  - change (traverse (S (S f)) m expandedTasks (map Task.id nodes) d)
      with (forEachNode m expandedTasks
              (fun children => traverse (S f) m expandedTasks children (S d))
              d (map Task.id nodes)).
    induction nodes as [|n ns IHn]; [exists []; reflexivity|].
    assert (Hn : In n tasks).
    { eapply shownAt_In. apply Hd. now left. }
    rewrite (forEachNode_cons _ d n ns Hn).
    destruct IHn as [r Er]; [intros x Hx; apply Hd; now right|]. rewrite Er.
    destruct (setHas expandedTasks (Task.id n)) eqn:Ex; [|eauto].
    destruct (IHf (treeChildren tasks (Task.id n)) (S d)) as [s Es].
    + intros c Hc. eapply shown_child; [apply Hd; now left|now apply setHas_In|exact Hc].
    + lia.
    + rewrite Es. eauto.
Qed.

(** No task is pushed twice. *)
Lemma traverse_NoDup fuel : forall nodes d items,
  NoDup (map Task.id nodes) ->
  (forall n, In n nodes -> shownAt tasks expandedTasks n d) ->
  traverse fuel m expandedTasks (map Task.id nodes) d = Some items ->
  NoDup (map (fun i => Task.id (itemTask i)) items).
Proof.
  induction fuel as [|f IHf]; intros nodes d items Hnd Hd H; [discriminate|].
  simpl in H. revert items Hnd Hd H.
  induction nodes as [|n ns IHn]; intros items Hnd Hd H.
  - simpl in H. inversion H; subst. constructor.
  - assert (Hn : In n tasks) by (eapply shownAt_In; apply Hd; now left).
    assert (Hns : incl ns tasks).
    { intros x Hx. eapply shownAt_In. apply Hd. now right. }
    assert (Hdn : shownAt tasks expandedTasks n d) by (apply Hd; now left).
    assert (Hds : forall x, In x ns -> shownAt tasks expandedTasks x d)
      by (intros x Hx; apply Hd; now right).
    inversion Hnd as [|? ? Hnotin Hnd']; subst.
    assert (Hn_ns : ~ In n ns) by (intros Hx; apply Hnotin; now apply in_map).
    rewrite (forEachNode_cons _ d n ns Hn) in H.
    destruct (forEachNode m expandedTasks _ d (map Task.id ns)) as [r|] eqn:Er;
      [|destruct (if setHas expandedTasks (Task.id n) then _ else _); discriminate].
    assert (Hr : NoDup (map (fun i => Task.id (itemTask i)) r)).
    { apply IHn; auto. }
    assert (Srest : forall i, In i r ->
              exists t dt, i = itemOf tasks expandedTasks t dt /\
                           shownFrom tasks expandedTasks ns d t dt).
    { apply (traverse_sound (S f) ns d r Hns). exact Er. }
    assert (Hn_r : ~ In (Task.id n) (map (fun i => Task.id (itemTask i)) r)).
    { intros Hin. apply in_map_iff in Hin. destruct Hin as (i & E & Hin).
      destruct (Srest i Hin) as (t & dt & -> & Sh). simpl in E.
      assert (t = n).
      { apply (same_id_same_task tasks Hnodup); auto.
        eapply shownFrom_In; eauto. }
      subst t.
      assert (dt = d).
      { apply (shownAt_depth_unique tasks expandedTasks Hnodup n); [|exact Hdn].
        apply (shownFrom_shownAt tasks expandedTasks ns d); assumption. }
      subst dt. apply Hn_ns. eapply shownFrom_top; eauto. }
    destruct (setHas expandedTasks (Task.id n)) eqn:Ex.
    + destruct (traverse f m expandedTasks _ (S d)) as [s|] eqn:Es; [|discriminate].
      inversion H; subst. clear H.
      assert (Hkd : forall c, In c (treeChildren tasks (Task.id n)) ->
                shownAt tasks expandedTasks c (S d)).
      { intros c Hc. eapply shown_child; [exact Hdn|now apply setHas_In|exact Hc]. }
      assert (Ssub : forall i, In i s ->
                exists t dt, i = itemOf tasks expandedTasks t dt /\
                  shownFrom tasks expandedTasks (treeChildren tasks (Task.id n)) (S d) t dt).
      { apply (traverse_sound f _ (S d) s (treeChildren_incl tasks _)). exact Es. }
      assert (Hs : NoDup (map (fun i => Task.id (itemTask i)) s)).
      { eapply IHf; [|exact Hkd|exact Es].
        unfold treeChildren. now apply NoDup_map_filter. }
      simpl. constructor.
      * rewrite map_app, in_app_iff. intros [Hin|Hin]; [|now apply Hn_r].
        apply in_map_iff in Hin. destruct Hin as (i & E & Hin).
        destruct (Ssub i Hin) as (t & dt & -> & Sh). simpl in E.
        assert (t = n).
        { apply (same_id_same_task tasks Hnodup); auto.
          eapply shownFrom_In; [apply treeChildren_incl|exact Sh]. }
        subst t.
        assert (dt = d).
        { apply (shownAt_depth_unique tasks expandedTasks Hnodup n); [|exact Hdn].
          apply (shownFrom_shownAt tasks expandedTasks
                   (treeChildren tasks (Task.id n)) (S d)); assumption. }
        subst dt. apply shownFrom_depth in Sh. lia.
      * rewrite map_app. apply NoDup_app; auto.
        intros k Hks Hkr.
        apply in_map_iff in Hks. destruct Hks as (i & Ei & Hi).
        apply in_map_iff in Hkr. destruct Hkr as (j & Ej & Hj).
        destruct (Ssub i Hi) as (t & dt & -> & S1).
        destruct (Srest j Hj) as (t' & dt' & -> & S2).
        simpl in Ei, Ej.
        assert (t' = t).
        { apply (same_id_same_task tasks Hnodup); [| |exact (eq_trans Ej (eq_sym Ei))].
          - eapply shownFrom_In; [exact Hns|exact S2].
          - eapply shownFrom_In; [apply treeChildren_incl|exact S1]. }
        subst t'.
        assert (S1' : shownFrom tasks expandedTasks [n] d t dt).
        { eapply shownFrom_lift; [now left|now apply setHas_In|exact S1]. }
        destruct (shownFrom_common tasks expandedTasks Hnodup [n] ns d t dt dt')
          as (x & [<-|[]] & Hx); auto.
        intros x [<-|[]]. exact Hdn.
    + inversion H; subst. simpl. constructor; assumption.
Qed.

End TraverseFacts.

Section TreeParentFacts.
Variable tasks : list Task.t.
Hypothesis Hnodup : NoDup (map Task.id tasks).

Lemma treeParent_Some t p :
  treeParent tasks t = Some p ->
  Task.parentTaskId t = Js.Str p /\ p <> ""%string /\
  exists tp, In tp tasks /\ Task.id tp = p.
Proof.
  unfold treeParent. destruct (Task.parentTaskId t) as [| |q]; try discriminate.
  destruct (String.eqb q "") eqn:E; simpl; [discriminate|].
  destruct (existsb (fun u => String.eqb (Task.id u) q) tasks) eqn:Ex; [|discriminate].
  intros H. inversion H; subst. split; [reflexivity|]. split.
  - intros ->. discriminate.
  - apply existsb_exists in Ex. destruct Ex as (u & Hu & Eu).
    apply String.eqb_eq in Eu. eauto.
Qed.

Lemma childOf_treeParent t q :
  In t tasks -> TaskHelpers.childOf tasks q (Task.id t) ->
  q <> ""%string -> In q (map Task.id tasks) ->
  treeParent tasks t = Some q.
Proof.
  intros Ht (t' & Ht' & Eid & Ep) Hq Hin.
  assert (t' = t) by (apply (same_id_same_task tasks Hnodup); auto). subst t'.
  unfold treeParent. rewrite Ep.
  destruct (String.eqb q "") eqn:E; [apply String.eqb_eq in E; contradiction|]. simpl.
  apply (existsb_id_In tasks) in Hin. now rewrite Hin.
Qed.

Lemma descendantOf_last a b :
  TaskHelpers.descendantOf tasks a b ->
  TaskHelpers.childOf tasks a b \/
  exists q, TaskHelpers.descendantOf tasks a q /\ TaskHelpers.childOf tasks q b.
Proof.
  induction 1 as [p c Hc|p c d Hc _ IH]; [now left|].
  right. destruct IH as [H|(q & Hq & Hl)].
  - exists c. split; [now apply TaskHelpers.desc_child|exact H].
  - exists q. split; [|exact Hl]. eapply TaskHelpers.desc_step; eauto.
Qed.

Lemma descendantOf_id_In a b :
  TaskHelpers.descendantOf tasks a b -> In b (map Task.id tasks).
Proof.
  intros H. destruct (descendantOf_last a b H) as [Hc|(q & _ & Hc)];
    destruct Hc as (t & Ht & <- & _); now apply in_map.
Qed.

(** Without a cycle every task is shown when every task is expanded. *)
Lemma shownAt_all expandedTasks n :
  TaskHelpers.acyclic tasks ->
  (forall t, In t tasks -> In (Task.id t) expandedTasks) ->
  forall t seen,
    In t tasks -> NoDup seen -> incl seen tasks ->
    (forall s, In s seen ->
       s = t \/ TaskHelpers.descendantOf tasks (Task.id t) (Task.id s)) ->
    (List.length tasks < List.length seen + n)%nat ->
    exists d, shownAt tasks expandedTasks t d.
Proof.
  intros Hac Hex. induction n as [|n IH]; intros t seen Ht Hnd Hi Hs Hlen.
  - pose proof (NoDup_incl_length Hnd Hi). lia.
  - destruct (treeParent tasks t) as [p|] eqn:Ep.
    + destruct (treeParent_Some t p Ep) as (Hp & _ & tp & Htp & <-).
      assert (Hc : TaskHelpers.childOf tasks (Task.id tp) (Task.id t)).
      { exists t. auto. }
      destruct (IH tp (tp :: seen)) as [d Hd]; auto.
      * constructor; [|exact Hnd]. intros Hin.
        destruct (Hs tp Hin) as [->|Hdesc].
        -- apply (Hac (Task.id t)). now apply TaskHelpers.desc_child.
        -- apply (Hac (Task.id t)). eapply descendantOf_snoc; eauto.
      * intros x [<-|Hx]; auto.
      * intros s [<-|Hin]; [now left|]. right.
        destruct (Hs s Hin) as [->|Hdesc].
        -- now apply TaskHelpers.desc_child.
        -- eapply TaskHelpers.desc_step; eauto.
      * simpl. lia.
      * exists (S d). eapply shown_child; [exact Hd|now apply Hex|].
        apply In_treeChildren. auto.
    + exists O. apply shown_here. apply In_treeRoots. auto.
Qed.

(** A task shown is neither on a cycle of parents nor below one. *)
Lemma shownAt_not_below_cycle expandedTasks t d :
  ~ In ""%string (map Task.id tasks) ->
  shownAt tasks expandedTasks t d ->
  forall z, TaskHelpers.descendantOf tasks z z ->
    ~ (Task.id t = z \/ TaskHelpers.descendantOf tasks z (Task.id t)).
Proof.
  intros Hne H.
  assert (Hup : forall t z, In t tasks ->
            TaskHelpers.descendantOf tasks z z ->
            Task.id t = z \/ TaskHelpers.descendantOf tasks z (Task.id t) ->
            exists q, treeParent tasks t = Some q /\
                      (q = z \/ TaskHelpers.descendantOf tasks z q)).
  { clear t d H. intros t z Ht Hz Hor.
    assert (Hd : TaskHelpers.descendantOf tasks z (Task.id t)).
    { destruct Hor as [->|Hd]; assumption. }
    assert (Hzin : In z (map Task.id tasks)) by (eapply descendantOf_id_In; eauto).
    destruct (descendantOf_last _ _ Hd) as [Hc|(q & Hq & Hc)].
    - exists z. split; [|now left].
      apply childOf_treeParent; auto. intros ->. contradiction.
    - exists q. split; [|now right].
      assert (Hqin : In q (map Task.id tasks)) by (eapply descendantOf_id_In; eauto).
      apply childOf_treeParent; auto. intros ->. contradiction. }
  unfold shownAt in H.
  induction H as [t Ht|p dp t Hp IH He Ht]; intros z Hz Hor.
  - apply In_treeRoots in Ht. destruct Ht as [Ht Hnone].
    destruct (Hup t z Ht Hz Hor) as (q & Hq & _). congruence.
  - apply In_treeChildren in Ht. destruct Ht as [Ht Hsome].
    destruct (Hup t z Ht Hz Hor) as (q & Hq & Hor').
    assert (q = Task.id p) by congruence. subst q.
    apply (IH z Hz). destruct Hor' as [->|Hd]; auto.
Qed.

End TreeParentFacts.

(* ================================================================== *)
(** * Further properties: the drop-zone threshold *)
(* ================================================================== *)

(** The two bounds of the center zone are the product
    [height * threshold] and the difference [height - height * threshold],
    each rounded to the nearest double.  The lemmas below follow
    [binary_round_aux] through its shift and its rounding and compare the
    results on a common integer scale. *)

(** Powers of two on the common scale. *)
Lemma pw_pos e : -2148 <= e -> 0 < pw e.
Proof. intros He. unfold pw. apply Z.pow_pos_nonneg; lia. Qed.

Lemma pw_add e n : -2148 <= e -> 0 <= n -> pw (e + n) = 2 ^ n * pw e.
Proof.
  intros He Hn. unfold pw. replace (e + n + 2148) with (n + (e + 2148)) by lia.
  apply Z.pow_add_r; lia.
Qed.

(** [digits2_pos m] is the number of bits of [m]. *)
Lemma digits2_pos_bounds m :
  2 ^ (Zpos (digits2_pos m) - 1) <= Zpos m < 2 ^ Zpos (digits2_pos m).
Proof.
  induction m as [m IH|m IH|]; cbn [digits2_pos].
  - rewrite Pos2Z.inj_succ. replace (Z.succ (Zpos (digits2_pos m)) - 1) with (Z.succ (Zpos (digits2_pos m) - 1)) by lia.
    rewrite !Z.pow_succ_r by lia. lia.
  - rewrite Pos2Z.inj_succ. replace (Z.succ (Zpos (digits2_pos m)) - 1) with (Z.succ (Zpos (digits2_pos m) - 1)) by lia.
    rewrite !Z.pow_succ_r by lia. lia.
  - cbn. lia.
Qed.

(** The shifts of [shr] as an iteration over [nat]. *)
Lemma iter_pos_nat {A} (f : A -> A) p : forall x, SpecFloat.iter_pos f p x = Nat.iter (Pos.to_nat p) f x.
Proof.
  induction p as [p IH|p IH|]; intros x; cbn [SpecFloat.iter_pos].
  - rewrite !IH. replace (Pos.to_nat p~1) with (Pos.to_nat p + Pos.to_nat p + 1)%nat by lia.
    rewrite !Nat.iter_add. reflexivity.
  - rewrite !IH. replace (Pos.to_nat p~0) with (Pos.to_nat p + Pos.to_nat p)%nat by lia.
    rewrite !Nat.iter_add. reflexivity.
  - reflexivity.
Qed.

Lemma shr_1_nonneg m r s : 0 <= m ->
  shr_1 {| shr_m := m; shr_r := r; shr_s := s |} =
  {| shr_m := Z.div2 m; shr_r := Z.odd m; shr_s := r || s |}.
Proof.
  intros Hm. destruct m as [|[p|p|]|p]; try reflexivity. lia.
Qed.

(** After [k+1] right shifts of an exact mantissa the record holds the
    quotient, whether the remainder reaches one half, and whether it is
    anything but zero or one half. *)
Lemma shr_1_iter M k : 0 <= M ->
  exists q rem, M = 2 ^ Z.of_nat (S k) * q + rem /\ 0 <= q /\ 0 <= rem < 2 ^ Z.of_nat (S k) /\
    Nat.iter (S k) shr_1 {| shr_m := M; shr_r := false; shr_s := false |} =
    {| shr_m := q; shr_r := 2 ^ Z.of_nat k <=? rem;
       shr_s := negb (rem =? 0) && negb (rem =? 2 ^ Z.of_nat k) |}.
Proof.
  intros HM. induction k as [|k IH].
  - exists (Z.div2 M), (Z.b2z (Z.odd M)). cbn [Nat.iter].
    rewrite shr_1_nonneg by exact HM.
    pose proof (Z.div2_odd M) as E. pose proof (Z.div2_nonneg M) as N.
    change (2 ^ Z.of_nat 1) with 2. change (2 ^ Z.of_nat 0) with 1.
    destruct (Z.odd M); cbn [Z.b2z] in *; repeat split; try lia.
  - destruct IH as (q & rem & E & Hq & Hr & I).
    change (Nat.iter (S (S k)) shr_1 ?x) with (shr_1 (Nat.iter (S k) shr_1 x)).
    rewrite I, shr_1_nonneg by exact Hq.
    pose proof (Z.div2_odd q) as Eq. pose proof (Z.div2_nonneg q) as N.
    assert (P2 : 2 ^ Z.of_nat (S (S k)) = 2 * 2 ^ Z.of_nat (S k)).
    { rewrite (Nat2Z.inj_succ (S k)). apply Z.pow_succ_r. lia. }
    assert (P1 : 2 ^ Z.of_nat (S k) = 2 * 2 ^ Z.of_nat k).
    { rewrite (Nat2Z.inj_succ k). apply Z.pow_succ_r. lia. }
    assert (P0 : 0 < 2 ^ Z.of_nat k) by (apply Z.pow_pos_nonneg; lia).
    set (P := 2 ^ Z.of_nat k) in *.
    exists (Z.div2 q), (Z.b2z (Z.odd q) * 2 ^ Z.of_nat (S k) + rem).
    rewrite P2, P1 in *. 
    destruct (Z.odd q); cbn [Z.b2z] in *.
    + repeat split; try lia.
      f_equal.
      * symmetry. apply Z.leb_le. lia.
      * destruct (Z.leb_spec P rem), (Z.eqb_spec rem 0), (Z.eqb_spec rem P),
          (Z.eqb_spec (1 * (2 * P) + rem) 0), (Z.eqb_spec (1 * (2 * P) + rem) (2 * P));
          cbn; try reflexivity; lia.
    + repeat split; try lia.
      f_equal.
      * symmetry. apply Z.leb_gt. lia.
      * destruct (Z.leb_spec P rem), (Z.eqb_spec rem 0), (Z.eqb_spec rem P),
          (Z.eqb_spec (0 * (2 * P) + rem) 0), (Z.eqb_spec (0 * (2 * P) + rem) (2 * P));
          cbn; try reflexivity; lia.
Qed.

(** Shifting [p] bits out and rounding to nearest even yields a
    neighbour of the quotient at most half a unit away. *)
Lemma shr_round M p : 0 <= M ->
  let mrs := SpecFloat.iter_pos shr_1 p {| shr_m := M; shr_r := false; shr_s := false |} in
  let m2 := round_nearest_even (shr_m mrs) (loc_of_shr_record mrs) in
  exists q rem, M = 2 ^ Zpos p * q + rem /\ 0 <= q /\ 0 <= rem < 2 ^ Zpos p /\
    q <= m2 <= q + 1 /\ - 2 ^ Zpos p <= 2 * (2 ^ Zpos p * m2 - M) <= 2 ^ Zpos p.
Proof.
  intros HM mrs m2. subst m2 mrs. rewrite iter_pos_nat.
  destruct (Pos2Nat.is_succ p) as (k & Ek). rewrite Ek.
  destruct (shr_1_iter M k HM) as (q & rem & E & Hq & Hr & I). rewrite I.
  assert (Ep : Zpos p = Z.of_nat (S k)) by lia. rewrite Ep.
  assert (P1 : 2 ^ Z.of_nat (S k) = 2 * 2 ^ Z.of_nat k).
  { rewrite (Nat2Z.inj_succ k). apply Z.pow_succ_r. lia. }
  assert (P0 : 0 < 2 ^ Z.of_nat k) by (apply Z.pow_pos_nonneg; lia).
  set (P := 2 ^ Z.of_nat k) in *. rewrite P1 in *.
  exists q, rem. split; [exact E|]. split; [exact Hq|]. split; [exact Hr|].
  cbn [shr_m loc_of_shr_record].
  destruct (Z.leb_spec P rem), (Z.eqb_spec rem 0), (Z.eqb_spec rem P);
    cbn [negb andb round_nearest_even]; try lia.
  destruct (Z.even q); lia.
Qed.

Lemma fexp64 e : fexp prec emax e = Z.max (e - 53) (-1074).
Proof. reflexivity. Qed.

Lemma shr_fexp_noshift m e :
  fexp prec emax (Zdigits2 m + e) <= e ->
  shr_fexp prec emax m e loc_Exact = ({| shr_m := m; shr_r := false; shr_s := false |}, e).
Proof.
  intros H. unfold shr_fexp, shr. cbn [shr_record_of_loc].
  destruct (fexp prec emax (Zdigits2 m + e) - e) eqn:E; try reflexivity. lia.
Qed.

Lemma digits2_pos_le m k : 0 <= k -> Zpos m < 2 ^ k -> Zpos (digits2_pos m) <= k.
Proof.
  intros Hk H. pose proof (digits2_pos_bounds m) as [L _].
  destruct (Z_le_gt_dec (Zpos (digits2_pos m)) k) as [|G]; [assumption|exfalso].
  assert (2 ^ k <= 2 ^ (Zpos (digits2_pos m) - 1)) by (apply Z.pow_le_mono_r; lia).
  lia.
Qed.

(** [binary_round_aux] on an exact input that already sits at or above
    its target exponent keeps it. *)
Lemma binary_round_aux_noshift sx mx ex :
  fexp prec emax (Zpos (digits2_pos mx) + ex) <= ex ->
  binary_round_aux prec emax sx (Zpos mx) ex loc_Exact =
  if ex <=? 971 then S754_finite sx mx ex else S754_infinity sx.
Proof.
  intros H. unfold binary_round_aux.
  rewrite (shr_fexp_noshift (Zpos mx) ex) by exact H.
  cbn [shr_m loc_of_shr_record round_nearest_even].
  rewrite (shr_fexp_noshift (Zpos mx) ex) by exact H.
  reflexivity.
Qed.

(** [binary_round_aux] on an exact input below its target exponent [e0]:
    the mantissa is rounded to [m2] at [e0], and the result is zero, the
    float [m2 * 2^e0] (renormalised when [m2] reaches [2^53]) or an
    overflow. *)
Lemma binary_round_aux_shift sx mx ex :
  let e0 := fexp prec emax (Zpos (digits2_pos mx) + ex) in
  let res := binary_round_aux prec emax sx (Zpos mx) ex loc_Exact in
  ex < e0 ->
  exists m2 q rem,
    Zpos mx = 2 ^ (e0 - ex) * q + rem /\ 0 <= q /\ 0 <= rem < 2 ^ (e0 - ex) /\
    q <= m2 <= q + 1 /\
    - 2 ^ (e0 - ex) <= 2 * (2 ^ (e0 - ex) * m2 - Zpos mx) <= 2 ^ (e0 - ex) /\
    ((m2 = 0 /\ res = S754_zero sx) \/
     (0 < m2 < 2 ^ 53 /\
      res = if e0 <=? 971 then S754_finite sx (Z.to_pos m2) e0 else S754_infinity sx) \/
     (m2 = 2 ^ 53 /\
      res = if e0 + 1 <=? 971 then S754_finite sx (2 ^ 52)%positive (e0 + 1)
            else S754_infinity sx)).
Proof.
  intros e0 res Hlt.
  destruct (e0 - ex) as [|p|p] eqn:En; try lia.
  set (mrs := SpecFloat.iter_pos shr_1 p {| shr_m := Zpos mx; shr_r := false; shr_s := false |}).
  set (m2 := round_nearest_even (shr_m mrs) (loc_of_shr_record mrs)).
  assert (R : res =
    let '(mrs'', e'') := shr_fexp prec emax m2 e0 loc_Exact in
    match shr_m mrs'' with
    | Z0 => S754_zero sx
    | Zpos m => if e'' <=? 971 then S754_finite sx m e'' else S754_infinity sx
    | Zneg _ => S754_nan
    end).
  { subst res. unfold binary_round_aux. unfold shr_fexp at 1.
    cbn [shr_record_of_loc Zdigits2]. fold e0. unfold shr at 1. rewrite En.
    cbv beta iota. replace (ex + Zpos p) with e0 by lia. reflexivity. }
  clearbody res.
  destruct (shr_round (Zpos mx) p ltac:(lia)) as (q & rem & E & Hq & Hr & Hm & Hn).
  fold mrs in Hm, Hn. fold m2 in Hm, Hn.
  exists m2, q, rem. repeat (split; [assumption || lia|]).
  assert (He0 : -1074 <= e0) by (subst e0; rewrite fexp64; lia).
  assert (Hq53 : q < 2 ^ 53).
  { pose proof (digits2_pos_bounds mx) as [_ U].
    assert (2 ^ Zpos (digits2_pos mx) <= 2 ^ (53 + Zpos p)).
    { apply Z.pow_le_mono_r; [lia|]. subst e0. rewrite fexp64 in En. lia. }
    rewrite Z.pow_add_r in H by lia.
    assert (0 < 2 ^ Zpos p) by (apply Z.pow_pos_nonneg; lia).
    nia. }
  destruct (Z.eq_dec m2 0) as [Z0|NZ].
  { left. split; [exact Z0|]. rewrite R, Z0.
    rewrite shr_fexp_noshift; [reflexivity|]. cbn [Zdigits2]. rewrite fexp64. lia. }
  right. destruct (Z.eq_dec m2 (2 ^ 53)) as [E53|N53].
  { right. split; [exact E53|]. rewrite R, E53.
    unfold shr_fexp, shr. cbn [shr_record_of_loc].
    replace (fexp prec emax (Zdigits2 (2 ^ 53) + e0) - e0) with 1
      by (rewrite fexp64; change (Zdigits2 (2 ^ 53)) with 54; lia).
    reflexivity. }
  left. split; [lia|].
  rewrite R. destruct m2 as [|m2'|m2'] eqn:Em; try lia.
  rewrite shr_fexp_noshift; [reflexivity|].
  cbn [Zdigits2]. rewrite fexp64.
  pose proof (digits2_pos_le m2' 53 ltac:(lia) ltac:(lia)). lia.
Qed.

Lemma pw_le e1 e2 : -2148 <= e1 <= e2 -> pw e1 <= pw e2.
Proof. intros H. unfold pw. apply Z.pow_le_mono_r; lia. Qed.

Lemma pw_double e1 e2 : -2148 <= e1 < e2 -> 2 * pw e1 <= pw e2.
Proof.
  intros H. replace e2 with (e1 + (e2 - e1)) by lia. rewrite pw_add by lia.
  assert (2 ^ 1 <= 2 ^ (e2 - e1)) by (apply Z.pow_le_mono_r; lia).
  pose proof (pw_pos e1 ltac:(lia)). change (2 ^ 1) with 2 in *. nia.
Qed.

(** What [valid_binary] says of a finite double. *)
Lemma valid_finite s m e :
  valid_binary (S754_finite s m e) = true ->
  -1074 <= e <= 971 /\ Zpos m < 2 ^ 53 /\ (-1074 < e -> 2 ^ 52 <= Zpos m).
Proof.
  cbn [SpecFloat.valid_binary]. unfold bounded, canonical_mantissa. rewrite fexp64.
  intros H. apply andb_true_iff in H. destruct H as [C B].
  apply Z.eqb_eq in C. apply Z.leb_le in B. change (emax - prec) with 971 in B.
  pose proof (digits2_pos_bounds m) as [L U].
  set (d := Zpos (digits2_pos m)) in *.
  split; [lia|]. split.
  - assert (2 ^ d <= 2 ^ 53) by (apply Z.pow_le_mono_r; lia). lia.
  - intros He. assert (d = 53) by lia. subst d. rewrite H in L. exact L.
Qed.

Lemma finite_exp_lt m1 e1 m2 e2 :
  valid_binary (S754_finite false m1 e1) = true ->
  valid_binary (S754_finite false m2 e2) = true ->
  e1 < e2 -> Zpos m1 * pw e1 < Zpos m2 * pw e2.
Proof.
  intros V1 V2 H. apply valid_finite in V1, V2.
  destruct V1 as (B1 & U1 & _), V2 as (B2 & _ & L2).
  pose proof (pw_double e1 e2 ltac:(lia)). pose proof (pw_pos e1 ltac:(lia)).
  specialize (L2 ltac:(lia)). nia.
Qed.

(** [SFltb] on valid positive doubles is the order of their values. *)
Lemma SFltb_finite m1 e1 m2 e2 :
  valid_binary (S754_finite false m1 e1) = true ->
  valid_binary (S754_finite false m2 e2) = true ->
  SFltb (S754_finite false m1 e1) (S754_finite false m2 e2) = true ->
  Zpos m1 * pw e1 < Zpos m2 * pw e2.
Proof.
  intros V1 V2. unfold SFltb. cbn [SFcompare].
  destruct (Z.compare_spec e1 e2) as [E|E|E]; try discriminate.
  - subst e2. change (Pos.compare_cont Eq m1 m2) with (Pos.compare m1 m2).
    destruct (Pos.compare_spec m1 m2) as [F|F|F]; try discriminate. intros _.
    apply valid_finite in V1. pose proof (pw_pos e1 ltac:(lia)). nia.
  - intros _. apply finite_exp_lt; assumption.
Qed.

(** The shifted rounding, on the common scale. *)
Lemma round_shift_value sx mx ex :
  let e0 := fexp prec emax (Zpos (digits2_pos mx) + ex) in
  let res := binary_round_aux prec emax sx (Zpos mx) ex loc_Exact in
  let Xs := Zpos mx * pw ex in
  -2148 <= ex -> ex < e0 ->
  exists m2, 0 <= m2 <= 2 ^ 53 /\ -1074 <= e0 /\
    (-1074 < e0 -> 2 ^ 52 <= m2 /\ 2 ^ 52 * pw e0 <= Xs) /\
    - pw e0 <= 2 * (m2 * pw e0 - Xs) <= pw e0 /\
    ((m2 = 0 /\ res = S754_zero sx) \/
     (0 < m2 < 2 ^ 53 /\
      res = if e0 <=? 971 then S754_finite sx (Z.to_pos m2) e0 else S754_infinity sx) \/
     (m2 = 2 ^ 53 /\
      res = if e0 + 1 <=? 971 then S754_finite sx (2 ^ 52)%positive (e0 + 1)
            else S754_infinity sx)).
Proof.
  intros e0 res Xs Hex Hlt.
  destruct (binary_round_aux_shift sx mx ex Hlt) as (m2 & q & rem & E & Hq & Hr & Hm & Hn & Hres).
  fold e0 in E, Hr, Hn, Hres. fold res in Hres.
  assert (Ee0 : e0 = Z.max (Zpos (digits2_pos mx) + ex - 53) (-1074)) by apply fexp64.
  clearbody e0 res.
  assert (He0 : -1074 <= e0) by lia.
  assert (Epw : pw e0 = 2 ^ (e0 - ex) * pw ex).
  { rewrite <- pw_add by lia. f_equal. lia. }
  assert (HN : 0 < 2 ^ (e0 - ex)) by (apply Z.pow_pos_nonneg; lia).
  pose proof (pw_pos ex Hex) as HP.
  set (N := 2 ^ (e0 - ex)) in *. set (P := pw ex) in *.
  assert (H53 : 0 < 2 ^ 53) by reflexivity.
  exists m2. split.
  { destruct Hres as [[Z _]|[[Z _]|[Z _]]]; lia. }
  split; [exact He0|]. split.
  { intros Hgt.
    assert (En : e0 - ex = Zpos (digits2_pos mx) - 53) by lia.
    pose proof (digits2_pos_bounds mx) as [L _].
    replace (Zpos (digits2_pos mx) - 1) with (52 + (e0 - ex)) in L by lia.
    rewrite Z.pow_add_r in L by lia. fold N in L.
    assert (Hq52 : 2 ^ 52 <= q) by nia.
    split; [lia|]. subst Xs. rewrite Epw. fold P. nia. }
  split.
  { subst Xs. rewrite Epw. fold P. nia. }
  exact Hres.
Qed.

Lemma grid_multiple mr er e0 :
  -2148 <= e0 <= er -> Zpos mr * pw er = (Zpos mr * 2 ^ (er - e0)) * pw e0.
Proof.
  intros H. replace er with (e0 + (er - e0)) at 1 by lia. rewrite pw_add by lia. ring.
Qed.

Lemma below_grid mr er e0 :
  valid_binary (S754_finite false mr er) = true -> er < e0 ->
  Zpos mr * pw er < 2 ^ 52 * pw e0.
Proof.
  intros V H. apply valid_finite in V. destruct V as (B & U & _).
  pose proof (pw_double er e0 ltac:(lia)). pose proof (pw_pos er ltac:(lia)).
  change (2 ^ 53) with (2 * 2 ^ 52) in U. assert (0 < 2 ^ 52) by reflexivity. nia.
Qed.

(** A double above the rounded value is at least one unit above it, so
    the exact value is no nearer to it than to the rounded one. *)
Lemma neighbor_core m2 e0 Xs mr er :
  valid_binary (S754_finite false mr er) = true ->
  -1074 <= e0 -> (-1074 < e0 -> 2 ^ 52 <= m2 /\ 2 ^ 52 * pw e0 <= Xs) ->
  - pw e0 <= 2 * (m2 * pw e0 - Xs) <= pw e0 ->
  m2 * pw e0 < Zpos mr * pw er ->
  2 * Xs <= m2 * pw e0 + Zpos mr * pw er.
Proof.
  intros V He0 Hn Hr Hlt. pose proof (pw_pos e0 ltac:(lia)) as HP.
  destruct (Z_lt_le_dec er e0) as [L|L].
  - pose proof (below_grid mr er e0 V L). apply valid_finite in V.
    destruct (Hn ltac:(lia)) as [Hm _].
    assert (2 ^ 52 * pw e0 <= m2 * pw e0) by (apply Z.mul_le_mono_nonneg_r; lia). lia.
  - rewrite (grid_multiple mr er e0) in * by lia.
    set (j := Zpos mr * 2 ^ (er - e0)) in *.
    assert (m2 < j) by (apply (Z.mul_lt_mono_pos_r (pw e0)); assumption).
    assert ((m2 + 1) * pw e0 <= j * pw e0) by (apply Z.mul_le_mono_nonneg_r; lia).
    lia.
Qed.

(** A double at or above the exact value is at or above the rounded
    one. *)
Lemma monotone_core m2 e0 Xs mr er :
  valid_binary (S754_finite false mr er) = true ->
  -1074 <= e0 -> (-1074 < e0 -> 2 ^ 52 <= m2 /\ 2 ^ 52 * pw e0 <= Xs) ->
  - pw e0 <= 2 * (m2 * pw e0 - Xs) <= pw e0 ->
  Xs <= Zpos mr * pw er ->
  m2 * pw e0 <= Zpos mr * pw er.
Proof.
  intros V He0 Hn Hr Hle. pose proof (pw_pos e0 ltac:(lia)) as HP.
  destruct (Z_lt_le_dec er e0) as [L|L].
  - pose proof (below_grid mr er e0 V L). apply valid_finite in V.
    destruct (Hn ltac:(lia)) as [_ Hx]. lia.
  - rewrite (grid_multiple mr er e0) in * by lia.
    set (j := Zpos mr * 2 ^ (er - e0)) in *.
    assert ((m2 - 1) * pw e0 < j * pw e0) by lia.
    assert (m2 - 1 < j) by (apply (Z.mul_lt_mono_pos_r (pw e0)); assumption).
    apply Z.mul_le_mono_nonneg_r; lia.
Qed.

Lemma round_up_neighbor mx ex mr er :
  let res := binary_round_aux prec emax false (Zpos mx) ex loc_Exact in
  let Xs := Zpos mx * pw ex in
  -2148 <= ex ->
  valid_binary (S754_finite false mr er) = true ->
  res = S754_infinity false \/
  ((res = S754_zero false \/ exists m3 e3, res = S754_finite false m3 e3) /\
   (SFval res < Zpos mr * pw er -> 2 * Xs <= SFval res + Zpos mr * pw er)).
Proof.
  intros res Xs Hex V.
  destruct (Z_lt_le_dec ex (fexp prec emax (Zpos (digits2_pos mx) + ex))) as [L|L].
  - destruct (round_shift_value false mx ex Hex L) as (m2 & Hm & He0 & Hn & Hr & Hres).
    fold res Xs in Hn, Hr, Hres.
    set (e0 := fexp prec emax (Zpos (digits2_pos mx) + ex)) in *. clearbody e0 res.
    pose proof (neighbor_core m2 e0 Xs mr er V He0 Hn Hr) as K.
    destruct Hres as [[Z R]|[[Z R]|[Z R]]]; subst res.
    + right. split; [now left|]. subst m2. cbn [SFval]. exact K.
    + destruct (e0 <=? 971); [right|now left]. split; [right; eauto|].
      cbn [SFval]. rewrite Z2Pos.id by lia. rewrite Z.mul_1_l. exact K.
    + destruct (e0 + 1 <=? 971); [right|now left]. split; [right; eauto|].
      cbn [SFval]. rewrite Z.mul_1_l.
      replace (Zpos (2 ^ 52) * pw (e0 + 1)) with (m2 * pw e0); [exact K|].
      rewrite pw_add by lia. subst m2. change (2 ^ 1) with 2.
      change (2 ^ 53) with (2 ^ 52 * 2). change (Zpos (2 ^ 52)) with (2 ^ 52). ring.
  - subst res. rewrite binary_round_aux_noshift by exact L.
    destruct (ex <=? 971); [right|now left]. split; [right; eauto|].
    cbn [SFval]. rewrite Z.mul_1_l. fold Xs. lia.
Qed.

Lemma SFltb_zero_r s m e : SFltb (S754_finite false m e) (S754_zero s) = false.
Proof. reflexivity. Qed.

Lemma finite_below_overflow m e :
  valid_binary (S754_finite false m e) = true ->
  Zpos m * pw e < 2 ^ 53 * pw 971.
Proof.
  intros V. apply valid_finite in V. destruct V as (B & U & _).
  pose proof (pw_le e 971 ltac:(lia)). pose proof (pw_pos e ltac:(lia)). nia.
Qed.

Lemma round_monotone mx ex mr er :
  let res := binary_round_aux prec emax false (Zpos mx) ex loc_Exact in
  -2148 <= ex <= 971 ->
  valid_binary (S754_finite false mr er) = true ->
  valid_binary res = true ->
  SFltb (S754_finite false mr er) res = true ->
  Zpos mr * pw er < Zpos mx * pw ex.
Proof.
  intros res Hex V Vres Hlt.
  destruct (Z_lt_le_dec ex (fexp prec emax (Zpos (digits2_pos mx) + ex))) as [L|L].
  - destruct (Z_lt_le_dec (Zpos mr * pw er) (Zpos mx * pw ex)) as [|Hle]; [assumption|exfalso].
    destruct (round_shift_value false mx ex ltac:(lia) L) as (m2 & Hm & He0 & Hn & Hr & Hres).
    fold res in Hres.
    set (e0 := fexp prec emax (Zpos (digits2_pos mx) + ex)) in *. clearbody e0 res.
    pose proof (monotone_core m2 e0 _ mr er V He0 Hn Hr Hle) as K.
    pose proof (finite_below_overflow mr er V) as Hmax.
    pose proof (pw_pos e0 ltac:(lia)) as HP.
    destruct Hres as [[Z R]|[[Z R]|[Z R]]]; subst res.
    + discriminate.
    + destruct (Z.leb_spec e0 971) as [B|B].
      * apply SFltb_finite in Hlt; [|assumption|assumption].
        rewrite Z2Pos.id in Hlt by lia. lia.
      * destruct (Hn ltac:(lia)) as [Hm2 _].
        pose proof (pw_double 971 e0 ltac:(lia)).
        change (2 ^ 53) with (2 ^ 52 * 2) in Hmax. nia.
    + destruct (Z.leb_spec (e0 + 1) 971) as [B|B].
      * apply SFltb_finite in Hlt; [|assumption|assumption].
        rewrite pw_add in Hlt by lia. subst m2. change (2 ^ 1) with 2 in Hlt.
        change (2 ^ 53) with (2 ^ 52 * 2) in K. change (Zpos (2 ^ 52)) with (2 ^ 52) in Hlt. lia.
      * pose proof (pw_le 971 e0 ltac:(lia)). subst m2. nia.
  - subst res. rewrite binary_round_aux_noshift in Hlt, Vres by exact L.
    destruct (Z.leb_spec ex 971); [|lia].
    apply SFltb_finite in Hlt; assumption.
Qed.

Lemma iter_xO_value m d : Zpos (Pos.iter xO m d) = Zpos m * 2 ^ Zpos d.
Proof.
  induction d as [|d IH] using Pos.peano_ind.
  - cbn [Pos.iter]. change (2 ^ 1) with 2. lia.
  - rewrite Pos.iter_succ, Pos2Z.inj_succ, Z.pow_succ_r by lia.
    rewrite Pos2Z.inj_xO, IH. ring.
Qed.

Lemma shl_align_spec mx ex ex' :
  exists mz, shl_align mx ex ex' = (mz, Z.min ex ex') /\
             Zpos mz = Zpos mx * 2 ^ (ex - Z.min ex ex').
Proof.
  unfold shl_align. destruct (ex' - ex) as [|d|d] eqn:E.
  - exists mx. replace (Z.min ex ex') with ex by lia. rewrite Z.sub_diag. split; [reflexivity|cbn; lia].
  - exists mx. replace (Z.min ex ex') with ex by lia. rewrite Z.sub_diag. split; [reflexivity|cbn; lia].
  - exists (Pos.iter xO mx d). replace (Z.min ex ex') with ex' by lia.
    split; [reflexivity|]. rewrite iter_xO_value. f_equal. f_equal. lia.
Qed.

Lemma shl_align_value mx ex ex' mz ez :
  -2148 <= ex -> -2148 <= ex' ->
  shl_align mx ex ex' = (mz, ez) ->
  ez = Z.min ex ex' /\ Zpos mz * pw ez = Zpos mx * pw ex.
Proof.
  intros H1 H2 E. destruct (shl_align_spec mx ex ex') as (mz' & E' & V).
  rewrite E in E'. inversion E'; subst mz' ez. split; [reflexivity|].
  assert (P : pw ex = 2 ^ (ex - Z.min ex ex') * pw (Z.min ex ex')).
  { rewrite <- pw_add by lia. f_equal. lia. }
  rewrite V, P. ring.
Qed.

Lemma round_negative_not_above sx mx ex mr er :
  sx = true ->
  SFltb (S754_finite false mr er) (binary_round_aux prec emax sx (Zpos mx) ex loc_Exact) = false.
Proof.
  intros ->.
  destruct (Z_lt_le_dec ex (fexp prec emax (Zpos (digits2_pos mx) + ex))) as [L|L].
  - destruct (binary_round_aux_shift true mx ex L) as (m2 & q & rem & _ & _ & _ & _ & _ & Hres).
    destruct Hres as [[_ R]|[[_ R]|[_ R]]]; rewrite R; try reflexivity.
    + destruct (_ <=? 971); reflexivity.
    + destruct (_ <=? 971); reflexivity.
  - rewrite binary_round_aux_noshift by exact L. destruct (_ <=? 971); reflexivity.
Qed.

(** A positive double below the computed difference of two positive
    doubles is below their exact difference. *)
Lemma SFsub_above mh eh m3 e3 mr er :
  valid_binary (S754_finite false mh eh) = true ->
  valid_binary (S754_finite false m3 e3) = true ->
  valid_binary (S754_finite false mr er) = true ->
  valid_binary (SF64sub (S754_finite false mh eh) (S754_finite false m3 e3)) = true ->
  SFltb (S754_finite false mr er)
        (SF64sub (S754_finite false mh eh) (S754_finite false m3 e3)) = true ->
  Zpos mr * pw er < Zpos mh * pw eh - Zpos m3 * pw e3.
Proof.
  intros VH VT VR VU Hlt.
  pose proof (valid_finite _ _ _ VH) as (BH & _ & _).
  pose proof (valid_finite _ _ _ VT) as (BT & _ & _).
  unfold SF64sub, SFsub in VU, Hlt. cbn [cond_Zopp] in VU, Hlt.
  set (ez := Z.min eh e3) in *.
  destruct (shl_align mh eh ez) as [a ea] eqn:Ea.
  destruct (shl_align m3 e3 ez) as [b eb] eqn:Eb.
  apply shl_align_value in Ea, Eb; try lia.
  destruct Ea as [Ea Va], Eb as [Eb Vb].
  replace ea with ez in Va by lia. replace eb with ez in Vb by lia.
  cbn [fst] in VU, Hlt.
  assert (ED : (Zpos a - Zpos b) * pw ez = Zpos mh * pw eh - Zpos m3 * pw e3) by lia.
  destruct (Zpos a - Zpos b) as [|D|D] eqn:EDv; cbn [binary_normalize] in VU, Hlt.
  - discriminate.
  - unfold binary_round in VU, Hlt.
    destruct (shl_align D ez (fexp prec emax (Zpos (digits2_pos D) + ez))) as [mz ez'] eqn:Ez.
    apply shl_align_value in Ez; try (rewrite ?fexp64; lia).
    destruct Ez as [Ez Vz]. rewrite fexp64 in Ez.
    rewrite <- ED, <- Vz.
    apply round_monotone; try assumption. lia.
  - unfold binary_round in Hlt.
    destruct (shl_align D ez _) as [mz ez'].
    rewrite round_negative_not_above in Hlt by reflexivity. discriminate.
Qed.

Lemma round_positive_form mx ex :
  -2148 <= ex ->
  let res := binary_round_aux prec emax false (Zpos mx) ex loc_Exact in
  res = S754_infinity false \/ res = S754_zero false \/
  exists m3 e3, res = S754_finite false m3 e3.
Proof.
  intros Hex res.
  destruct (round_up_neighbor mx ex (2 ^ 52) 0 Hex eq_refl) as [E|[E _]]; auto.
Qed.

(** A factor of one half or more at least halves. *)
Lemma half_product mh eh mt et :
  -1074 <= eh -> 2 ^ 52 <= Zpos mt -> -53 <= et ->
  Zpos mh * pw eh <= 2 * (Zpos (mh * mt) * pw (eh + et)).
Proof.
  intros Heh Hmt Het. rewrite Pos2Z.inj_mul.
  replace (eh + et) with ((eh - 53) + (et + 53)) by lia.
  replace eh with ((eh - 53) + 53) at 1 by lia.
  rewrite !pw_add by lia.
  pose proof (pw_pos (eh - 53) ltac:(lia)) as HP.
  assert (HE : 1 <= 2 ^ (et + 53)).
  { change 1 with (2 ^ 0). apply Z.pow_le_mono_r; lia. }
  change (2 ^ 53) with (2 * 2 ^ 52).
  set (P := pw (eh - 53)) in *. set (N := 2 ^ (et + 53)) in *.
  assert (H52 : 0 < 2 ^ 52) by reflexivity. set (c := 2 ^ 52) in *.
  assert (c * 1 <= Zpos mt * N) by (apply Z.mul_le_mono_nonneg; lia).
  assert (0 <= Zpos mh * P) by nia.
  replace (2 * (Zpos mh * Zpos mt * (N * P))) with (2 * (Zpos mt * N) * (Zpos mh * P)) by ring.
  replace (Zpos mh * (2 * c * P)) with (2 * (c * 1) * (Zpos mh * P)) by ring.
  apply Z.mul_le_mono_nonneg_r; lia.
Qed.

(** No double lies strictly between [h * th] and [h - h * th], both as
    computed, when [th] is one half or more: finite case. *)
Lemma center_empty_finite mh eh mt et R :
  let H := S754_finite false mh eh in
  let T := S754_finite false mt et in
  valid_binary H = true -> valid_binary T = true -> valid_binary R = true ->
  valid_binary (SF64mul H T) = true ->
  valid_binary (SF64sub H (SF64mul H T)) = true ->
  2 ^ 52 <= Zpos mt -> -53 <= et ->
  SFltb (SF64mul H T) R = true ->
  SFltb R (SF64sub H (SF64mul H T)) = true -> False.
Proof.
  intros H T VH VT VR Vt Vu Hmt Het L1 L2. subst H T.
  pose proof (valid_finite _ _ _ VH) as (BH & _ & _).
  pose proof (valid_finite _ _ _ VT) as (BT & _ & _).
  pose proof (half_product mh eh mt et ltac:(lia) Hmt Het) as Hhalf.
  unfold SF64mul in *. cbn [SFmul xorb] in *.
  set (t := binary_round_aux prec emax false (Zpos (mh * mt)) (eh + et) loc_Exact) in *.
  pose proof (round_positive_form (mh * mt) (eh + et) ltac:(lia)) as Form. fold t in Form.
  destruct R as [s|s| |s mr er].
  - destruct Form as [E|[E|(m3 & e3 & E)]]; rewrite E in L1; discriminate.
  - destruct s.
    + destruct Form as [E|[E|(m3 & e3 & E)]]; rewrite E in L1; discriminate.
    + destruct (SF64sub (S754_finite false mh eh) t) as [?|[|]| |[|] ? ?]; discriminate.
  - destruct Form as [E|[E|(m3 & e3 & E)]]; rewrite E in L1; discriminate.
  - destruct s.
    { destruct Form as [E|[E|(m3 & e3 & E)]]; rewrite E in L1; discriminate. }
    pose proof (valid_finite _ _ _ VR) as (BR & _ & _).
    pose proof (pw_pos er ltac:(lia)) as HPr.
    destruct (round_up_neighbor (mh * mt) (eh + et) mr er ltac:(lia) VR) as [E|[F N]];
      fold t in E || fold t in F, N.
    + rewrite E in L1. discriminate.
    + destruct F as [E|(m3 & e3 & E)]; rewrite E in *; cbn [SFval] in N.
      * change (SF64sub (S754_finite false mh eh) (S754_zero false))
          with (S754_finite false mh eh) in L2.
        apply SFltb_finite in L2; [|assumption|assumption].
        specialize (N ltac:(nia)). lia.
      * apply SFltb_finite in L1; [|assumption|assumption].
        apply SFsub_above in L2; try assumption.
        rewrite Z.mul_1_l in N. specialize (N L1). lia.
Qed.

Lemma SFleb_half mt et :
  valid_binary (S754_finite false mt et) = true ->
  SFleb (S754_finite false (2 ^ 52) (-53)) (S754_finite false mt et) = true ->
  2 ^ 52 <= Zpos mt /\ -53 <= et.
Proof.
  intros V. unfold SFleb. cbn [SFcompare].
  destruct (Z.compare_spec (-53) et) as [E|E|E]; try discriminate.
  - subst et. change (Pos.compare_cont Eq (2 ^ 52) mt) with (Pos.compare (2 ^ 52) mt).
    destruct (Pos.compare_spec (2 ^ 52) mt) as [F|F|F]; try discriminate; intros _.
    + subst mt. split; [reflexivity|lia].
    + split; [|lia]. change (2 ^ 52) with (Zpos (2 ^ 52)). lia.
  - intros _. apply valid_finite in V. destruct V as (_ & _ & L). split; [apply L|]; lia.
Qed.

Lemma center_empty_spec H T R :
  valid_binary H = true -> valid_binary T = true -> valid_binary R = true ->
  valid_binary (SF64mul H T) = true ->
  valid_binary (SF64sub H (SF64mul H T)) = true ->
  SFleb (S754_zero false) H = true ->
  SFleb (S754_finite false (2 ^ 52) (-53)) T = true ->
  SFltb (SF64mul H T) R = true ->
  SFltb R (SF64sub H (SF64mul H T)) = true -> False.
Proof.
  intros VH VT VR Vt Vu HH HT L1 L2.
  destruct H as [sh|sh| |sh mh eh], T as [st|st| |st mt et]; try discriminate.
  all: try (destruct sh); try (destruct st); try discriminate.
  all: try (destruct R as [[|]|[|]| |[|] ? ?]; discriminate).
  destruct (SFleb_half mt et VT HT) as [Hmt Het].
  exact (center_empty_finite mh eh mt et R VH VT VR Vt Vu Hmt Het L1 L2).
Qed.

(** The same on the primitive floats, infinities and zeros included. *)
Lemma wide_threshold_empty (h th r : float) :
  (0.5 <=? th)%float = true -> (0 <=? h)%float = true ->
  ((h * th <? r) && (r <? h - h * th))%float = false.
Proof.
  intros Hth Hh.
  destruct ((h * th <? r)%float) eqn:L1; [|reflexivity].
  destruct ((r <? h - h * th)%float) eqn:L2; [|reflexivity]. exfalso.
  rewrite FloatAxioms.leb_spec in Hth, Hh. rewrite FloatAxioms.ltb_spec in L1, L2.
  rewrite sub_spec in L2. rewrite mul_spec in L1, L2.
  pose proof (Prim2SF_valid (h * th)%float) as Vt.
  pose proof (Prim2SF_valid (h - h * th)%float) as Vu.
  rewrite sub_spec in Vu. rewrite mul_spec in Vt, Vu.
  exact (center_empty_spec _ _ _ (Prim2SF_valid h) (Prim2SF_valid th) (Prim2SF_valid r)
           Vt Vu Hh Hth L1 L2).
Qed.


Section ThresholdFacts.
Variable ItemData : Type.
Variable config : Sortable.Config ItemData.
Hypothesis Hwide : (0.5 <=? Sortable.dropZoneThreshold config)%float = true.

Lemma wide_threshold_no_center e rect :
  (0 <=? Rect.height rect)%float = true -> Sortable.inCenterZone config e rect = false.
Proof.
  intros Hh. unfold Sortable.inCenterZone. cbv zeta.
  apply wide_threshold_empty; assumption.
Qed.

Lemma wide_threshold_no_target e draggedEl draggedData items :
  Forall (fun t => (0 <=? Rect.height (Element.rect t))%float = true) items ->
  Sortable.firstDropTarget config e draggedEl draggedData items = Some None \/
  Sortable.firstDropTarget config e draggedEl draggedData items = None.
Proof.
  induction 1 as [|x r Hx _ IH]; simpl; [now left|].
  destruct (Sortable.dropsInto config e draggedEl draggedData x) as [[|]|] eqn:E.
  - apply dropsInto_true in E. destruct E as (_ & _ & _ & E & _).
    rewrite (wide_threshold_no_center e _ Hx) in E. discriminate.
  - exact IH.
  - now right.
Qed.

Lemma wide_threshold_sortEvents moves : forall st st' evs,
  Forall (fun m => Forall (fun t => (0 <=? Rect.height (Element.rect t))%float = true) (snd m)) moves ->
  Sortable._hoverTargetEl st = None ->
  Sortable.run config (sortEvents moves) st = Some (st', evs) ->
  Sortable._hoverTargetEl st' = None.
Proof.
  induction moves as [|m r IH]; intros st st' evs Hf Hn H; simpl in H.
  - inversion H; subst. exact Hn.
  - inversion Hf as [|? ? Hm Hr]; subst.
    destruct (Sortable.handleSort config (fst m) (snd m) st) as [s1|] eqn:E; [|discriminate].
    destruct (Sortable.run config (sortEvents r) s1) as [[s2 e2]|] eqn:R; [|discriminate].
    assert (Hn1 : Sortable._hoverTargetEl s1 = None).
    { unfold Sortable.handleSort in E.
      destruct (Sortable._isActive st); [|inversion E; subst; exact Hn].
      destruct (Sortable._draggedEl st) as [d|]; [|inversion E; subst; exact Hn].
      destruct (Sortable._draggedData st) as [dd|]; [|inversion E; subst; exact Hn].
      destruct (wide_threshold_no_target (fst m) d dd (snd m) Hm) as [F|F];
        rewrite F in E; [|discriminate].
      inversion E; subst. reflexivity. }
    pose proof (IH s1 s2 e2 Hr Hn1 R) as K.
    inversion H; subst. exact K.
Qed.

End ThresholdFacts.

(** X11. With a drop-zone threshold of one half or more the center zone
    of every row of non-negative height is empty, in the doubles the code
    computes: whatever the pointer does during the gesture, no hover
    target is chosen and the gesture ends in [onReorder], never in
    [onDropInto]. *)
Theorem threshold_of_half_turns_nesting_off :
  forall (ItemData : Type) (config : Sortable.Config ItemData)
         el moves el' prev next st0 st evs,
    (0.5 <=? Sortable.dropZoneThreshold config)%float = true ->
    Forall (fun m => Forall (fun t => (0 <=? Rect.height (Element.rect t))%float = true) (snd m)) moves ->
    Sortable.run config
      (Sortable.Start el :: sortEvents moves ++ [Sortable.Stop el' prev next]) st0
    = Some (st, evs) ->
    evs = [ Sortable.OnDragStart el (Sortable.getItemData config el);
            Sortable.OnDragEnd el' (Sortable.getItemData config el');
            Sortable.OnReorder el' (Sortable.getItemData config el') prev next
              (option_map (Sortable.getItemData config) prev)
              (option_map (Sortable.getItemData config) next) ].
Proof.
  intros ItemData config el moves el' prev next st0 st evs Hwide Hf H.
  change (Sortable.Start el :: sortEvents moves ++ [Sortable.Stop el' prev next])
    with ([Sortable.Start el] ++ sortEvents moves ++ [Sortable.Stop el' prev next]) in H.
  rewrite !run_app in H.
  set (s1 := {| Sortable._isActive := true; Sortable._hoverTargetEl := None;
                Sortable._draggedEl := Some el;
                Sortable._draggedData := Some (Sortable.getItemData config el) |}) in *.
  change (Sortable.run config [Sortable.Start el] st0)
    with (Some (s1, [Sortable.OnDragStart el (Sortable.getItemData config el)])) in H.
  cbv beta iota in H. rewrite run_app in H.
  assert (Hd : draggingOf config el s1) by (unfold draggingOf; simpl; auto).
  assert (Hh : hoverChecked config s1) by (intros t Ht; discriminate).
  destruct (Sortable.run config (sortEvents moves) s1) as [[s2 e2]|] eqn:R; [|discriminate].
  destruct (sortEvents_keep _ config el moves _ _ _ Hd Hh R) as ((Ha & _ & _) & _ & ->).
  pose proof (wide_threshold_sortEvents _ config Hwide moves s1 s2 [] Hf eq_refl R) as Hn.
  simpl in H. unfold Sortable.handleDragStop in H. rewrite Ha, Hn in H. simpl in H.
  inversion H; subst. reflexivity.
Qed.

Lemma threshold_of_half_turns_nesting_off_witness :
  [ Sortable.OnDragStart Sample_rowParent (TaskList.getItemData Sample_rowParent);
    Sortable.OnDragEnd Sample_rowParent (TaskList.getItemData Sample_rowParent);
    Sortable.OnReorder Sample_rowParent (TaskList.getItemData Sample_rowParent)
      (Some Sample_rowChild) None (Some (TaskList.getItemData Sample_rowChild)) None ]
  = [ Sortable.OnDragStart Sample_rowParent
        (Sortable.getItemData Sample_halfConfig Sample_rowParent);
      Sortable.OnDragEnd Sample_rowParent
        (Sortable.getItemData Sample_halfConfig Sample_rowParent);
      Sortable.OnReorder Sample_rowParent
        (Sortable.getItemData Sample_halfConfig Sample_rowParent)
        (Some Sample_rowChild) None
        (option_map (Sortable.getItemData Sample_halfConfig) (Some Sample_rowChild))
        (option_map (Sortable.getItemData Sample_halfConfig) None) ].
Proof.
  refine (threshold_of_half_turns_nesting_off TaskList.ItemData Sample_halfConfig
            Sample_rowParent
            [({| Sortable.pageX := 100; Sortable.pageY := 60 |},
              [Sample_rowParent; Sample_rowChild])]
            Sample_rowParent (Some Sample_rowChild) None
            Sortable.initialState Sortable.initialState _ _ _ eq_refl).
  - reflexivity.
  - repeat constructor.
Defined.

(** X12. [flattenTaskTree(buildTaskTree(tasks), expandedTasks)] on an
    array without duplicate ids returns within a recursion depth of
    [length tasks + 1], whatever the parent references are.  It lists no
    task twice.  Every entry is a task of the array with the ids of the
    tasks filed under it as [children] (in array order), the flags
    [hasChildren] and [isExpanded] computed from them, and its [depth]; and
    a task is listed at a depth exactly when it is a root (no parent, an
    empty parent id, or a parent id that names no task) and the depth is 0,
    or its parent is listed one level higher and is expanded. *)
Theorem flatten_lists_each_shown_task_once :
  forall tasks expandedTasks,
    NoDup (map Task.id tasks) ->
    exists items,
      TaskHelpers.flattenTaskTree (S (List.length tasks))
        (TaskHelpers.buildTaskTree tasks) expandedTasks = Some items /\
      NoDup (map (fun i => Task.id (itemTask i)) items) /\
      (forall i, In i items ->
         i = itemOf tasks expandedTasks (itemTask i) (TaskHelpers.Item.depth i)) /\
      (forall t d,
         In (itemOf tasks expandedTasks t d) items <-> shownAt tasks expandedTasks t d).
Proof.
  intros tasks ex Hnd. unfold TaskHelpers.flattenTaskTree.
  rewrite (buildTaskTree_roots tasks Hnd).
  set (m := TaskHelpers.nodes (TaskHelpers.buildTaskTree tasks)).
  assert (Hm : forall t, In t tasks ->
            TaskHelpers.mapGet (Task.id t) m
            = Some {| TaskHelpers.Node.task := t;
                      TaskHelpers.Node.children :=
                        map Task.id (treeChildren tasks (Task.id t)) |})
    by (intros t Ht; now apply buildTaskTree_node).
  assert (Hroots : forall n, In n (treeRoots tasks) -> shownAt tasks ex n 0)
    by (intros n Hn; now apply shown_here).
  assert (Hincl : incl (treeRoots tasks) tasks)
    by (intros x Hx; now apply In_treeRoots in Hx).
  destruct (traverse_returns tasks ex m Hnd Hm (List.length tasks) (treeRoots tasks) O
              Hroots) as [items Hitems]; [lia|].
  exists items. split; [exact Hitems|]. split.
  - eapply (traverse_NoDup tasks ex m Hnd Hm); [|exact Hroots|exact Hitems].
    unfold treeRoots. now apply NoDup_map_filter.
  - split.
    + intros i Hi.
      destruct (traverse_sound tasks ex m Hm _ _ _ _ Hincl Hitems i Hi)
        as (t & dt & -> & _).
      reflexivity.
    + intros t d. split.
      * intros Hi.
        destruct (traverse_sound tasks ex m Hm _ _ _ _ Hincl Hitems _ Hi)
          as (t' & dt' & E & Hs).
        apply itemOf_inj in E. destruct E as [-> ->]. exact Hs.
      * intros Hs.
        exact (traverse_complete tasks ex m Hm _ (treeRoots tasks) O items Hincl Hitems t d Hs).
Qed.

Lemma flatten_lists_each_shown_task_once_witness :
  exists items,
    TaskHelpers.flattenTaskTree (S (List.length Sample.tasksABC))
      (TaskHelpers.buildTaskTree Sample.tasksABC) ["P"%string] = Some items /\
    NoDup (map (fun i => Task.id (itemTask i)) items).
Proof.
  destruct (flatten_lists_each_shown_task_once Sample.tasksABC ["P"%string])
    as (items & H & Hnd & _).
  - repeat constructor; simpl; intuition discriminate.
  - exists items. split; assumption.
Defined.

(** X13. Without a cycle of parents and with every task expanded, the
    list [flattenTaskTree] returns for the built tree is a rearrangement of
    the array: every task is listed, and listed once. *)
Theorem expanded_tree_lists_every_task :
  forall tasks expandedTasks,
    NoDup (map Task.id tasks) ->
    TaskHelpers.acyclic tasks ->
    (forall t, In t tasks -> In (Task.id t) expandedTasks) ->
    exists items,
      TaskHelpers.flattenTaskTree (S (List.length tasks))
        (TaskHelpers.buildTaskTree tasks) expandedTasks = Some items /\
      Permutation (map itemTask items) tasks.
Proof.
  intros tasks ex Hnd Hac Hex. unfold TaskHelpers.flattenTaskTree.
  rewrite (buildTaskTree_roots tasks Hnd).
  set (m := TaskHelpers.nodes (TaskHelpers.buildTaskTree tasks)).
  assert (Hm : forall t, In t tasks ->
            TaskHelpers.mapGet (Task.id t) m
            = Some {| TaskHelpers.Node.task := t;
                      TaskHelpers.Node.children :=
                        map Task.id (treeChildren tasks (Task.id t)) |})
    by (intros t Ht; now apply buildTaskTree_node).
  assert (Hroots : forall n, In n (treeRoots tasks) -> shownAt tasks ex n 0)
    by (intros n Hn; now apply shown_here).
  assert (Hincl : incl (treeRoots tasks) tasks)
    by (intros x Hx; now apply In_treeRoots in Hx).
  destruct (traverse_returns tasks ex m Hnd Hm (List.length tasks) (treeRoots tasks) O
              Hroots) as [items Hitems]; [lia|].
  exists items. split; [exact Hitems|].
  apply NoDup_Permutation.
  - apply (NoDup_map_inv Task.id). rewrite map_map.
    eapply (traverse_NoDup tasks ex m Hnd Hm); [|exact Hroots|exact Hitems].
    unfold treeRoots. now apply NoDup_map_filter.
  - now apply (NoDup_map_inv Task.id).
  - intros t. split.
    + intros Hin. apply in_map_iff in Hin. destruct Hin as (i & <- & Hi).
      destruct (traverse_sound tasks ex m Hm _ _ _ _ Hincl Hitems i Hi)
        as (t & dt & -> & Hs).
      eapply shownFrom_In; eauto.
    + intros Ht.
      assert (H1 : NoDup [t]) by (repeat constructor; intros []).
      assert (H2 : incl [t] tasks) by (intros x [<-|[]]; exact Ht).
      assert (H3 : forall s, In s [t] ->
                s = t \/ TaskHelpers.descendantOf tasks (Task.id t) (Task.id s))
        by (intros s [<-|[]]; now left).
      assert (H4 : (List.length tasks < List.length [t] + S (List.length tasks))%nat)
        by (simpl; lia).
      destruct (shownAt_all tasks ex (S (List.length tasks)) Hac Hex t [t] Ht H1 H2 H3 H4)
        as [d Hd].
      apply in_map_iff. exists (itemOf tasks ex t d). split; [reflexivity|].
      exact (traverse_complete tasks ex m Hm _ (treeRoots tasks) O items Hincl Hitems t d Hd).
Qed.

Lemma expanded_tree_lists_every_task_witness :
  exists items,
    TaskHelpers.flattenTaskTree (S (List.length Sample.tasksABC))
      (TaskHelpers.buildTaskTree Sample.tasksABC) (map Task.id Sample.tasksABC)
    = Some items /\
    Permutation (map itemTask items) Sample.tasksABC.
Proof.
  apply (expanded_tree_lists_every_task Sample.tasksABC (map Task.id Sample.tasksABC)).
  - repeat constructor; simpl; intuition discriminate.
  - exact (acyclicb_sound Sample.tasksABC eq_refl).
  - intros t Ht. now apply in_map.
Defined.

(** X14. A task that lies on a cycle of parent references, or below one,
    is on no list [flattenTaskTree] returns for the built tree, whatever is
    expanded: once a task has become its own ancestor, it and everything
    under it are gone from the view. *)
Theorem tasks_under_a_cycle_are_not_listed :
  forall tasks expandedTasks fuel items t z,
    NoDup (map Task.id tasks) ->
    ~ In ""%string (map Task.id tasks) ->
    TaskHelpers.descendantOf tasks z z ->
    Task.id t = z \/ TaskHelpers.descendantOf tasks z (Task.id t) ->
    TaskHelpers.flattenTaskTree fuel (TaskHelpers.buildTaskTree tasks) expandedTasks
    = Some items ->
    ~ In t (map itemTask items).
Proof.
  intros tasks ex fuel items t z Hnd Hne Hz Hor H Hin.
  unfold TaskHelpers.flattenTaskTree in H.
  rewrite (buildTaskTree_roots tasks Hnd) in H.
  set (m := TaskHelpers.nodes (TaskHelpers.buildTaskTree tasks)) in *.
  assert (Hm : forall t, In t tasks ->
            TaskHelpers.mapGet (Task.id t) m
            = Some {| TaskHelpers.Node.task := t;
                      TaskHelpers.Node.children :=
                        map Task.id (treeChildren tasks (Task.id t)) |})
    by (intros u Hu; now apply buildTaskTree_node).
  assert (Hincl : incl (treeRoots tasks) tasks)
    by (intros x Hx; now apply In_treeRoots in Hx).
  apply in_map_iff in Hin. destruct Hin as (i & <- & Hi).
  destruct (traverse_sound tasks ex m Hm _ _ _ _ Hincl H i Hi) as (t & dt & -> & Hs).
  exact (shownAt_not_below_cycle tasks Hnd ex t dt Hne Hs z Hz Hor).
Qed.

Lemma tasks_under_a_cycle_are_not_listed_witness :
  TaskHelpers.flattenTaskTree 3 (TaskHelpers.buildTaskTree Sample_selfParent) ["A"%string]
  = Some [] /\
  ~ In (Sample.task "C" (Js.Str "A") 0) (map itemTask []).
Proof.
  split; [reflexivity|].
  apply (tasks_under_a_cycle_are_not_listed Sample_selfParent ["A"%string] 3 []
           (Sample.task "C" (Js.Str "A") 0) "A"%string).
  - repeat constructor; simpl; intuition discriminate.
  - simpl. intuition discriminate.
  - apply TaskHelpers.desc_child. exists (Sample.task "A" (Js.Str "A") 1000).
    simpl. auto.
  - right. apply TaskHelpers.desc_child. exists (Sample.task "C" (Js.Str "A") 0).
    simpl. auto.
  - reflexivity.
Defined.

(* ================================================================== *)
(** * Further properties: persisting a side-list plan *)
(* ================================================================== *)


(** X15. What [persistUpdates] sends for a plan of [buildUpdatesArray].
    With a repository and a note storage that have their methods, the
    calls are, in the order of the plan, one for every entry that is not a
    bookmark: to the service of the entry's own type, with the entry's id,
    its new [orderIndex], and the target folder as the container (the
    [parentId] of a folder, the [folderId] of anything else).  The [type]
    argument plays no part.  Without a repository and a note storage
    nothing is sent. *)
Theorem persist_sends_the_plan_without_bookmarks :
  forall data bookmarks type id target prevEl nextEl updates type' repository noteStorage,
    SideList.buildUpdatesArray data bookmarks type id target prevEl nextEl = Some updates ->
    SideList.updateFolder repository = true ->
    SideList.updateObjectiveOrder repository = true ->
    SideList.updateTaskListOrder repository = true ->
    SideList.updateNoteOrder noteStorage = true ->
    map callArgs
      (SideList.persistUpdates type' updates (Some repository) (Some noteStorage))
    = map (fun u => (SideList.Update._type u, SideList.Update.id u,
                     SideList.Update.orderIndex u, target))
        (filter (fun u => negb (SideList.isType (SideList.Update._type u) "bookmark"))
           updates) /\
    SideList.persistUpdates type' updates None None = [].
Proof.
  intros data bookmarks type id target prevEl nextEl updates type' R N H H1 H2 H3 H4.
  destruct (plan_items _ _ _ _ _ _ _ _ H) as (l & -> & Hl). split.
  - now apply persist_known.
  - generalize (Js.mapi (SideListTerms.mkUpdate target) l).
    intros us. induction us as [|u r IH]; [reflexivity|].
    rewrite persistUpdates_cons, IH, app_nil_r.
    unfold SideList.persistUpdates, SideList.hasMethod. simpl.
    now rewrite !andb_false_r.
Qed.

Lemma persist_sends_the_plan_without_bookmarks_witness :
  exists updates,
    SideList.buildUpdatesArray Sample.sideData
      (Some [Leaf.mk "B" (Js.Str "F") (Some 500) "Bookmark"])
      (Js.Str "note") (Js.Str "L") (Js.Str "F") None None = Some updates /\
    map callArgs
      (SideList.persistUpdates (Js.Str "note") updates
         (Some Sample_repository) (Some Sample_noteStorage))
    = map (fun u => (SideList.Update._type u, SideList.Update.id u,
                     SideList.Update.orderIndex u, Js.Str "F"))
        (filter (fun u => negb (SideList.isType (SideList.Update._type u) "bookmark"))
           updates).
Proof.
  eexists. split; [reflexivity|].
  exact (proj1 (persist_sends_the_plan_without_bookmarks Sample.sideData
                  (Some [Leaf.mk "B" (Js.Str "F") (Some 500) "Bookmark"])
                  (Js.Str "note") (Js.Str "L") (Js.Str "F") None None _
                  (Js.Str "note") Sample_repository Sample_noteStorage
                  eq_refl eq_refl eq_refl eq_refl eq_refl)).
Defined.

(* ================================================================== *)
(** * Further properties: applying a side-list plan *)
(* ================================================================== *)

(** X16. [applyUpdatesLocally] on a plan of [buildUpdatesArray], when no
    two folders, no two objectives, no two notes and no two task lists
    share an id.  The loop adds, removes and renames nothing.  Every entry
    of the plan that is not a bookmark is written to the item of its own
    type and id: afterwards that item is filed under the target folder
    (through [parentId] for a folder, [folderId] otherwise) with the
    entry's position times 1000 as [orderIndex].  An item that no entry
    names is left as it was.  Bookmarks go through [BookmarkStorage] and
    are not covered. *)
Theorem side_apply_files_the_plan :
  forall updateBookmarkOrder data bookmarks type id target prevEl nextEl updates type',
    SideList.buildUpdatesArray data bookmarks type id target prevEl nextEl = Some updates ->
    NoDup (map Folder.id (SideList.folders data)) ->
    NoDup (map Leaf.id (SideList.objectives data)) ->
    NoDup (map Leaf.id (SideList.orEmpty (SideList.notes data))) ->
    NoDup (map Leaf.id (SideList.orEmpty (SideList.taskLists data))) ->
    let data' :=
      fst (SideList.applyUpdatesLocally updateBookmarkOrder type' updates
             (data, bookmarks)) in
    map (fun x => fst (fst x)) (sideItems data') = map (fun x => fst (fst x)) (sideItems data) /\
    (forall i u,
       nth_error updates i = Some u ->
       SideList.Update._type u <> Js.Str "bookmark" ->
       In (SideList.Update._type u, SideList.Update.id u, target,
           Some (Z.of_nat i * 1000))
          (sideItems data')) /\
    (forall itemType itemId container orderIndex,
       In (itemType, itemId, container, orderIndex) (sideItems data) ->
       (forall u, In u updates ->
          ~ (SideList.Update._type u = itemType /\ SideList.Update.id u = itemId)) ->
       In (itemType, itemId, container, orderIndex) (sideItems data')).
Proof.
  intros ubo data bookmarks type id target prevEl nextEl updates type' H HF HO HN HT.
  unfold SideList.buildUpdatesArray in H.
  destruct (SideList.findDropped data bookmarks type id) as [dropped|] eqn:Hd;
    [|discriminate].
  set (l := Js.splice (SideList.siblingsOf data bookmarks id target)
              (SideList.insertIndexOf (SideList.siblingsOf data bookmarks id target)
                 prevEl nextEl) dropped) in *.
  assert (Hu : updates = Js.mapi (SideListTerms.mkUpdate target) l)
    by (inversion H; reflexivity).
  clear H. subst updates.
  assert (Hknown : Forall (fun item => knownType (SideList.Item._type item)) l).
  { apply Forall_forall. intros item Hin. apply splice_In in Hin.
    destruct Hin as [->|Hin]; [eapply findDropped_knownType; eauto|].
    unfold SideList.siblingsOf in Hin. apply filter_In in Hin. destruct Hin as [Hin _].
    eapply collect_knownType.
    eapply Permutation_in; [apply sortBy_perm|exact Hin]. }
  assert (Hunique : forall itemType itemId,
            itemType = "folder"%string \/ itemType = "objective"%string \/
            itemType = "note"%string \/ itemType = "task-list"%string ->
            (List.length (filter (itemIs itemType itemId) l) <= 1)%nat).
  { intros itemType itemId Ht.
    exact (plan_at_most_one data bookmarks HF HO HN HT type id target dropped _
             itemType itemId Hd Ht). }
  assert (Hfolder : forall item, In item l ->
            SideList.Item._type item = Js.Str "folder" ->
            exists f, In f (SideList.folders data) /\ Folder.id f = SideList.Item.id item).
  { intros item Hin E.
    exact (plan_source_folder data bookmarks type id target _ dropped item Hd Hin E). }
  assert (Hleaf : forall item leafType,
            leafType = "objective"%string \/ leafType = "note"%string \/
            leafType = "task-list"%string ->
            In item l -> SideList.Item._type item = Js.Str leafType ->
            exists x, In x (leavesOf data leafType) /\ Leaf.id x = SideList.Item.id item).
  { intros item leafType Ht Hin E.
    exact (plan_source_leaf data bookmarks type id target _ dropped item leafType
             Ht Hd Hin E). }
  intros data'. unfold data'.
  rewrite (applied_sideItems ubo data bookmarks target l HF HO HN HT Hknown type').
  rewrite (sideItems_leaves data).
  split; [|split].
  - rewrite !map_app, !map_map.
    f_equal; [|f_equal; [|f_equal]]; apply map_ext; intros x; simpl.
    + now rewrite (fold_writeElement_id Folder.id SideList.writeFolder (updateFor "folder")
                     (fun _ _ => eq_refl)).
    + now rewrite (fold_writeElement_id Leaf.id SideList.writeLeaf (updateFor "objective")
                     (fun _ _ => eq_refl)).
    + now rewrite (fold_writeElement_id Leaf.id SideList.writeLeaf (updateFor "note")
                     (fun _ _ => eq_refl)).
    + now rewrite (fold_writeElement_id Leaf.id SideList.writeLeaf (updateFor "task-list")
                     (fun _ _ => eq_refl)).
  - intros i u Hn Hnb. rewrite mapi_nth_error in Hn.
    destruct (nth_error l i) as [item|] eqn:Hi; [|discriminate].
    inversion Hn; subst u; clear Hn. simpl in *.
    assert (Hk : knownType (SideList.Item._type item)).
    { rewrite Forall_forall in Hknown. apply Hknown. eapply nth_error_In; eauto. }
    rewrite !in_app_iff.
    destruct Hk as [E|[E|[E|[E|E]]]]; rewrite E in *.
    + left. now apply (applied_folder data target l Hunique Hfolder).
    + right; left.
      apply (applied_leaf data target l Hunique Hleaf "objective"); auto.
    + right; right; left.
      apply (applied_leaf data target l Hunique Hleaf "note"); auto.
    + congruence.
    + right; right; right.
      apply (applied_leaf data target l Hunique Hleaf "task-list"); auto.
  - intros itemType itemId container orderIndex Hin Hno.
    assert (Hnone : forall item, In item l ->
              SideList.Item._type item = itemType -> SideList.Item.id item = itemId -> False).
    { intros item Hitem Et Ei.
      destruct (In_mapi_mkUpdate target l item Hitem) as [j Hj].
      apply (Hno _ Hj). split; assumption. }
    rewrite !in_app_iff in Hin. rewrite !in_app_iff.
    destruct Hin as [Hin|[Hin|[Hin|Hin]]]; apply in_map_iff in Hin;
      destruct Hin as (a & Ea & Ha); inversion Ea; subst; clear Ea.
    + left. rewrite map_map. apply in_map_iff. exists a. split; [|exact Ha].
      rewrite (plan_write_none Folder.id SideList.writeFolder "folder" target l a);
        [reflexivity|].
      intros item Hitem. unfold itemIs.
      destruct (SideList.isType (SideList.Item._type item) "folder") eqn:Et; [|reflexivity].
      destruct (String.eqb (SideList.Item.id item) (Folder.id a)) eqn:Ei; [|reflexivity].
      exfalso. apply (Hnone item Hitem).
      * now apply Js_eqb_eq in Et.
      * now apply String.eqb_eq in Ei.
    + right; left. rewrite map_map. apply in_map_iff. exists a. split; [|exact Ha].
      rewrite (plan_write_none Leaf.id SideList.writeLeaf "objective" target l a);
        [reflexivity|].
      intros item Hitem. unfold itemIs.
      destruct (SideList.isType (SideList.Item._type item) "objective") eqn:Et;
        [|reflexivity].
      destruct (String.eqb (SideList.Item.id item) (Leaf.id a)) eqn:Ei; [|reflexivity].
      exfalso. apply (Hnone item Hitem).
      * now apply Js_eqb_eq in Et.
      * now apply String.eqb_eq in Ei.
    + right; right; left. rewrite map_map. apply in_map_iff. exists a.
      split; [|exact Ha].
      rewrite (plan_write_none Leaf.id SideList.writeLeaf "note" target l a);
        [reflexivity|].
      intros item Hitem. unfold itemIs.
      destruct (SideList.isType (SideList.Item._type item) "note") eqn:Et; [|reflexivity].
      destruct (String.eqb (SideList.Item.id item) (Leaf.id a)) eqn:Ei; [|reflexivity].
      exfalso. apply (Hnone item Hitem).
      * now apply Js_eqb_eq in Et.
      * now apply String.eqb_eq in Ei.
    + right; right; right. rewrite map_map. apply in_map_iff. exists a.
      split; [|exact Ha].
      rewrite (plan_write_none Leaf.id SideList.writeLeaf "task-list" target l a);
        [reflexivity|].
      intros item Hitem. unfold itemIs.
      destruct (SideList.isType (SideList.Item._type item) "task-list") eqn:Et;
        [|reflexivity].
      destruct (String.eqb (SideList.Item.id item) (Leaf.id a)) eqn:Ei; [|reflexivity].
      exfalso. apply (Hnone item Hitem).
      * now apply Js_eqb_eq in Et.
      * now apply String.eqb_eq in Ei.
Qed.

Lemma side_apply_files_the_plan_witness :
  exists updates,
    SideList.buildUpdatesArray Sample.sideData None
      (Js.Str "note") (Js.Str "L") (Js.Str "F") None None = Some updates /\
    forall i u,
      nth_error updates i = Some u ->
      SideList.Update._type u <> Js.Str "bookmark" ->
      In (SideList.Update._type u, SideList.Update.id u, Js.Str "F",
          Some (Z.of_nat i * 1000))
         (sideItems
            (fst (SideList.applyUpdatesLocally None (Js.Str "note") updates
                    (Sample.sideData, None)))).
Proof.
  eexists. split; [reflexivity|].
  refine (proj1 (proj2 (side_apply_files_the_plan None Sample.sideData None
                          (Js.Str "note") (Js.Str "L") (Js.Str "F") None None _
                          (Js.Str "note") eq_refl _ _ _ _)));
    simpl; repeat constructor; simpl; intuition.
Defined.

(* ================================================================== *)
(** * Further properties: column letters *)
(* ================================================================== *)

Lemma columnNumberFrom_app p q : forall acc,
  columnNumberFrom acc (p ++ q) = columnNumberFrom (columnNumberFrom acc p) q.
Proof. induction p as [|c r IH]; intros acc; simpl; [reflexivity|apply IH]. Qed.

Lemma capitals_app p q : capitals p -> capitals q -> capitals (p ++ q).
Proof. induction p as [|c r IH]; simpl; [auto|]. intros [H1 H2] Hq. auto. Qed.

Lemma string_app_assoc (p q r : string) : ((p ++ q) ++ r = p ++ (q ++ r))%string.
Proof. induction p as [|c p IH]; simpl; [reflexivity|now rewrite IH]. Qed.

Lemma getColumnLetterLoop_S fuel col letter :
  ExcelViewer.getColumnLetterLoop (S fuel) col letter
  = if col >? 0
    then if ExcelViewer.MAX_SAFE_INTEGER <? col then None
         else ExcelViewer.getColumnLetterLoop fuel ((col - 1) / 26)
                (String (ascii_of_N (Z.to_N (65 + Z.rem (col - 1) 26))) letter)
    else Some letter.
Proof. reflexivity. Qed.

Lemma getColumnLetterLoop_spec fuel : forall col letter,
  0 <= col <= ExcelViewer.MAX_SAFE_INTEGER -> (Z.to_nat col <= fuel)%nat ->
  exists label,
    ExcelViewer.getColumnLetterLoop fuel col letter = Some (label ++ letter)%string /\
    columnNumber label = col /\ capitals label.
Proof.
  induction fuel as [|fuel IH]; intros col letter [H0 Hmax] Hf.
  - assert (col = 0) by lia. subst col. exists ""%string. simpl. auto.
  - rewrite getColumnLetterLoop_S. destruct (col >? 0) eqn:E.
    + apply Z.gtb_lt in E.
      assert (Hsafe : (ExcelViewer.MAX_SAFE_INTEGER <? col) = false)
        by (apply Z.ltb_ge; exact Hmax).
      rewrite Hsafe.
      assert (Hr : Z.rem (col - 1) 26 = (col - 1) mod 26)
        by (apply Z.rem_mod_nonneg; lia).
      rewrite Hr.
      pose proof (Z.mod_pos_bound (col - 1) 26 ltac:(lia)) as Hb.
      pose proof (Z.div_mod (col - 1) 26 ltac:(lia)) as Hdm.
      assert (Hq0 : 0 <= (col - 1) / 26) by (apply Z.div_pos; lia).
      assert (Hq : (col - 1) / 26 < col).
      { apply Z.div_lt_upper_bound; lia. }
      destruct (IH ((col - 1) / 26)
                  (String (ascii_of_N (Z.to_N (65 + (col - 1) mod 26))) letter)
                  ltac:(lia) ltac:(lia)) as (p & Hp & Hv & Hc).
      exists (p ++ String (ascii_of_N (Z.to_N (65 + (col - 1) mod 26))) "")%string.
      assert (Hcode : N_of_ascii (ascii_of_N (Z.to_N (65 + (col - 1) mod 26)))
                      = Z.to_N (65 + (col - 1) mod 26)).
      { apply N_ascii_embedding. lia. }
      split; [|split].
      * rewrite Hp. f_equal. now rewrite string_app_assoc.
      * unfold columnNumber in *. rewrite columnNumberFrom_app, Hv.
        cbn [columnNumberFrom]. rewrite Hcode, Z2N.id by lia. lia.
      * apply capitals_app; [exact Hc|]. cbn [capitals]. rewrite Hcode. lia.
    + assert (col = 0) by (rewrite Z.gtb_ltb in E; apply Z.ltb_ge in E; lia).
      subst col. exists ""%string. simpl. auto.
Qed.

(** X17. [getColumnLetter] labels the columns as a spreadsheet does.  For
    every integer [col] from 0 to [Number.MAX_SAFE_INTEGER] (the range in
    which the doubles of the source are exact) the loop ends within [col]
    rounds; the label consists of capital letters only, and read back as a
    number in base 26 with the digits [A = 1] to [Z = 26] it gives [col]
    again, so two different columns of that range never get the same
    label.  For [col <= 0] the label is empty. *)
Theorem column_letter_round_trip :
  forall col,
    (0 <= col <= ExcelViewer.MAX_SAFE_INTEGER ->
     exists label,
       ExcelViewer.getColumnLetter (Z.to_nat col) col = Some label /\
       columnNumber label = col /\ capitals label /\
       forall col', 0 <= col' <= ExcelViewer.MAX_SAFE_INTEGER ->
         ExcelViewer.getColumnLetter (Z.to_nat col') col' = Some label -> col' = col) /\
    (col <= 0 -> forall fuel, ExcelViewer.getColumnLetter fuel col = Some ""%string).
Proof.
  intros col. split.
  - intros H0.
    destruct (getColumnLetterLoop_spec (Z.to_nat col) col ""%string H0 (le_n _))
      as (label & Hl & Hv & Hc).
    exists label. unfold ExcelViewer.getColumnLetter.
    assert (E : forall s : string, (s ++ "")%string = s).
    { induction s as [|c s IH]; simpl; [reflexivity|now rewrite IH]. }
    rewrite E in Hl. split; [exact Hl|]. split; [exact Hv|]. split; [exact Hc|].
    intros col' H0' Hl'.
    destruct (getColumnLetterLoop_spec (Z.to_nat col') col' ""%string H0' (le_n _))
      as (label' & Hl2 & Hv' & _).
    rewrite E in Hl2. unfold ExcelViewer.getColumnLetter in Hl'.
    rewrite Hl2 in Hl'. inversion Hl'; subst. reflexivity.
  - intros Hle fuel. unfold ExcelViewer.getColumnLetter.
    destruct fuel; simpl; (destruct (col >? 0) eqn:E; [apply Z.gtb_lt in E; lia|reflexivity]).
Qed.

Lemma column_letter_round_trip_witness :
  exists label,
    ExcelViewer.getColumnLetter (Z.to_nat 28) 28 = Some label /\
    columnNumber label = 28 /\ capitals label.
Proof.
  destruct (proj1 (column_letter_round_trip 28)
              ltac:(unfold ExcelViewer.MAX_SAFE_INTEGER; lia))
    as (label & H1 & H2 & H3 & _).
  exists label. auto.
Defined.

(* ================================================================== *)
(** * Further properties: CSV *)
(* ================================================================== *)

Section CsvFacts.
Import ExcelViewer.

Lemma splitLines_no_lf content : forall line,
  ~ In 10%N content -> splitLines content line = [line ++ content].
Proof.
  induction content as [|c rest IH]; intros line H; simpl.
  - now rewrite app_nil_r.
  - destruct (c =? 10)%N eqn:E; [apply N.eqb_eq in E; exfalso; apply H; now left|].
    destruct rest as [|d rest'].
    + reflexivity.
    + destruct (d =? 10)%N eqn:Ed.
      { apply N.eqb_eq in Ed. exfalso. apply H. right. now left. }
      rewrite andb_false_r. rewrite IH by (intros Hin; apply H; now right).
      now rewrite <- app_assoc.
Qed.

Lemma parseLine_quoted_char c rest current row :
  (c =? 34)%N = false ->
  parseLine (c :: rest) true current row = parseLine rest true (current ++ [c]) row.
Proof. intros E. destruct rest; simpl; rewrite E; reflexivity. Qed.

Lemma parseLine_closing_quote rest current row :
  match rest with d :: _ => (d =? 34)%N = false | [] => True end ->
  parseLine (34%N :: rest) true current row = parseLine rest false current row.
Proof. destruct rest as [|d r]; simpl; [reflexivity|]. now intros ->. Qed.

(** The body of a quoted field, up to its closing quote. *)
Lemma parseLine_quoted field : forall rest current row,
  match rest with d :: _ => (d =? 34)%N = false | [] => True end ->
  parseLine (flat_map (fun c => if (c =? 34)%N then [34%N; 34%N] else [c]) field
             ++ 34%N :: rest) true current row
  = parseLine rest false (current ++ field) row.
Proof.
  induction field as [|c f IH]; intros rest current row Hrest.
  - simpl flat_map. simpl app. rewrite app_nil_r.
    now apply parseLine_closing_quote.
  - simpl flat_map. destruct (c =? 34)%N eqn:E.
    + apply N.eqb_eq in E. subst c.
      change (parseLine
                (34%N :: 34%N :: (flat_map (fun c => if (c =? 34)%N then [34%N; 34%N] else [c]) f
                                   ++ 34%N :: rest)) true current row
              = parseLine rest false (current ++ 34%N :: f) row).
      simpl parseLine at 1. rewrite IH by exact Hrest.
      now rewrite <- app_assoc.
    + simpl app. rewrite parseLine_quoted_char by exact E.
      rewrite IH by exact Hrest. now rewrite <- app_assoc.
Qed.

Lemma csvLine_cons field fields :
  fields <> [] -> csvLine (field :: fields) = quoteField field ++ 44%N :: csvLine fields.
Proof. destruct fields; [congruence|reflexivity]. Qed.

Lemma parseLine_opening_quote rest current row :
  parseLine (34%N :: rest) false current row = parseLine rest true current row.
Proof. reflexivity. Qed.

Lemma parseLine_comma rest current row :
  parseLine (44%N :: rest) false current row
  = parseLine rest false [] (row ++ [trim current]).
Proof. reflexivity. Qed.

Lemma quoteField_then field rest :
  quoteField field ++ rest
  = 34%N :: (flat_map (fun c => if (c =? 34)%N then [34%N; 34%N] else [c]) field
             ++ 34%N :: rest).
Proof. unfold quoteField. simpl. now rewrite <- app_assoc. Qed.

Lemma parseLine_csvLine fields : forall row,
  fields <> [] ->
  parseLine (csvLine fields) false [] row = row ++ map trim fields.
Proof.
  induction fields as [|f r IH]; intros row Hne; [congruence|].
  destruct r as [|g r].
  - change (csvLine [f]) with (quoteField f).
    rewrite <- (app_nil_r (quoteField f)), quoteField_then.
    rewrite parseLine_opening_quote, parseLine_quoted by exact I. reflexivity.
  - rewrite csvLine_cons by discriminate.
    remember (csvLine (g :: r)) as X eqn:EX.
    rewrite quoteField_then, parseLine_opening_quote.
    rewrite parseLine_quoted by reflexivity.
    rewrite parseLine_comma. subst X.
    rewrite IH by discriminate. simpl. now rewrite <- app_assoc.
Qed.

Lemma csvLine_no_lf fields :
  (forall f, In f fields -> ~ In 10%N f) -> ~ In 10%N (csvLine fields).
Proof.
  assert (Hq : forall f, ~ In 10%N f -> ~ In 10%N (quoteField f)).
  { intros f Hf. unfold quoteField. simpl. intros [H|H]; [discriminate|].
    apply in_app_or in H. destruct H as [H|[H|[]]]; [|discriminate].
    apply in_flat_map in H. destruct H as (c & Hc & H).
    destruct (c =? 34)%N; simpl in H.
    - destruct H as [H|[H|[]]]; discriminate.
    - destruct H as [H|[]]. subst c. contradiction. }
  induction fields as [|f r IH]; intros H; [intros []|].
  destruct r as [|g r].
  - simpl. apply Hq. apply H. now left.
  - rewrite csvLine_cons by discriminate. intros Hin.
    apply in_app_or in Hin. destruct Hin as [Hin|[Hin|Hin]].
    + revert Hin. apply Hq. apply H. now left.
    + discriminate.
    + revert Hin. apply IH. intros f' Hf'. apply H. now right.
Qed.

Lemma trimStart_keeps s c :
  isWhiteSpace c = false -> In c s -> trimStart s <> [].
Proof.
  intros Hc. induction s as [|x r IH]; simpl; [intros []|].
  destruct (isWhiteSpace x) eqn:E; [|discriminate].
  intros [->|H]; [congruence|auto].
Qed.

Lemma trim_keeps s c : isWhiteSpace c = false -> In c s -> trim s <> [].
Proof.
  intros Hc Hin. unfold trim, trimEnd.
  assert (H1 : In c (trimStart s)).
  { clear -Hc Hin. induction s as [|x r IH]; simpl; [contradiction|].
    destruct (isWhiteSpace x) eqn:E; [|exact Hin].
    destruct Hin as [->|H]; [congruence|auto]. }
  intros H. apply (f_equal (@rev N)) in H. rewrite rev_involutive in H. simpl in H.
  revert H. apply (trimStart_keeps _ c Hc). now apply in_rev in H1.
Qed.

End CsvFacts.

(** X18. [parseCSV] reads back what RFC 4180 quoting writes, up to the
    final [trim].  For a non-empty list of fields, none of which contains a
    line feed, the line made of the fields between double quotes (every
    double quote inside doubled) and joined by commas is parsed as one row
    with one entry per field: the field with the white space at its two
    ends removed.  Commas and quotes inside a field come back unchanged;
    the leading and trailing white space of a field is lost although the
    field was quoted. *)
Theorem csv_quoted_fields_round_trip :
  forall fields,
    fields <> [] ->
    (forall f, In f fields -> ~ In 10%N f) ->
    ExcelViewer.parseCSV (csvLine fields) = [map ExcelViewer.trim fields].
Proof.
  intros fields Hne Hlf. unfold ExcelViewer.parseCSV.
  rewrite splitLines_no_lf by now apply csvLine_no_lf.
  simpl app. simpl filter.
  destruct (ExcelViewer.trim (csvLine fields)) eqn:E.
  - exfalso. revert E. apply (trim_keeps _ 34%N); [reflexivity|].
    destruct fields as [|f [|g r]]; [congruence| |]; simpl; now left.
  - simpl. now rewrite parseLine_csvLine.
Qed.

Lemma csv_quoted_fields_round_trip_witness :
  ExcelViewer.parseCSV (csvLine [[32; 97; 44; 34; 98]%N; [99]%N])
  = [map ExcelViewer.trim [[32; 97; 44; 34; 98]%N; [99]%N]].
Proof.
  apply csv_quoted_fields_round_trip.
  - discriminate.
  - intros f [<-|[<-|[]]]; simpl; intuition discriminate.
Defined.

Section CsvLineFacts.
Import ExcelViewer.

Lemma trimEnd_snoc s c : isWhiteSpace c = true -> trimEnd (s ++ [c]) = trimEnd s.
Proof.
  intros Hc. unfold trimEnd. rewrite rev_app_distr. simpl. now rewrite Hc.
Qed.

Lemma trimStart_snoc s c :
  isWhiteSpace c = true ->
  trimStart (s ++ [c]) = match trimStart s with [] => [] | _ => trimStart s ++ [c] end.
Proof.
  intros Hc. induction s as [|x r IH]; simpl.
  - now rewrite Hc.
  - destruct (isWhiteSpace x); [exact IH|reflexivity].
Qed.

Lemma trim_snoc s c : isWhiteSpace c = true -> trim (s ++ [c]) = trim s.
Proof.
  intros Hc. unfold trim. rewrite (trimStart_snoc s c Hc).
  destruct (trimStart s) as [|x r] eqn:E; [reflexivity|].
  now apply trimEnd_snoc.
Qed.

Lemma parseLine_quoted_step c d rest current row :
  parseLine (c :: d :: rest) true current row
  = if ((c =? 34) && (d =? 34))%N then parseLine rest true (current ++ [34%N]) row
    else if (c =? 34)%N then parseLine (d :: rest) false current row
    else parseLine (d :: rest) true (current ++ [c]) row.
Proof. reflexivity. Qed.

Lemma parseLine_quoted_last c current row :
  parseLine [c] true current row
  = if (c =? 34)%N then parseLine [] false current row
    else parseLine [] true (current ++ [c]) row.
Proof. reflexivity. Qed.

Lemma parseLine_plain_step c rest current row :
  parseLine (c :: rest) false current row
  = if (c =? 34)%N then parseLine rest true current row
    else if (c =? 44)%N then parseLine rest false [] (row ++ [trim current])
    else parseLine rest false (current ++ [c]) row.
Proof. reflexivity. Qed.

Lemma parseLine_end inQuotes current row :
  parseLine [] inQuotes current row = row ++ [trim current].
Proof. reflexivity. Qed.

(** A carriage return at the end of a line leaves the row as it is. *)
Lemma parseLine_snoc_cr n : forall line inQuotes current row,
  (List.length line <= n)%nat ->
  parseLine (line ++ [13%N]) inQuotes current row = parseLine line inQuotes current row.
Proof.
  assert (Hnil : forall inQuotes current row,
            parseLine ([] ++ [13%N]) inQuotes current row
            = parseLine [] inQuotes current row).
  { intros inQuotes current row. change ([] ++ [13%N]) with [13%N].
    destruct inQuotes.
    - rewrite parseLine_quoted_last. change (13 =? 34)%N with false. cbv iota.
      rewrite !parseLine_end. now rewrite (trim_snoc current 13%N eq_refl).
    - rewrite parseLine_plain_step. change (13 =? 34)%N with false.
      change (13 =? 44)%N with false. cbv iota.
      rewrite !parseLine_end. now rewrite (trim_snoc current 13%N eq_refl). }
  induction n as [|n IH]; intros line inQuotes current row Hlen.
  - destruct line; [|simpl in Hlen; lia]. apply Hnil.
  - destruct line as [|c r]; [apply Hnil|].
    simpl in Hlen. destruct inQuotes.
    + destruct r as [|d r'].
      * change ([c] ++ [13%N]) with (c :: 13%N :: []).
        rewrite parseLine_quoted_step, (parseLine_quoted_last c).
        change (13 =? 34)%N with false. rewrite andb_false_r.
        destruct (c =? 34)%N.
        -- apply (IH [] false). simpl. lia.
        -- apply (IH [] true). simpl. lia.
      * simpl in Hlen.
        change ((c :: d :: r') ++ [13%N]) with (c :: d :: (r' ++ [13%N])).
        rewrite !parseLine_quoted_step.
        destruct ((c =? 34) && (d =? 34))%N.
        -- apply IH. lia.
        -- destruct (c =? 34)%N.
           ++ apply (IH (d :: r')). simpl. lia.
           ++ apply (IH (d :: r')). simpl. lia.
    + change ((c :: r) ++ [13%N]) with (c :: (r ++ [13%N])).
      rewrite !parseLine_plain_step.
      destruct (c =? 34)%N; [apply IH; lia|].
      destruct (c =? 44)%N; apply IH; lia.
Qed.

Lemma csvRows_cons line lines : csvRows (line :: lines) = csvRows [line] ++ csvRows lines.
Proof.
  unfold csvRows. simpl.
  destruct (trim line); reflexivity.
Qed.

Lemma csvRows_snoc_cr line : csvRows [line ++ [13%N]] = csvRows [line].
Proof.
  unfold csvRows. simpl. rewrite (trim_snoc line 13%N eq_refl).
  destruct (trim line); [reflexivity|]. simpl.
  now rewrite (parseLine_snoc_cr (List.length line) line false [] [] (le_n _)).
Qed.

Lemma splitLines_lf rest line :
  splitLines (10%N :: rest) line = line :: splitLines rest [].
Proof. reflexivity. Qed.

Lemma splitLines_last c line :
  (c =? 10)%N = false -> splitLines [c] line = [line ++ [c]].
Proof. intros E. simpl. now rewrite E. Qed.

Lemma splitLines_step c d rest line :
  (c =? 10)%N = false ->
  splitLines (c :: d :: rest) line
  = if ((c =? 13) && (d =? 10))%N then line :: splitLines rest []
    else splitLines (d :: rest) (line ++ [c]).
Proof. intros E. cbn [splitLines]. now rewrite E. Qed.

Lemma splitLines_at_lf b n : forall a line,
  (List.length a <= n)%nat ->
  csvRows (splitLines (a ++ 10%N :: b) line)
  = csvRows (splitLines a line) ++ csvRows (splitLines b []).
Proof.
  assert (Hnil : forall line,
            csvRows (splitLines ([] ++ 10%N :: b) line)
            = csvRows (splitLines [] line) ++ csvRows (splitLines b [])).
  { intros line. change ([] ++ 10%N :: b) with (10%N :: b).
    rewrite splitLines_lf. apply csvRows_cons. }
  induction n as [|n IH]; intros a line Hlen.
  - destruct a; [|simpl in Hlen; lia]. apply Hnil.
  - destruct a as [|c a']; [apply Hnil|].
    simpl in Hlen.
    destruct (c =? 10)%N eqn:Ec.
    + apply N.eqb_eq in Ec. subst c.
      change ((10%N :: a') ++ 10%N :: b) with (10%N :: (a' ++ 10%N :: b)).
      rewrite !splitLines_lf.
      rewrite csvRows_cons, (csvRows_cons line (splitLines a' [])).
      rewrite IH by lia. now rewrite app_assoc.
    + destruct a' as [|d a''].
      * change ([c] ++ 10%N :: b) with (c :: 10%N :: b).
        rewrite (splitLines_step c 10%N b line Ec), (splitLines_last c line Ec).
        change (10 =? 10)%N with true. rewrite andb_true_r.
        destruct (c =? 13)%N eqn:E13.
        -- apply N.eqb_eq in E13. subst c.
           rewrite csvRows_cons. now rewrite csvRows_snoc_cr.
        -- rewrite splitLines_lf. apply csvRows_cons.
      * simpl in Hlen.
        change ((c :: d :: a'') ++ 10%N :: b) with (c :: d :: (a'' ++ 10%N :: b)).
        rewrite !(splitLines_step c d _ line Ec).
        destruct ((c =? 13) && (d =? 10))%N.
        -- rewrite csvRows_cons, (csvRows_cons line (splitLines a'' [])).
           rewrite IH by lia. now rewrite app_assoc.
        -- apply (IH (d :: a'')). simpl. lia.
Qed.

End CsvLineFacts.

(** X19. A row of [parseCSV] never spans lines.  The rows of a content
    with a line feed in it are the rows of what precedes the line feed
    followed by the rows of what follows it, also when the line feed stands
    inside double quotes: a quoted field with a line break in it is read as
    two rows. *)
Theorem csv_rows_never_span_lines :
  forall before after,
    ExcelViewer.parseCSV (before ++ 10%N :: after)
    = ExcelViewer.parseCSV before ++ ExcelViewer.parseCSV after.
Proof.
  intros before after.
  exact (splitLines_at_lf after (List.length before) before [] (le_n _)).
Qed.

(* ================================================================== *)
(** * Further properties: the order of the flattened tree *)
(* ================================================================== *)

Lemma traverse_preorder tasks expandedTasks m :
  (forall t, In t tasks ->
     TaskHelpers.mapGet (Task.id t) m
     = Some {| TaskHelpers.Node.task := t;
               TaskHelpers.Node.children :=
                 map Task.id (treeChildren tasks (Task.id t)) |}) ->
  forall fuel nodes d items,
    incl nodes tasks ->
    TaskHelpers.traverse fuel m expandedTasks (map Task.id nodes) d = Some items ->
    items = preorder fuel tasks expandedTasks nodes d.
Proof.
  intros Hm. induction fuel as [|f IHf]; intros nodes d items Hi H; [discriminate|].
  simpl in H. revert items Hi H.
  induction nodes as [|n ns IHn]; intros items Hi H.
  - simpl in H. now inversion H.
  - assert (Hn : In n tasks) by (apply Hi; now left).
    assert (Hns : incl ns tasks) by (intros x Hx; apply Hi; now right).
    rewrite (forEachNode_cons tasks expandedTasks m Hm _ d n ns Hn) in H.
    destruct (TaskHelpers.forEachNode m expandedTasks _ d (map Task.id ns)) as [r|] eqn:Er;
      [|destruct (if TaskHelpers.setHas expandedTasks (Task.id n) then _ else _);
        discriminate].
    specialize (IHn r Hns eq_refl).
    change (preorder (S f) tasks expandedTasks (n :: ns) d)
      with ((itemOf tasks expandedTasks n d
             :: (if TaskHelpers.setHas expandedTasks (Task.id n)
                 then preorder f tasks expandedTasks (treeChildren tasks (Task.id n)) (S d)
                 else []))
            ++ preorder (S f) tasks expandedTasks ns d).
    rewrite <- IHn.
    destruct (TaskHelpers.setHas expandedTasks (Task.id n)).
    + destruct (TaskHelpers.traverse f m expandedTasks _ (S d)) as [s|] eqn:Es;
        [|discriminate].
      rewrite <- (IHf _ _ _ (treeChildren_incl tasks _) Es).
      now inversion H.
    + now inversion H.
Qed.

(** X20. The order of the list.  For an array without duplicate ids,
    [flattenTaskTree(buildTaskTree(tasks), expandedTasks)] is the pre-order
    walk of the array: the roots in the order of the array, each followed,
    when it is expanded, by the walk of the tasks filed under it, these too
    in the order of the array.  [orderIndex] plays no part in the order. *)
Theorem flatten_is_the_preorder_walk :
  forall tasks expandedTasks,
    NoDup (map Task.id tasks) ->
    TaskHelpers.flattenTaskTree (S (List.length tasks))
      (TaskHelpers.buildTaskTree tasks) expandedTasks
    = Some (preorder (S (List.length tasks)) tasks expandedTasks (treeRoots tasks) 0).
Proof.
  intros tasks ex Hnd. unfold TaskHelpers.flattenTaskTree.
  rewrite (buildTaskTree_roots tasks Hnd).
  set (m := TaskHelpers.nodes (TaskHelpers.buildTaskTree tasks)).
  assert (Hm : forall t, In t tasks ->
            TaskHelpers.mapGet (Task.id t) m
            = Some {| TaskHelpers.Node.task := t;
                      TaskHelpers.Node.children :=
                        map Task.id (treeChildren tasks (Task.id t)) |})
    by (intros t Ht; now apply buildTaskTree_node).
  assert (Hroots : forall n, In n (treeRoots tasks) -> shownAt tasks ex n 0)
    by (intros n Hn; now apply shown_here).
  assert (Hincl : incl (treeRoots tasks) tasks)
    by (intros x Hx; now apply In_treeRoots in Hx).
  destruct (traverse_returns tasks ex m Hnd Hm (List.length tasks) (treeRoots tasks) O
              Hroots) as [items Hitems]; [lia|].
  rewrite Hitems. f_equal.
  exact (traverse_preorder tasks ex m Hm _ _ _ _ Hincl Hitems).
Qed.

Lemma flatten_is_the_preorder_walk_witness :
  TaskHelpers.flattenTaskTree (S (List.length Sample.tasksABC))
    (TaskHelpers.buildTaskTree Sample.tasksABC) ["P"%string]
  = Some (preorder (S (List.length Sample.tasksABC)) Sample.tasksABC ["P"%string]
            (treeRoots Sample.tasksABC) 0).
Proof.
  apply flatten_is_the_preorder_walk.
  repeat constructor; simpl; intuition discriminate.
Defined.

(* ================================================================== *)
(** * Further properties: moves and cycles *)
(* ================================================================== *)

Section MoveFacts.
Import TaskHelpers.
Variables (tasks : list Task.t) (taskId target : Js.nullable).
Variables (moved : Task.t) (k : nat).
Hypothesis ids_unique : NoDup (map Task.id tasks).
Hypothesis moved_found :
  find (fun t => Js.eqb (Js.Str (Task.id t)) taskId) tasks = Some moved.

Lemma renumberWith_parent t :
  In t tasks ->
  Task.parentTaskId
    (renumberWith (Js.splice (TaskList.siblingsOf tasks taskId target) k moved) target t)
  = if isPlacedIn (Js.splice (TaskList.siblingsOf tasks taskId target) k moved) t
    then target else Task.parentTaskId t.
Proof.
  intros Ht. unfold renumberWith, isPlacedIn.
  destruct (Js.findIndex _ _) as [i|] eqn:E.
  - apply findIndex_Some in E. destruct E as (_ & (x & Hx & Px) & _).
    apply nth_error_In in Hx.
    assert (Hex : existsb (fun x => String.eqb (Task.id x) (Task.id t))
                    (Js.splice (TaskList.siblingsOf tasks taskId target) k moved) = true).
    { apply existsb_exists. eauto. }
    now rewrite Hex.
  - pose proof (proj1 (findIndex_None _ _) E) as Hn.
    assert (Hex : existsb (fun x => String.eqb (Task.id x) (Task.id t))
                    (Js.splice (TaskList.siblingsOf tasks taskId target) k moved) = false).
    { destruct (existsb _ _) eqn:Ex; [|reflexivity].
      apply existsb_exists in Ex. destruct Ex as (x & Hx & Px).
      rewrite (Hn x Hx) in Px. discriminate. }
    now rewrite Hex.
Qed.

Lemma renumberWith_id placed t : Task.id (renumberWith placed target t) = Task.id t.
Proof. unfold renumberWith. now destruct (Js.findIndex _ placed). Qed.

Lemma orNull_Str x p : Js.orNull x = Js.Str p -> x = Js.Str p.
Proof.
  destruct x as [| |s]; simpl; try discriminate.
  destruct (String.eqb s ""); [discriminate|auto].
Qed.

(** The parent references after the move: the ones before it, and the one
    from the target to the moved task. *)
Lemma moved_childOf p c :
  childOf
    (map (renumberWith (Js.splice (TaskList.siblingsOf tasks taskId target) k moved) target)
       tasks) p c ->
  childOf tasks p c \/ (c = Task.id moved /\ target = Js.Str p).
Proof.
  intros (t' & Hin & Hid & Hp). apply in_map_iff in Hin. destruct Hin as (t & <- & Ht).
  rewrite renumberWith_id in Hid. rewrite (renumberWith_parent t Ht) in Hp.
  destruct (isPlacedIn _ t) eqn:E.
  - apply (isPlaced_In tasks taskId target moved k ids_unique moved_found t Ht) in E.
    apply splice_In in E. destruct E as [->|E]; [right; auto|].
    apply TaskListFacts.siblingsOf_In in E. destruct E as (_ & Ho & _).
    left. exists t. split; [exact Ht|]. split; [exact Hid|].
    apply orNull_Str. now rewrite Ho.
  - left. exists t. auto.
Qed.

(** A parent reference to a task other than the moved one, under a target
    that is an id, stays. *)
Lemma kept_childOf b p c :
  target = Js.Str b -> c <> Task.id moved ->
  childOf tasks p c ->
  childOf
    (map (renumberWith (Js.splice (TaskList.siblingsOf tasks taskId target) k moved) target)
       tasks) p c.
Proof.
  intros Hb Hc (t & Ht & Hid & Hp).
  exists (renumberWith (Js.splice (TaskList.siblingsOf tasks taskId target) k moved) target t).
  split; [now apply in_map|]. split; [now rewrite renumberWith_id|].
  rewrite (renumberWith_parent t Ht).
  destruct (isPlacedIn _ t) eqn:E; [|exact Hp].
  apply (isPlaced_In tasks taskId target moved k ids_unique moved_found t Ht) in E.
  apply splice_In in E. destruct E as [->|E]; [congruence|].
  apply TaskListFacts.siblingsOf_In in E. destruct E as (_ & Ho & _).
  rewrite Hp in Ho. rewrite <- Ho. simpl.
  destruct (String.eqb p "") eqn:Ep; [|reflexivity].
  rewrite Hb in Ho. simpl in Ho. rewrite Ep in Ho. discriminate.
Qed.

Lemma moved_new_childOf b :
  target = Js.Str b ->
  childOf
    (map (renumberWith (Js.splice (TaskList.siblingsOf tasks taskId target) k moved) target)
       tasks) b (Task.id moved).
Proof.
  intros Hb.
  assert (Hm : In moved tasks) by (apply find_some in moved_found; tauto).
  exists (renumberWith (Js.splice (TaskList.siblingsOf tasks taskId target) k moved) target
            moved).
  split; [now apply in_map|]. split; [now rewrite renumberWith_id|].
  rewrite (renumberWith_parent moved Hm).
  assert (E : isPlacedIn (Js.splice (TaskList.siblingsOf tasks taskId target) k moved) moved
              = true).
  { apply (isPlaced_In tasks taskId target moved k ids_unique moved_found moved Hm).
    apply splice_In. now left. }
  now rewrite E.
Qed.

(** Every chain of parent references after the move is a chain before it,
    or passes from the target to the moved task. *)
Lemma moved_descendantOf x y :
  descendantOf
    (map (renumberWith (Js.splice (TaskList.siblingsOf tasks taskId target) k moved) target)
       tasks) x y ->
  descendantOf tasks x y \/
  exists b, target = Js.Str b /\
            (x = b \/ descendantOf tasks x b) /\
            (y = Task.id moved \/ descendantOf tasks (Task.id moved) y).
Proof.
  induction 1 as [p c Hc|p c d Hc _ IH].
  - destruct (moved_childOf p c Hc) as [Ho|[-> Ht]].
    + left. now apply desc_child.
    + right. exists p. auto.
  - destruct (moved_childOf p c Hc) as [Ho|[-> Ht]].
    + destruct IH as [Hd|(b & Hb & Hx & Hy)].
      * left. eapply desc_step; eauto.
      * right. exists b. split; [exact Hb|]. split; [|exact Hy].
        right. destruct Hx as [->|Hx]; [now apply desc_child|].
        eapply desc_step; eauto.
    + right. exists p. split; [exact Ht|]. split; [now left|].
      destruct IH as [Hd|(b & Hb & Hx & Hy)]; [now right|exact Hy].
Qed.

Lemma move_keeps_acyclic :
  acyclic tasks ->
  (forall b, target = Js.Str b ->
     Task.id moved <> b /\ ~ descendantOf tasks (Task.id moved) b) ->
  acyclic
    (map (renumberWith (Js.splice (TaskList.siblingsOf tasks taskId target) k moved) target)
       tasks).
Proof.
  intros Hac Hok z Hz.
  destruct (moved_descendantOf z z Hz) as [Hd|(b & Hb & Hx & Hy)].
  - exact (Hac z Hd).
  - destruct (Hok b Hb) as [Hne Hnd].
    destruct Hx as [->|Hx], Hy as [Hy|Hy].
    + congruence.
    + exact (Hnd Hy).
    + subst z. exact (Hnd Hx).
    + apply Hnd. eapply descendantOf_trans; eauto.
Qed.

(** A chain that starts at the moved task survives the move. *)
Lemma kept_descendantOf b x y :
  acyclic tasks -> target = Js.Str b ->
  (x = Task.id moved \/ descendantOf tasks (Task.id moved) x) ->
  descendantOf tasks x y ->
  descendantOf
    (map (renumberWith (Js.splice (TaskList.siblingsOf tasks taskId target) k moved) target)
       tasks) x y.
Proof.
  intros Hac Hb Hx H. induction H as [p c Hc|p c d Hc Hd IH].
  - apply desc_child. apply (kept_childOf b); auto.
    intros ->. apply (Hac (Task.id moved)).
    destruct Hx as [->|Hx]; [now apply desc_child|].
    eapply descendantOf_snoc; eauto.
  - assert (Hpc : descendantOf tasks (Task.id moved) c).
    { destruct Hx as [->|Hx]; [now apply desc_child|].
      eapply descendantOf_snoc; eauto. }
    eapply desc_step.
    + apply (kept_childOf b); eauto.
      intros ->. exact (Hac _ Hpc).
    + apply IH. now right.
Qed.

Lemma move_makes_cycle b :
  acyclic tasks -> target = Js.Str b ->
  Task.id moved = b \/ descendantOf tasks (Task.id moved) b ->
  descendantOf
    (map (renumberWith (Js.splice (TaskList.siblingsOf tasks taskId target) k moved) target)
       tasks) (Task.id moved) (Task.id moved).
Proof.
  intros Hac Hb [E|Hd].
  - subst b. apply desc_child. exact (moved_new_childOf _ Hb).
  - eapply descendantOf_snoc; [|exact (moved_new_childOf _ Hb)].
    apply (kept_descendantOf b); auto.
Qed.

End MoveFacts.

Lemma gesture_dropInto_checked (ItemData : Type) (config : Sortable.Config ItemData)
    el moves el' prev next st0 st evs x data t td :
  Sortable.run config
    (Sortable.Start el :: sortEvents moves ++ [Sortable.Stop el' prev next]) st0
  = Some (st, evs) ->
  In (Sortable.OnDropInto x data t td) evs ->
  data = Sortable.getItemData config el' /\
  td = Sortable.getItemData config t /\
  Sortable.canDrop config el t (Sortable.getItemData config el) = Some true.
Proof.
  intros H Hin.
  change (Sortable.Start el :: sortEvents moves ++ [Sortable.Stop el' prev next])
    with ([Sortable.Start el] ++ sortEvents moves ++ [Sortable.Stop el' prev next]) in H.
  rewrite !run_app in H.
  set (s1 := {| Sortable._isActive := true; Sortable._hoverTargetEl := None;
                Sortable._draggedEl := Some el;
                Sortable._draggedData := Some (Sortable.getItemData config el) |}) in *.
  change (Sortable.run config [Sortable.Start el] st0)
    with (Some (s1, [Sortable.OnDragStart el (Sortable.getItemData config el)])) in H.
  cbv beta iota in H. rewrite run_app in H.
  assert (Hd : draggingOf config el s1) by (unfold draggingOf; simpl; auto).
  assert (Hh : hoverChecked config s1) by (intros u Hu; discriminate).
  destruct (Sortable.run config (sortEvents moves) s1) as [[s2 e2]|] eqn:R; [|discriminate].
  destruct (sortEvents_keep _ config el moves _ _ _ Hd Hh R) as ((Ha & Hel & Hdata) & Hh2 & ->).
  simpl in H. unfold Sortable.handleDragStop in H. rewrite Ha in H. simpl in H.
  destruct (Sortable._hoverTargetEl s2) as [u|] eqn:Et; inversion H; subst; clear H.
  - destruct Hin as [Hin|[Hin|[Hin|[]]]]; try discriminate.
    inversion Hin; subst. split; [reflexivity|]. split; [reflexivity|].
    destruct (Hh2 t Et) as (_ & d & dd & Hd' & Hdd' & _ & C).
    rewrite Hel in Hd'. rewrite Hdata in Hdd'. inversion Hd'; inversion Hdd'; subst.
    exact C.
  - destruct Hin as [Hin|[Hin|[Hin|[]]]]; discriminate.
Qed.

(** X21. A move of the task list keeps the collection free of cycles
    exactly when the new parent lies outside the moved task's own subtree.
    For a collection with unique ids and without a cycle, and a plan of
    [buildUpdatesArray] for the task [a] under [target] (reorder or
    drop-into, any neighbours): after [applyUpdatesLocally] there is no
    cycle of parents if and only if [target] is not the id of [a] itself
    nor of one of its descendants. *)
Theorem move_is_safe_iff_target_outside_subtree :
  forall tasks a target prevEl nextEl updates,
    NoDup (map Task.id tasks) ->
    TaskHelpers.acyclic tasks ->
    TaskList.buildUpdatesArray tasks (Js.Str a) target prevEl nextEl = Some updates ->
    (TaskHelpers.acyclic (TaskList.applyUpdatesLocally updates tasks) <->
     forall b, target = Js.Str b -> a <> b /\ ~ TaskHelpers.descendantOf tasks a b).
Proof.
  intros tasks a target prevEl nextEl updates Hnd Hac H.
  unfold TaskList.buildUpdatesArray in H.
  destruct (find (fun t => Js.eqb (Js.Str (Task.id t)) (Js.Str a)) tasks)
    as [moved|] eqn:Hf; [|discriminate].
  inversion H; subst updates; clear H.
  change (TaskHelpers.acyclic
            (TaskList.applyUpdatesLocally
               (Js.mapi (TaskListTerms.mkUpdate target)
                  (Js.splice (TaskList.siblingsOf tasks (Js.Str a) target)
                     (TaskList.insertIndexOf (TaskList.siblingsOf tasks (Js.Str a) target)
                        prevEl nextEl) moved)) tasks) <->
          (forall b, target = Js.Str b ->
             a <> b /\ ~ TaskHelpers.descendantOf tasks a b)).
  rewrite (applyUpdatesLocally_renumber tasks (Js.Str a) target moved _ Hnd Hf).
  assert (Hid : Task.id moved = a).
  { apply find_some in Hf. destruct Hf as [_ E]. apply Js_eqb_eq in E. now inversion E. }
  subst a. split.
  - intros Hac' b Hb. split.
    + intros E. apply (Hac' (Task.id moved)).
      apply (move_makes_cycle tasks _ target moved _ Hnd Hf b Hac Hb). now left.
    + intros D. apply (Hac' (Task.id moved)).
      apply (move_makes_cycle tasks _ target moved _ Hnd Hf b Hac Hb). now right.
  - intros Hok. now apply (move_keeps_acyclic tasks _ target moved _ Hnd Hf).
Qed.

Lemma move_is_safe_iff_target_outside_subtree_witness :
  exists updates,
    TaskList.buildUpdatesArray Sample.tasksABC (Js.Str "A") (Js.Str "B") None None
    = Some updates /\
    (TaskHelpers.acyclic (TaskList.applyUpdatesLocally updates Sample.tasksABC) <->
     forall b, Js.Str "B" = Js.Str b ->
       "A"%string <> b /\ ~ TaskHelpers.descendantOf Sample.tasksABC "A" b).
Proof.
  eexists. split; [reflexivity|].
  apply (move_is_safe_iff_target_outside_subtree Sample.tasksABC "A" (Js.Str "B") None None).
  - repeat constructor; simpl; intuition discriminate.
  - exact (acyclicb_sound Sample.tasksABC eq_refl).
  - reflexivity.
Defined.

(** X22. Nesting by drag and drop never makes a cycle in the task list.
    When a gesture on a collection with unique ids and without a cycle
    ends in [onDropInto], the plan [handleDropInto] builds for it leaves
    the collection without a cycle once it is applied: the hover target
    had to pass [canDrop], and [canDrop] had refused the dragged task
    itself and everything below it. *)
Theorem drop_into_never_makes_a_cycle :
  forall fuel tasks el moves prev next st evs x data t td updates,
    NoDup (map Task.id tasks) ->
    TaskHelpers.acyclic tasks ->
    Sortable.run (Sortable.makeConfig (TaskList.sortableOptions fuel tasks))
      (Sortable.Start el :: sortEvents moves ++ [Sortable.Stop el prev next])
      Sortable.initialState = Some (st, evs) ->
    In (Sortable.OnDropInto x data t td) evs ->
    TaskList.buildUpdatesArray tasks (TaskList.id data) (TaskList.id td) None None
    = Some updates ->
    TaskHelpers.acyclic (TaskList.applyUpdatesLocally updates tasks).
Proof.
  intros fuel tasks el moves prev next st evs x data t td updates Hnd Hac Hrun Hin H.
  destruct (gesture_dropInto_checked _ _ _ _ _ _ _ _ _ _ _ _ _ _ Hrun Hin)
    as (-> & -> & Hc).
  simpl in Hc, H.
  unfold TaskList.buildUpdatesArray in H.
  destruct (find (fun u => Js.eqb (Js.Str (Task.id u))
                              (Dataset.taskId (Element.dataset el))) tasks)
    as [moved|] eqn:Hf; [|discriminate].
  inversion H; subst updates; clear H.
  change (TaskHelpers.acyclic
            (TaskList.applyUpdatesLocally
               (Js.mapi (TaskListTerms.mkUpdate (Dataset.taskId (Element.dataset t)))
                  (Js.splice
                     (TaskList.siblingsOf tasks (Dataset.taskId (Element.dataset el))
                        (Dataset.taskId (Element.dataset t)))
                     (TaskList.insertIndexOf
                        (TaskList.siblingsOf tasks (Dataset.taskId (Element.dataset el))
                           (Dataset.taskId (Element.dataset t))) None None) moved))
               tasks)).
  rewrite (applyUpdatesLocally_renumber tasks _ _ moved _ Hnd Hf).
  apply (move_keeps_acyclic tasks _ _ moved _ Hnd Hf Hac).
  intros b Hb.
  assert (Hid : Dataset.taskId (Element.dataset el) = Js.Str (Task.id moved)).
  { apply find_some in Hf. destruct Hf as [_ E]. apply Js_eqb_eq in E. now symmetry. }
  split.
  - intros E.
    apply (TaskList_canDrop_rejects tasks fuel el t (TaskList.getItemData el)
             (Task.id moved) b Hid Hb); [now left|exact Hc].
  - intros D.
    apply (TaskList_canDrop_rejects tasks fuel el t (TaskList.getItemData el)
             (Task.id moved) b Hid Hb); [now right|exact Hc].
Qed.

Lemma drop_into_never_makes_a_cycle_witness :
  exists updates,
    TaskList.buildUpdatesArray Sample_tasksDT
      (TaskList.id (TaskList.getItemData Sample_dragged))
      (TaskList.id (TaskList.getItemData Sample_target)) None None = Some updates /\
    TaskHelpers.acyclic (TaskList.applyUpdatesLocally updates Sample_tasksDT).
Proof.
  eexists. split; [reflexivity|].
  refine (drop_into_never_makes_a_cycle 3 Sample_tasksDT Sample_dragged
            [({| Sortable.pageX := 100; Sortable.pageY := 50 |},
              [Sample_dragged; Sample_target])]
            None None Sortable.initialState _ Sample_dragged
            (TaskList.getItemData Sample_dragged) Sample_target
            (TaskList.getItemData Sample_target) _ _ _ eq_refl _ eq_refl).
  - repeat constructor; simpl; intuition discriminate.
  - exact (acyclicb_sound Sample_tasksDT eq_refl).
  - right. right. left. reflexivity.
Defined.

(* ================================================================== *)
(** * Further properties: descendants are listed once *)
(* ================================================================== *)

Section LoopNoDup.
Variable g : Task.t -> option (list string).

Lemma loop_NoDup children : forall acc r,
  loop g children (Some acc) = Some r ->
  NoDup acc ->
  NoDup (map Task.id children) ->
  (forall c sub, In c children -> g c = Some sub -> NoDup (Task.id c :: sub)) ->
  (forall c sub d, In c children -> g c = Some sub ->
     In d (Task.id c :: sub) -> ~ In d acc) ->
  (forall c c' sub sub' d, In c children -> In c' children ->
     Task.id c <> Task.id c' -> g c = Some sub -> g c' = Some sub' ->
     In d (Task.id c :: sub) -> ~ In d (Task.id c' :: sub')) ->
  NoDup r.
Proof.
  induction children as [|x rest IH]; intros acc r H Hacc Hids Hblock Hfresh Hpair.
  - inversion H; subst. exact Hacc.
  - rewrite loop_cons in H.
    destruct (g x) as [sub|] eqn:Gx; [|now rewrite loop_None in H].
    inversion Hids as [|? ? Hx Hrest]; subst.
    apply (IH _ _ H).
    + apply NoDup_app; [exact Hacc|apply (Hblock x sub); [now left|exact Gx]|].
      intros d Hd Hd'. apply (Hfresh x sub d); auto. now left.
    + exact Hrest.
    + intros c s Hc. apply Hblock. now right.
    + intros c s d Hc Gc Hd Hin. apply in_app_or in Hin. destruct Hin as [Hin|Hin].
      * apply (Hfresh c s d); auto. now right.
      * apply (Hpair c x s sub d); auto.
        -- now right.
        -- now left.
        -- intros E. apply Hx. rewrite <- E. now apply in_map.
    + intros c c' s s' d Hc Hc'. apply Hpair; now right.
Qed.

End LoopNoDup.

Section DescendantsOnce.
Import TaskHelpers.
Variable tasks : list Task.t.
Hypothesis Hnodup : NoDup (map Task.id tasks).
Hypothesis Hacyclic : acyclic tasks.

Lemma childOf_unique p q c : childOf tasks p c -> childOf tasks q c -> p = q.
Proof.
  intros (t & Ht & Hid & Hp) (u & Hu & Hid' & Hq).
  assert (t = u) by (apply (same_id_same_task tasks Hnodup); congruence).
  subst u. congruence.
Qed.

(** The ancestors of an id form a chain. *)
Lemma descendantOf_linear a x :
  descendantOf tasks a x ->
  forall b, descendantOf tasks b x ->
    a = b \/ descendantOf tasks a b \/ descendantOf tasks b a.
Proof.
  induction 1 as [p c Hc|p c d Hc _ IH]; intros b Hb.
  - destruct (descendantOf_last tasks _ _ Hb) as [Hc'|(q & Hq & Hc')].
    + left. eapply childOf_unique; eauto.
    + right; right. assert (q = p) by (eapply childOf_unique; eauto). now subst.
  - destruct (IH b Hb) as [->|[H|H]].
    + right; left. now apply desc_child.
    + right; left. eapply desc_step; eauto.
    + destruct (descendantOf_last tasks _ _ H) as [Hc'|(q & Hq & Hc')].
      * left. eapply childOf_unique; eauto.
      * right; right. assert (q = p) by (eapply childOf_unique; eauto). now subst.
Qed.

(** A task is not below a task that has the same parent. *)
Lemma sibling_not_below taskId c c' :
  In c tasks -> In c' tasks ->
  Task.parentTaskId c = taskId -> Task.parentTaskId c' = taskId ->
  ~ descendantOf tasks (Task.id c') (Task.id c).
Proof.
  intros Hc Hc' Hp Hp' D.
  assert (Hq : exists q, childOf tasks q (Task.id c) /\
                         (q = Task.id c' \/ descendantOf tasks (Task.id c') q)).
  { destruct (descendantOf_last tasks _ _ D) as [H|(q & Hq & H)]; eauto. }
  destruct Hq as (q & (t & Ht & Hid & Hpt) & Hor).
  assert (t = c) by (apply (same_id_same_task tasks Hnodup); auto). subst t.
  assert (Hcq : childOf tasks q (Task.id c')).
  { exists c'. split; [exact Hc'|]. split; [reflexivity|]. congruence. }
  apply (Hacyclic (Task.id c')). destruct Hor as [->|Hd].
  - now apply desc_child.
  - eapply descendantOf_snoc; eauto.
Qed.

Lemma getTaskDescendants_NoDup fuel : forall taskId l,
  getTaskDescendants fuel tasks taskId = Some l -> NoDup l.
Proof.
  induction fuel as [|f IH]; intros taskId l H; [discriminate|].
  rewrite getTaskDescendants_S in H.
  assert (Hblock : forall c sub d,
            getTaskDescendants f tasks (Js.Str (Task.id c)) = Some sub ->
            In d (Task.id c :: sub) ->
            d = Task.id c \/ descendantOf tasks (Task.id c) d).
  { intros c sub d G [<-|Hd]; [now left|]. right.
    apply below_Str_descendantOf. now apply (getTaskDescendants_spec tasks _ _ _ G). }
  apply (loop_NoDup _ _ _ _ H).
  - constructor.
  - unfold childrenOf. now apply NoDup_map_filter.
  - intros c sub Hc G. constructor; [|now apply (IH _ _ G)].
    intros Hin. apply (Hacyclic (Task.id c)).
    apply below_Str_descendantOf. now apply (getTaskDescendants_spec tasks _ _ _ G).
  - intros c sub d _ _ _ [].
  - intros c c' sub sub' d Hc Hc' Hne G G' Hd Hd'.
    apply childrenOf_In in Hc, Hc'. destruct Hc as [Hc Hp], Hc' as [Hc' Hp'].
    destruct (Hblock _ _ _ G Hd) as [->|D]; destruct (Hblock _ _ _ G' Hd') as [E|D'].
    + congruence.
    + exact (sibling_not_below taskId c c' Hc Hc' Hp Hp' D').
    + subst d. exact (sibling_not_below taskId c' c Hc' Hc Hp' Hp D).
    + destruct (descendantOf_linear _ _ D _ D') as [E|[H1|H1]].
      * congruence.
      * exact (sibling_not_below taskId c' c Hc' Hc Hp' Hp H1).
      * exact (sibling_not_below taskId c c' Hc Hc' Hp Hp' H1).
Qed.

End DescendantsOnce.

(** X23. [getTaskDescendants] and [cascadeCompletion] name no task twice.
    On a collection with unique ids and without a cycle of parents, the
    list of descendants has no repetition, and neither has the list of ids
    [cascadeCompletion] returns: completing a task writes each task of its
    subtree once. *)
Theorem cascade_names_no_task_twice :
  forall tasks taskId fuel completed ids,
    NoDup (map Task.id tasks) ->
    TaskHelpers.acyclic tasks ->
    TaskHelpers.cascadeCompletion fuel taskId tasks completed = Some ids ->
    NoDup ids /\
    forall l, TaskHelpers.getTaskDescendants fuel tasks taskId = Some l -> NoDup l.
Proof.
  intros tasks taskId fuel completed ids Hnd Hac H. split.
  - unfold TaskHelpers.cascadeCompletion in H. destruct completed.
    + destruct (TaskHelpers.getTaskDescendants fuel tasks taskId) as [l|] eqn:G;
        [|discriminate].
      inversion H; subst ids; clear H. simpl. constructor.
      * intros Hin. apply in_map_iff in Hin. destruct Hin as (d & <- & Hd).
        apply (Hac d). apply below_Str_descendantOf.
        now apply (getTaskDescendants_spec tasks _ _ _ G).
      * pose proof (getTaskDescendants_NoDup tasks Hnd Hac fuel _ _ G) as Hl.
        clear G. induction Hl as [|x r Hx _ IH]; simpl; constructor; auto.
        intros Hin. apply in_map_iff in Hin. destruct Hin as (y & E & Hy).
        inversion E; subst. contradiction.
    + inversion H; subst. repeat constructor. intros [].
  - intros l G. exact (getTaskDescendants_NoDup tasks Hnd Hac fuel _ _ G).
Qed.

Lemma cascade_names_no_task_twice_witness :
  exists ids,
    TaskHelpers.cascadeCompletion 5 (Js.Str "P") Sample.tasksABC true = Some ids /\
    NoDup ids.
Proof.
  eexists. split; [reflexivity|].
  refine (proj1 (cascade_names_no_task_twice Sample.tasksABC (Js.Str "P") 5 true _
                   _ (acyclicb_sound Sample.tasksABC eq_refl) eq_refl)).
  repeat constructor; simpl; intuition discriminate.
Defined.
